(** * Athena: the 3D CTU + constrained-transport integrator

    A shallow embedding of [src/integrators/integrate_3d_ctu.c].

    - The C type [Real] is read as the real numbers: every statement below is
      one of exact real arithmetic, not of rounded arithmetic.
    - A C array [a[k][j][i]] is a total function of three integer indices; a
      store [a[k][j][i] = v] is a pointwise function update.  Indices are
      unbounded integers.
    - A C loop [for (i=lo; i<=hi; i++)] is [for_loop lo hi], which runs its body
      on lo, lo+1, ..., hi in this order.
    - The conditional-compilation switches (MHD, BAROTROPIC, ...) are the
      boolean fields of [Config]; a function pointer that may be NULL is an
      [option].
    - Routines of other files (cc_pos, cfast, the Riemann solver, the
      remapping of Ey, ...) are fields of the records [Extern] and [Solver].

    What is embedded, in the order of the file:
    - Step 10b, the full-step CT update of the face fields;
    - integrate_emf1_corner, integrate_emf2_corner, integrate_emf3_corner;
    - Steps 10 to 12, all the stores that integrate_3d_ctu makes through
      [pG].  Steps 1 to 9 store to the module-level scratch arrays only; the
      arrays they leave behind are the record [Scratch];
    - the source terms that Steps 1b-1c, 2b-2c and 3b-3c add to the L/R
      states of a pencil;
    - Step 9, the H-correction and the second Riemann sweep;
    - integrate_init_3d and integrate_destruct_3d;
    - Steps 1 to 9 loop by loop, and the whole function integrate_3d_ctu
      with the module-level variables it leaves;
    - problem() of [src/prob/AcousWave.c]. *)

From Stdlib Require Import Reals ZArith Lra Lia List String Bool.
From Stdlib Require Import FunctionalExtensionality.
Import ListNotations.

Open Scope Z_scope.
Open Scope R_scope.

(** The C type [Real] (a double in the source). *)
Abbreviation Real := R.

(* ------------------------------------------------------------------ *)
(** ** Arrays and loops *)

Definition Arr1 (A : Type) := Z -> A.
Definition Arr3 (A : Type) := Z -> Z -> Z -> A.

Definition upd1 {A} (a : Arr1 A) (i : Z) (v : A) : Arr1 A :=
  fun i' => if (i' =? i)%Z then v else a i'.

Definition upd3 {A} (a : Arr3 A) (k j i : Z) (v : A) : Arr3 A :=
  fun k' j' i' =>
    if ((k' =? k) && (j' =? j) && (i' =? i))%Z then v else a k' j' i'.

(** [for_n n i body] runs [body i], [body (i+1)], ... for [n] iterations. *)
Fixpoint for_n {S : Type} (n : nat) (i : Z) (body : Z -> S -> S) (s : S) : S :=
  match n with
  | O => s
  | Datatypes.S m => for_n m (i + 1)%Z body (body i s)
  end.

(** [for (i = lo; i <= hi; i++) body] *)
Definition for_loop {S : Type} (lo hi : Z) (body : Z -> S -> S) (s : S) : S :=
  for_n (Z.to_nat (hi + 1 - lo)) lo body s.

(** Membership in the closed range of a loop, and of a loop nest. *)
Definition in_range (lo hi x : Z) : bool := ((lo <=? x) && (x <=? hi))%Z.

Definition in_box (klo khi jlo jhi ilo ihi k j i : Z) : bool :=
  in_range klo khi k && in_range jlo jhi j && in_range ilo ihi i.

(** The regular triple nest
    [for k for j for i  a[k][j][i] = f k j i (a[k][j][i])]. *)
Definition cellwise {A} (klo khi jlo jhi ilo ihi : Z)
    (f : Z -> Z -> Z -> A -> A) (a : Arr3 A) : Arr3 A :=
  for_loop klo khi (fun k =>
    for_loop jlo jhi (fun j =>
      for_loop ilo ihi (fun i a => upd3 a k j i (f k j i (a k j i))))) a.

(** [for (n=0; n<N; n++) s[n] = f n (s[n])] over the passive scalars. *)
Fixpoint for_scal (N : nat) (f : nat -> Real -> Real) (s : nat -> Real)
  : nat -> Real :=
  match N with
  | O => s
  | Datatypes.S m =>
      let s' := for_scal m f s in
      fun n => if Nat.eqb n m then f m (s' m) else s' n
  end.

(* ------------------------------------------------------------------ *)
(** ** Data model *)

(** The compile-time switches of the source. *)
Record Config := mkConfig {
  MHD : bool;
  BAROTROPIC : bool;
  SELF_GRAVITY : bool;
  H_CORRECTION : bool;
  SHEARING_BOX : bool;
  FARGO : bool;
  NSCALARS : nat
}.

(** Modelled from the spec: the cell state [Gas] of athena.h (density, three
    momenta, total energy, cell-centred field, passive scalars). *)
Module Gas.
Record t := mk {
  d : Real; M1 : Real; M2 : Real; M3 : Real; E : Real;
  B1c : Real; B2c : Real; B3c : Real;
  s : nat -> Real
}.
Definition set_d (u : t) (v : Real) : t :=
  mk v (M1 u) (M2 u) (M3 u) (E u) (B1c u) (B2c u) (B3c u) (s u).
Definition set_M1 (u : t) (v : Real) : t :=
  mk (d u) v (M2 u) (M3 u) (E u) (B1c u) (B2c u) (B3c u) (s u).
Definition set_M2 (u : t) (v : Real) : t :=
  mk (d u) (M1 u) v (M3 u) (E u) (B1c u) (B2c u) (B3c u) (s u).
Definition set_M3 (u : t) (v : Real) : t :=
  mk (d u) (M1 u) (M2 u) v (E u) (B1c u) (B2c u) (B3c u) (s u).
Definition set_E (u : t) (v : Real) : t :=
  mk (d u) (M1 u) (M2 u) (M3 u) v (B1c u) (B2c u) (B3c u) (s u).
Definition set_B1c (u : t) (v : Real) : t :=
  mk (d u) (M1 u) (M2 u) (M3 u) (E u) v (B2c u) (B3c u) (s u).
Definition set_B2c (u : t) (v : Real) : t :=
  mk (d u) (M1 u) (M2 u) (M3 u) (E u) (B1c u) v (B3c u) (s u).
Definition set_B3c (u : t) (v : Real) : t :=
  mk (d u) (M1 u) (M2 u) (M3 u) (E u) (B1c u) (B2c u) v (s u).
Definition set_s (u : t) (v : nat -> Real) : t :=
  mk (d u) (M1 u) (M2 u) (M3 u) (E u) (B1c u) (B2c u) (B3c u) v.
End Gas.

(** Modelled from the spec: the 1D conserved state [Cons1D] of athena.h. *)
Module Cons1D.
Record t := mk {
  d : Real; Mx : Real; My : Real; Mz : Real; E : Real;
  By : Real; Bz : Real;
  s : nat -> Real
}.
End Cons1D.

(** Modelled from the spec: the 1D primitive state [Prim1D] of athena.h. *)
Module Prim1D.
Record t := mk {
  d : Real; Vx : Real; Vy : Real; Vz : Real; P : Real;
  By : Real; Bz : Real;
  s : nat -> Real
}.
Definition set_Vx (w : t) (v : Real) : t :=
  mk (d w) v (Vy w) (Vz w) (P w) (By w) (Bz w) (s w).
Definition set_Vy (w : t) (v : Real) : t :=
  mk (d w) (Vx w) v (Vz w) (P w) (By w) (Bz w) (s w).
Definition set_P (w : t) (v : Real) : t :=
  mk (d w) (Vx w) (Vy w) (Vz w) v (By w) (Bz w) (s w).
Definition set_By (w : t) (v : Real) : t :=
  mk (d w) (Vx w) (Vy w) (Vz w) (P w) v (Bz w) (s w).
Definition set_Bz (w : t) (v : Real) : t :=
  mk (d w) (Vx w) (Vy w) (Vz w) (P w) (By w) v (s w).
End Prim1D.

(** The global parameters (globals.h) the integrator reads.  A function
    pointer that may be NULL is an [option]. *)
Record Globals := mkGlobals {
  nghost : Z;
  Omega : Real;
  Gamma_1 : Real;
  four_pi_G : Real;
  grav_mean_rho : Real;
  StaticGravPot : option (Real -> Real -> Real -> Real);
  CoolingFunc : option (Real -> Real -> Real -> Real)
}.

(** Modelled from the spec: the members of [Grid] (athena.h) that
    integrate_3d_ctu reads or writes.  [is_] is the member [is]. *)
Record Grid := mkGrid {
  U : Arr3 Gas.t;
  B1i : Arr3 Real; B2i : Arr3 Real; B3i : Arr3 Real;
  Phi : Arr3 Real;
  x1MassFlux : Arr3 Real; x2MassFlux : Arr3 Real; x3MassFlux : Arr3 Real;
  dt : Real; time : Real;
  dx1 : Real; dx2 : Real; dx3 : Real;
  is_ : Z; ie : Z; js : Z; je : Z; ks : Z; ke : Z
}.

Arguments U g (k j i)%_Z.
Arguments B1i g (k j i)%_Z.
Arguments B2i g (k j i)%_Z.
Arguments B3i g (k j i)%_Z.
Arguments Phi g (k j i)%_Z.

Definition set_U (g : Grid) (u : Arr3 Gas.t) : Grid :=
  mkGrid u (B1i g) (B2i g) (B3i g) (Phi g)
         (x1MassFlux g) (x2MassFlux g) (x3MassFlux g)
         (dt g) (time g) (dx1 g) (dx2 g) (dx3 g)
         (is_ g) (ie g) (js g) (je g) (ks g) (ke g).

Definition set_B1i (g : Grid) (b : Arr3 Real) : Grid :=
  mkGrid (U g) b (B2i g) (B3i g) (Phi g)
         (x1MassFlux g) (x2MassFlux g) (x3MassFlux g)
         (dt g) (time g) (dx1 g) (dx2 g) (dx3 g)
         (is_ g) (ie g) (js g) (je g) (ks g) (ke g).

Definition set_B2i (g : Grid) (b : Arr3 Real) : Grid :=
  mkGrid (U g) (B1i g) b (B3i g) (Phi g)
         (x1MassFlux g) (x2MassFlux g) (x3MassFlux g)
         (dt g) (time g) (dx1 g) (dx2 g) (dx3 g)
         (is_ g) (ie g) (js g) (je g) (ks g) (ke g).

Definition set_B3i (g : Grid) (b : Arr3 Real) : Grid :=
  mkGrid (U g) (B1i g) (B2i g) b (Phi g)
         (x1MassFlux g) (x2MassFlux g) (x3MassFlux g)
         (dt g) (time g) (dx1 g) (dx2 g) (dx3 g)
         (is_ g) (ie g) (js g) (je g) (ks g) (ke g).

Definition set_MassFlux (g : Grid) (m1 m2 m3 : Arr3 Real) : Grid :=
  mkGrid (U g) (B1i g) (B2i g) (B3i g) (Phi g) m1 m2 m3
         (dt g) (time g) (dx1 g) (dx2 g) (dx3 g)
         (is_ g) (ie g) (js g) (je g) (ks g) (ke g).

(** [pG->B1i[k][j][i] += v], and the same for the other two face fields. *)
Definition add_B1i (g : Grid) (k j i : Z) (v : Real) : Grid :=
  set_B1i g (upd3 (B1i g) k j i (B1i g k j i + v)).
Definition add_B2i (g : Grid) (k j i : Z) (v : Real) : Grid :=
  set_B2i g (upd3 (B2i g) k j i (B2i g k j i + v)).
Definition add_B3i (g : Grid) (k j i : Z) (v : Real) : Grid :=
  set_B3i g (upd3 (B3i g) k j i (B3i g k j i + v)).

(** The interior (live) cells of the grid. *)
Definition interior (g : Grid) (k j i : Z) : Prop :=
  (ks g <= k <= ke g)%Z /\ (js g <= j <= je g)%Z /\ (is_ g <= i <= ie g)%Z.

(** The discrete divergence of the face-centred field in cell (k,j,i). *)
Definition divB (g : Grid) (k j i : Z) : Real :=
  (B1i g k j (i+1)%Z - B1i g k j i) / dx1 g +
  (B2i g k (j+1)%Z i - B2i g k j i) / dx2 g +
  (B3i g (k+1)%Z j i - B3i g k j i) / dx3 g.

(* ------------------------------------------------------------------ *)
(** ** Step 10b: full-step constrained-transport update of B1i, B2i, B3i *)

Section Step10b.
Variable pG : Grid.
Variables emf1 emf2 emf3 : Arr3 Real.

Let dtodx1 := dt pG / dx1 pG.
Let dtodx2 := dt pG / dx2 pG.
Let dtodx3 := dt pG / dx3 pG.

Definition ct_dB1 (k j i : Z) : Real :=
  dtodx3 * (emf2 (k+1)%Z j i - emf2 k j i) -
  dtodx2 * (emf3 k (j+1)%Z i - emf3 k j i).
Definition ct_dB2 (k j i : Z) : Real :=
  dtodx1 * (emf3 k j (i+1)%Z - emf3 k j i) -
  dtodx3 * (emf1 (k+1)%Z j i - emf1 k j i).
Definition ct_dB3 (k j i : Z) : Real :=
  dtodx2 * (emf1 k (j+1)%Z i - emf1 k j i) -
  dtodx1 * (emf2 k j (i+1)%Z - emf2 k j i).

Definition step10b : Grid :=
  let is_ := is_ pG in let ie := ie pG in
  let js := js pG in let je := je pG in
  let ks := ks pG in let ke := ke pG in
  let g1 :=
    for_loop ks ke (fun k g =>
      let g :=
        for_loop js je (fun j g =>
          let g :=
            for_loop is_ ie (fun i g =>
              let g := add_B1i g k j i (ct_dB1 k j i) in
              let g := add_B2i g k j i (ct_dB2 k j i) in
              add_B3i g k j i (ct_dB3 k j i)) g in
          add_B1i g k j (ie+1)%Z (ct_dB1 k j (ie+1)%Z)) g in
      for_loop is_ ie (fun i g =>
        add_B2i g k (je+1)%Z i (ct_dB2 k (je+1)%Z i)) g) pG in
  for_loop js je (fun j g =>
    for_loop is_ ie (fun i g =>
      add_B3i g (ke+1)%Z j i (ct_dB3 (ke+1)%Z j i)) g) g1.
End Step10b.

(** The faces that Step 10b stores to: the interior faces of each cell row,
    and the one extra face that closes the row. *)
Definition written_B1i (g : Grid) (k j i : Z) : bool :=
  in_range (ks g) (ke g) k && in_range (js g) (je g) j &&
  (in_range (is_ g) (ie g) i || (i =? ie g + 1)%Z).
Definition written_B2i (g : Grid) (k j i : Z) : bool :=
  in_range (ks g) (ke g) k && (in_range (js g) (je g) j || (j =? je g + 1)%Z) &&
  in_range (is_ g) (ie g) i.
Definition written_B3i (g : Grid) (k j i : Z) : bool :=
  (in_range (ks g) (ke g) k || (k =? ke g + 1)%Z) && in_range (js g) (je g) j &&
  in_range (is_ g) (ie g) i.

(* ------------------------------------------------------------------ *)
(** ** integrate_emf1_corner, integrate_emf2_corner, integrate_emf3_corner *)

Section Corner.
Variables x1Flux x2Flux x3Flux : Arr3 Cons1D.t.
Variables emf1_cc emf2_cc emf3_cc : Arr3 Real.

Definition emf1_corner_value (k j i : Z) : Real :=
  let de1_l3 :=
    if Rgt_dec (Cons1D.d (x2Flux (k-1)%Z j i)) 0 then
      Cons1D.Bz (x3Flux k (j-1)%Z i) - emf1_cc (k-1)%Z (j-1)%Z i
    else if Rlt_dec (Cons1D.d (x2Flux (k-1)%Z j i)) 0 then
      Cons1D.Bz (x3Flux k j i) - emf1_cc (k-1)%Z j i
    else
      0.5*(Cons1D.Bz (x3Flux k (j-1)%Z i) - emf1_cc (k-1)%Z (j-1)%Z i +
           Cons1D.Bz (x3Flux k j i) - emf1_cc (k-1)%Z j i) in
  let de1_r3 :=
    if Rgt_dec (Cons1D.d (x2Flux k j i)) 0 then
      Cons1D.Bz (x3Flux k (j-1)%Z i) - emf1_cc k (j-1)%Z i
    else if Rlt_dec (Cons1D.d (x2Flux k j i)) 0 then
      Cons1D.Bz (x3Flux k j i) - emf1_cc k j i
    else
      0.5*(Cons1D.Bz (x3Flux k (j-1)%Z i) - emf1_cc k (j-1)%Z i +
           Cons1D.Bz (x3Flux k j i) - emf1_cc k j i) in
  let de1_l2 :=
    if Rgt_dec (Cons1D.d (x3Flux k (j-1)%Z i)) 0 then
      - Cons1D.By (x2Flux (k-1)%Z j i) - emf1_cc (k-1)%Z (j-1)%Z i
    else if Rlt_dec (Cons1D.d (x3Flux k (j-1)%Z i)) 0 then
      - Cons1D.By (x2Flux k j i) - emf1_cc k (j-1)%Z i
    else
      0.5*(- Cons1D.By (x2Flux (k-1)%Z j i) - emf1_cc (k-1)%Z (j-1)%Z i
           - Cons1D.By (x2Flux k j i) - emf1_cc k (j-1)%Z i) in
  let de1_r2 :=
    if Rgt_dec (Cons1D.d (x3Flux k j i)) 0 then
      - Cons1D.By (x2Flux (k-1)%Z j i) - emf1_cc (k-1)%Z j i
    else if Rlt_dec (Cons1D.d (x3Flux k j i)) 0 then
      - Cons1D.By (x2Flux k j i) - emf1_cc k j i
    else
      0.5*(- Cons1D.By (x2Flux (k-1)%Z j i) - emf1_cc (k-1)%Z j i
           - Cons1D.By (x2Flux k j i) - emf1_cc k j i) in
  0.25*(  Cons1D.Bz (x3Flux k j i) + Cons1D.Bz (x3Flux k (j-1)%Z i)
        - Cons1D.By (x2Flux k j i) - Cons1D.By (x2Flux (k-1)%Z j i)
        + de1_l2 + de1_r2 + de1_l3 + de1_r3).

Definition integrate_emf1_corner (pG : Grid) (emf1 : Arr3 Real) : Arr3 Real :=
  cellwise (ks pG - 1) (ke pG + 2) (js pG - 1) (je pG + 2)
           (is_ pG - 2) (ie pG + 2)
           (fun k j i _ => emf1_corner_value k j i) emf1.

Definition emf2_corner_value (k j i : Z) : Real :=
  let de2_l3 :=
    if Rgt_dec (Cons1D.d (x1Flux (k-1)%Z j i)) 0 then
      - Cons1D.By (x3Flux k j (i-1)%Z) - emf2_cc (k-1)%Z j (i-1)%Z
    else if Rlt_dec (Cons1D.d (x1Flux (k-1)%Z j i)) 0 then
      - Cons1D.By (x3Flux k j i) - emf2_cc (k-1)%Z j i
    else
      0.5*(- Cons1D.By (x3Flux k j (i-1)%Z) - emf2_cc (k-1)%Z j (i-1)%Z
           - Cons1D.By (x3Flux k j i) - emf2_cc (k-1)%Z j i) in
  let de2_r3 :=
    if Rgt_dec (Cons1D.d (x1Flux k j i)) 0 then
      - Cons1D.By (x3Flux k j (i-1)%Z) - emf2_cc k j (i-1)%Z
    else if Rlt_dec (Cons1D.d (x1Flux k j i)) 0 then
      - Cons1D.By (x3Flux k j i) - emf2_cc k j i
    else
      0.5*(- Cons1D.By (x3Flux k j (i-1)%Z) - emf2_cc k j (i-1)%Z
           - Cons1D.By (x3Flux k j i) - emf2_cc k j i) in
  let de2_l1 :=
    if Rgt_dec (Cons1D.d (x3Flux k j (i-1)%Z)) 0 then
      Cons1D.Bz (x1Flux (k-1)%Z j i) - emf2_cc (k-1)%Z j (i-1)%Z
    else if Rlt_dec (Cons1D.d (x3Flux k j (i-1)%Z)) 0 then
      Cons1D.Bz (x1Flux k j i) - emf2_cc k j (i-1)%Z
    else
      0.5*(Cons1D.Bz (x1Flux (k-1)%Z j i) - emf2_cc (k-1)%Z j (i-1)%Z +
           Cons1D.Bz (x1Flux k j i) - emf2_cc k j (i-1)%Z) in
  let de2_r1 :=
    if Rgt_dec (Cons1D.d (x3Flux k j i)) 0 then
      Cons1D.Bz (x1Flux (k-1)%Z j i) - emf2_cc (k-1)%Z j i
    else if Rlt_dec (Cons1D.d (x3Flux k j i)) 0 then
      Cons1D.Bz (x1Flux k j i) - emf2_cc k j i
    else
      0.5*(Cons1D.Bz (x1Flux (k-1)%Z j i) - emf2_cc (k-1)%Z j i +
           Cons1D.Bz (x1Flux k j i) - emf2_cc k j i) in
  0.25*(  Cons1D.Bz (x1Flux k j i) + Cons1D.Bz (x1Flux (k-1)%Z j i)
        - Cons1D.By (x3Flux k j i) - Cons1D.By (x3Flux k j (i-1)%Z)
        + de2_l1 + de2_r1 + de2_l3 + de2_r3).

Definition integrate_emf2_corner (pG : Grid) (emf2 : Arr3 Real) : Arr3 Real :=
  cellwise (ks pG - 1) (ke pG + 2) (js pG - 2) (je pG + 2)
           (is_ pG - 1) (ie pG + 2)
           (fun k j i _ => emf2_corner_value k j i) emf2.

Definition emf3_corner_value (k j i : Z) : Real :=
  let de3_l2 :=
    if Rgt_dec (Cons1D.d (x1Flux k (j-1)%Z i)) 0 then
      Cons1D.Bz (x2Flux k j (i-1)%Z) - emf3_cc k (j-1)%Z (i-1)%Z
    else if Rlt_dec (Cons1D.d (x1Flux k (j-1)%Z i)) 0 then
      Cons1D.Bz (x2Flux k j i) - emf3_cc k (j-1)%Z i
    else
      0.5*(Cons1D.Bz (x2Flux k j (i-1)%Z) - emf3_cc k (j-1)%Z (i-1)%Z +
           Cons1D.Bz (x2Flux k j i) - emf3_cc k (j-1)%Z i) in
  let de3_r2 :=
    if Rgt_dec (Cons1D.d (x1Flux k j i)) 0 then
      Cons1D.Bz (x2Flux k j (i-1)%Z) - emf3_cc k j (i-1)%Z
    else if Rlt_dec (Cons1D.d (x1Flux k j i)) 0 then
      Cons1D.Bz (x2Flux k j i) - emf3_cc k j i
    else
      0.5*(Cons1D.Bz (x2Flux k j (i-1)%Z) - emf3_cc k j (i-1)%Z +
           Cons1D.Bz (x2Flux k j i) - emf3_cc k j i) in
  let de3_l1 :=
    if Rgt_dec (Cons1D.d (x2Flux k j (i-1)%Z)) 0 then
      - Cons1D.By (x1Flux k (j-1)%Z i) - emf3_cc k (j-1)%Z (i-1)%Z
    else if Rlt_dec (Cons1D.d (x2Flux k j (i-1)%Z)) 0 then
      - Cons1D.By (x1Flux k j i) - emf3_cc k j (i-1)%Z
    else
      0.5*(- Cons1D.By (x1Flux k (j-1)%Z i) - emf3_cc k (j-1)%Z (i-1)%Z
           - Cons1D.By (x1Flux k j i) - emf3_cc k j (i-1)%Z) in
  let de3_r1 :=
    if Rgt_dec (Cons1D.d (x2Flux k j i)) 0 then
      - Cons1D.By (x1Flux k (j-1)%Z i) - emf3_cc k (j-1)%Z i
    else if Rlt_dec (Cons1D.d (x2Flux k j i)) 0 then
      - Cons1D.By (x1Flux k j i) - emf3_cc k j i
    else
      0.5*(- Cons1D.By (x1Flux k (j-1)%Z i) - emf3_cc k (j-1)%Z i
           - Cons1D.By (x1Flux k j i) - emf3_cc k j i) in
  0.25*(  Cons1D.Bz (x2Flux k j (i-1)%Z) + Cons1D.Bz (x2Flux k j i)
        - Cons1D.By (x1Flux k (j-1)%Z i) - Cons1D.By (x1Flux k j i)
        + de3_l1 + de3_r1 + de3_l2 + de3_r2).

Definition integrate_emf3_corner (pG : Grid) (emf3 : Arr3 Real) : Arr3 Real :=
  cellwise (ks pG - 2) (ke pG + 2) (js pG - 1) (je pG + 2)
           (is_ pG - 1) (ie pG + 2)
           (fun k j i _ => emf3_corner_value k j i) emf3.
End Corner.

(** *** The Gardiner-Stone corner formula, written once for all three
    directions as the specification words it. *)

Inductive axis := X1 | X2 | X3.

(** The cyclic successor 1 -> 2 -> 3 -> 1. *)
Definition next (a : axis) : axis :=
  match a with X1 => X2 | X2 => X3 | X3 => X1 end.

(** A grid position, in the index order of the arrays: (k, j, i). *)
Definition pos := (Z * Z * Z)%type.

Definition at_pos {A} (a : Arr3 A) (p : pos) : A :=
  let '(k, j, i) := p in a k j i.

(** One step back along an axis: x1 is the index i, x2 is j, x3 is k. *)
Definition back (a : axis) (p : pos) : pos :=
  let '(k, j, i) := p in
  match a with
  | X1 => (k, j, (i-1)%Z)
  | X2 => (k, (j-1)%Z, i)
  | X3 => ((k-1)%Z, j, i)
  end.

(** Upwind choice by the sign of a mass flux. *)
Definition upwind (massflux l r : Real) : Real :=
  if Rgt_dec massflux 0 then l
  else if Rlt_dec massflux 0 then r
  else 0.5 * (l + r).

(** The corner EMF along [e].  With a = next e and b = next a, the flux
    through the a-faces carries -E_e in its By, and the flux through the
    b-faces carries +E_e in its Bz. *)
Definition gs_corner (e : axis) (Flux : axis -> Arr3 Cons1D.t)
    (emf_cc : Arr3 Real) (p : pos) : Real :=
  let a := next e in
  let b := next a in
  let Ea q := - Cons1D.By (at_pos (Flux a) q) in
  let Eb q := Cons1D.Bz (at_pos (Flux b) q) in
  let ma q := Cons1D.d (at_pos (Flux a) q) in
  let mb q := Cons1D.d (at_pos (Flux b) q) in
  let cc q := at_pos emf_cc q in
  let de_l_b := upwind (ma (back b p))
                  (Eb (back a p) - cc (back a (back b p)))
                  (Eb p - cc (back b p)) in
  let de_r_b := upwind (ma p)
                  (Eb (back a p) - cc (back a p))
                  (Eb p - cc p) in
  let de_l_a := upwind (mb (back a p))
                  (Ea (back b p) - cc (back a (back b p)))
                  (Ea p - cc (back a p)) in
  let de_r_a := upwind (mb p)
                  (Ea (back b p) - cc (back b p))
                  (Ea p - cc p) in
  0.25 * (Eb p + Eb (back a p) + Ea p + Ea (back b p)
          + de_l_a + de_r_a + de_l_b + de_r_b).

Definition fluxes (x1Flux x2Flux x3Flux : Arr3 Cons1D.t) (a : axis)
  : Arr3 Cons1D.t :=
  match a with X1 => x1Flux | X2 => x2Flux | X3 => x3Flux end.

(* ------------------------------------------------------------------ *)
(** ** Steps 10 to 12 of integrate_3d_ctu: the stores to the grid *)

Definition Arr2 (A : Type) := Z -> Z -> A.

(** Modelled from the spec: the member of [Domain] (athena.h) that the
    integrator reads. *)
Record Domain := mkDomain { NGrid_x1 : Z }.

(** The collaborators of the integrator that live in other files.
    [cc_pos] takes the grid by const pointer; [get_myGridIndex] returns the
    three processor indices; the two remap routines fill a 2D buffer. *)
Record Extern := mkExtern {
  cc_pos : Grid -> Z -> Z -> Z -> Real * Real * Real;
  get_myGridIndex : Domain -> Grid -> Z * Z * Z;
  RemapEy_ix1 : Grid -> Domain -> Arr3 Real -> Arr2 Real -> Arr2 Real;
  RemapEy_ox1 : Grid -> Domain -> Arr3 Real -> Arr2 Real -> Arr2 Real
}.

(** The module-level scratch arrays as Steps 1 to 9 leave them.  Those steps
    store to these arrays only, never through [pG]. *)
Record Scratch := mkScratch {
  x1Flux : Arr3 Cons1D.t; x2Flux : Arr3 Cons1D.t; x3Flux : Arr3 Cons1D.t;
  emf1 : Arr3 Real; emf2 : Arr3 Real; emf3 : Arr3 Real;
  emf1_cc : Arr3 Real; emf2_cc : Arr3 Real; emf3_cc : Arr3 Real;
  dhalf : Arr3 Real; phalf : Arr3 Real;
  remapEyiib : Arr2 Real; remapEyoib : Arr2 Real
}.

Arguments x1Flux s (k j i)%_Z.
Arguments x2Flux s (k j i)%_Z.
Arguments x3Flux s (k j i)%_Z.

Section Update.
Variable cfg : Config.
Variable gl : Globals.
Variable ext : Extern.
Variable sc : Scratch.
Variable pG : Grid.
Variable pD : Domain.

Let dtodx1 := dt pG / dx1 pG.
Let dtodx2 := dt pG / dx2 pG.
Let dtodx3 := dt pG / dx3 pG.
Let dx1i := 1 / dx1 pG.
Let dx2i := 1 / dx2 pG.
Let dx3i := 1 / dx3 pG.
Let q1 := 0.5 * dtodx1.
Let q2 := 0.5 * dtodx2.
Let q3 := 0.5 * dtodx3.
Let om_dt := Omega gl * dt pG.
Let F1 := x1Flux sc.
Let F2 := x2Flux sc.
Let F3 := x3Flux sc.

(** The three-fold loop over the interior cells that updates U[k][j][i]. *)
Definition interior_cells (f : Z -> Z -> Z -> Gas.t -> Gas.t)
    (u : Arr3 Gas.t) : Arr3 Gas.t :=
  cellwise (ks pG) (ke pG) (js pG) (je pG) (is_ pG) (ie pG) f u.

(** *** Step 10a (shearing box): average Ey with the remapped Ey.
    Both remaps read emf2 before either average is stored.  The two
    averaging nests run over k and j at the fixed index i = is, resp.
    i = ie+1: here a nest whose i-range is that single index. *)
Definition step10a_remap (emf2 : Arr3 Real) : Arr3 Real :=
  let '(my_iproc, _, _) := get_myGridIndex ext pD pG in
  let remapEyiib :=
    if (my_iproc =? 0)%Z
    then RemapEy_ix1 ext pG pD emf2 (remapEyiib sc) else remapEyiib sc in
  let remapEyoib :=
    if (my_iproc =? NGrid_x1 pD - 1)%Z
    then RemapEy_ox1 ext pG pD emf2 (remapEyoib sc) else remapEyoib sc in
  let emf2 :=
    if (my_iproc =? 0)%Z then
      cellwise (ks pG) (ke pG + 1) (js pG) (je pG) (is_ pG) (is_ pG)
        (fun k j i e => 0.5 * (e + remapEyiib k j)) emf2
    else emf2 in
  if (my_iproc =? NGrid_x1 pD - 1)%Z then
    cellwise (ks pG) (ke pG + 1) (js pG) (je pG) (ie pG + 1) (ie pG + 1)
      (fun k j i e => 0.5 * (e + remapEyoib k j)) emf2
  else emf2.

(** *** Step 11a, SHEARING_BOX: Crank-Nicholson Coriolis update *)
Definition step11a_shear_cell (phi : Real -> Real -> Real -> Real)
    (k j i : Z) (u : Gas.t) : Gas.t :=
  let fact := om_dt / (1 + 0.25 * om_dt * om_dt) in
  let TH_om := 1.5 * Omega gl in
  let '(x1, x2, x3) := cc_pos ext pG i j k in
  let M1n := Gas.M1 u in
  let dM2n := if FARGO cfg then Gas.M2 u
              else Gas.M2 u + Gas.d u * TH_om * x1 in
  let frx1_dM2 := Cons1D.My (F1 k j (i+1)%Z) in
  let flx1_dM2 := Cons1D.My (F1 k j i) in
  let frx2_dM2 := Cons1D.Mx (F2 k (j+1)%Z i) in
  let flx2_dM2 := Cons1D.Mx (F2 k j i) in
  let frx3_dM2 := Cons1D.Mz (F3 (k+1)%Z j i) in
  let flx3_dM2 := Cons1D.Mz (F3 k j i) in
  let frx1_dM2 := if FARGO cfg then frx1_dM2 else
    frx1_dM2 + TH_om * (x1 + 0.5 * dx1 pG) * Cons1D.d (F1 k j (i+1)%Z) in
  let flx1_dM2 := if FARGO cfg then flx1_dM2 else
    flx1_dM2 + TH_om * (x1 - 0.5 * dx1 pG) * Cons1D.d (F1 k j i) in
  let frx2_dM2 := if FARGO cfg then frx2_dM2 else
    frx2_dM2 + TH_om * x1 * Cons1D.d (F2 k (j+1)%Z i) in
  let flx2_dM2 := if FARGO cfg then flx2_dM2 else
    flx2_dM2 + TH_om * x1 * Cons1D.d (F2 k j i) in
  let frx3_dM2 := if FARGO cfg then frx3_dM2 else
    frx3_dM2 + TH_om * x1 * Cons1D.d (F3 (k+1)%Z j i) in
  let flx3_dM2 := if FARGO cfg then flx3_dM2 else
    flx3_dM2 + TH_om * x1 * Cons1D.d (F3 k j i) in
  let M1e := M1n - q1 * (Cons1D.Mx (F1 k j (i+1)%Z) - Cons1D.Mx (F1 k j i))
                 - q2 * (Cons1D.Mz (F2 k (j+1)%Z i) - Cons1D.Mz (F2 k j i))
                 - q3 * (Cons1D.My (F3 (k+1)%Z j i) - Cons1D.My (F3 k j i)) in
  let dM2e := dM2n - q1 * (frx1_dM2 - flx1_dM2)
                   - q2 * (frx2_dM2 - flx2_dM2)
                   - q3 * (frx3_dM2 - flx3_dM2) in
  let u := Gas.set_M1 u (Gas.M1 u + (2 * dM2e - 0.5 * om_dt * M1e) * fact) in
  let u := Gas.set_M2 u (Gas.M2 u - 0.5 * (M1e + om_dt * dM2e) * fact) in
  let u := if FARGO cfg then u else
    Gas.set_M2 u (Gas.M2 u -
      0.75 * om_dt * (Cons1D.d (F1 k j i) + Cons1D.d (F1 k j (i+1)%Z))) in
  let phic := phi x1 x2 x3 in
  let phir := phi (x1 + 0.5 * dx1 pG) x2 x3 in
  let phil := phi (x1 - 0.5 * dx1 pG) x2 x3 in
  let u := if BAROTROPIC cfg then u else
    Gas.set_E u (Gas.E u - dtodx1 * (Cons1D.d (F1 k j i) * (phic - phil) +
                                     Cons1D.d (F1 k j (i+1)%Z) * (phir - phic))) in
  let phir := phi x1 (x2 + 0.5 * dx2 pG) x3 in
  let phil := phi x1 (x2 - 0.5 * dx2 pG) x3 in
  let u := if BAROTROPIC cfg then u else
    Gas.set_E u (Gas.E u - dtodx2 * (Cons1D.d (F2 k j i) * (phic - phil) +
                                     Cons1D.d (F2 k (j+1)%Z i) * (phir - phic))) in
  let phir := phi x1 x2 (x3 + 0.5 * dx3 pG) in
  let phil := phi x1 x2 (x3 - 0.5 * dx3 pG) in
  let u := Gas.set_M3 u (Gas.M3 u - dtodx3 * (phir - phil) * dhalf sc k j i) in
  if BAROTROPIC cfg then u else
    Gas.set_E u (Gas.E u - dtodx3 * (Cons1D.d (F3 k j i) * (phic - phil) +
                                     Cons1D.d (F3 (k+1)%Z j i) * (phir - phic))).

(** Is there an interior cell at all, that is, does the loop body run? *)
Definition has_interior : bool :=
  ((ks pG <=? ke pG) && (js pG <=? je pG) && (is_ pG <=? ie pG))%Z.

(** The shearing-box loop calls [*StaticGravPot] without a NULL test: with
    a NULL pointer and a cell to update there is no result ([None]). *)
Definition step11a_shear (u : Arr3 Gas.t) : option (Arr3 Gas.t) :=
  match StaticGravPot gl with
  | Some phi => Some (interior_cells (step11a_shear_cell phi) u)
  | None => if has_interior then None else Some u
  end.

(** *** Step 11a, no shearing box: static gravitational potential *)
Definition step11a_grav_cell (phi : Real -> Real -> Real -> Real)
    (k j i : Z) (u : Gas.t) : Gas.t :=
  let '(x1, x2, x3) := cc_pos ext pG i j k in
  let phic := phi x1 x2 x3 in
  let phir := phi (x1 + 0.5 * dx1 pG) x2 x3 in
  let phil := phi (x1 - 0.5 * dx1 pG) x2 x3 in
  let u := Gas.set_M1 u (Gas.M1 u - dtodx1 * (phir - phil) * dhalf sc k j i) in
  let u := if BAROTROPIC cfg then u else
    Gas.set_E u (Gas.E u - dtodx1 * (Cons1D.d (F1 k j i) * (phic - phil) +
                                     Cons1D.d (F1 k j (i+1)%Z) * (phir - phic))) in
  let phir := phi x1 (x2 + 0.5 * dx2 pG) x3 in
  let phil := phi x1 (x2 - 0.5 * dx2 pG) x3 in
  let u := Gas.set_M2 u (Gas.M2 u - dtodx2 * (phir - phil) * dhalf sc k j i) in
  let u := if BAROTROPIC cfg then u else
    Gas.set_E u (Gas.E u - dtodx2 * (Cons1D.d (F2 k j i) * (phic - phil) +
                                     Cons1D.d (F2 k (j+1)%Z i) * (phir - phic))) in
  let phir := phi x1 x2 (x3 + 0.5 * dx3 pG) in
  let phil := phi x1 x2 (x3 - 0.5 * dx3 pG) in
  let u := Gas.set_M3 u (Gas.M3 u - dtodx3 * (phir - phil) * dhalf sc k j i) in
  if BAROTROPIC cfg then u else
    Gas.set_E u (Gas.E u - dtodx3 * (Cons1D.d (F3 k j i) * (phic - phil) +
                                     Cons1D.d (F3 (k+1)%Z j i) * (phir - phic))).

Definition step11a_grav (u : Arr3 Gas.t) : Arr3 Gas.t :=
  match StaticGravPot gl with
  | Some phi => interior_cells (step11a_grav_cell phi) u
  | None => u
  end.

Definition step11a (u : Arr3 Gas.t) : option (Arr3 Gas.t) :=
  if SHEARING_BOX cfg then step11a_shear u else Some (step11a_grav u).

(** *** Step 11b: self-gravity *)
Definition step11b_x1_cell (k j i : Z) (u : Gas.t) : Gas.t :=
  let Phi := Phi pG in
  let phic := Phi k j i in
  let phil := 0.5 * (Phi k j (i-1)%Z + Phi k j i) in
  let phir := 0.5 * (Phi k j i + Phi k j (i+1)%Z) in
  let gxl := (Phi k j (i-1)%Z - Phi k j i) * dx1i in
  let gxr := (Phi k j i - Phi k j (i+1)%Z) * dx1i in
  let gyl := 0.25 * ((Phi k (j-1)%Z (i-1)%Z - Phi k (j+1)%Z (i-1)%Z) +
                     (Phi k (j-1)%Z i - Phi k (j+1)%Z i)) * dx2i in
  let gyr := 0.25 * ((Phi k (j-1)%Z i - Phi k (j+1)%Z i) +
                     (Phi k (j-1)%Z (i+1)%Z - Phi k (j+1)%Z (i+1)%Z)) * dx2i in
  let gzl := 0.25 * ((Phi (k-1)%Z j (i-1)%Z - Phi (k+1)%Z j (i-1)%Z) +
                     (Phi (k-1)%Z j i - Phi (k+1)%Z j i)) * dx3i in
  let gzr := 0.25 * ((Phi (k-1)%Z j i - Phi (k+1)%Z j i) +
                     (Phi (k-1)%Z j (i+1)%Z - Phi (k+1)%Z j (i+1)%Z)) * dx3i in
  let flx_m1l := 0.5 * (gxl*gxl - gyl*gyl - gzl*gzl) / four_pi_G gl
                 + grav_mean_rho gl * phil in
  let flx_m1r := 0.5 * (gxr*gxr - gyr*gyr - gzr*gzr) / four_pi_G gl
                 + grav_mean_rho gl * phir in
  let flx_m2l := gxl * gyl / four_pi_G gl in
  let flx_m2r := gxr * gyr / four_pi_G gl in
  let flx_m3l := gxl * gzl / four_pi_G gl in
  let flx_m3r := gxr * gzr / four_pi_G gl in
  let u := Gas.set_M1 u (Gas.M1 u - dtodx1 * (flx_m1r - flx_m1l)) in
  let u := Gas.set_M2 u (Gas.M2 u - dtodx1 * (flx_m2r - flx_m2l)) in
  let u := Gas.set_M3 u (Gas.M3 u - dtodx1 * (flx_m3r - flx_m3l)) in
  if BAROTROPIC cfg then u else
    Gas.set_E u (Gas.E u - dtodx1 * (Cons1D.d (F1 k j i) * (phic - phil) +
                                     Cons1D.d (F1 k j (i+1)%Z) * (phir - phic))).

Definition step11b_x2_cell (k j i : Z) (u : Gas.t) : Gas.t :=
  let Phi := Phi pG in
  let phic := Phi k j i in
  let phil := 0.5 * (Phi k (j-1)%Z i + Phi k j i) in
  let phir := 0.5 * (Phi k j i + Phi k (j+1)%Z i) in
  let gxl := 0.25 * ((Phi k (j-1)%Z (i-1)%Z - Phi k (j-1)%Z (i+1)%Z) +
                     (Phi k j (i-1)%Z - Phi k j (i+1)%Z)) * dx1i in
  let gxr := 0.25 * ((Phi k j (i-1)%Z - Phi k j (i+1)%Z) +
                     (Phi k (j+1)%Z (i-1)%Z - Phi k (j+1)%Z (i+1)%Z)) * dx1i in
  let gyl := (Phi k (j-1)%Z i - Phi k j i) * dx2i in
  let gyr := (Phi k j i - Phi k (j+1)%Z i) * dx2i in
  let gzl := 0.25 * ((Phi (k-1)%Z (j-1)%Z i - Phi (k+1)%Z (j-1)%Z i) +
                     (Phi (k-1)%Z j i - Phi (k+1)%Z j i)) * dx3i in
  let gzr := 0.25 * ((Phi (k-1)%Z j i - Phi (k+1)%Z j i) +
                     (Phi (k-1)%Z (j+1)%Z i - Phi (k+1)%Z (j+1)%Z i)) * dx3i in
  let flx_m1l := gyl * gxl / four_pi_G gl in
  let flx_m1r := gyr * gxr / four_pi_G gl in
  let flx_m2l := 0.5 * (gyl*gyl - gxl*gxl - gzl*gzl) / four_pi_G gl
                 + grav_mean_rho gl * phil in
  let flx_m2r := 0.5 * (gyr*gyr - gxr*gxr - gzr*gzr) / four_pi_G gl
                 + grav_mean_rho gl * phir in
  let flx_m3l := gyl * gzl / four_pi_G gl in
  let flx_m3r := gyr * gzr / four_pi_G gl in
  let u := Gas.set_M1 u (Gas.M1 u - dtodx2 * (flx_m1r - flx_m1l)) in
  let u := Gas.set_M2 u (Gas.M2 u - dtodx2 * (flx_m2r - flx_m2l)) in
  let u := Gas.set_M3 u (Gas.M3 u - dtodx2 * (flx_m3r - flx_m3l)) in
  if BAROTROPIC cfg then u else
    Gas.set_E u (Gas.E u - dtodx2 * (Cons1D.d (F2 k j i) * (phic - phil) +
                                     Cons1D.d (F2 k (j+1)%Z i) * (phir - phic))).

Definition step11b_x3_cell (k j i : Z) (u : Gas.t) : Gas.t :=
  let Phi := Phi pG in
  let phic := Phi k j i in
  let phil := 0.5 * (Phi (k-1)%Z j i + Phi k j i) in
  let phir := 0.5 * (Phi k j i + Phi (k+1)%Z j i) in
  let gxl := 0.25 * ((Phi (k-1)%Z j (i-1)%Z - Phi (k-1)%Z j (i+1)%Z) +
                     (Phi k j (i-1)%Z - Phi k j (i+1)%Z)) * dx1i in
  let gxr := 0.25 * ((Phi k j (i-1)%Z - Phi k j (i+1)%Z) +
                     (Phi (k+1)%Z j (i-1)%Z - Phi (k+1)%Z j (i+1)%Z)) * dx1i in
  let gyl := 0.25 * ((Phi (k-1)%Z (j-1)%Z i - Phi (k-1)%Z (j+1)%Z i) +
                     (Phi k (j-1)%Z i - Phi k (j+1)%Z i)) * dx2i in
  let gyr := 0.25 * ((Phi k (j-1)%Z i - Phi k (j+1)%Z i) +
                     (Phi (k+1)%Z (j-1)%Z i - Phi (k+1)%Z (j+1)%Z i)) * dx2i in
  let gzl := (Phi (k-1)%Z j i - Phi k j i) * dx3i in
  let gzr := (Phi k j i - Phi (k+1)%Z j i) * dx3i in
  let flx_m1l := gzl * gxl / four_pi_G gl in
  let flx_m1r := gzr * gxr / four_pi_G gl in
  let flx_m2l := gzl * gyl / four_pi_G gl in
  let flx_m2r := gzr * gyr / four_pi_G gl in
  let flx_m3l := 0.5 * (gzl*gzl - gxl*gxl - gyl*gyl) / four_pi_G gl
                 + grav_mean_rho gl * phil in
  let flx_m3r := 0.5 * (gzr*gzr - gxr*gxr - gyr*gyr) / four_pi_G gl
                 + grav_mean_rho gl * phir in
  let u := Gas.set_M1 u (Gas.M1 u - dtodx3 * (flx_m1r - flx_m1l)) in
  let u := Gas.set_M2 u (Gas.M2 u - dtodx3 * (flx_m2r - flx_m2l)) in
  let u := Gas.set_M3 u (Gas.M3 u - dtodx3 * (flx_m3r - flx_m3l)) in
  if BAROTROPIC cfg then u else
    Gas.set_E u (Gas.E u - dtodx3 * (Cons1D.d (F3 k j i) * (phic - phil) +
                                     Cons1D.d (F3 (k+1)%Z j i) * (phir - phic))).

Definition step11b (u : Arr3 Gas.t) : Arr3 Gas.t :=
  let u := interior_cells step11b_x1_cell u in
  let u := interior_cells step11b_x2_cell u in
  interior_cells step11b_x3_cell u.

(** Save the mass fluxes in the grid.  The three stores of the loop body
    go to three different arrays. *)
Definition step11b_save_mass_flux (g : Grid) : Grid :=
  let save (F : Arr3 Cons1D.t) (m : Arr3 Real) :=
    cellwise (ks pG) (ke pG + 1) (js pG) (je pG + 1) (is_ pG) (ie pG + 1)
             (fun k j i _ => Cons1D.d (F k j i)) m in
  set_MassFlux g (save F1 (x1MassFlux g)) (save F2 (x2MassFlux g))
                 (save F3 (x3MassFlux g)).

(** *** Step 11c: optically thin cooling *)
Definition step11c (u : Arr3 Gas.t) : Arr3 Gas.t :=
  if BAROTROPIC cfg then u else
  match CoolingFunc gl with
  | Some cool =>
      interior_cells (fun k j i u =>
        let coolf := cool (dhalf sc k j i) (phalf sc k j i) (dt pG) in
        Gas.set_E u (Gas.E u - dt pG * coolf)) u
  | None => u
  end.

(** *** Step 12a-c: the conservative update with the x1-, x2-, x3-fluxes *)
Definition step12a_cell (k j i : Z) (u : Gas.t) : Gas.t :=
  let fr := F1 k j (i+1)%Z in
  let fl := F1 k j i in
  let u := Gas.set_d  u (Gas.d  u - dtodx1 * (Cons1D.d  fr - Cons1D.d  fl)) in
  let u := Gas.set_M1 u (Gas.M1 u - dtodx1 * (Cons1D.Mx fr - Cons1D.Mx fl)) in
  let u := Gas.set_M2 u (Gas.M2 u - dtodx1 * (Cons1D.My fr - Cons1D.My fl)) in
  let u := Gas.set_M3 u (Gas.M3 u - dtodx1 * (Cons1D.Mz fr - Cons1D.Mz fl)) in
  let u := if BAROTROPIC cfg then u else
    Gas.set_E u (Gas.E u - dtodx1 * (Cons1D.E fr - Cons1D.E fl)) in
  Gas.set_s u (for_scal (NSCALARS cfg)
    (fun n sn => sn - dtodx1 * (Cons1D.s fr n - Cons1D.s fl n)) (Gas.s u)).

Definition step12b_cell (k j i : Z) (u : Gas.t) : Gas.t :=
  let fr := F2 k (j+1)%Z i in
  let fl := F2 k j i in
  let u := Gas.set_d  u (Gas.d  u - dtodx2 * (Cons1D.d  fr - Cons1D.d  fl)) in
  let u := Gas.set_M1 u (Gas.M1 u - dtodx2 * (Cons1D.Mz fr - Cons1D.Mz fl)) in
  let u := Gas.set_M2 u (Gas.M2 u - dtodx2 * (Cons1D.Mx fr - Cons1D.Mx fl)) in
  let u := Gas.set_M3 u (Gas.M3 u - dtodx2 * (Cons1D.My fr - Cons1D.My fl)) in
  let u := if BAROTROPIC cfg then u else
    Gas.set_E u (Gas.E u - dtodx2 * (Cons1D.E fr - Cons1D.E fl)) in
  Gas.set_s u (for_scal (NSCALARS cfg)
    (fun n sn => sn - dtodx2 * (Cons1D.s fr n - Cons1D.s fl n)) (Gas.s u)).

Definition step12c_cell (k j i : Z) (u : Gas.t) : Gas.t :=
  let fr := F3 (k+1)%Z j i in
  let fl := F3 k j i in
  let u := Gas.set_d  u (Gas.d  u - dtodx3 * (Cons1D.d  fr - Cons1D.d  fl)) in
  let u := Gas.set_M1 u (Gas.M1 u - dtodx3 * (Cons1D.My fr - Cons1D.My fl)) in
  let u := Gas.set_M2 u (Gas.M2 u - dtodx3 * (Cons1D.Mz fr - Cons1D.Mz fl)) in
  let u := Gas.set_M3 u (Gas.M3 u - dtodx3 * (Cons1D.Mx fr - Cons1D.Mx fl)) in
  let u := if BAROTROPIC cfg then u else
    Gas.set_E u (Gas.E u - dtodx3 * (Cons1D.E fr - Cons1D.E fl)) in
  Gas.set_s u (for_scal (NSCALARS cfg)
    (fun n sn => sn - dtodx3 * (Cons1D.s fr n - Cons1D.s fl n)) (Gas.s u)).

Definition step12abc (u : Arr3 Gas.t) : Arr3 Gas.t :=
  let u := interior_cells step12a_cell u in
  let u := interior_cells step12b_cell u in
  interior_cells step12c_cell u.

(** *** Step 12d: cell-centred field := average of the face fields.
    [g] is the grid as it stands here: its face fields are the updated ones. *)
Definition step12d_cell (g : Grid) (k j i : Z) (u : Gas.t) : Gas.t :=
  let u := Gas.set_B1c u (0.5 * (B1i g k j i + B1i g k j (i+1)%Z)) in
  let u := Gas.set_B2c u (0.5 * (B2i g k j i + B2i g k (j+1)%Z i)) in
  Gas.set_B3c u (0.5 * (B3i g k j i + B3i g (k+1)%Z j i)).

Definition step12d (g : Grid) : Grid :=
  set_U g (interior_cells (step12d_cell g) (U g)).

(** *** Step 10: corner EMFs, then the CT update (MHD only) *)
Definition step10 : Grid :=
  if MHD cfg then
    let e1 := integrate_emf1_corner F2 F3 (emf1_cc sc) pG (emf1 sc) in
    let e2 := integrate_emf2_corner F1 F3 (emf2_cc sc) pG (emf2 sc) in
    let e3 := integrate_emf3_corner F1 F2 (emf3_cc sc) pG (emf3 sc) in
    let e2 := if SHEARING_BOX cfg then step10a_remap e2 else e2 in
    step10b pG e1 e2 e3
  else pG.

(** *** Steps 10 to 12 in the order of the source *)
Definition integrate_3d_ctu_update : option Grid :=
  let g := step10 in
  match step11a (U g) with
  | None => None
  | Some u =>
      let g := set_U g u in
      let g := if SELF_GRAVITY cfg
               then step11b_save_mass_flux (set_U g (step11b (U g)))
               else g in
      let g := set_U g (step11c (U g)) in
      let g := set_U g (step12abc (U g)) in
      Some (if MHD cfg then step12d g else g)
  end.
End Update.

(** The cell array after Steps 11b, 11c and 12a-c, from the one that
    Step 11a leaves. *)
Definition after_step12c (cfg : Config) (gl : Globals) (sc : Scratch)
    (pG : Grid) (u1 : Arr3 Gas.t) : Arr3 Gas.t :=
  step12abc cfg sc pG
    (step11c cfg gl sc pG
       (if SELF_GRAVITY cfg then step11b cfg gl sc pG u1 else u1)).

(** The flux divergence that the conservative update subtracts from a
    conserved quantity [q] of cell (k,j,i), as the specification writes it:
    per axis, (dt/dx) * (flux at the outgoing face - flux at the incoming). *)
Definition flux_divergence (sc : Scratch) (pG : Grid)
    (q1 q2 q3 : Cons1D.t -> Real) (k j i : Z) : Real :=
  dt pG / dx1 pG * (q1 (x1Flux sc k j (i+1)%Z) - q1 (x1Flux sc k j i)) +
  dt pG / dx2 pG * (q2 (x2Flux sc k (j+1)%Z i) - q2 (x2Flux sc k j i)) +
  dt pG / dx3 pG * (q3 (x3Flux sc (k+1)%Z j i) - q3 (x3Flux sc k j i)).


(* ------------------------------------------------------------------ *)
(** ** Steps 1b-1c, 2b-2c, 3b-3c: source terms added to the L/R states

    [W] is the pencil of primitive variables of the current sweep, and the
    pair [Wl], [Wr] enters as lr_states leaves it. *)

Record LR := mkLR { Wl : Arr1 Prim1D.t; Wr : Arr1 Prim1D.t }.

Arguments Wl l i%_Z.
Arguments Wr l i%_Z.

(** [for (i=lo; i<=hi; i++) { Wl[i] = fl i Wl[i]; Wr[i] = fr i Wr[i]; }] *)
Definition lr_loop (lo hi : Z) (fl fr : Z -> Prim1D.t -> Prim1D.t) (st : LR)
  : LR :=
  for_loop lo hi (fun i st =>
    mkLR (upd1 (Wl st) i (fl i (Wl st i)))
         (upd1 (Wr st) i (fr i (Wr st i)))) st.

Section Sweeps.
Variable cfg : Config.
Variable gl : Globals.
Variable ext : Extern.
Variable pG : Grid.

Let dtodx1 := dt pG / dx1 pG.
Let dtodx2 := dt pG / dx2 pG.
Let dtodx3 := dt pG / dx3 pG.
Let dx1i := 1 / dx1 pG.
Let dx2i := 1 / dx2 pG.
Let dx3i := 1 / dx3 pG.
Let q1 := 0.5 * dtodx1.
Let q2 := 0.5 * dtodx2.
Let q3 := 0.5 * dtodx3.
Let hdt := 0.5 * dt pG.

(** *** x1 sweep *)

(** Step 1b, source terms for the left state in zone i-1:
    the pair (MHD_src_By, MHD_src_Bz). *)
Definition step1b_src_left (k j i : Z) : Real * Real :=
  let db1 := (B1i pG k j i - B1i pG k j (i-1)%Z) * dx1i in
  let db2 := (B2i pG k (j+1)%Z (i-1)%Z - B2i pG k j (i-1)%Z) * dx2i in
  let db3 := (B3i pG (k+1)%Z j (i-1)%Z - B3i pG k j (i-1)%Z) * dx3i in
  let '(l3, l2) :=
    if Rge_dec db1 0 then
      let l3 := if Rlt_dec db1 (- db3) then db1 else - db3 in
      let l3 := if Rgt_dec l3 0 then l3 else 0 in
      let l2 := if Rlt_dec db1 (- db2) then db1 else - db2 in
      let l2 := if Rgt_dec l2 0 then l2 else 0 in
      (l3, l2)
    else
      let l3 := if Rgt_dec db1 (- db3) then db1 else - db3 in
      let l3 := if Rlt_dec l3 0 then l3 else 0 in
      let l2 := if Rgt_dec db1 (- db2) then db1 else - db2 in
      let l2 := if Rlt_dec l2 0 then l2 else 0 in
      (l3, l2) in
  let MHD_src_By :=
    (Gas.M2 (U pG k j (i-1)%Z) / Gas.d (U pG k j (i-1)%Z)) * l2 in
  let MHD_src_Bz :=
    (Gas.M3 (U pG k j (i-1)%Z) / Gas.d (U pG k j (i-1)%Z)) * l3 in
  (MHD_src_By, MHD_src_Bz).

(** Step 1b, source terms for the right state in zone i. *)
Definition step1b_src_right (k j i : Z) : Real * Real :=
  let db1 := (B1i pG k j (i+1)%Z - B1i pG k j i) * dx1i in
  let db2 := (B2i pG k (j+1)%Z i - B2i pG k j i) * dx2i in
  let db3 := (B3i pG (k+1)%Z j i - B3i pG k j i) * dx3i in
  let '(l3, l2) :=
    if Rge_dec db1 0 then
      let l3 := if Rlt_dec db1 (- db3) then db1 else - db3 in
      let l3 := if Rgt_dec l3 0 then l3 else 0 in
      let l2 := if Rlt_dec db1 (- db2) then db1 else - db2 in
      let l2 := if Rgt_dec l2 0 then l2 else 0 in
      (l3, l2)
    else
      let l3 := if Rgt_dec db1 (- db3) then db1 else - db3 in
      let l3 := if Rlt_dec l3 0 then l3 else 0 in
      let l2 := if Rgt_dec db1 (- db2) then db1 else - db2 in
      let l2 := if Rlt_dec l2 0 then l2 else 0 in
      (l3, l2) in
  let MHD_src_By := (Gas.M2 (U pG k j i) / Gas.d (U pG k j i)) * l2 in
  let MHD_src_Bz := (Gas.M3 (U pG k j i) / Gas.d (U pG k j i)) * l3 in
  (MHD_src_By, MHD_src_Bz).

(** [w.By += hdt*MHD_src_By; w.Bz += hdt*MHD_src_Bz] *)
Definition add_mhd_src (src : Real * Real) (w : Prim1D.t) : Prim1D.t :=
  let w := Prim1D.set_By w (Prim1D.By w + hdt * fst src) in
  Prim1D.set_Bz w (Prim1D.Bz w + hdt * snd src).

Definition step1b_mhd (k j : Z) (st : LR) : LR :=
  lr_loop (is_ pG - 1) (ie pG + 2)
    (fun i => add_mhd_src (step1b_src_left k j i))
    (fun i => add_mhd_src (step1b_src_right k j i)) st.

(** Step 1c: static gravitational potential. *)
Definition step1c_grav (phi : Real -> Real -> Real -> Real) (k j : Z)
    (st : LR) : LR :=
  let phis i :=
    let '(x1, x2, x3) := cc_pos ext pG i j k in
    (phi x1 x2 x3, phi (x1 - dx1 pG) x2 x3, phi (x1 - 0.5 * dx1 pG) x2 x3) in
  lr_loop (is_ pG - 1) (ie pG + 2)
    (fun i w => let '(phicr, phicl, phifc) := phis i in
                Prim1D.set_Vx w (Prim1D.Vx w - dtodx1 * (phifc - phicl)))
    (fun i w => let '(phicr, phicl, phifc) := phis i in
                Prim1D.set_Vx w (Prim1D.Vx w - dtodx1 * (phicr - phifc))) st.

(** Step 1c (cont): self-gravity. *)
Definition step1c_selfg (k j : Z) (st : LR) : LR :=
  lr_loop (is_ pG - 1) (ie pG + 2)
    (fun i w => Prim1D.set_Vx w
       (Prim1D.Vx w - q1 * (Phi pG k j i - Phi pG k j (i-1)%Z)))
    (fun i w => Prim1D.set_Vx w
       (Prim1D.Vx w - q1 * (Phi pG k j i - Phi pG k j (i-1)%Z))) st.

(** Step 1c (cont): optically thin cooling.  The same loop serves the
    three sweeps; only its bounds differ. *)
Definition cool_state (cool : Real -> Real -> Real -> Real) (w : Prim1D.t)
  : Prim1D.t :=
  let coolf := cool (Prim1D.d w) (Prim1D.P w) (0.5 * dt pG) in
  Prim1D.set_P w (Prim1D.P w - 0.5 * dt pG * Gamma_1 gl * coolf).

Definition step1c_cooling (cool : Real -> Real -> Real -> Real) (st : LR)
  : LR :=
  lr_loop (is_ pG - 1) (ie pG + 2)
    (fun i => cool_state cool) (fun i => cool_state cool) st.

(** Step 1c (cont): shearing box (Coriolis forces). *)
Definition step1c_shear (W : Arr1 Prim1D.t) (st : LR) : LR :=
  lr_loop (is_ pG - 1) (ie pG + 2)
    (fun i w =>
       let w := Prim1D.set_Vx w
                  (Prim1D.Vx w + dt pG * Omega gl * Prim1D.Vy (W (i-1)%Z)) in
       if FARGO cfg then
         Prim1D.set_Vy w
           (Prim1D.Vy w - 0.25 * dt pG * Omega gl * Prim1D.Vx (W (i-1)%Z))
       else
         Prim1D.set_Vy w
           (Prim1D.Vy w - dt pG * Omega gl * Prim1D.Vx (W (i-1)%Z)))
    (fun i w =>
       let w := Prim1D.set_Vx w
                  (Prim1D.Vx w + dt pG * Omega gl * Prim1D.Vy (W i)) in
       if FARGO cfg then
         Prim1D.set_Vy w
           (Prim1D.Vy w - 0.25 * dt pG * Omega gl * Prim1D.Vx (W i))
       else
         Prim1D.set_Vy w
           (Prim1D.Vy w - dt pG * Omega gl * Prim1D.Vx (W i))) st.

(** Steps 1b (after lr_states) and 1c for the pencil (k, j). *)
Definition step1bc (k j : Z) (W : Arr1 Prim1D.t) (st : LR) : LR :=
  let st := if MHD cfg then step1b_mhd k j st else st in
  let st := match StaticGravPot gl with
            | Some phi => step1c_grav phi k j st
            | None => st
            end in
  let st := if SELF_GRAVITY cfg then step1c_selfg k j st else st in
  let st := if BAROTROPIC cfg then st else
            match CoolingFunc gl with
            | Some cool => step1c_cooling cool st
            | None => st
            end in
  if SHEARING_BOX cfg then step1c_shear W st else st.

(** *** x2 sweep *)

(** Step 2b, source terms for the left state in zone j-1. *)
Definition step2b_src_left (k i j : Z) : Real * Real :=
  let db1 := (B1i pG k (j-1)%Z (i+1)%Z - B1i pG k (j-1)%Z i) * dx1i in
  let db2 := (B2i pG k j i - B2i pG k (j-1)%Z i) * dx2i in
  let db3 := (B3i pG (k+1)%Z (j-1)%Z i - B3i pG k (j-1)%Z i) * dx3i in
  let '(l1, l3) :=
    if Rge_dec db2 0 then
      let l1 := if Rlt_dec db2 (- db1) then db2 else - db1 in
      let l1 := if Rgt_dec l1 0 then l1 else 0 in
      let l3 := if Rlt_dec db2 (- db3) then db2 else - db3 in
      let l3 := if Rgt_dec l3 0 then l3 else 0 in
      (l1, l3)
    else
      let l1 := if Rgt_dec db2 (- db1) then db2 else - db1 in
      let l1 := if Rlt_dec l1 0 then l1 else 0 in
      let l3 := if Rgt_dec db2 (- db3) then db2 else - db3 in
      let l3 := if Rlt_dec l3 0 then l3 else 0 in
      (l1, l3) in
  let MHD_src_By :=
    (Gas.M3 (U pG k (j-1)%Z i) / Gas.d (U pG k (j-1)%Z i)) * l3 in
  let MHD_src_Bz :=
    (Gas.M1 (U pG k (j-1)%Z i) / Gas.d (U pG k (j-1)%Z i)) * l1 in
  (MHD_src_By, MHD_src_Bz).

(** Step 2b, source terms for the right state in zone j. *)
Definition step2b_src_right (k i j : Z) : Real * Real :=
  let db1 := (B1i pG k j (i+1)%Z - B1i pG k j i) * dx1i in
  let db2 := (B2i pG k (j+1)%Z i - B2i pG k j i) * dx2i in
  let db3 := (B3i pG (k+1)%Z j i - B3i pG k j i) * dx3i in
  let '(l1, l3) :=
    if Rge_dec db2 0 then
      let l1 := if Rlt_dec db2 (- db1) then db2 else - db1 in
      let l1 := if Rgt_dec l1 0 then l1 else 0 in
      let l3 := if Rlt_dec db2 (- db3) then db2 else - db3 in
      let l3 := if Rgt_dec l3 0 then l3 else 0 in
      (l1, l3)
    else
      let l1 := if Rgt_dec db2 (- db1) then db2 else - db1 in
      let l1 := if Rlt_dec l1 0 then l1 else 0 in
      let l3 := if Rgt_dec db2 (- db3) then db2 else - db3 in
      let l3 := if Rlt_dec l3 0 then l3 else 0 in
      (l1, l3) in
  let MHD_src_By := (Gas.M3 (U pG k j i) / Gas.d (U pG k j i)) * l3 in
  let MHD_src_Bz := (Gas.M1 (U pG k j i) / Gas.d (U pG k j i)) * l1 in
  (MHD_src_By, MHD_src_Bz).

Definition step2b_mhd (k i : Z) (st : LR) : LR :=
  lr_loop (js pG - 1) (je pG + 2)
    (fun j => add_mhd_src (step2b_src_left k i j))
    (fun j => add_mhd_src (step2b_src_right k i j)) st.

(** Step 2c: static gravitational potential. *)
Definition step2c_grav (phi : Real -> Real -> Real -> Real) (k i : Z)
    (st : LR) : LR :=
  let phis j :=
    let '(x1, x2, x3) := cc_pos ext pG i j k in
    (phi x1 x2 x3, phi x1 (x2 - dx2 pG) x3, phi x1 (x2 - 0.5 * dx2 pG) x3) in
  lr_loop (js pG - 1) (je pG + 2)
    (fun j w => let '(phicr, phicl, phifc) := phis j in
                Prim1D.set_Vx w (Prim1D.Vx w - dtodx2 * (phifc - phicl)))
    (fun j w => let '(phicr, phicl, phifc) := phis j in
                Prim1D.set_Vx w (Prim1D.Vx w - dtodx2 * (phicr - phifc))) st.

(** Step 2c (cont): self-gravity. *)
Definition step2c_selfg (k i : Z) (st : LR) : LR :=
  lr_loop (js pG - 1) (je pG + 2)
    (fun j w => Prim1D.set_Vx w
       (Prim1D.Vx w - q2 * (Phi pG k j i - Phi pG k (j-1)%Z i)))
    (fun j w => Prim1D.set_Vx w
       (Prim1D.Vx w - q2 * (Phi pG k j i - Phi pG k (j-1)%Z i))) st.

(** Step 2c (cont): optically thin cooling. *)
Definition step2c_cooling (cool : Real -> Real -> Real -> Real) (st : LR)
  : LR :=
  lr_loop (js pG - 1) (je pG + 2)
    (fun j => cool_state cool) (fun j => cool_state cool) st.

(** Steps 2b (after lr_states) and 2c for the pencil (k, i).  The source
    has no shearing-box loop in this sweep. *)
Definition step2bc (k i : Z) (W : Arr1 Prim1D.t) (st : LR) : LR :=
  let st := if MHD cfg then step2b_mhd k i st else st in
  let st := match StaticGravPot gl with
            | Some phi => step2c_grav phi k i st
            | None => st
            end in
  let st := if SELF_GRAVITY cfg then step2c_selfg k i st else st in
  if BAROTROPIC cfg then st else
  match CoolingFunc gl with
  | Some cool => step2c_cooling cool st
  | None => st
  end.

(** *** x3 sweep *)

(** Step 3b, source terms for the left state in zone k-1. *)
Definition step3b_src_left (j i k : Z) : Real * Real :=
  let db1 := (B1i pG (k-1)%Z j (i+1)%Z - B1i pG (k-1)%Z j i) * dx1i in
  let db2 := (B2i pG (k-1)%Z (j+1)%Z i - B2i pG (k-1)%Z j i) * dx2i in
  let db3 := (B3i pG k j i - B3i pG (k-1)%Z j i) * dx3i in
  let '(l1, l2) :=
    if Rge_dec db3 0 then
      let l1 := if Rlt_dec db3 (- db1) then db3 else - db1 in
      let l1 := if Rgt_dec l1 0 then l1 else 0 in
      let l2 := if Rlt_dec db3 (- db2) then db3 else - db2 in
      let l2 := if Rgt_dec l2 0 then l2 else 0 in
      (l1, l2)
    else
      let l1 := if Rgt_dec db3 (- db1) then db3 else - db1 in
      let l1 := if Rlt_dec l1 0 then l1 else 0 in
      let l2 := if Rgt_dec db3 (- db2) then db3 else - db2 in
      let l2 := if Rlt_dec l2 0 then l2 else 0 in
      (l1, l2) in
  let MHD_src_By :=
    (Gas.M1 (U pG (k-1)%Z j i) / Gas.d (U pG (k-1)%Z j i)) * l1 in
  let MHD_src_Bz :=
    (Gas.M2 (U pG (k-1)%Z j i) / Gas.d (U pG (k-1)%Z j i)) * l2 in
  (MHD_src_By, MHD_src_Bz).

(** Step 3b, source terms for the right state in zone k. *)
Definition step3b_src_right (j i k : Z) : Real * Real :=
  let db1 := (B1i pG k j (i+1)%Z - B1i pG k j i) * dx1i in
  let db2 := (B2i pG k (j+1)%Z i - B2i pG k j i) * dx2i in
  let db3 := (B3i pG (k+1)%Z j i - B3i pG k j i) * dx3i in
  let '(l1, l2) :=
    if Rge_dec db3 0 then
      let l1 := if Rlt_dec db3 (- db1) then db3 else - db1 in
      let l1 := if Rgt_dec l1 0 then l1 else 0 in
      let l2 := if Rlt_dec db3 (- db2) then db3 else - db2 in
      let l2 := if Rgt_dec l2 0 then l2 else 0 in
      (l1, l2)
    else
      let l1 := if Rgt_dec db3 (- db1) then db3 else - db1 in
      let l1 := if Rlt_dec l1 0 then l1 else 0 in
      let l2 := if Rgt_dec db3 (- db2) then db3 else - db2 in
      let l2 := if Rlt_dec l2 0 then l2 else 0 in
      (l1, l2) in
  let MHD_src_By := (Gas.M1 (U pG k j i) / Gas.d (U pG k j i)) * l1 in
  let MHD_src_Bz := (Gas.M2 (U pG k j i) / Gas.d (U pG k j i)) * l2 in
  (MHD_src_By, MHD_src_Bz).

Definition step3b_mhd (j i : Z) (st : LR) : LR :=
  lr_loop (ks pG - 1) (ke pG + 2)
    (fun k => add_mhd_src (step3b_src_left j i k))
    (fun k => add_mhd_src (step3b_src_right j i k)) st.

(** Step 3c: static gravitational potential. *)
Definition step3c_grav (phi : Real -> Real -> Real -> Real) (j i : Z)
    (st : LR) : LR :=
  let phis k :=
    let '(x1, x2, x3) := cc_pos ext pG i j k in
    (phi x1 x2 x3, phi x1 x2 (x3 - dx3 pG), phi x1 x2 (x3 - 0.5 * dx3 pG)) in
  lr_loop (ks pG - 1) (ke pG + 2)
    (fun k w => let '(phicr, phicl, phifc) := phis k in
                Prim1D.set_Vx w (Prim1D.Vx w - dtodx3 * (phifc - phicl)))
    (fun k w => let '(phicr, phicl, phifc) := phis k in
                Prim1D.set_Vx w (Prim1D.Vx w - dtodx3 * (phicr - phifc))) st.

(** Step 3c (cont): self-gravity. *)
Definition step3c_selfg (j i : Z) (st : LR) : LR :=
  lr_loop (ks pG - 1) (ke pG + 2)
    (fun k w => Prim1D.set_Vx w
       (Prim1D.Vx w - q3 * (Phi pG k j i - Phi pG (k-1)%Z j i)))
    (fun k w => Prim1D.set_Vx w
       (Prim1D.Vx w - q3 * (Phi pG k j i - Phi pG (k-1)%Z j i))) st.

(** Step 3c (cont): optically thin cooling. *)
Definition step3c_cooling (cool : Real -> Real -> Real -> Real) (st : LR)
  : LR :=
  lr_loop (ks pG - 1) (ke pG + 2)
    (fun k => cool_state cool) (fun k => cool_state cool) st.

(** Steps 3b (after lr_states) and 3c for the pencil (j, i).  The source
    has no shearing-box loop in this sweep either. *)
Definition step3bc (j i : Z) (W : Arr1 Prim1D.t) (st : LR) : LR :=
  let st := if MHD cfg then step3b_mhd j i st else st in
  let st := match StaticGravPot gl with
            | Some phi => step3c_grav phi j i st
            | None => st
            end in
  let st := if SELF_GRAVITY cfg then step3c_selfg j i st else st in
  if BAROTROPIC cfg then st else
  match CoolingFunc gl with
  | Some cool => step3c_cooling cool st
  | None => st
  end.

(** The interface-state source phase of the sweep along [d], for the
    pencil with transverse indices [a] (outer loop) and [b] (inner loop):
    (k, j) for x1, (k, i) for x2, (j, i) for x3. *)
Definition sweep_sources (d : axis) (a b : Z) (W : Arr1 Prim1D.t) (st : LR)
  : LR :=
  match d with
  | X1 => step1bc a b W st
  | X2 => step2bc a b W st
  | X3 => step3bc a b W st
  end.

(** The interfaces that the sweep along [d] computes: f in [lo-1, hi+2]. *)
Definition sweep_lo (d : axis) : Z :=
  match d with X1 => is_ pG - 1 | X2 => js pG - 1 | X3 => ks pG - 1 end%Z.
Definition sweep_hi (d : axis) : Z :=
  match d with X1 => ie pG + 2 | X2 => je pG + 2 | X3 => ke pG + 2 end%Z.
End Sweeps.

(** The same configuration with the shearing box switched off. *)
Definition without_shearing_box (cfg : Config) : Config :=
  mkConfig (MHD cfg) (BAROTROPIC cfg) (SELF_GRAVITY cfg) (H_CORRECTION cfg)
           false (FARGO cfg) (NSCALARS cfg).

(** The limited quantity l_t of the MHD source terms, as the specification
    words it: with a = db_d, min(a, -db_t) clipped below by 0 when a >= 0,
    and max(a, -db_t) clipped above by 0 when a < 0. *)
Definition limited (a db_t : Real) : Real :=
  if Rle_dec 0 a then Rmax (Rmin a (- db_t)) 0
  else Rmin (Rmax a (- db_t)) 0.

(** The face-field differences of cell (k,j,i) along the three axes. *)
Definition db (pG : Grid) (d : axis) (k j i : Z) : Real :=
  match d with
  | X1 => (B1i pG k j (i+1)%Z - B1i pG k j i) * (1 / dx1 pG)
  | X2 => (B2i pG k (j+1)%Z i - B2i pG k j i) * (1 / dx2 pG)
  | X3 => (B3i pG (k+1)%Z j i - B3i pG k j i) * (1 / dx3 pG)
  end.

(** The velocity M_t / d of cell (k,j,i) along an axis. *)
Definition vel (pG : Grid) (t : axis) (k j i : Z) : Real :=
  match t with
  | X1 => Gas.M1 (U pG k j i) / Gas.d (U pG k j i)
  | X2 => Gas.M2 (U pG k j i) / Gas.d (U pG k j i)
  | X3 => Gas.M3 (U pG k j i) / Gas.d (U pG k j i)
  end.

(** The cell (k,j,i) at index [f] of the pencil (a, b) of the sweep along [d]. *)
Definition pencil_cell (d : axis) (a b f : Z) : pos :=
  match d with
  | X1 => (a, b, f)
  | X2 => (a, f, b)
  | X3 => (f, a, b)
  end.

Definition db_at (pG : Grid) (d : axis) (p : pos) : Real :=
  let '(k, j, i) := p in db pG d k j i.
Definition vel_at (pG : Grid) (t : axis) (p : pos) : Real :=
  let '(k, j, i) := p in vel pG t k j i.

(** The MHD source loop of the sweep along [d]. *)
Definition mhd_source_loop (pG : Grid) (d : axis) (a b : Z) (st : LR) : LR :=
  match d with
  | X1 => step1b_mhd pG a b st
  | X2 => step2b_mhd pG a b st
  | X3 => step3b_mhd pG a b st
  end.

(* ------------------------------------------------------------------ *)
(** ** Step 9: H-correction and the second Riemann sweep *)

(** Modelled from the spec: the macro MAX of defs.h, the larger of its two
    arguments ("the maximum of nine bracketing eta values"). *)
Definition MAX (a b : Real) : Real := if Rgt_dec a b then a else b.

(** The solvers and conversions of the other files.  The macro MHDARG passes
    the longitudinal field only when MHD is defined: an [option].  The flux
    routine reads the global [etah]: its first argument here. *)
Record Solver := mkSolver {
  cfast : Cons1D.t -> option Real -> Real;
  Cons1D_to_Prim1D : Cons1D.t -> option Real -> Prim1D.t;
  GET_FLUXES : Real -> Cons1D.t -> Cons1D.t -> Prim1D.t -> Prim1D.t ->
               option Real -> Cons1D.t
}.

(** The L/R face states and face fields as Steps 5 to 7 leave them, and the
    eta arrays. *)
Record Faces := mkFaces {
  Ul_x1Face : Arr3 Cons1D.t; Ur_x1Face : Arr3 Cons1D.t;
  Ul_x2Face : Arr3 Cons1D.t; Ur_x2Face : Arr3 Cons1D.t;
  Ul_x3Face : Arr3 Cons1D.t; Ur_x3Face : Arr3 Cons1D.t;
  B1_x1Face : Arr3 Real; B2_x2Face : Arr3 Real; B3_x3Face : Arr3 Real
}.

Arguments Ul_x1Face f (k j i)%_Z.
Arguments Ur_x1Face f (k j i)%_Z.
Arguments Ul_x2Face f (k j i)%_Z.
Arguments Ur_x2Face f (k j i)%_Z.
Arguments Ul_x3Face f (k j i)%_Z.
Arguments Ur_x3Face f (k j i)%_Z.
Arguments B1_x1Face f (k j i)%_Z.
Arguments B2_x2Face f (k j i)%_Z.
Arguments B3_x3Face f (k j i)%_Z.

Section Step9.
Variable cfg : Config.
Variable sol : Solver.
Variable pG : Grid.
Variable fc : Faces.

Definition MHDARG (b : Real) : option Real :=
  if MHD cfg then Some b else None.

(** *** Step 9a: eta1, eta2, eta3 *)
Definition step9a_eta1 (eta1 : Arr3 Real) : Arr3 Real :=
  cellwise (ks pG - 1) (ke pG + 1) (js pG - 1) (je pG + 1)
           (is_ pG - 1) (ie pG + 2)
    (fun k j i _ =>
       let cfr := cfast sol (Ur_x1Face fc k j i) (MHDARG (B1_x1Face fc k j i)) in
       let cfl := cfast sol (Ul_x1Face fc k j i) (MHDARG (B1_x1Face fc k j i)) in
       let lambdar := Cons1D.Mx (Ur_x1Face fc k j i)
                      / Cons1D.d (Ur_x1Face fc k j i) + cfr in
       let lambdal := Cons1D.Mx (Ul_x1Face fc k j i)
                      / Cons1D.d (Ul_x1Face fc k j i) - cfl in
       0.5 * Rabs (lambdar - lambdal)) eta1.

Definition step9a_eta2 (eta2 : Arr3 Real) : Arr3 Real :=
  cellwise (ks pG - 1) (ke pG + 1) (js pG - 1) (je pG + 2)
           (is_ pG - 1) (ie pG + 1)
    (fun k j i _ =>
       let cfr := cfast sol (Ur_x2Face fc k j i) (MHDARG (B2_x2Face fc k j i)) in
       let cfl := cfast sol (Ul_x2Face fc k j i) (MHDARG (B2_x2Face fc k j i)) in
       let lambdar := Cons1D.Mx (Ur_x2Face fc k j i)
                      / Cons1D.d (Ur_x2Face fc k j i) + cfr in
       let lambdal := Cons1D.Mx (Ul_x2Face fc k j i)
                      / Cons1D.d (Ul_x2Face fc k j i) - cfl in
       0.5 * Rabs (lambdar - lambdal)) eta2.

Definition step9a_eta3 (eta3 : Arr3 Real) : Arr3 Real :=
  cellwise (ks pG - 1) (ke pG + 2) (js pG - 1) (je pG + 1)
           (is_ pG - 1) (ie pG + 1)
    (fun k j i _ =>
       let cfr := cfast sol (Ur_x3Face fc k j i) (MHDARG (B3_x3Face fc k j i)) in
       let cfl := cfast sol (Ul_x3Face fc k j i) (MHDARG (B3_x3Face fc k j i)) in
       let lambdar := Cons1D.Mx (Ur_x3Face fc k j i)
                      / Cons1D.d (Ur_x3Face fc k j i) + cfr in
       let lambdal := Cons1D.Mx (Ul_x3Face fc k j i)
                      / Cons1D.d (Ul_x3Face fc k j i) - cfl in
       0.5 * Rabs (lambdar - lambdal)) eta3.

Variables eta1 eta2 eta3 : Arr3 Real.

(** *** Steps 9b-9d: the value of [etah] before each Riemann solve *)
Definition etah_x1 (k j i : Z) : Real :=
  let etah := MAX (eta2 k j (i-1)%Z) (eta2 k j i) in
  let etah := MAX etah (eta2 k (j+1)%Z (i-1)%Z) in
  let etah := MAX etah (eta2 k (j+1)%Z i) in
  let etah := MAX etah (eta3 k j (i-1)%Z) in
  let etah := MAX etah (eta3 k j i) in
  let etah := MAX etah (eta3 (k+1)%Z j (i-1)%Z) in
  let etah := MAX etah (eta3 (k+1)%Z j i) in
  MAX etah (eta1 k j i).

Definition etah_x2 (k j i : Z) : Real :=
  let etah := MAX (eta1 k (j-1)%Z i) (eta1 k j i) in
  let etah := MAX etah (eta1 k (j-1)%Z (i+1)%Z) in
  let etah := MAX etah (eta1 k j (i+1)%Z) in
  let etah := MAX etah (eta3 k (j-1)%Z i) in
  let etah := MAX etah (eta3 k j i) in
  let etah := MAX etah (eta3 (k+1)%Z (j-1)%Z i) in
  let etah := MAX etah (eta3 (k+1)%Z j i) in
  MAX etah (eta2 k j i).

Definition etah_x3 (k j i : Z) : Real :=
  let etah := MAX (eta1 (k-1)%Z j i) (eta1 k j i) in
  let etah := MAX etah (eta1 (k-1)%Z j (i+1)%Z) in
  let etah := MAX etah (eta1 k j (i+1)%Z) in
  let etah := MAX etah (eta2 (k-1)%Z j i) in
  let etah := MAX etah (eta2 k j i) in
  let etah := MAX etah (eta2 (k-1)%Z (j+1)%Z i) in
  let etah := MAX etah (eta2 k (j+1)%Z i) in
  MAX etah (eta3 k j i).

(** The global [etah] holds [etah0] on entry; without H_CORRECTION the
    integrator leaves it alone. *)
Variable etah0 : Real.

Definition riemann (etah : Real) (Ul Ur : Cons1D.t) (B : Real) : Cons1D.t :=
  let Wl := Cons1D_to_Prim1D sol Ul (MHDARG B) in
  let Wr := Cons1D_to_Prim1D sol Ur (MHDARG B) in
  GET_FLUXES sol etah Ul Ur Wl Wr (MHDARG B).

Definition step9b (x1Flux : Arr3 Cons1D.t) : Arr3 Cons1D.t :=
  cellwise (ks pG - 1) (ke pG + 1) (js pG - 1) (je pG + 1)
           (is_ pG) (ie pG + 1)
    (fun k j i _ =>
       let etah := if H_CORRECTION cfg then etah_x1 k j i else etah0 in
       riemann etah (Ul_x1Face fc k j i) (Ur_x1Face fc k j i)
               (B1_x1Face fc k j i)) x1Flux.

Definition step9c (x2Flux : Arr3 Cons1D.t) : Arr3 Cons1D.t :=
  cellwise (ks pG - 1) (ke pG + 1) (js pG) (je pG + 1)
           (is_ pG - 1) (ie pG + 1)
    (fun k j i _ =>
       let etah := if H_CORRECTION cfg then etah_x2 k j i else etah0 in
       riemann etah (Ul_x2Face fc k j i) (Ur_x2Face fc k j i)
               (B2_x2Face fc k j i)) x2Flux.

Definition step9d (x3Flux : Arr3 Cons1D.t) : Arr3 Cons1D.t :=
  cellwise (ks pG) (ke pG + 1) (js pG - 1) (je pG + 1)
           (is_ pG - 1) (ie pG + 1)
    (fun k j i _ =>
       let etah := if H_CORRECTION cfg then etah_x3 k j i else etah0 in
       riemann etah (Ul_x3Face fc k j i) (Ur_x3Face fc k j i)
               (B3_x3Face fc k j i)) x3Flux.
End Step9.

(** One step forward along an axis. *)
Definition fwd (a : axis) (p : pos) : pos :=
  let '(k, j, i) := p in
  match a with
  | X1 => (k, j, (i+1)%Z)
  | X2 => (k, (j+1)%Z, i)
  | X3 => ((k+1)%Z, j, i)
  end.

(** The nine eta values around the face [p] with normal [d], as the
    specification words them: the face's own eta, and for each of the two
    transverse axes t the four t-faces that bracket the face in the plane
    of d and t. *)
Definition bracket4 (eta : axis -> Arr3 Real) (d t : axis) (p : pos)
  : list Real :=
  [ at_pos (eta t) (back d p); at_pos (eta t) p;
    at_pos (eta t) (fwd t (back d p)); at_pos (eta t) (fwd t p) ].

Definition nine_etas (eta : axis -> Arr3 Real) (d : axis) (p : pos)
  : list Real :=
  at_pos (eta d) p ::
  bracket4 eta d (next d) p ++ bracket4 eta d (next (next d)) p.

Definition etas (eta1 eta2 eta3 : Arr3 Real) (a : axis) : Arr3 Real :=
  match a with X1 => eta1 | X2 => eta2 | X3 => eta3 end.

Definition etah_of (eta1 eta2 eta3 : Arr3 Real) (d : axis) (p : pos) : Real :=
  let '(k, j, i) := p in
  match d with
  | X1 => etah_x1 eta1 eta2 eta3 k j i
  | X2 => etah_x2 eta1 eta2 eta3 k j i
  | X3 => etah_x3 eta1 eta2 eta3 k j i
  end.

(** [m] is the maximum of the list [l]. *)
Definition is_max_of (m : Real) (l : list Real) : Prop :=
  In m l /\ forall x, In x l -> x <= m.

(* ------------------------------------------------------------------ *)
(** ** integrate_init_3d and integrate_destruct_3d

    The module-level pointers are the [slot]s.  A pointer is NULL, or points
    to a block of some shape that is live or has been freed.  The allocator
    is an oracle: [fails n] says that the n-th allocation request of the
    call returns NULL.  Addresses are not modelled: a pointer is described
    by the block it points to, so that two pointers to distinct blocks of
    one shape are the same value here, and no statement below is one about
    addresses. *)

Inductive elem := SzReal | SzCons1D | SzPrim1D.

Inductive shape :=
| Shape3 (n3 n2 n1 : Z) (e : elem)     (* calloc_3d_array(n3, n2, n1, size) *)
| Shape2 (n2 n1 : Z) (e : elem)        (* calloc_2d_array(n2, n1, size) *)
| Shape1 (n : Z) (e : elem).           (* malloc(n * size) *)

Inductive ptr :=
| NULL
| Block (live : bool) (sh : shape).

Inductive slot :=
| p_emf1 | p_emf2 | p_emf3 | p_emf1_cc | p_emf2_cc | p_emf3_cc
| p_eta1 | p_eta2 | p_eta3
| p_Bxc | p_Bxi | p_B1_x1Face | p_B2_x2Face | p_B3_x3Face
| p_U1d | p_W | p_Wl | p_Wr
| p_Ul_x1Face | p_Ur_x1Face | p_Ul_x2Face | p_Ur_x2Face
| p_Ul_x3Face | p_Ur_x3Face
| p_x1Flux | p_x2Flux | p_x3Flux
| p_dhalf | p_phalf
| p_remapEyiib | p_remapEyoib.

Definition slot_eq_dec (a b : slot) : {a = b} + {a <> b}.
Proof. decide equality. Defined.

Definition Statics := slot -> ptr.

Definition set_ptr (st : Statics) (sl : slot) (p : ptr) : Statics :=
  fun sl' => if slot_eq_dec sl' sl then p else st sl'.

(** Every static pointer is initialised to NULL. *)
Definition statics_init : Statics := fun _ => NULL.

(** How a call ends: by [return], or inside ath_error. *)
Inductive outcome :=
| Returned (st : Statics)
| Exited (msg : string) (st : Statics).

(** [if ((p = alloc(shape)) == NULL) goto on_error;] for each request of the
    list in turn.  [n] counts the requests made so far.  The result is the
    state of the pointers, and whether control reached on_error. *)
Fixpoint alloc_all (fails : nat -> bool) (reqs : list (slot * shape))
    (n : nat) (st : Statics) : bool * Statics :=
  match reqs with
  | [] => (true, st)
  | (sl, sh) :: rest =>
      if fails n then (false, set_ptr st sl NULL)
      else alloc_all fails rest (Datatypes.S n) (set_ptr st sl (Block true sh))
  end.

(** [if (p != NULL) free...(p);] for each pointer of the list in turn.  The
    pointer itself keeps its value. *)
Fixpoint free_all (sls : list slot) (st : Statics) : Statics :=
  match sls with
  | [] => st
  | sl :: rest =>
      free_all rest
        (match st sl with
         | NULL => st
         | Block _ sh => set_ptr st sl (Block false sh)
         end)
  end.

Section Init.
Variable cfg : Config.
Variable gl : Globals.

(** The pointers that integrate_destruct_3d tests and frees, in source
    order. *)
Definition destruct_slots : list slot :=
  (if MHD cfg
   then [p_emf1; p_emf2; p_emf3; p_emf1_cc; p_emf2_cc; p_emf3_cc]
   else []) ++
  (if H_CORRECTION cfg then [p_eta1; p_eta2; p_eta3] else []) ++
  (if MHD cfg
   then [p_Bxc; p_Bxi; p_B1_x1Face; p_B2_x2Face; p_B3_x3Face]
   else []) ++
  [p_U1d; p_W; p_Wl; p_Wr;
   p_Ul_x1Face; p_Ur_x1Face; p_Ul_x2Face; p_Ur_x2Face;
   p_Ul_x3Face; p_Ur_x3Face; p_x1Flux; p_x2Flux; p_x3Flux;
   p_dhalf; p_phalf] ++
  (if SHEARING_BOX cfg then [p_remapEyiib; p_remapEyoib] else []).

Definition integrate_destruct_3d (st : Statics) : Statics :=
  free_all destruct_slots st.

(** Modelled from the spec: integrate_destruct() of integrate.c, the
    "destroy()" operation that releases the scratch arrays; for the 3D
    integrator it is integrate_destruct_3d. *)
Definition integrate_destruct (st : Statics) : Statics :=
  integrate_destruct_3d st.

(** Modelled from the spec: ath_error() of utils.c, the fatal error that
    prints its message and aborts the process; it does not return. *)
Definition ath_error (msg : string) (st : Statics) : outcome :=
  Exited msg st.

Definition init_error_message : string :=
  ("[integrate_init]: malloc returned a NULL pointer"
     ++ String (Ascii.ascii_of_nat 10) EmptyString)%string.

(** The allocation requests of integrate_init_3d, in source order. *)
Definition init_requests (nx1 nx2 nx3 : Z) : list (slot * shape) :=
  let Nx1 := (nx1 + 2 * nghost gl)%Z in
  let Nx2 := (nx2 + 2 * nghost gl)%Z in
  let Nx3 := (nx3 + 2 * nghost gl)%Z in
  let nmax := Z.max (Z.max Nx1 Nx2) Nx3 in   (* MAX(MAX(Nx1,Nx2),Nx3) on ints *)
  (if MHD cfg then
     [ (p_emf1, Shape3 Nx3 Nx2 Nx1 SzReal);
       (p_emf2, Shape3 Nx3 Nx2 Nx1 SzReal);
       (p_emf3, Shape3 Nx3 Nx2 Nx1 SzReal);
       (p_emf1_cc, Shape3 Nx3 Nx2 Nx1 SzReal);
       (p_emf2_cc, Shape3 Nx3 Nx2 Nx1 SzReal);
       (p_emf3_cc, Shape3 Nx3 Nx2 Nx1 SzReal) ]
   else []) ++
  (if H_CORRECTION cfg then
     [ (p_eta1, Shape3 Nx3 Nx2 Nx1 SzReal);
       (p_eta2, Shape3 Nx3 Nx2 Nx1 SzReal);
       (p_eta3, Shape3 Nx3 Nx2 Nx1 SzReal) ]
   else []) ++
  (if MHD cfg then
     [ (p_Bxc, Shape1 nmax SzReal);
       (p_Bxi, Shape1 nmax SzReal);
       (p_B1_x1Face, Shape3 Nx3 Nx2 Nx1 SzReal);
       (p_B2_x2Face, Shape3 Nx3 Nx2 Nx1 SzReal);
       (p_B3_x3Face, Shape3 Nx3 Nx2 Nx1 SzReal) ]
   else []) ++
  [ (p_U1d, Shape1 nmax SzCons1D);
    (p_W, Shape1 nmax SzPrim1D);
    (p_Wl, Shape1 nmax SzPrim1D);
    (p_Wr, Shape1 nmax SzPrim1D);
    (p_Ul_x1Face, Shape3 Nx3 Nx2 Nx1 SzCons1D);
    (p_Ur_x1Face, Shape3 Nx3 Nx2 Nx1 SzCons1D);
    (p_Ul_x2Face, Shape3 Nx3 Nx2 Nx1 SzCons1D);
    (p_Ur_x2Face, Shape3 Nx3 Nx2 Nx1 SzCons1D);
    (p_Ul_x3Face, Shape3 Nx3 Nx2 Nx1 SzCons1D);
    (p_Ur_x3Face, Shape3 Nx3 Nx2 Nx1 SzCons1D);
    (p_x1Flux, Shape3 Nx3 Nx2 Nx1 SzCons1D);
    (p_x2Flux, Shape3 Nx3 Nx2 Nx1 SzCons1D);
    (p_x3Flux, Shape3 Nx3 Nx2 Nx1 SzCons1D) ] ++
  (if MHD cfg
      || (match StaticGravPot gl with Some _ => true | None => false end)
      || (match CoolingFunc gl with Some _ => true | None => false end)
   then
     [ (p_dhalf, Shape3 Nx3 Nx2 Nx1 SzReal);
       (p_phalf, Shape3 Nx3 Nx2 Nx1 SzReal) ]
   else []) ++
  (if SHEARING_BOX cfg then
     [ (p_remapEyiib, Shape2 Nx3 Nx2 SzReal);
       (p_remapEyoib, Shape2 Nx3 Nx2 SzReal) ]
   else []).

Definition integrate_init_3d (fails : nat -> bool) (nx1 nx2 nx3 : Z)
    (st : Statics) : outcome :=
  match alloc_all fails (init_requests nx1 nx2 nx3) 0 st with
  | (true, st') => Returned st'
  | (false, st') =>
      (* on_error: *)
      ath_error init_error_message (integrate_destruct st')
  end.
End Init.

(** A pointer to a live block. *)
Definition is_live (p : ptr) : bool :=
  match p with Block true _ => true | _ => false end.

(** The first request that fails is the [n]-th. *)
Definition first_failure (fails : nat -> bool) (n : nat) : Prop :=
  fails n = true /\ forall m, (m < n)%nat -> fails m = false.

(** The H-correction wave-speed difference across one face, as the
    specification words it. *)
Definition eta_of (cfg : Config) (sol : Solver) (Ul Ur : Cons1D.t) (Bx : Real)
  : Real :=
  let lambda_R := Cons1D.Mx Ur / Cons1D.d Ur + cfast sol Ur (MHDARG cfg Bx) in
  let lambda_L := Cons1D.Mx Ul / Cons1D.d Ul - cfast sol Ul (MHDARG cfg Bx) in
  0.5 * Rabs (lambda_R - lambda_L).

(** The reading of "the diagnostic message identifies the failed
    allocation": the index of the request that failed can be recovered from
    the message. *)
Definition message_identifies_failed_allocation (cfg : Config) (gl : Globals)
    (nx1 nx2 nx3 : Z) : Prop :=
  exists failed_of : string -> nat,
    forall (fails : nat -> bool) (n : nat) (msg : string) (st' : Statics),
      first_failure fails n ->
      (n < List.length (init_requests cfg gl nx1 nx2 nx3))%nat ->
      integrate_init_3d cfg gl fails nx1 nx2 nx3 statics_init = Exited msg st' ->
      failed_of msg = n.

(* ------------------------------------------------------------------ *)
(** ** A small concrete grid, used to exercise the statements below *)

Definition ex_gas : Gas.t := Gas.mk 1 1 0 0 1 0 0 0 (fun _ => 2).
Definition ex_cons : Cons1D.t := Cons1D.mk 0 0 0 0 0 0 0 (fun _ => 0).
Definition ex_prim : Prim1D.t := Prim1D.mk 1 0 1 0 1 0 0 (fun _ => 0).

(** A 2 x 2 x 2 block of cells with unit spacing and a non-uniform field. *)
Definition ex_grid : Grid :=
  mkGrid (fun _ _ _ => ex_gas)
         (fun k j i => IZR i) (fun k j i => IZR (k - j)) (fun k j i => - IZR k)
         (fun _ _ _ => 0)
         (fun _ _ _ => 0) (fun _ _ _ => 0) (fun _ _ _ => 0)
         1 0 1 1 1
         0 1 0 1 0 1.

Definition ex_domain : Domain := mkDomain 1.

Definition ex_extern : Extern :=
  mkExtern (fun _ i j k => (IZR i, IZR j, IZR k))
           (fun _ _ => (0, 0, 0)%Z)
           (fun _ _ _ b => b) (fun _ _ _ b => b).

Definition ex_emf : Arr3 Real := fun k j i => IZR (k * j + i).

Definition ex_scratch : Scratch :=
  mkScratch (fun _ _ _ => ex_cons) (fun _ _ _ => ex_cons) (fun _ _ _ => ex_cons)
            ex_emf ex_emf ex_emf
            (fun _ _ _ => 0) (fun _ _ _ => 0) (fun _ _ _ => 0)
            (fun _ _ _ => 1) (fun _ _ _ => 1)
            (fun _ _ => 0) (fun _ _ => 0).

(** No gravity, no cooling; four ghost cells; Omega = 2. *)
Definition ex_globals : Globals := mkGlobals 4 2 (2 / 3) 1 0 None None.

(** The same with the static potential phi = 0. *)
Definition ex_globals_pot : Globals :=
  mkGlobals 4 2 (2 / 3) 1 0 (Some (fun _ _ _ => 0)) None.

(** Adiabatic MHD with the H-correction and one passive scalar. *)
Definition ex_cfg_mhd : Config := mkConfig true false false true false false 1.

(** Barotropic hydrodynamics in the shearing box, with FARGO. *)
Definition ex_cfg_shear : Config := mkConfig false true false false true true 0.

Definition ex_lr : LR := mkLR (fun _ => ex_prim) (fun _ => ex_prim).

Definition ex_solver : Solver :=
  mkSolver (fun _ _ => 1) (fun _ _ => ex_prim) (fun _ _ _ _ _ _ => ex_cons).

Definition ex_faces : Faces :=
  mkFaces (fun _ _ _ => ex_cons) (fun _ _ _ => ex_cons)
          (fun _ _ _ => ex_cons) (fun _ _ _ => ex_cons)
          (fun _ _ _ => ex_cons) (fun _ _ _ => ex_cons)
          (fun _ _ _ => 0) (fun _ _ _ => 0) (fun _ _ _ => 0).

(* ------------------------------------------------------------------ *)
(** ** Sums over index ranges, and totals over the interior cells *)

(** [f lo + f (lo+1) + ...], [n] terms. *)
Fixpoint sum_n (n : nat) (lo : Z) (f : Z -> Real) : Real :=
  match n with
  | O => 0
  | Datatypes.S m => f lo + sum_n m (lo + 1)%Z f
  end.

(** The sum of [f i] for lo <= i <= hi. *)
Definition sum_range (lo hi : Z) (f : Z -> Real) : Real :=
  sum_n (Z.to_nat (hi + 1 - lo)) lo f.

(** The sum of a cell quantity over the interior cells of the grid. *)
Definition sum_interior (pG : Grid) (q : Z -> Z -> Z -> Real) : Real :=
  sum_range (ks pG) (ke pG) (fun k =>
    sum_range (js pG) (je pG) (fun j =>
      sum_range (is_ pG) (ie pG) (fun i => q k j i))).

(** The discrete divergence of three face-centred quantities at the cell
    (k,j,i): per axis, (dt/dx) * (value at the upper face - value at the
    lower face). *)
Definition face_divergence (pG : Grid) (G1 G2 G3 : Z -> Z -> Z -> Real)
    (k j i : Z) : Real :=
  dt pG / dx1 pG * (G1 k j (i+1)%Z - G1 k j i) +
  dt pG / dx2 pG * (G2 k (j+1)%Z i - G2 k j i) +
  dt pG / dx3 pG * (G3 (k+1)%Z j i - G3 k j i).

(** The net outflow of three face-centred quantities through the boundary
    of the block of interior cells: the sum over the upper boundary faces
    minus the sum over the lower boundary faces, per axis, weighted by
    dt/dx. *)
Definition boundary_outflow (pG : Grid) (G1 G2 G3 : Z -> Z -> Z -> Real)
  : Real :=
  dt pG / dx1 pG *
    sum_range (ks pG) (ke pG) (fun k => sum_range (js pG) (je pG) (fun j =>
      G1 k j (ie pG + 1)%Z - G1 k j (is_ pG))) +
  dt pG / dx2 pG *
    sum_range (ks pG) (ke pG) (fun k => sum_range (is_ pG) (ie pG) (fun i =>
      G2 k (je pG + 1)%Z i - G2 k (js pG) i)) +
  dt pG / dx3 pG *
    sum_range (js pG) (je pG) (fun j => sum_range (is_ pG) (ie pG) (fun i =>
      G3 (ke pG + 1)%Z j i - G3 (ks pG) j i)).

(** The net flux of the quantities [q1], [q2], [q3] (one per sweep
    direction) out of the block of interior cells. *)
Definition boundary_flux (sc : Scratch) (pG : Grid)
    (q1 q2 q3 : Cons1D.t -> Real) : Real :=
  boundary_outflow pG (fun k j i => q1 (x1Flux sc k j i))
                      (fun k j i => q2 (x2Flux sc k j i))
                      (fun k j i => q3 (x3Flux sc k j i)).

(** The gravitational stress that Step 11b uses at the lower x1-face of the
    cell (k,j,i), as the triple (flx_m1l, flx_m2l, flx_m3l) of the source. *)
Definition grav_stress_x1 (gl : Globals) (pG : Grid) (k j i : Z)
  : Real * Real * Real :=
  let Phi := Phi pG in
  let dx1i := 1 / dx1 pG in
  let dx2i := 1 / dx2 pG in
  let dx3i := 1 / dx3 pG in
  let phil := 0.5 * (Phi k j (i-1)%Z + Phi k j i) in
  let gxl := (Phi k j (i-1)%Z - Phi k j i) * dx1i in
  let gyl := 0.25 * ((Phi k (j-1)%Z (i-1)%Z - Phi k (j+1)%Z (i-1)%Z) +
                     (Phi k (j-1)%Z i - Phi k (j+1)%Z i)) * dx2i in
  let gzl := 0.25 * ((Phi (k-1)%Z j (i-1)%Z - Phi (k+1)%Z j (i-1)%Z) +
                     (Phi (k-1)%Z j i - Phi (k+1)%Z j i)) * dx3i in
  (0.5 * (gxl*gxl - gyl*gyl - gzl*gzl) / four_pi_G gl + grav_mean_rho gl * phil,
   gxl * gyl / four_pi_G gl,
   gxl * gzl / four_pi_G gl).

(** The same at the lower x2-face of the cell (k,j,i). *)
Definition grav_stress_x2 (gl : Globals) (pG : Grid) (k j i : Z)
  : Real * Real * Real :=
  let Phi := Phi pG in
  let dx1i := 1 / dx1 pG in
  let dx2i := 1 / dx2 pG in
  let dx3i := 1 / dx3 pG in
  let phil := 0.5 * (Phi k (j-1)%Z i + Phi k j i) in
  let gxl := 0.25 * ((Phi k (j-1)%Z (i-1)%Z - Phi k (j-1)%Z (i+1)%Z) +
                     (Phi k j (i-1)%Z - Phi k j (i+1)%Z)) * dx1i in
  let gyl := (Phi k (j-1)%Z i - Phi k j i) * dx2i in
  let gzl := 0.25 * ((Phi (k-1)%Z (j-1)%Z i - Phi (k+1)%Z (j-1)%Z i) +
                     (Phi (k-1)%Z j i - Phi (k+1)%Z j i)) * dx3i in
  (gyl * gxl / four_pi_G gl,
   0.5 * (gyl*gyl - gxl*gxl - gzl*gzl) / four_pi_G gl + grav_mean_rho gl * phil,
   gyl * gzl / four_pi_G gl).

(** The same at the lower x3-face of the cell (k,j,i). *)
Definition grav_stress_x3 (gl : Globals) (pG : Grid) (k j i : Z)
  : Real * Real * Real :=
  let Phi := Phi pG in
  let dx1i := 1 / dx1 pG in
  let dx2i := 1 / dx2 pG in
  let dx3i := 1 / dx3 pG in
  let phil := 0.5 * (Phi (k-1)%Z j i + Phi k j i) in
  let gxl := 0.25 * ((Phi (k-1)%Z j (i-1)%Z - Phi (k-1)%Z j (i+1)%Z) +
                     (Phi k j (i-1)%Z - Phi k j (i+1)%Z)) * dx1i in
  let gyl := 0.25 * ((Phi (k-1)%Z (j-1)%Z i - Phi (k-1)%Z (j+1)%Z i) +
                     (Phi k (j-1)%Z i - Phi k (j+1)%Z i)) * dx2i in
  let gzl := (Phi (k-1)%Z j i - Phi k j i) * dx3i in
  (gzl * gxl / four_pi_G gl,
   gzl * gyl / four_pi_G gl,
   0.5 * (gzl*gzl - gxl*gxl - gyl*gyl) / four_pi_G gl + grav_mean_rho gl * phil).

(** The three components of a stress triple. *)
Definition m1_of (t : Real * Real * Real) : Real := fst (fst t).
Definition m2_of (t : Real * Real * Real) : Real := snd (fst t).
Definition m3_of (t : Real * Real * Real) : Real := snd t.

(** The index ranges of the grid are not inverted. *)
Definition ranges_ok (pG : Grid) : Prop :=
  (is_ pG <= ie pG + 1)%Z /\ (js pG <= je pG + 1)%Z /\ (ks pG <= ke pG + 1)%Z.

(** Neither the shearing box nor a static gravitational potential. *)
Definition no_static_gravity (cfg : Config) (gl : Globals) : Prop :=
  SHEARING_BOX cfg = false /\ StaticGravPot gl = None.

(** The total over the interior cells of one field of the cell state. *)
Definition total (pG : Grid) (q : Gas.t -> Real) (g : Grid) : Real :=
  sum_interior pG (fun k j i => q (U g k j i)).

(** The gravitational stress components that enter the momentum [m]
    (one of [m1_of], [m2_of], [m3_of]) on the x1-, x2- and x3-faces. *)
Definition boundary_stress (gl : Globals) (pG : Grid)
    (m : Real * Real * Real -> Real) : Real :=
  boundary_outflow pG (fun k j i => m (grav_stress_x1 gl pG k j i))
                      (fun k j i => m (grav_stress_x2 gl pG k j i))
                      (fun k j i => m (grav_stress_x3 gl pG k j i)).

(** The divergence of the gravitational stress that enters momentum [m]. *)
Definition stress_divergence (gl : Globals) (pG : Grid)
    (m : Real * Real * Real -> Real) : Z -> Z -> Z -> Real :=
  face_divergence pG (fun k j i => m (grav_stress_x1 gl pG k j i))
                     (fun k j i => m (grav_stress_x2 gl pG k j i))
                     (fun k j i => m (grav_stress_x3 gl pG k j i)).

(* ------------------------------------------------------------------ *)
(** ** Step 9 as a whole *)

(** Step 9a (under H_CORRECTION) followed by Steps 9b, 9c and 9d: the three
    flux arrays, from the contents of the eta and flux arrays on entry. *)
Definition step9 (cfg : Config) (sol : Solver) (pG : Grid) (fc : Faces)
    (etah0 : Real) (eta1 eta2 eta3 : Arr3 Real)
    (x1Flux x2Flux x3Flux : Arr3 Cons1D.t)
  : Arr3 Cons1D.t * Arr3 Cons1D.t * Arr3 Cons1D.t :=
  let eta1 := if H_CORRECTION cfg then step9a_eta1 cfg sol pG fc eta1 else eta1 in
  let eta2 := if H_CORRECTION cfg then step9a_eta2 cfg sol pG fc eta2 else eta2 in
  let eta3 := if H_CORRECTION cfg then step9a_eta3 cfg sol pG fc eta3 else eta3 in
  (step9b cfg sol pG fc eta1 eta2 eta3 etah0 x1Flux,
   step9c cfg sol pG fc eta1 eta2 eta3 etah0 x2Flux,
   step9d cfg sol pG fc eta1 eta2 eta3 etah0 x3Flux).

(** The ranges of the loops of Steps 9b, 9c and 9d. *)
Definition in_step9b (pG : Grid) (k j i : Z) : bool :=
  in_box (ks pG - 1) (ke pG + 1) (js pG - 1) (je pG + 1) (is_ pG) (ie pG + 1)
         k j i.
Definition in_step9c (pG : Grid) (k j i : Z) : bool :=
  in_box (ks pG - 1) (ke pG + 1) (js pG) (je pG + 1) (is_ pG - 1) (ie pG + 1)
         k j i.
Definition in_step9d (pG : Grid) (k j i : Z) : bool :=
  in_box (ks pG) (ke pG + 1) (js pG - 1) (je pG + 1) (is_ pG - 1) (ie pG + 1)
         k j i.

(** The range of the loops of Steps 8a and 8b. *)
Definition in_step8 (pG : Grid) (k j i : Z) : bool :=
  in_box (ks pG - 1) (ke pG + 1) (js pG - 1) (je pG + 1)
         (is_ pG - 1) (ie pG + 1) k j i.

(** Is the function pointer set? *)
Definition not_NULL {A : Type} (p : option A) : bool :=
  match p with Some _ => true | None => false end.

(** Do Steps 10 to 12 read dhalf, phalf under this configuration?  Step 11a
    reads dhalf with a static potential; Step 11c reads both with cooling. *)
Definition reads_phalf (cfg : Config) (gl : Globals) : bool :=
  negb (BAROTROPIC cfg) && not_NULL (CoolingFunc gl).
Definition reads_dhalf (cfg : Config) (gl : Globals) : bool :=
  not_NULL (StaticGravPot gl) || reads_phalf cfg gl.

(** Two sets of scratch arrays hold the same values wherever Steps 8 and 9
    store: the fluxes in the loop ranges of Steps 9b-9d, and (where the
    configuration has them read) dhalf, phalf and the cell-centred EMFs in
    the loop range of Step 8.  Elsewhere, and in the corner EMF arrays, they
    may differ. *)
Definition fresh_agree (cfg : Config) (gl : Globals) (pG : Grid)
    (sc sc' : Scratch) : Prop :=
  (forall k j i, in_step9b pG k j i = true ->
     x1Flux sc k j i = x1Flux sc' k j i) /\
  (forall k j i, in_step9c pG k j i = true ->
     x2Flux sc k j i = x2Flux sc' k j i) /\
  (forall k j i, in_step9d pG k j i = true ->
     x3Flux sc k j i = x3Flux sc' k j i) /\
  (MHD cfg = true ->
   forall k j i, in_step8 pG k j i = true ->
     emf1_cc sc k j i = emf1_cc sc' k j i /\
     emf2_cc sc k j i = emf2_cc sc' k j i /\
     emf3_cc sc k j i = emf3_cc sc' k j i) /\
  (reads_dhalf cfg gl = true ->
   forall k j i, in_step8 pG k j i = true ->
     dhalf sc k j i = dhalf sc' k j i) /\
  (reads_phalf cfg gl = true ->
   forall k j i, in_step8 pG k j i = true ->
     phalf sc k j i = phalf sc' k j i).

(** Two grids hold the same cell states, face fields and saved mass fluxes. *)
Definition grid_agree (g g' : Grid) : Prop :=
  forall k j i : Z,
    U g k j i = U g' k j i /\
    B1i g k j i = B1i g' k j i /\
    B2i g k j i = B2i g' k j i /\
    B3i g k j i = B3i g' k j i /\
    x1MassFlux g k j i = x1MassFlux g' k j i /\
    x2MassFlux g k j i = x2MassFlux g' k j i /\
    x3MassFlux g k j i = x3MassFlux g' k j i.

(* ------------------------------------------------------------------ *)
(** ** The pointers after integrate_destruct_3d *)

(** What [if (p != NULL) free(p);] leaves of a pointer: NULL stays NULL, and
    a pointer to a block still points to it, the block being dead. *)
Definition freed (p : ptr) : ptr :=
  match p with
  | NULL => NULL
  | Block _ sh => Block false sh
  end.

(* ------------------------------------------------------------------ *)
(** ** Further concrete data *)

(** Adiabatic hydrodynamics with self-gravity. *)
Definition ex_cfg_selfg : Config :=
  mkConfig false false true false false false 0.

(** Scratch arrays as a previous call could have left them: where Steps 8
    and 9 of this call store they hold the values of [ex_scratch]; the
    fluxes outside these ranges and the corner EMFs hold other values. *)
Definition ex_scratch_stale : Scratch :=
  let stale := Cons1D.mk 7 7 7 7 7 7 7 (fun _ => 7) in
  mkScratch
    (fun k j i => if in_step9b ex_grid k j i then ex_cons else stale)
    (fun k j i => if in_step9c ex_grid k j i then ex_cons else stale)
    (fun k j i => if in_step9d ex_grid k j i then ex_cons else stale)
    (fun _ _ _ => 7) (fun _ _ _ => 7) (fun _ _ _ => 7)
    (emf1_cc ex_scratch) (emf2_cc ex_scratch) (emf3_cc ex_scratch)
    (dhalf ex_scratch) (phalf ex_scratch)
    (remapEyiib ex_scratch) (remapEyoib ex_scratch).

(** Fluxes that vary along the index [c]: a mass flux c/4, momentum and
    energy fluxes c, 2c, 3c and 5c, and a scalar flux that is twice the mass
    flux. *)
Definition ex_flux (c : Z -> Z -> Z -> Z) : Arr3 Cons1D.t :=
  fun k j i =>
    Cons1D.mk (IZR (c k j i) / 4) (IZR (c k j i)) (2 * IZR (c k j i))
              (3 * IZR (c k j i)) (5 * IZR (c k j i)) 0 0
              (fun _ => IZR (c k j i) / 2).

(** Scratch arrays whose x1-, x2- and x3-fluxes vary along their axis. *)
Definition ex_scratch_flux : Scratch :=
  mkScratch (ex_flux (fun k j i => i)) (ex_flux (fun k j i => j))
            (ex_flux (fun k j i => k))
            ex_emf ex_emf ex_emf
            (emf1_cc ex_scratch) (emf2_cc ex_scratch) (emf3_cc ex_scratch)
            (dhalf ex_scratch) (phalf ex_scratch)
            (remapEyiib ex_scratch) (remapEyoib ex_scratch).

(** The grid [ex_grid] with a gravitational potential that is not linear
    in the indices. *)
Definition ex_grid_phi : Grid :=
  mkGrid (U ex_grid) (B1i ex_grid) (B2i ex_grid) (B3i ex_grid)
         (fun k j i => IZR (i * i + j * k))
         (x1MassFlux ex_grid) (x2MassFlux ex_grid) (x3MassFlux ex_grid)
         (dt ex_grid) (time ex_grid) (dx1 ex_grid) (dx2 ex_grid) (dx3 ex_grid)
         (is_ ex_grid) (ie ex_grid) (js ex_grid) (je ex_grid)
         (ks ex_grid) (ke ex_grid).

(* ------------------------------------------------------------------ *)
(** ** Steps 1 to 9 of integrate_3d_ctu: the stores to the scratch arrays

    Steps 1 to 9 are embedded statement by statement.  A loop nest that
    stores to several arrays is a nest over a state that holds these arrays;
    the arrays it only reads are arguments.  The element [a[k][j][i]] that a
    loop body updates in place is a local value of the body, written back
    when the body ends. *)

(** The comparisons of two reals, as booleans. *)
Definition Rgtb (a b : Real) : bool := if Rgt_dec a b then true else false.
Definition Rltb (a b : Real) : bool := if Rlt_dec a b then true else false.

(** Stores to the members of a [Cons1D]. *)
Module ConsU.
Definition set_d (u : Cons1D.t) (v : Real) : Cons1D.t :=
  Cons1D.mk v (Cons1D.Mx u) (Cons1D.My u) (Cons1D.Mz u) (Cons1D.E u)
            (Cons1D.By u) (Cons1D.Bz u) (Cons1D.s u).
Definition set_Mx (u : Cons1D.t) (v : Real) : Cons1D.t :=
  Cons1D.mk (Cons1D.d u) v (Cons1D.My u) (Cons1D.Mz u) (Cons1D.E u)
            (Cons1D.By u) (Cons1D.Bz u) (Cons1D.s u).
Definition set_My (u : Cons1D.t) (v : Real) : Cons1D.t :=
  Cons1D.mk (Cons1D.d u) (Cons1D.Mx u) v (Cons1D.Mz u) (Cons1D.E u)
            (Cons1D.By u) (Cons1D.Bz u) (Cons1D.s u).
Definition set_Mz (u : Cons1D.t) (v : Real) : Cons1D.t :=
  Cons1D.mk (Cons1D.d u) (Cons1D.Mx u) (Cons1D.My u) v (Cons1D.E u)
            (Cons1D.By u) (Cons1D.Bz u) (Cons1D.s u).
Definition set_E (u : Cons1D.t) (v : Real) : Cons1D.t :=
  Cons1D.mk (Cons1D.d u) (Cons1D.Mx u) (Cons1D.My u) (Cons1D.Mz u) v
            (Cons1D.By u) (Cons1D.Bz u) (Cons1D.s u).
Definition set_By (u : Cons1D.t) (v : Real) : Cons1D.t :=
  Cons1D.mk (Cons1D.d u) (Cons1D.Mx u) (Cons1D.My u) (Cons1D.Mz u)
            (Cons1D.E u) v (Cons1D.Bz u) (Cons1D.s u).
Definition set_Bz (u : Cons1D.t) (v : Real) : Cons1D.t :=
  Cons1D.mk (Cons1D.d u) (Cons1D.Mx u) (Cons1D.My u) (Cons1D.Mz u)
            (Cons1D.E u) (Cons1D.By u) v (Cons1D.s u).
Definition set_s (u : Cons1D.t) (v : nat -> Real) : Cons1D.t :=
  Cons1D.mk (Cons1D.d u) (Cons1D.Mx u) (Cons1D.My u) (Cons1D.Mz u)
            (Cons1D.E u) (Cons1D.By u) (Cons1D.Bz u) v.
End ConsU.

(** [for k for j for i  body k j i], over any state. *)
Definition nest {S : Type} (klo khi jlo jhi ilo ihi : Z)
    (body : Z -> Z -> Z -> S -> S) (s : S) : S :=
  for_loop klo khi (fun k =>
    for_loop jlo jhi (fun j =>
      for_loop ilo ihi (fun i => body k j i))) s.

(** Stores to the members of [Faces]. *)
Definition set_Ul_x1Face (f : Faces) (a : Arr3 Cons1D.t) : Faces :=
  mkFaces a (Ur_x1Face f) (Ul_x2Face f) (Ur_x2Face f) (Ul_x3Face f)
          (Ur_x3Face f) (B1_x1Face f) (B2_x2Face f) (B3_x3Face f).
Definition set_Ur_x1Face (f : Faces) (a : Arr3 Cons1D.t) : Faces :=
  mkFaces (Ul_x1Face f) a (Ul_x2Face f) (Ur_x2Face f) (Ul_x3Face f)
          (Ur_x3Face f) (B1_x1Face f) (B2_x2Face f) (B3_x3Face f).
Definition set_Ul_x2Face (f : Faces) (a : Arr3 Cons1D.t) : Faces :=
  mkFaces (Ul_x1Face f) (Ur_x1Face f) a (Ur_x2Face f) (Ul_x3Face f)
          (Ur_x3Face f) (B1_x1Face f) (B2_x2Face f) (B3_x3Face f).
Definition set_Ur_x2Face (f : Faces) (a : Arr3 Cons1D.t) : Faces :=
  mkFaces (Ul_x1Face f) (Ur_x1Face f) (Ul_x2Face f) a (Ul_x3Face f)
          (Ur_x3Face f) (B1_x1Face f) (B2_x2Face f) (B3_x3Face f).
Definition set_Ul_x3Face (f : Faces) (a : Arr3 Cons1D.t) : Faces :=
  mkFaces (Ul_x1Face f) (Ur_x1Face f) (Ul_x2Face f) (Ur_x2Face f) a
          (Ur_x3Face f) (B1_x1Face f) (B2_x2Face f) (B3_x3Face f).
Definition set_Ur_x3Face (f : Faces) (a : Arr3 Cons1D.t) : Faces :=
  mkFaces (Ul_x1Face f) (Ur_x1Face f) (Ul_x2Face f) (Ur_x2Face f)
          (Ul_x3Face f) a (B1_x1Face f) (B2_x2Face f) (B3_x3Face f).
Definition set_B1_x1Face (f : Faces) (a : Arr3 Real) : Faces :=
  mkFaces (Ul_x1Face f) (Ur_x1Face f) (Ul_x2Face f) (Ur_x2Face f)
          (Ul_x3Face f) (Ur_x3Face f) a (B2_x2Face f) (B3_x3Face f).
Definition set_B2_x2Face (f : Faces) (a : Arr3 Real) : Faces :=
  mkFaces (Ul_x1Face f) (Ur_x1Face f) (Ul_x2Face f) (Ur_x2Face f)
          (Ul_x3Face f) (Ur_x3Face f) (B1_x1Face f) a (B3_x3Face f).
Definition set_B3_x3Face (f : Faces) (a : Arr3 Real) : Faces :=
  mkFaces (Ul_x1Face f) (Ur_x1Face f) (Ul_x2Face f) (Ur_x2Face f)
          (Ul_x3Face f) (Ur_x3Face f) (B1_x1Face f) (B2_x2Face f) a.

(** [B1_x1Face[k][j][i] += v], and the same for the other two. *)
Definition add_B1_x1Face (f : Faces) (k j i : Z) (v : Real) : Faces :=
  set_B1_x1Face f (upd3 (B1_x1Face f) k j i (B1_x1Face f k j i + v)).
Definition add_B2_x2Face (f : Faces) (k j i : Z) (v : Real) : Faces :=
  set_B2_x2Face f (upd3 (B2_x2Face f) k j i (B2_x2Face f k j i + v)).
Definition add_B3_x3Face (f : Faces) (k j i : Z) (v : Real) : Faces :=
  set_B3_x3Face f (upd3 (B3_x3Face f) k j i (B3_x3Face f k j i + v)).

(** The reconstruction routines of the other files: lr_states (the L/R
    states of a pencil, for the interfaces il to iu+1) and Prim1D_to_Cons1D.
    Under MHD lr_states is passed the array Bxc as well. *)
Record Recon := mkRecon {
  lr_states : Arr1 Prim1D.t -> option (Arr1 Real) -> Real -> Real ->
              Z -> Z -> LR -> LR;
  Prim1D_to_Cons1D : Prim1D.t -> option Real -> Cons1D.t
}.

(** The one-dimensional scratch vectors U1d, W, Wl, Wr, Bxc, Bxi, and the
    three-dimensional arrays that one sweep stores to: for the x1 sweep
    B1_x1Face, Ul_x1Face, Ur_x1Face and x1Flux, and likewise for x2, x3. *)
Record Sweep := mkSweep {
  U1d : Arr1 Cons1D.t;
  W : Arr1 Prim1D.t;
  lr : LR;
  Bxc : Arr1 Real;
  Bxi : Arr1 Real;
  Bface : Arr3 Real;
  Ul : Arr3 Cons1D.t;
  Ur : Arr3 Cons1D.t;
  Flux : Arr3 Cons1D.t
}.

Arguments U1d s i%_Z.
Arguments W s i%_Z.
Arguments Bxc s i%_Z.
Arguments Bxi s i%_Z.
Arguments Bface s (k j i)%_Z.
Arguments Ul s (k j i)%_Z.
Arguments Ur s (k j i)%_Z.
Arguments Flux s (k j i)%_Z.

Definition set_U1d (s : Sweep) (a : Arr1 Cons1D.t) : Sweep :=
  mkSweep a (W s) (lr s) (Bxc s) (Bxi s) (Bface s) (Ul s) (Ur s) (Flux s).
Definition set_W (s : Sweep) (a : Arr1 Prim1D.t) : Sweep :=
  mkSweep (U1d s) a (lr s) (Bxc s) (Bxi s) (Bface s) (Ul s) (Ur s) (Flux s).
Definition set_lr (s : Sweep) (a : LR) : Sweep :=
  mkSweep (U1d s) (W s) a (Bxc s) (Bxi s) (Bface s) (Ul s) (Ur s) (Flux s).
Definition set_Bxc (s : Sweep) (a : Arr1 Real) : Sweep :=
  mkSweep (U1d s) (W s) (lr s) a (Bxi s) (Bface s) (Ul s) (Ur s) (Flux s).
Definition set_Bxi (s : Sweep) (a : Arr1 Real) : Sweep :=
  mkSweep (U1d s) (W s) (lr s) (Bxc s) a (Bface s) (Ul s) (Ur s) (Flux s).
Definition set_Bface (s : Sweep) (a : Arr3 Real) : Sweep :=
  mkSweep (U1d s) (W s) (lr s) (Bxc s) (Bxi s) a (Ul s) (Ur s) (Flux s).
Definition set_Ul (s : Sweep) (a : Arr3 Cons1D.t) : Sweep :=
  mkSweep (U1d s) (W s) (lr s) (Bxc s) (Bxi s) (Bface s) a (Ur s) (Flux s).
Definition set_Ur (s : Sweep) (a : Arr3 Cons1D.t) : Sweep :=
  mkSweep (U1d s) (W s) (lr s) (Bxc s) (Bxi s) (Bface s) (Ul s) a (Flux s).
Definition set_Flux (s : Sweep) (a : Arr3 Cons1D.t) : Sweep :=
  mkSweep (U1d s) (W s) (lr s) (Bxc s) (Bxi s) (Bface s) (Ul s) (Ur s) a.

Section Steps1to3.
Variable cfg : Config.
Variable gl : Globals.
Variable ext : Extern.
Variable sol : Solver.
Variable rc : Recon.
Variable pG : Grid.

(** The global [etah]: Steps 1 to 8 never store to it. *)
Variable etah : Real.

Let dtodx1 := dt pG / dx1 pG.
Let dtodx2 := dt pG / dx2 pG.
Let dtodx3 := dt pG / dx3 pG.

(** The argument [MHDARG( Bxc , )] of lr_states. *)
Definition MHDARG_Bxc (s : Sweep) : option (Arr1 Real) :=
  if MHD cfg then Some (Bxc s) else None.

(** *** Step 1: the x1 sweep *)

(** Step 1a: U1d = (d, M1, M2, M3, E, B2c, B3c, s[n]) *)
Definition step1a (k j : Z) (s : Sweep) : Sweep :=
  for_loop (is_ pG - nghost gl) (ie pG + nghost gl) (fun i s =>
    let u := U pG k j i in
    let c := U1d s i in
    let c := ConsU.set_d c (Gas.d u) in
    let c := ConsU.set_Mx c (Gas.M1 u) in
    let c := ConsU.set_My c (Gas.M2 u) in
    let c := ConsU.set_Mz c (Gas.M3 u) in
    let c := if BAROTROPIC cfg then c else ConsU.set_E c (Gas.E u) in
    let c := if MHD cfg then ConsU.set_By c (Gas.B2c u) else c in
    let c := if MHD cfg then ConsU.set_Bz c (Gas.B3c u) else c in
    let s := if MHD cfg then set_Bxc s (upd1 (Bxc s) i (Gas.B1c u)) else s in
    let s := if MHD cfg then set_Bxi s (upd1 (Bxi s) i (B1i pG k j i))
             else s in
    let s := if MHD cfg
             then set_Bface s (upd3 (Bface s) k j i (B1i pG k j i))
             else s in
    let c := ConsU.set_s c (for_scal (NSCALARS cfg) (fun n _ => Gas.s u n)
                                     (Cons1D.s c)) in
    set_U1d s (upd1 (U1d s) i c)) s.

(** Step 1b: the primitive variables of the pencil, and lr_states. *)
Definition step1b_prim (s : Sweep) : Sweep :=
  for_loop (is_ pG - nghost gl) (ie pG + nghost gl) (fun i s =>
    set_W s (upd1 (W s) i
      (Cons1D_to_Prim1D sol (U1d s i) (MHDARG cfg (Bxc s i))))) s.

Definition step1b_lr (s : Sweep) : Sweep :=
  set_lr s (lr_states rc (W s) (MHDARG_Bxc s) (dt pG) dtodx1
                      (is_ pG - 1) (ie pG + 1) (lr s)).

(** Step 1d: the x1-fluxes of the pencil. *)
Definition step1d (k j : Z) (s : Sweep) : Sweep :=
  for_loop (is_ pG - 1) (ie pG + 2) (fun i s =>
    let s := set_Ul s (upd3 (Ul s) k j i
               (Prim1D_to_Cons1D rc (Wl (lr s) i) (MHDARG cfg (Bxi s i)))) in
    let s := set_Ur s (upd3 (Ur s) k j i
               (Prim1D_to_Cons1D rc (Wr (lr s) i) (MHDARG cfg (Bxi s i)))) in
    set_Flux s (upd3 (Flux s) k j i
      (GET_FLUXES sol etah (Ul s k j i) (Ur s k j i)
                  (Wl (lr s) i) (Wr (lr s) i)
                  (MHDARG cfg (Bface s k j i))))) s.

(** The pencil (k, j): Steps 1a to 1d. *)
Definition step1_pencil (k j : Z) (s : Sweep) : Sweep :=
  let s := step1a k j s in
  let s := step1b_prim s in
  let s := step1b_lr s in
  let s := set_lr s (step1bc cfg gl ext pG k j (W s) (lr s)) in
  step1d k j s.

Definition step1 (s : Sweep) : Sweep :=
  for_loop (ks pG - 2) (ke pG + 2) (fun k =>
    for_loop (js pG - 2) (je pG + 2) (fun j => step1_pencil k j)) s.

(** *** Step 2: the x2 sweep *)

(** Step 2a: U1d = (d, M2, M3, M1, E, B3c, B1c, s[n]) *)
Definition step2a (k i : Z) (s : Sweep) : Sweep :=
  for_loop (js pG - nghost gl) (je pG + nghost gl) (fun j s =>
    let u := U pG k j i in
    let c := U1d s j in
    let c := ConsU.set_d c (Gas.d u) in
    let c := ConsU.set_Mx c (Gas.M2 u) in
    let c := ConsU.set_My c (Gas.M3 u) in
    let c := ConsU.set_Mz c (Gas.M1 u) in
    let c := if BAROTROPIC cfg then c else ConsU.set_E c (Gas.E u) in
    let c := if MHD cfg then ConsU.set_By c (Gas.B3c u) else c in
    let c := if MHD cfg then ConsU.set_Bz c (Gas.B1c u) else c in
    let s := if MHD cfg then set_Bxc s (upd1 (Bxc s) j (Gas.B2c u)) else s in
    let s := if MHD cfg then set_Bxi s (upd1 (Bxi s) j (B2i pG k j i))
             else s in
    let s := if MHD cfg
             then set_Bface s (upd3 (Bface s) k j i (B2i pG k j i))
             else s in
    let c := ConsU.set_s c (for_scal (NSCALARS cfg) (fun n _ => Gas.s u n)
                                     (Cons1D.s c)) in
    set_U1d s (upd1 (U1d s) j c)) s.

Definition step2b_prim (s : Sweep) : Sweep :=
  for_loop (js pG - nghost gl) (je pG + nghost gl) (fun j s =>
    set_W s (upd1 (W s) j
      (Cons1D_to_Prim1D sol (U1d s j) (MHDARG cfg (Bxc s j))))) s.

Definition step2b_lr (s : Sweep) : Sweep :=
  set_lr s (lr_states rc (W s) (MHDARG_Bxc s) (dt pG) dtodx2
                      (js pG - 1) (je pG + 1) (lr s)).

(** Step 2d: the x2-fluxes of the pencil. *)
Definition step2d (k i : Z) (s : Sweep) : Sweep :=
  for_loop (js pG - 1) (je pG + 2) (fun j s =>
    let s := set_Ul s (upd3 (Ul s) k j i
               (Prim1D_to_Cons1D rc (Wl (lr s) j) (MHDARG cfg (Bxi s j)))) in
    let s := set_Ur s (upd3 (Ur s) k j i
               (Prim1D_to_Cons1D rc (Wr (lr s) j) (MHDARG cfg (Bxi s j)))) in
    set_Flux s (upd3 (Flux s) k j i
      (GET_FLUXES sol etah (Ul s k j i) (Ur s k j i)
                  (Wl (lr s) j) (Wr (lr s) j)
                  (MHDARG cfg (Bface s k j i))))) s.

(** The pencil (k, i): Steps 2a to 2d. *)
Definition step2_pencil (k i : Z) (s : Sweep) : Sweep :=
  let s := step2a k i s in
  let s := step2b_prim s in
  let s := step2b_lr s in
  let s := set_lr s (step2bc cfg gl ext pG k i (W s) (lr s)) in
  step2d k i s.

Definition step2 (s : Sweep) : Sweep :=
  for_loop (ks pG - 2) (ke pG + 2) (fun k =>
    for_loop (is_ pG - 2) (ie pG + 2) (fun i => step2_pencil k i)) s.

(** *** Step 3: the x3 sweep *)

(** Step 3a: U1d = (d, M3, M1, M2, E, B1c, B2c, s[n]) *)
Definition step3a (j i : Z) (s : Sweep) : Sweep :=
  for_loop (ks pG - nghost gl) (ke pG + nghost gl) (fun k s =>
    let u := U pG k j i in
    let c := U1d s k in
    let c := ConsU.set_d c (Gas.d u) in
    let c := ConsU.set_Mx c (Gas.M3 u) in
    let c := ConsU.set_My c (Gas.M1 u) in
    let c := ConsU.set_Mz c (Gas.M2 u) in
    let c := if BAROTROPIC cfg then c else ConsU.set_E c (Gas.E u) in
    let c := if MHD cfg then ConsU.set_By c (Gas.B1c u) else c in
    let c := if MHD cfg then ConsU.set_Bz c (Gas.B2c u) else c in
    let s := if MHD cfg then set_Bxc s (upd1 (Bxc s) k (Gas.B3c u)) else s in
    let s := if MHD cfg then set_Bxi s (upd1 (Bxi s) k (B3i pG k j i))
             else s in
    let s := if MHD cfg
             then set_Bface s (upd3 (Bface s) k j i (B3i pG k j i))
             else s in
    let c := ConsU.set_s c (for_scal (NSCALARS cfg) (fun n _ => Gas.s u n)
                                     (Cons1D.s c)) in
    set_U1d s (upd1 (U1d s) k c)) s.

Definition step3b_prim (s : Sweep) : Sweep :=
  for_loop (ks pG - nghost gl) (ke pG + nghost gl) (fun k s =>
    set_W s (upd1 (W s) k
      (Cons1D_to_Prim1D sol (U1d s k) (MHDARG cfg (Bxc s k))))) s.

Definition step3b_lr (s : Sweep) : Sweep :=
  set_lr s (lr_states rc (W s) (MHDARG_Bxc s) (dt pG) dtodx3
                      (ks pG - 1) (ke pG + 1) (lr s)).

(** Step 3d: the x3-fluxes of the pencil. *)
Definition step3d (j i : Z) (s : Sweep) : Sweep :=
  for_loop (ks pG - 1) (ke pG + 2) (fun k s =>
    let s := set_Ul s (upd3 (Ul s) k j i
               (Prim1D_to_Cons1D rc (Wl (lr s) k) (MHDARG cfg (Bxi s k)))) in
    let s := set_Ur s (upd3 (Ur s) k j i
               (Prim1D_to_Cons1D rc (Wr (lr s) k) (MHDARG cfg (Bxi s k)))) in
    set_Flux s (upd3 (Flux s) k j i
      (GET_FLUXES sol etah (Ul s k j i) (Ur s k j i)
                  (Wl (lr s) k) (Wr (lr s) k)
                  (MHDARG cfg (Bface s k j i))))) s.

(** The pencil (j, i): Steps 3a to 3d. *)
Definition step3_pencil (j i : Z) (s : Sweep) : Sweep :=
  let s := step3a j i s in
  let s := step3b_prim s in
  let s := step3b_lr s in
  let s := set_lr s (step3bc cfg gl ext pG j i (W s) (lr s)) in
  step3d j i s.

Definition step3 (s : Sweep) : Sweep :=
  for_loop (js pG - 2) (je pG + 2) (fun j =>
    for_loop (is_ pG - 2) (ie pG + 2) (fun i => step3_pencil j i)) s.
End Steps1to3.

(* ------------------------------------------------------------------ *)
(** ** Step 4: the face-centred field at the half time step *)

Section Step4.
Variable pG : Grid.

Let dtodx1 := dt pG / dx1 pG.
Let dtodx2 := dt pG / dx2 pG.
Let dtodx3 := dt pG / dx3 pG.
Let q1 := 0.5 * dtodx1.
Let q2 := 0.5 * dtodx2.
Let q3 := 0.5 * dtodx3.

(** Step 4a: the cell-centred EMFs at time n, from the cell state. *)
Definition step4a_cell (k j i : Z) : Real * Real * Real :=
  let e1 := (Gas.B2c (U pG k j i) * Gas.M3 (U pG k j i)
        - Gas.B3c (U pG k j i) * Gas.M2 (U pG k j i)) / Gas.d (U pG k j i)
        in
  let e2 := (Gas.B3c (U pG k j i) * Gas.M1 (U pG k j i)
        - Gas.B1c (U pG k j i) * Gas.M3 (U pG k j i)) / Gas.d (U pG k j i)
        in
  let e3 := (Gas.B1c (U pG k j i) * Gas.M2 (U pG k j i)
        - Gas.B2c (U pG k j i) * Gas.M1 (U pG k j i)) / Gas.d (U pG k j i)
        in
  (e1, e2, e3).

Definition step4a (e : Arr3 Real * Arr3 Real * Arr3 Real)
  : Arr3 Real * Arr3 Real * Arr3 Real :=
  nest (ks pG - 2) (ke pG + 2) (js pG - 2) (je pG + 2)
       (is_ pG - 2) (ie pG + 2)
    (fun k j i e =>
       let '(e1, e2, e3) := step4a_cell k j i in
       (upd3 (fst (fst e)) k j i e1, upd3 (snd (fst e)) k j i e2,
        upd3 (snd e) k j i e3)) e.

Variables emf1 emf2 emf3 : Arr3 Real.

(** Step 4b: the increments of the interface fields over dt/2. *)
Definition half_dB1 (k j i : Z) : Real :=
  q3 * (emf2 (k+1)%Z j i - emf2 k j i) -
  q2 * (emf3 k (j+1)%Z i - emf3 k j i).
Definition half_dB2 (k j i : Z) : Real :=
  q1 * (emf3 k j (i+1)%Z - emf3 k j i) -
  q3 * (emf1 (k+1)%Z j i - emf1 k j i).
Definition half_dB3 (k j i : Z) : Real :=
  q2 * (emf1 k (j+1)%Z i - emf1 k j i) -
  q1 * (emf2 k j (i+1)%Z - emf2 k j i).

Definition step4b (f : Faces) : Faces :=
  let is_ := is_ pG in let ie := ie pG in
  let js := js pG in let je := je pG in
  let ks := ks pG in let ke := ke pG in
  let f1 :=
    for_loop (ks-1) (ke+1) (fun k f =>
      let f :=
        for_loop (js-1) (je+1) (fun j f =>
          let f :=
            for_loop (is_-1) (ie+1) (fun i f =>
              let f := add_B1_x1Face f k j i (half_dB1 k j i) in
              let f := add_B2_x2Face f k j i (half_dB2 k j i) in
              add_B3_x3Face f k j i (half_dB3 k j i)) f in
          add_B1_x1Face f k j (ie+2)%Z (half_dB1 k j (ie+2)%Z)) f in
      for_loop (is_-1) (ie+1) (fun i f =>
        add_B2_x2Face f k (je+2)%Z i (half_dB2 k (je+2)%Z i)) f) f in
  for_loop (js-1) (je+1) (fun j f =>
    for_loop (is_-1) (ie+1) (fun i f =>
      add_B3_x3Face f (ke+2)%Z j i (half_dB3 (ke+2)%Z j i)) f) f1.
End Step4.

(** The faces that Step 4b stores to. *)
Definition written_B1_x1Face (g : Grid) (k j i : Z) : bool :=
  in_range (ks g - 1) (ke g + 1) k && in_range (js g - 1) (je g + 1) j &&
  (in_range (is_ g - 1) (ie g + 1) i || (i =? ie g + 2)%Z).
Definition written_B2_x2Face (g : Grid) (k j i : Z) : bool :=
  in_range (ks g - 1) (ke g + 1) k &&
  (in_range (js g - 1) (je g + 1) j || (j =? je g + 2)%Z) &&
  in_range (is_ g - 1) (ie g + 1) i.
Definition written_B3_x3Face (g : Grid) (k j i : Z) : bool :=
  (in_range (ks g - 1) (ke g + 1) k || (k =? ke g + 2)%Z) &&
  in_range (js g - 1) (je g + 1) j && in_range (is_ g - 1) (ie g + 1) i.

(** The discrete divergence of the interface fields in cell (k,j,i). *)
Definition divB_faces (g : Grid) (f : Faces) (k j i : Z) : Real :=
  (B1_x1Face f k j (i+1)%Z - B1_x1Face f k j i) / dx1 g +
  (B2_x2Face f k (j+1)%Z i - B2_x2Face f k j i) / dx2 g +
  (B3_x3Face f (k+1)%Z j i - B3_x3Face f k j i) / dx3 g.

(** The cells whose six faces Step 4b stores to. *)
Definition half_step_cell (g : Grid) (k j i : Z) : Prop :=
  (ks g - 1 <= k <= ke g + 1)%Z /\ (js g - 1 <= j <= je g + 1)%Z /\
  (is_ g - 1 <= i <= ie g + 1)%Z.

(* ------------------------------------------------------------------ *)
(** ** Steps 5 to 7: the interface states corrected with the transverse
    flux gradients *)

(** The nest of Steps 5 to 7: the body updates the left and the right state
    of the face (k,j,i). *)
Definition face_nest (klo khi jlo jhi ilo ihi : Z)
    (cell : Z -> Z -> Z -> Cons1D.t -> Cons1D.t -> Cons1D.t * Cons1D.t)
    (p : Arr3 Cons1D.t * Arr3 Cons1D.t) : Arr3 Cons1D.t * Arr3 Cons1D.t :=
  nest klo khi jlo jhi ilo ihi
    (fun k j i p =>
       let c := cell k j i (fst p k j i) (snd p k j i) in
       (upd3 (fst p) k j i (fst c), upd3 (snd p) k j i (snd c))) p.

Section Steps5to7.
Variable cfg : Config.
Variable gl : Globals.
Variable ext : Extern.
Variable pG : Grid.
Variables x1Flux x2Flux x3Flux : Arr3 Cons1D.t.
Variables emf1 emf2 emf3 : Arr3 Real.

(** The locals dtodx1, dx1i, q1, hdt, ... of the function. *)
Local Abbreviation dtodx1 := (dt pG / dx1 pG).
Local Abbreviation dtodx2 := (dt pG / dx2 pG).
Local Abbreviation dtodx3 := (dt pG / dx3 pG).
Local Abbreviation dx1i := (1 / dx1 pG).
Local Abbreviation dx2i := (1 / dx2 pG).
Local Abbreviation dx3i := (1 / dx3 pG).
Local Abbreviation q1 := (0.5 * dtodx1).
Local Abbreviation q2 := (0.5 * dtodx2).
Local Abbreviation q3 := (0.5 * dtodx3).
Local Abbreviation hdt := (0.5 * dt pG).

(** *** Step 5: the x1-interface states *)

(** Steps 5a and 5b, the body of the loop nest: the x1-face states of
    the face (k,j,i) corrected with the x2- and the x3-flux gradients. *)
Definition step5ab_cell (k j i : Z) (ul ur : Cons1D.t)
  : Cons1D.t * Cons1D.t :=
  let ul := ConsU.set_d ul
        (Cons1D.d ul
        - q2 * (Cons1D.d (x2Flux k (j+1)%Z (i-1)%Z)
        - Cons1D.d (x2Flux k j (i-1)%Z))) in
  let ul := ConsU.set_Mx ul
        (Cons1D.Mx ul
        - q2 * (Cons1D.Mz (x2Flux k (j+1)%Z (i-1)%Z)
        - Cons1D.Mz (x2Flux k j (i-1)%Z))) in
  let ul := ConsU.set_My ul
        (Cons1D.My ul
        - q2 * (Cons1D.Mx (x2Flux k (j+1)%Z (i-1)%Z)
        - Cons1D.Mx (x2Flux k j (i-1)%Z))) in
  let ul := ConsU.set_Mz ul
        (Cons1D.Mz ul
        - q2 * (Cons1D.My (x2Flux k (j+1)%Z (i-1)%Z)
        - Cons1D.My (x2Flux k j (i-1)%Z))) in
  let ul := if BAROTROPIC cfg then ul else ConsU.set_E ul
        (Cons1D.E ul
        - q2 * (Cons1D.E (x2Flux k (j+1)%Z (i-1)%Z)
        - Cons1D.E (x2Flux k j (i-1)%Z))) in
  let ul := if MHD cfg then ConsU.set_Bz ul
        (Cons1D.Bz ul
        + q2 * 0.5 *
        ((emf1 k (j+1)%Z (i-1)%Z - emf1 k j (i-1)%Z)
        + (emf1 (k+1)%Z (j+1)%Z (i-1)%Z - emf1 (k+1)%Z j (i-1)%Z))) else ul
        in
  let ur := ConsU.set_d ur
        (Cons1D.d ur
        - q2 * (Cons1D.d (x2Flux k (j+1)%Z i) - Cons1D.d (x2Flux k j i))) in
  let ur := ConsU.set_Mx ur
        (Cons1D.Mx ur
        - q2 * (Cons1D.Mz (x2Flux k (j+1)%Z i) - Cons1D.Mz (x2Flux k j i)))
        in
  let ur := ConsU.set_My ur
        (Cons1D.My ur
        - q2 * (Cons1D.Mx (x2Flux k (j+1)%Z i) - Cons1D.Mx (x2Flux k j i)))
        in
  let ur := ConsU.set_Mz ur
        (Cons1D.Mz ur
        - q2 * (Cons1D.My (x2Flux k (j+1)%Z i) - Cons1D.My (x2Flux k j i)))
        in
  let ur := if BAROTROPIC cfg then ur else ConsU.set_E ur
        (Cons1D.E ur
        - q2 * (Cons1D.E (x2Flux k (j+1)%Z i) - Cons1D.E (x2Flux k j i))) in
  let ur := if MHD cfg then ConsU.set_Bz ur
        (Cons1D.Bz ur
        + q2 * 0.5 *
        ((emf1 k (j+1)%Z i - emf1 k j i)
        + (emf1 (k+1)%Z (j+1)%Z i - emf1 (k+1)%Z j i))) else ur in
  let ul := ConsU.set_s ul
        (for_scal (NSCALARS cfg)
        (fun n sn => sn
        - q2 * (Cons1D.s (x2Flux k (j+1)%Z (i-1)%Z) n
        - Cons1D.s (x2Flux k j (i-1)%Z) n)) (Cons1D.s ul)) in
  let ur := ConsU.set_s ur
        (for_scal (NSCALARS cfg)
        (fun n sn => sn
        - q2 * (Cons1D.s (x2Flux k (j+1)%Z i) n
        - Cons1D.s (x2Flux k j i) n)) (Cons1D.s ur)) in
  let ul := ConsU.set_d ul
        (Cons1D.d ul
        - q3 * (Cons1D.d (x3Flux (k+1)%Z j (i-1)%Z)
        - Cons1D.d (x3Flux k j (i-1)%Z))) in
  let ul := ConsU.set_Mx ul
        (Cons1D.Mx ul
        - q3 * (Cons1D.My (x3Flux (k+1)%Z j (i-1)%Z)
        - Cons1D.My (x3Flux k j (i-1)%Z))) in
  let ul := ConsU.set_My ul
        (Cons1D.My ul
        - q3 * (Cons1D.Mz (x3Flux (k+1)%Z j (i-1)%Z)
        - Cons1D.Mz (x3Flux k j (i-1)%Z))) in
  let ul := ConsU.set_Mz ul
        (Cons1D.Mz ul
        - q3 * (Cons1D.Mx (x3Flux (k+1)%Z j (i-1)%Z)
        - Cons1D.Mx (x3Flux k j (i-1)%Z))) in
  let ul := if BAROTROPIC cfg then ul else ConsU.set_E ul
        (Cons1D.E ul
        - q3 * (Cons1D.E (x3Flux (k+1)%Z j (i-1)%Z)
        - Cons1D.E (x3Flux k j (i-1)%Z))) in
  let ul := if MHD cfg then ConsU.set_By ul
        (Cons1D.By ul
        - q3 * 0.5 *
        ((emf1 (k+1)%Z j (i-1)%Z - emf1 k j (i-1)%Z)
        + (emf1 (k+1)%Z (j+1)%Z (i-1)%Z - emf1 k (j+1)%Z (i-1)%Z))) else ul
        in
  let ur := ConsU.set_d ur
        (Cons1D.d ur
        - q3 * (Cons1D.d (x3Flux (k+1)%Z j i) - Cons1D.d (x3Flux k j i))) in
  let ur := ConsU.set_Mx ur
        (Cons1D.Mx ur
        - q3 * (Cons1D.My (x3Flux (k+1)%Z j i) - Cons1D.My (x3Flux k j i)))
        in
  let ur := ConsU.set_My ur
        (Cons1D.My ur
        - q3 * (Cons1D.Mz (x3Flux (k+1)%Z j i) - Cons1D.Mz (x3Flux k j i)))
        in
  let ur := ConsU.set_Mz ur
        (Cons1D.Mz ur
        - q3 * (Cons1D.Mx (x3Flux (k+1)%Z j i) - Cons1D.Mx (x3Flux k j i)))
        in
  let ur := if BAROTROPIC cfg then ur else ConsU.set_E ur
        (Cons1D.E ur
        - q3 * (Cons1D.E (x3Flux (k+1)%Z j i) - Cons1D.E (x3Flux k j i))) in
  let ur := if MHD cfg then ConsU.set_By ur
        (Cons1D.By ur
        - q3 * 0.5 *
        ((emf1 (k+1)%Z j i - emf1 k j i)
        + (emf1 (k+1)%Z (j+1)%Z i - emf1 k (j+1)%Z i))) else ur in
  let ul := ConsU.set_s ul
        (for_scal (NSCALARS cfg)
        (fun n sn => sn
        - q3 * (Cons1D.s (x3Flux (k+1)%Z j (i-1)%Z) n
        - Cons1D.s (x3Flux k j (i-1)%Z) n)) (Cons1D.s ul)) in
  let ur := ConsU.set_s ur
        (for_scal (NSCALARS cfg)
        (fun n sn => sn
        - q3 * (Cons1D.s (x3Flux (k+1)%Z j i) n
        - Cons1D.s (x3Flux k j i) n)) (Cons1D.s ur)) in
  (ul, ur).

(** Step 5c, the body of the loop nest (MHD). *)
Definition step5c_cell (k j i : Z) (ul ur : Cons1D.t)
  : Cons1D.t * Cons1D.t :=
  let db1 := (B1i pG k j i - B1i pG k j (i-1)%Z) * dx1i in
  let db2 := (B2i pG k (j+1)%Z (i-1)%Z - B2i pG k j (i-1)%Z) * dx2i in
  let db3 := (B3i pG (k+1)%Z j (i-1)%Z - B3i pG k j (i-1)%Z) * dx3i in
  let B1 := Gas.B1c (U pG k j (i-1)%Z) in
  let B2 := Gas.B2c (U pG k j (i-1)%Z) in
  let B3 := Gas.B3c (U pG k j (i-1)%Z) in
  let V2 := Gas.M2 (U pG k j (i-1)%Z) / Gas.d (U pG k j (i-1)%Z) in
  let V3 := Gas.M3 (U pG k j (i-1)%Z) / Gas.d (U pG k j (i-1)%Z) in
  let mdb2 :=
    if Rgtb db1 0 && Rltb db2 0 then if Rgt_dec db2 (- db1) then db2 else
          - db1
    else if Rltb db1 0 && Rgtb db2 0 then if Rlt_dec db2 (- db1) then db2
          else - db1
    else 0 in
  let mdb3 :=
    if Rgtb db1 0 && Rltb db3 0 then if Rgt_dec db3 (- db1) then db3 else
          - db1
    else if Rltb db1 0 && Rgtb db3 0 then if Rlt_dec db3 (- db1) then db3
          else - db1
    else 0 in
  let ul := ConsU.set_Mx ul (Cons1D.Mx ul + hdt * B1 * db1) in
  let ul := ConsU.set_My ul (Cons1D.My ul + hdt * B2 * db1) in
  let ul := ConsU.set_Mz ul (Cons1D.Mz ul + hdt * B3 * db1) in
  let ul := ConsU.set_By ul (Cons1D.By ul + hdt * V2 * (- mdb3)) in
  let ul := ConsU.set_Bz ul (Cons1D.Bz ul + hdt * V3 * (- mdb2)) in
  let ul := if BAROTROPIC cfg then ul else ConsU.set_E ul
        (Cons1D.E ul + hdt * (B2 * V2 * (- mdb3) + B3 * V3 * (- mdb2))) in
  let db1 := (B1i pG k j (i+1)%Z - B1i pG k j i) * dx1i in
  let db2 := (B2i pG k (j+1)%Z i - B2i pG k j i) * dx2i in
  let db3 := (B3i pG (k+1)%Z j i - B3i pG k j i) * dx3i in
  let B1 := Gas.B1c (U pG k j i) in
  let B2 := Gas.B2c (U pG k j i) in
  let B3 := Gas.B3c (U pG k j i) in
  let V2 := Gas.M2 (U pG k j i) / Gas.d (U pG k j i) in
  let V3 := Gas.M3 (U pG k j i) / Gas.d (U pG k j i) in
  let mdb2 :=
    if Rgtb db1 0 && Rltb db2 0 then if Rgt_dec db2 (- db1) then db2 else
          - db1
    else if Rltb db1 0 && Rgtb db2 0 then if Rlt_dec db2 (- db1) then db2
          else - db1
    else 0 in
  let mdb3 :=
    if Rgtb db1 0 && Rltb db3 0 then if Rgt_dec db3 (- db1) then db3 else
          - db1
    else if Rltb db1 0 && Rgtb db3 0 then if Rlt_dec db3 (- db1) then db3
          else - db1
    else 0 in
  let ur := ConsU.set_Mx ur (Cons1D.Mx ur + hdt * B1 * db1) in
  let ur := ConsU.set_My ur (Cons1D.My ur + hdt * B2 * db1) in
  let ur := ConsU.set_Mz ur (Cons1D.Mz ur + hdt * B3 * db1) in
  let ur := ConsU.set_By ur (Cons1D.By ur + hdt * V2 * (- mdb3)) in
  let ur := ConsU.set_Bz ur (Cons1D.Bz ur + hdt * V3 * (- mdb2)) in
  let ur := if BAROTROPIC cfg then ur else ConsU.set_E ur
        (Cons1D.E ur + hdt * (B2 * V2 * (- mdb3) + B3 * V3 * (- mdb2))) in
  (ul, ur).

(** Step 5d, static gravitational potential. *)
Definition step5d_grav_cell (phi : Real -> Real -> Real -> Real) (k j i : Z) (ul ur : Cons1D.t)
  : Cons1D.t * Cons1D.t :=
  let '(x1, x2, x3) := cc_pos ext pG i j k in
  let phic := phi x1 x2 x3 in
  let phir := phi x1 (x2 + 0.5 * dx2 pG) x3 in
  let phil := phi x1 (x2 - 0.5 * dx2 pG) x3 in
  let ur := ConsU.set_My ur
        (Cons1D.My ur - q2 * (phir - phil) * Gas.d (U pG k j i)) in
  let ur := if BAROTROPIC cfg then ur else ConsU.set_E ur
        (Cons1D.E ur
        - q2 * (Cons1D.d (x2Flux k j i) * (phic - phil)
        + Cons1D.d (x2Flux k (j+1)%Z i) * (phir - phic))) in
  let phir := phi x1 x2 (x3 + 0.5 * dx3 pG) in
  let phil := phi x1 x2 (x3 - 0.5 * dx3 pG) in
  let ur := ConsU.set_Mz ur
        (Cons1D.Mz ur - q3 * (phir - phil) * Gas.d (U pG k j i)) in
  let ur := if BAROTROPIC cfg then ur else ConsU.set_E ur
        (Cons1D.E ur
        - q3 * (Cons1D.d (x3Flux k j i) * (phic - phil)
        + Cons1D.d (x3Flux (k+1)%Z j i) * (phir - phic))) in
  let phic := phi (x1 - dx1 pG) x2 x3 in
  let phir := phi (x1 - dx1 pG) (x2 + 0.5 * dx2 pG) x3 in
  let phil := phi (x1 - dx1 pG) (x2 - 0.5 * dx2 pG) x3 in
  let ul := ConsU.set_My ul
        (Cons1D.My ul - q2 * (phir - phil) * Gas.d (U pG k j (i-1)%Z)) in
  let ul := if BAROTROPIC cfg then ul else ConsU.set_E ul
        (Cons1D.E ul
        - q2 * (Cons1D.d (x2Flux k j (i-1)%Z) * (phic - phil)
        + Cons1D.d (x2Flux k (j+1)%Z (i-1)%Z) * (phir - phic))) in
  let phir := phi (x1 - dx1 pG) x2 (x3 + 0.5 * dx3 pG) in
  let phil := phi (x1 - dx1 pG) x2 (x3 - 0.5 * dx3 pG) in
  let ul := ConsU.set_Mz ul
        (Cons1D.Mz ul - q3 * (phir - phil) * Gas.d (U pG k j (i-1)%Z)) in
  let ul := if BAROTROPIC cfg then ul else ConsU.set_E ul
        (Cons1D.E ul
        - q3 * (Cons1D.d (x3Flux k j (i-1)%Z) * (phic - phil)
        + Cons1D.d (x3Flux (k+1)%Z j (i-1)%Z) * (phir - phic))) in
  (ul, ur).

(** Step 5d (cont), self-gravity. *)
Definition step5d_selfg_cell (k j i : Z) (ul ur : Cons1D.t)
  : Cons1D.t * Cons1D.t :=
  let phic := Phi pG k j i in
  let phir := 0.5 * (Phi pG k j i + Phi pG k (j+1)%Z i) in
  let phil := 0.5 * (Phi pG k j i + Phi pG k (j-1)%Z i) in
  let ur := ConsU.set_My ur
        (Cons1D.My ur - q2 * (phir - phil) * Gas.d (U pG k j i)) in
  let ur := if BAROTROPIC cfg then ur else ConsU.set_E ur
        (Cons1D.E ur
        - q2 * (Cons1D.d (x2Flux k j i) * (phic - phil)
        + Cons1D.d (x2Flux k (j+1)%Z i) * (phir - phic))) in
  let phir := 0.5 * (Phi pG k j i + Phi pG (k+1)%Z j i) in
  let phil := 0.5 * (Phi pG k j i + Phi pG (k-1)%Z j i) in
  let ur := ConsU.set_Mz ur
        (Cons1D.Mz ur - q3 * (phir - phil) * Gas.d (U pG k j i)) in
  let ur := if BAROTROPIC cfg then ur else ConsU.set_E ur
        (Cons1D.E ur
        - q3 * (Cons1D.d (x3Flux k j i) * (phic - phil)
        + Cons1D.d (x3Flux (k+1)%Z j i) * (phir - phic))) in
  let phic := Phi pG k j (i-1)%Z in
  let phir := 0.5 * (Phi pG k j (i-1)%Z + Phi pG k (j+1)%Z (i-1)%Z) in
  let phil := 0.5 * (Phi pG k j (i-1)%Z + Phi pG k (j-1)%Z (i-1)%Z) in
  let ul := ConsU.set_My ul
        (Cons1D.My ul - q2 * (phir - phil) * Gas.d (U pG k j (i-1)%Z)) in
  let ul := if BAROTROPIC cfg then ul else ConsU.set_E ul
        (Cons1D.E ul
        - q2 * (Cons1D.d (x2Flux k j (i-1)%Z) * (phic - phil)
        + Cons1D.d (x2Flux k (j+1)%Z (i-1)%Z) * (phir - phic))) in
  let phir := 0.5 * (Phi pG k j (i-1)%Z + Phi pG (k+1)%Z j (i-1)%Z) in
  let phil := 0.5 * (Phi pG k j (i-1)%Z + Phi pG (k-1)%Z j (i-1)%Z) in
  let ul := ConsU.set_Mz ul
        (Cons1D.Mz ul - q3 * (phir - phil) * Gas.d (U pG k j (i-1)%Z)) in
  let ul := if BAROTROPIC cfg then ul else ConsU.set_E ul
        (Cons1D.E ul
        - q3 * (Cons1D.d (x3Flux k j (i-1)%Z) * (phic - phil)
        + Cons1D.d (x3Flux (k+1)%Z j (i-1)%Z) * (phir - phic))) in
  (ul, ur).
Definition step5 (p : Arr3 Cons1D.t * Arr3 Cons1D.t)
  : Arr3 Cons1D.t * Arr3 Cons1D.t :=
  let box := face_nest (ks pG - 1) (ke pG + 1) (js pG - 1) (je pG + 1)
                       (is_ pG - 1) (ie pG + 2) in
  let p := box step5ab_cell p in
  let p := if MHD cfg then box step5c_cell p else p in
  let p := match StaticGravPot gl with
           | Some phi => box (step5d_grav_cell phi) p
           | None => p
           end in
  if SELF_GRAVITY cfg then box step5d_selfg_cell p else p.

(** *** Step 6: the x2-interface states *)

(** Steps 6a and 6b: the x2-face states corrected with the x1- and the
    x3-flux gradients. *)
Definition step6ab_cell (k j i : Z) (ul ur : Cons1D.t)
  : Cons1D.t * Cons1D.t :=
  let ul := ConsU.set_d ul
        (Cons1D.d ul
        - q1 * (Cons1D.d (x1Flux k (j-1)%Z (i+1)%Z)
        - Cons1D.d (x1Flux k (j-1)%Z i))) in
  let ul := ConsU.set_Mx ul
        (Cons1D.Mx ul
        - q1 * (Cons1D.My (x1Flux k (j-1)%Z (i+1)%Z)
        - Cons1D.My (x1Flux k (j-1)%Z i))) in
  let ul := ConsU.set_My ul
        (Cons1D.My ul
        - q1 * (Cons1D.Mz (x1Flux k (j-1)%Z (i+1)%Z)
        - Cons1D.Mz (x1Flux k (j-1)%Z i))) in
  let ul := ConsU.set_Mz ul
        (Cons1D.Mz ul
        - q1 * (Cons1D.Mx (x1Flux k (j-1)%Z (i+1)%Z)
        - Cons1D.Mx (x1Flux k (j-1)%Z i))) in
  let ul := if BAROTROPIC cfg then ul else ConsU.set_E ul
        (Cons1D.E ul
        - q1 * (Cons1D.E (x1Flux k (j-1)%Z (i+1)%Z)
        - Cons1D.E (x1Flux k (j-1)%Z i))) in
  let ul := if MHD cfg then ConsU.set_By ul
        (Cons1D.By ul
        - q1 * 0.5 *
        ((emf2 k (j-1)%Z (i+1)%Z - emf2 k (j-1)%Z i)
        + (emf2 (k+1)%Z (j-1)%Z (i+1)%Z - emf2 (k+1)%Z (j-1)%Z i))) else ul
        in
  let ur := ConsU.set_d ur
        (Cons1D.d ur
        - q1 * (Cons1D.d (x1Flux k j (i+1)%Z) - Cons1D.d (x1Flux k j i))) in
  let ur := ConsU.set_Mx ur
        (Cons1D.Mx ur
        - q1 * (Cons1D.My (x1Flux k j (i+1)%Z) - Cons1D.My (x1Flux k j i)))
        in
  let ur := ConsU.set_My ur
        (Cons1D.My ur
        - q1 * (Cons1D.Mz (x1Flux k j (i+1)%Z) - Cons1D.Mz (x1Flux k j i)))
        in
  let ur := ConsU.set_Mz ur
        (Cons1D.Mz ur
        - q1 * (Cons1D.Mx (x1Flux k j (i+1)%Z) - Cons1D.Mx (x1Flux k j i)))
        in
  let ur := if BAROTROPIC cfg then ur else ConsU.set_E ur
        (Cons1D.E ur
        - q1 * (Cons1D.E (x1Flux k j (i+1)%Z) - Cons1D.E (x1Flux k j i))) in
  let ur := if MHD cfg then ConsU.set_By ur
        (Cons1D.By ur
        - q1 * 0.5 *
        ((emf2 k j (i+1)%Z - emf2 k j i)
        + (emf2 (k+1)%Z j (i+1)%Z - emf2 (k+1)%Z j i))) else ur in
  let ul := ConsU.set_s ul
        (for_scal (NSCALARS cfg)
        (fun n sn => sn
        - q1 * (Cons1D.s (x1Flux k (j-1)%Z (i+1)%Z) n
        - Cons1D.s (x1Flux k (j-1)%Z i) n)) (Cons1D.s ul)) in
  let ur := ConsU.set_s ur
        (for_scal (NSCALARS cfg)
        (fun n sn => sn
        - q1 * (Cons1D.s (x1Flux k j (i+1)%Z) n
        - Cons1D.s (x1Flux k j i) n)) (Cons1D.s ur)) in
  let ul := ConsU.set_d ul
        (Cons1D.d ul
        - q3 * (Cons1D.d (x3Flux (k+1)%Z (j-1)%Z i)
        - Cons1D.d (x3Flux k (j-1)%Z i))) in
  let ul := ConsU.set_Mx ul
        (Cons1D.Mx ul
        - q3 * (Cons1D.Mz (x3Flux (k+1)%Z (j-1)%Z i)
        - Cons1D.Mz (x3Flux k (j-1)%Z i))) in
  let ul := ConsU.set_My ul
        (Cons1D.My ul
        - q3 * (Cons1D.Mx (x3Flux (k+1)%Z (j-1)%Z i)
        - Cons1D.Mx (x3Flux k (j-1)%Z i))) in
  let ul := ConsU.set_Mz ul
        (Cons1D.Mz ul
        - q3 * (Cons1D.My (x3Flux (k+1)%Z (j-1)%Z i)
        - Cons1D.My (x3Flux k (j-1)%Z i))) in
  let ul := if BAROTROPIC cfg then ul else ConsU.set_E ul
        (Cons1D.E ul
        - q3 * (Cons1D.E (x3Flux (k+1)%Z (j-1)%Z i)
        - Cons1D.E (x3Flux k (j-1)%Z i))) in
  let ul := if MHD cfg then ConsU.set_Bz ul
        (Cons1D.Bz ul
        + q3 * 0.5 *
        ((emf2 (k+1)%Z (j-1)%Z i - emf2 k (j-1)%Z i)
        + (emf2 (k+1)%Z (j-1)%Z (i+1)%Z - emf2 k (j-1)%Z (i+1)%Z))) else ul
        in
  let ur := ConsU.set_d ur
        (Cons1D.d ur
        - q3 * (Cons1D.d (x3Flux (k+1)%Z j i) - Cons1D.d (x3Flux k j i))) in
  let ur := ConsU.set_Mx ur
        (Cons1D.Mx ur
        - q3 * (Cons1D.Mz (x3Flux (k+1)%Z j i) - Cons1D.Mz (x3Flux k j i)))
        in
  let ur := ConsU.set_My ur
        (Cons1D.My ur
        - q3 * (Cons1D.Mx (x3Flux (k+1)%Z j i) - Cons1D.Mx (x3Flux k j i)))
        in
  let ur := ConsU.set_Mz ur
        (Cons1D.Mz ur
        - q3 * (Cons1D.My (x3Flux (k+1)%Z j i) - Cons1D.My (x3Flux k j i)))
        in
  let ur := if BAROTROPIC cfg then ur else ConsU.set_E ur
        (Cons1D.E ur
        - q3 * (Cons1D.E (x3Flux (k+1)%Z j i) - Cons1D.E (x3Flux k j i))) in
  let ur := if MHD cfg then ConsU.set_Bz ur
        (Cons1D.Bz ur
        + q3 * 0.5 *
        ((emf2 (k+1)%Z j i - emf2 k j i)
        + (emf2 (k+1)%Z j (i+1)%Z - emf2 k j (i+1)%Z))) else ur in
  let ul := ConsU.set_s ul
        (for_scal (NSCALARS cfg)
        (fun n sn => sn
        - q3 * (Cons1D.s (x3Flux (k+1)%Z (j-1)%Z i) n
        - Cons1D.s (x3Flux k (j-1)%Z i) n)) (Cons1D.s ul)) in
  let ur := ConsU.set_s ur
        (for_scal (NSCALARS cfg)
        (fun n sn => sn
        - q3 * (Cons1D.s (x3Flux (k+1)%Z j i) n
        - Cons1D.s (x3Flux k j i) n)) (Cons1D.s ur)) in
  (ul, ur).

(** Step 6c (MHD). *)
Definition step6c_cell (k j i : Z) (ul ur : Cons1D.t)
  : Cons1D.t * Cons1D.t :=
  let db1 := (B1i pG k (j-1)%Z (i+1)%Z - B1i pG k (j-1)%Z i) * dx1i in
  let db2 := (B2i pG k j i - B2i pG k (j-1)%Z i) * dx2i in
  let db3 := (B3i pG (k+1)%Z (j-1)%Z i - B3i pG k (j-1)%Z i) * dx3i in
  let B1 := Gas.B1c (U pG k (j-1)%Z i) in
  let B2 := Gas.B2c (U pG k (j-1)%Z i) in
  let B3 := Gas.B3c (U pG k (j-1)%Z i) in
  let V1 := Gas.M1 (U pG k (j-1)%Z i) / Gas.d (U pG k (j-1)%Z i) in
  let V3 := Gas.M3 (U pG k (j-1)%Z i) / Gas.d (U pG k (j-1)%Z i) in
  let mdb1 :=
    if Rgtb db2 0 && Rltb db1 0 then if Rgt_dec db1 (- db2) then db1 else
          - db2
    else if Rltb db2 0 && Rgtb db1 0 then if Rlt_dec db1 (- db2) then db1
          else - db2
    else 0 in
  let mdb3 :=
    if Rgtb db2 0 && Rltb db3 0 then if Rgt_dec db3 (- db2) then db3 else
          - db2
    else if Rltb db2 0 && Rgtb db3 0 then if Rlt_dec db3 (- db2) then db3
          else - db2
    else 0 in
  let ul := ConsU.set_Mz ul (Cons1D.Mz ul + hdt * B1 * db2) in
  let ul := ConsU.set_Mx ul (Cons1D.Mx ul + hdt * B2 * db2) in
  let ul := ConsU.set_My ul (Cons1D.My ul + hdt * B3 * db2) in
  let ul := ConsU.set_By ul (Cons1D.By ul + hdt * V3 * (- mdb1)) in
  let ul := ConsU.set_Bz ul (Cons1D.Bz ul + hdt * V1 * (- mdb3)) in
  let ul := if BAROTROPIC cfg then ul else ConsU.set_E ul
        (Cons1D.E ul + hdt * (B3 * V3 * (- mdb1) + B1 * V1 * (- mdb3))) in
  let db1 := (B1i pG k j (i+1)%Z - B1i pG k j i) * dx1i in
  let db2 := (B2i pG k (j+1)%Z i - B2i pG k j i) * dx2i in
  let db3 := (B3i pG (k+1)%Z j i - B3i pG k j i) * dx3i in
  let B1 := Gas.B1c (U pG k j i) in
  let B2 := Gas.B2c (U pG k j i) in
  let B3 := Gas.B3c (U pG k j i) in
  let V1 := Gas.M1 (U pG k j i) / Gas.d (U pG k j i) in
  let V3 := Gas.M3 (U pG k j i) / Gas.d (U pG k j i) in
  let mdb1 :=
    if Rgtb db2 0 && Rltb db1 0 then if Rgt_dec db1 (- db2) then db1 else
          - db2
    else if Rltb db2 0 && Rgtb db1 0 then if Rlt_dec db1 (- db2) then db1
          else - db2
    else 0 in
  let mdb3 :=
    if Rgtb db2 0 && Rltb db3 0 then if Rgt_dec db3 (- db2) then db3 else
          - db2
    else if Rltb db2 0 && Rgtb db3 0 then if Rlt_dec db3 (- db2) then db3
          else - db2
    else 0 in
  let ur := ConsU.set_Mz ur (Cons1D.Mz ur + hdt * B1 * db2) in
  let ur := ConsU.set_Mx ur (Cons1D.Mx ur + hdt * B2 * db2) in
  let ur := ConsU.set_My ur (Cons1D.My ur + hdt * B3 * db2) in
  let ur := ConsU.set_By ur (Cons1D.By ur + hdt * V3 * (- mdb1)) in
  let ur := ConsU.set_Bz ur (Cons1D.Bz ur + hdt * V1 * (- mdb3)) in
  let ur := if BAROTROPIC cfg then ur else ConsU.set_E ur
        (Cons1D.E ur + hdt * (B3 * V3 * (- mdb1) + B1 * V1 * (- mdb3))) in
  (ul, ur).

(** Step 6d, static gravitational potential. *)
Definition step6d_grav_cell (phi : Real -> Real -> Real -> Real) (k j i : Z) (ul ur : Cons1D.t)
  : Cons1D.t * Cons1D.t :=
  let '(x1, x2, x3) := cc_pos ext pG i j k in
  let phic := phi (x1) x2 x3 in
  let phir := phi (x1 + 0.5 * dx1 pG) x2 x3 in
  let phil := phi (x1 - 0.5 * dx1 pG) x2 x3 in
  let ur := ConsU.set_Mz ur
        (Cons1D.Mz ur - q1 * (phir - phil) * Gas.d (U pG k j i)) in
  let ur := if BAROTROPIC cfg then ur else ConsU.set_E ur
        (Cons1D.E ur
        - q1 * (Cons1D.d (x1Flux k j i) * (phic - phil)
        + Cons1D.d (x1Flux k j (i+1)%Z) * (phir - phic))) in
  let phir := phi x1 x2 (x3 + 0.5 * dx3 pG) in
  let phil := phi x1 x2 (x3 - 0.5 * dx3 pG) in
  let ur := ConsU.set_My ur
        (Cons1D.My ur - q3 * (phir - phil) * Gas.d (U pG k j i)) in
  let ur := if BAROTROPIC cfg then ur else ConsU.set_E ur
        (Cons1D.E ur
        - q3 * (Cons1D.d (x3Flux k j i) * (phic - phil)
        + Cons1D.d (x3Flux (k+1)%Z j i) * (phir - phic))) in
  let phic := phi (x1) (x2 - dx2 pG) x3 in
  let phir := phi (x1 + 0.5 * dx1 pG) (x2 - dx2 pG) x3 in
  let phil := phi (x1 - 0.5 * dx1 pG) (x2 - dx2 pG) x3 in
  let ul := ConsU.set_Mz ul
        (Cons1D.Mz ul - q1 * (phir - phil) * Gas.d (U pG k (j-1)%Z i)) in
  let ul := if BAROTROPIC cfg then ul else ConsU.set_E ul
        (Cons1D.E ul
        - q1 * (Cons1D.d (x1Flux k (j-1)%Z i) * (phic - phil)
        + Cons1D.d (x1Flux k (j-1)%Z (i+1)%Z) * (phir - phic))) in
  let phir := phi x1 (x2 - dx2 pG) (x3 + 0.5 * dx3 pG) in
  let phil := phi x1 (x2 - dx2 pG) (x3 - 0.5 * dx3 pG) in
  let ul := ConsU.set_My ul
        (Cons1D.My ul - q3 * (phir - phil) * Gas.d (U pG k (j-1)%Z i)) in
  let ul := if BAROTROPIC cfg then ul else ConsU.set_E ul
        (Cons1D.E ul
        - q3 * (Cons1D.d (x3Flux k (j-1)%Z i) * (phic - phil)
        + Cons1D.d (x3Flux (k+1)%Z (j-1)%Z i) * (phir - phic))) in
  (ul, ur).

(** Step 6d (cont), self-gravity. *)
Definition step6d_selfg_cell (k j i : Z) (ul ur : Cons1D.t)
  : Cons1D.t * Cons1D.t :=
  let phic := Phi pG k j i in
  let phir := 0.5 * (Phi pG k j i + Phi pG k j (i+1)%Z) in
  let phil := 0.5 * (Phi pG k j i + Phi pG k j (i-1)%Z) in
  let ur := ConsU.set_Mz ur
        (Cons1D.Mz ur - q1 * (phir - phil) * Gas.d (U pG k j i)) in
  let ur := if BAROTROPIC cfg then ur else ConsU.set_E ur
        (Cons1D.E ur
        - q1 * (Cons1D.d (x1Flux k j i) * (phic - phil)
        + Cons1D.d (x1Flux k j (i+1)%Z) * (phir - phic))) in
  let phir := 0.5 * (Phi pG k j i + Phi pG (k+1)%Z j i) in
  let phil := 0.5 * (Phi pG k j i + Phi pG (k-1)%Z j i) in
  let ur := ConsU.set_My ur
        (Cons1D.My ur - q3 * (phir - phil) * Gas.d (U pG k j i)) in
  let ur := if BAROTROPIC cfg then ur else ConsU.set_E ur
        (Cons1D.E ur
        - q3 * (Cons1D.d (x3Flux k j i) * (phic - phil)
        + Cons1D.d (x3Flux (k+1)%Z j i) * (phir - phic))) in
  let phic := Phi pG k (j-1)%Z i in
  let phir := 0.5 * (Phi pG k (j-1)%Z i + Phi pG k (j-1)%Z (i+1)%Z) in
  let phil := 0.5 * (Phi pG k (j-1)%Z i + Phi pG k (j-1)%Z (i-1)%Z) in
  let ul := ConsU.set_Mz ul
        (Cons1D.Mz ul - q1 * (phir - phil) * Gas.d (U pG k (j-1)%Z i)) in
  let ul := if BAROTROPIC cfg then ul else ConsU.set_E ul
        (Cons1D.E ul
        - q1 * (Cons1D.d (x1Flux k (j-1)%Z i) * (phic - phil)
        + Cons1D.d (x1Flux k (j-1)%Z (i+1)%Z) * (phir - phic))) in
  let phir := 0.5 * (Phi pG k (j-1)%Z i + Phi pG (k+1)%Z (j-1)%Z i) in
  let phil := 0.5 * (Phi pG k (j-1)%Z i + Phi pG (k-1)%Z (j-1)%Z i) in
  let ul := ConsU.set_My ul
        (Cons1D.My ul - q3 * (phir - phil) * Gas.d (U pG k (j-1)%Z i)) in
  let ul := if BAROTROPIC cfg then ul else ConsU.set_E ul
        (Cons1D.E ul
        - q3 * (Cons1D.d (x3Flux k (j-1)%Z i) * (phic - phil)
        + Cons1D.d (x3Flux (k+1)%Z (j-1)%Z i) * (phir - phic))) in
  (ul, ur).

(** Step 6d (cont), shearing box. *)
Definition step6d_shear_cell (k j i : Z) (ul ur : Cons1D.t)
  : Cons1D.t * Cons1D.t :=
  let ur := ConsU.set_Mz ur
        (Cons1D.Mz ur + dt pG * Omega gl * Gas.M2 (U pG k j i)) in
  let ur := if FARGO cfg then ConsU.set_Mx ur
        (Cons1D.Mx ur - 0.25 * dt pG * Omega gl * Gas.M1 (U pG k j i)) else
        ur in
  let ur := if FARGO cfg then ur else ConsU.set_Mx ur
        (Cons1D.Mx ur - dt pG * Omega gl * Gas.M1 (U pG k j i)) in
  let ul := ConsU.set_Mz ul
        (Cons1D.Mz ul + dt pG * Omega gl * Gas.M2 (U pG k (j-1)%Z i)) in
  let ul := if FARGO cfg then ConsU.set_Mx ul
        (Cons1D.Mx ul
        - 0.25 * dt pG * Omega gl * Gas.M1 (U pG k (j-1)%Z i)) else ul in
  let ul := if FARGO cfg then ul else ConsU.set_Mx ul
        (Cons1D.Mx ul - dt pG * Omega gl * Gas.M1 (U pG k (j-1)%Z i)) in
  (ul, ur).
Definition step6 (p : Arr3 Cons1D.t * Arr3 Cons1D.t)
  : Arr3 Cons1D.t * Arr3 Cons1D.t :=
  let box := face_nest (ks pG - 1) (ke pG + 1) (js pG - 1) (je pG + 2)
                       (is_ pG - 1) (ie pG + 1) in
  let p := box step6ab_cell p in
  let p := if MHD cfg then box step6c_cell p else p in
  let p := match StaticGravPot gl with
           | Some phi => box (step6d_grav_cell phi) p
           | None => p
           end in
  let p := if SELF_GRAVITY cfg then box step6d_selfg_cell p else p in
  if SHEARING_BOX cfg then box step6d_shear_cell p else p.

(** *** Step 7: the x3-interface states *)

(** Steps 7a and 7b: the x3-face states corrected with the x1- and the
    x2-flux gradients. *)
Definition step7ab_cell (k j i : Z) (ul ur : Cons1D.t)
  : Cons1D.t * Cons1D.t :=
  let ul := ConsU.set_d ul
        (Cons1D.d ul
        - q1 * (Cons1D.d (x1Flux (k-1)%Z j (i+1)%Z)
        - Cons1D.d (x1Flux (k-1)%Z j i))) in
  let ul := ConsU.set_Mx ul
        (Cons1D.Mx ul
        - q1 * (Cons1D.Mz (x1Flux (k-1)%Z j (i+1)%Z)
        - Cons1D.Mz (x1Flux (k-1)%Z j i))) in
  let ul := ConsU.set_My ul
        (Cons1D.My ul
        - q1 * (Cons1D.Mx (x1Flux (k-1)%Z j (i+1)%Z)
        - Cons1D.Mx (x1Flux (k-1)%Z j i))) in
  let ul := ConsU.set_Mz ul
        (Cons1D.Mz ul
        - q1 * (Cons1D.My (x1Flux (k-1)%Z j (i+1)%Z)
        - Cons1D.My (x1Flux (k-1)%Z j i))) in
  let ul := if BAROTROPIC cfg then ul else ConsU.set_E ul
        (Cons1D.E ul
        - q1 * (Cons1D.E (x1Flux (k-1)%Z j (i+1)%Z)
        - Cons1D.E (x1Flux (k-1)%Z j i))) in
  let ul := if MHD cfg then ConsU.set_Bz ul
        (Cons1D.Bz ul
        + q1 * 0.5 *
        ((emf3 (k-1)%Z j (i+1)%Z - emf3 (k-1)%Z j i)
        + (emf3 (k-1)%Z (j+1)%Z (i+1)%Z - emf3 (k-1)%Z (j+1)%Z i))) else ul
        in
  let ur := ConsU.set_d ur
        (Cons1D.d ur
        - q1 * (Cons1D.d (x1Flux k j (i+1)%Z) - Cons1D.d (x1Flux k j i))) in
  let ur := ConsU.set_Mx ur
        (Cons1D.Mx ur
        - q1 * (Cons1D.Mz (x1Flux k j (i+1)%Z) - Cons1D.Mz (x1Flux k j i)))
        in
  let ur := ConsU.set_My ur
        (Cons1D.My ur
        - q1 * (Cons1D.Mx (x1Flux k j (i+1)%Z) - Cons1D.Mx (x1Flux k j i)))
        in
  let ur := ConsU.set_Mz ur
        (Cons1D.Mz ur
        - q1 * (Cons1D.My (x1Flux k j (i+1)%Z) - Cons1D.My (x1Flux k j i)))
        in
  let ur := if BAROTROPIC cfg then ur else ConsU.set_E ur
        (Cons1D.E ur
        - q1 * (Cons1D.E (x1Flux k j (i+1)%Z) - Cons1D.E (x1Flux k j i))) in
  let ur := if MHD cfg then ConsU.set_Bz ur
        (Cons1D.Bz ur
        + q1 * 0.5 *
        ((emf3 k j (i+1)%Z - emf3 k j i)
        + (emf3 k (j+1)%Z (i+1)%Z - emf3 k (j+1)%Z i))) else ur in
  let ul := ConsU.set_s ul
        (for_scal (NSCALARS cfg)
        (fun n sn => sn
        - q1 * (Cons1D.s (x1Flux (k-1)%Z j (i+1)%Z) n
        - Cons1D.s (x1Flux (k-1)%Z j i) n)) (Cons1D.s ul)) in
  let ur := ConsU.set_s ur
        (for_scal (NSCALARS cfg)
        (fun n sn => sn
        - q1 * (Cons1D.s (x1Flux k j (i+1)%Z) n
        - Cons1D.s (x1Flux k j i) n)) (Cons1D.s ur)) in
  let ul := ConsU.set_d ul
        (Cons1D.d ul
        - q2 * (Cons1D.d (x2Flux (k-1)%Z (j+1)%Z i)
        - Cons1D.d (x2Flux (k-1)%Z j i))) in
  let ul := ConsU.set_Mx ul
        (Cons1D.Mx ul
        - q2 * (Cons1D.My (x2Flux (k-1)%Z (j+1)%Z i)
        - Cons1D.My (x2Flux (k-1)%Z j i))) in
  let ul := ConsU.set_My ul
        (Cons1D.My ul
        - q2 * (Cons1D.Mz (x2Flux (k-1)%Z (j+1)%Z i)
        - Cons1D.Mz (x2Flux (k-1)%Z j i))) in
  let ul := ConsU.set_Mz ul
        (Cons1D.Mz ul
        - q2 * (Cons1D.Mx (x2Flux (k-1)%Z (j+1)%Z i)
        - Cons1D.Mx (x2Flux (k-1)%Z j i))) in
  let ul := if BAROTROPIC cfg then ul else ConsU.set_E ul
        (Cons1D.E ul
        - q2 * (Cons1D.E (x2Flux (k-1)%Z (j+1)%Z i)
        - Cons1D.E (x2Flux (k-1)%Z j i))) in
  let ul := if MHD cfg then ConsU.set_By ul
        (Cons1D.By ul
        - q2 * 0.5 *
        ((emf3 (k-1)%Z (j+1)%Z i - emf3 (k-1)%Z j i)
        + (emf3 (k-1)%Z (j+1)%Z (i+1)%Z - emf3 (k-1)%Z j (i+1)%Z))) else ul
        in
  let ur := ConsU.set_d ur
        (Cons1D.d ur
        - q2 * (Cons1D.d (x2Flux k (j+1)%Z i) - Cons1D.d (x2Flux k j i))) in
  let ur := ConsU.set_Mx ur
        (Cons1D.Mx ur
        - q2 * (Cons1D.My (x2Flux k (j+1)%Z i) - Cons1D.My (x2Flux k j i)))
        in
  let ur := ConsU.set_My ur
        (Cons1D.My ur
        - q2 * (Cons1D.Mz (x2Flux k (j+1)%Z i) - Cons1D.Mz (x2Flux k j i)))
        in
  let ur := ConsU.set_Mz ur
        (Cons1D.Mz ur
        - q2 * (Cons1D.Mx (x2Flux k (j+1)%Z i) - Cons1D.Mx (x2Flux k j i)))
        in
  let ur := if BAROTROPIC cfg then ur else ConsU.set_E ur
        (Cons1D.E ur
        - q2 * (Cons1D.E (x2Flux k (j+1)%Z i) - Cons1D.E (x2Flux k j i))) in
  let ur := if MHD cfg then ConsU.set_By ur
        (Cons1D.By ur
        - q2 * 0.5 *
        ((emf3 k (j+1)%Z i - emf3 k j i)
        + (emf3 k (j+1)%Z (i+1)%Z - emf3 k j (i+1)%Z))) else ur in
  let ul := ConsU.set_s ul
        (for_scal (NSCALARS cfg)
        (fun n sn => sn
        - q2 * (Cons1D.s (x2Flux (k-1)%Z (j+1)%Z i) n
        - Cons1D.s (x2Flux (k-1)%Z j i) n)) (Cons1D.s ul)) in
  let ur := ConsU.set_s ur
        (for_scal (NSCALARS cfg)
        (fun n sn => sn
        - q2 * (Cons1D.s (x2Flux k (j+1)%Z i) n
        - Cons1D.s (x2Flux k j i) n)) (Cons1D.s ur)) in
  (ul, ur).

(** Step 7c (MHD). *)
Definition step7c_cell (k j i : Z) (ul ur : Cons1D.t)
  : Cons1D.t * Cons1D.t :=
  let db1 := (B1i pG (k-1)%Z j (i+1)%Z - B1i pG (k-1)%Z j i) * dx1i in
  let db2 := (B2i pG (k-1)%Z (j+1)%Z i - B2i pG (k-1)%Z j i) * dx2i in
  let db3 := (B3i pG k j i - B3i pG (k-1)%Z j i) * dx3i in
  let B1 := Gas.B1c (U pG (k-1)%Z j i) in
  let B2 := Gas.B2c (U pG (k-1)%Z j i) in
  let B3 := Gas.B3c (U pG (k-1)%Z j i) in
  let V1 := Gas.M1 (U pG (k-1)%Z j i) / Gas.d (U pG (k-1)%Z j i) in
  let V2 := Gas.M2 (U pG (k-1)%Z j i) / Gas.d (U pG (k-1)%Z j i) in
  let mdb1 :=
    if Rgtb db3 0 && Rltb db1 0 then if Rgt_dec db1 (- db3) then db1 else
          - db3
    else if Rltb db3 0 && Rgtb db1 0 then if Rlt_dec db1 (- db3) then db1
          else - db3
    else 0 in
  let mdb2 :=
    if Rgtb db3 0 && Rltb db2 0 then if Rgt_dec db2 (- db3) then db2 else
          - db3
    else if Rltb db3 0 && Rgtb db2 0 then if Rlt_dec db2 (- db3) then db2
          else - db3
    else 0 in
  let ul := ConsU.set_My ul (Cons1D.My ul + hdt * B1 * db3) in
  let ul := ConsU.set_Mz ul (Cons1D.Mz ul + hdt * B2 * db3) in
  let ul := ConsU.set_Mx ul (Cons1D.Mx ul + hdt * B3 * db3) in
  let ul := ConsU.set_By ul (Cons1D.By ul + hdt * V1 * (- mdb2)) in
  let ul := ConsU.set_Bz ul (Cons1D.Bz ul + hdt * V2 * (- mdb1)) in
  let ul := if BAROTROPIC cfg then ul else ConsU.set_E ul
        (Cons1D.E ul + hdt * (B1 * V1 * (- mdb2) + B2 * V2 * (- mdb1))) in
  let db1 := (B1i pG k j (i+1)%Z - B1i pG k j i) * dx1i in
  let db2 := (B2i pG k (j+1)%Z i - B2i pG k j i) * dx2i in
  let db3 := (B3i pG (k+1)%Z j i - B3i pG k j i) * dx3i in
  let B1 := Gas.B1c (U pG k j i) in
  let B2 := Gas.B2c (U pG k j i) in
  let B3 := Gas.B3c (U pG k j i) in
  let V1 := Gas.M1 (U pG k j i) / Gas.d (U pG k j i) in
  let V2 := Gas.M2 (U pG k j i) / Gas.d (U pG k j i) in
  let mdb1 :=
    if Rgtb db3 0 && Rltb db1 0 then if Rgt_dec db1 (- db3) then db1 else
          - db3
    else if Rltb db3 0 && Rgtb db1 0 then if Rlt_dec db1 (- db3) then db1
          else - db3
    else 0 in
  let mdb2 :=
    if Rgtb db3 0 && Rltb db2 0 then if Rgt_dec db2 (- db3) then db2 else
          - db3
    else if Rltb db3 0 && Rgtb db2 0 then if Rlt_dec db2 (- db3) then db2
          else - db3
    else 0 in
  let ur := ConsU.set_My ur (Cons1D.My ur + hdt * B1 * db3) in
  let ur := ConsU.set_Mz ur (Cons1D.Mz ur + hdt * B2 * db3) in
  let ur := ConsU.set_Mx ur (Cons1D.Mx ur + hdt * B3 * db3) in
  let ur := ConsU.set_By ur (Cons1D.By ur + hdt * V1 * (- mdb2)) in
  let ur := ConsU.set_Bz ur (Cons1D.Bz ur + hdt * V2 * (- mdb1)) in
  let ur := if BAROTROPIC cfg then ur else ConsU.set_E ur
        (Cons1D.E ur + hdt * (B1 * V1 * (- mdb2) + B2 * V2 * (- mdb1))) in
  (ul, ur).

(** Step 7d, static gravitational potential. *)
Definition step7d_grav_cell (phi : Real -> Real -> Real -> Real) (k j i : Z) (ul ur : Cons1D.t)
  : Cons1D.t * Cons1D.t :=
  let '(x1, x2, x3) := cc_pos ext pG i j k in
  let phic := phi (x1) x2 x3 in
  let phir := phi (x1 + 0.5 * dx1 pG) x2 x3 in
  let phil := phi (x1 - 0.5 * dx1 pG) x2 x3 in
  let ur := ConsU.set_My ur
        (Cons1D.My ur - q1 * (phir - phil) * Gas.d (U pG k j i)) in
  let ur := if BAROTROPIC cfg then ur else ConsU.set_E ur
        (Cons1D.E ur
        - q1 * (Cons1D.d (x1Flux k j i) * (phic - phil)
        + Cons1D.d (x1Flux k j (i+1)%Z) * (phir - phic))) in
  let phir := phi x1 (x2 + 0.5 * dx2 pG) x3 in
  let phil := phi x1 (x2 - 0.5 * dx2 pG) x3 in
  let ur := ConsU.set_Mz ur
        (Cons1D.Mz ur - q2 * (phir - phil) * Gas.d (U pG k j i)) in
  let ur := if BAROTROPIC cfg then ur else ConsU.set_E ur
        (Cons1D.E ur
        - q2 * (Cons1D.d (x2Flux k j i) * (phic - phil)
        + Cons1D.d (x2Flux k (j+1)%Z i) * (phir - phic))) in
  let phic := phi (x1) x2 (x3 - dx3 pG) in
  let phir := phi (x1 + 0.5 * dx1 pG) x2 (x3 - dx3 pG) in
  let phil := phi (x1 - 0.5 * dx1 pG) x2 (x3 - dx3 pG) in
  let ul := ConsU.set_My ul
        (Cons1D.My ul - q1 * (phir - phil) * Gas.d (U pG (k-1)%Z j i)) in
  let ul := if BAROTROPIC cfg then ul else ConsU.set_E ul
        (Cons1D.E ul
        - q1 * (Cons1D.d (x1Flux (k-1)%Z j i) * (phic - phil)
        + Cons1D.d (x1Flux (k-1)%Z j (i+1)%Z) * (phir - phic))) in
  let phir := phi x1 (x2 + 0.5 * dx2 pG) (x3 - dx3 pG) in
  let phil := phi x1 (x2 - 0.5 * dx2 pG) (x3 - dx3 pG) in
  let ul := ConsU.set_Mz ul
        (Cons1D.Mz ul - q2 * (phir - phil) * Gas.d (U pG (k-1)%Z j i)) in
  let ul := if BAROTROPIC cfg then ul else ConsU.set_E ul
        (Cons1D.E ul
        - q2 * (Cons1D.d (x2Flux (k-1)%Z j i) * (phic - phil)
        + Cons1D.d (x2Flux (k-1)%Z (j+1)%Z i) * (phir - phic))) in
  (ul, ur).

(** Step 7d (cont), self-gravity. *)
Definition step7d_selfg_cell (k j i : Z) (ul ur : Cons1D.t)
  : Cons1D.t * Cons1D.t :=
  let phic := Phi pG k j i in
  let phir := 0.5 * (Phi pG k j i + Phi pG k j (i+1)%Z) in
  let phil := 0.5 * (Phi pG k j i + Phi pG k j (i-1)%Z) in
  let ur := ConsU.set_My ur
        (Cons1D.My ur - q1 * (phir - phil) * Gas.d (U pG k j i)) in
  let ur := if BAROTROPIC cfg then ur else ConsU.set_E ur
        (Cons1D.E ur
        - q1 * (Cons1D.d (x1Flux k j i) * (phic - phil)
        + Cons1D.d (x1Flux k j (i+1)%Z) * (phir - phic))) in
  let phir := 0.5 * (Phi pG k j i + Phi pG k (j+1)%Z i) in
  let phil := 0.5 * (Phi pG k j i + Phi pG k (j-1)%Z i) in
  let ur := ConsU.set_Mz ur
        (Cons1D.Mz ur - q2 * (phir - phil) * Gas.d (U pG k j i)) in
  let ur := if BAROTROPIC cfg then ur else ConsU.set_E ur
        (Cons1D.E ur
        - q2 * (Cons1D.d (x2Flux k j i) * (phic - phil)
        + Cons1D.d (x2Flux k (j+1)%Z i) * (phir - phic))) in
  let phic := Phi pG (k-1)%Z j i in
  let phir := 0.5 * (Phi pG (k-1)%Z j i + Phi pG (k-1)%Z j (i+1)%Z) in
  let phil := 0.5 * (Phi pG (k-1)%Z j i + Phi pG (k-1)%Z j (i-1)%Z) in
  let ul := ConsU.set_My ul
        (Cons1D.My ul - q1 * (phir - phil) * Gas.d (U pG (k-1)%Z j i)) in
  let ul := if BAROTROPIC cfg then ul else ConsU.set_E ul
        (Cons1D.E ul
        - q1 * (Cons1D.d (x1Flux (k-1)%Z j i) * (phic - phil)
        + Cons1D.d (x1Flux (k-1)%Z j (i+1)%Z) * (phir - phic))) in
  let phir := 0.5 * (Phi pG (k-1)%Z j i + Phi pG (k-1)%Z (j+1)%Z i) in
  let phil := 0.5 * (Phi pG (k-1)%Z j i + Phi pG (k-1)%Z (j-1)%Z i) in
  let ul := ConsU.set_Mz ul
        (Cons1D.Mz ul - q2 * (phir - phil) * Gas.d (U pG (k-1)%Z j i)) in
  let ul := if BAROTROPIC cfg then ul else ConsU.set_E ul
        (Cons1D.E ul
        - q2 * (Cons1D.d (x2Flux (k-1)%Z j i) * (phic - phil)
        + Cons1D.d (x2Flux (k-1)%Z (j+1)%Z i) * (phir - phic))) in
  (ul, ur).

(** Step 7d (cont), shearing box. *)
Definition step7d_shear_cell (k j i : Z) (ul ur : Cons1D.t)
  : Cons1D.t * Cons1D.t :=
  let ur := ConsU.set_My ur
        (Cons1D.My ur + dt pG * Omega gl * Gas.M2 (U pG k j i)) in
  let ur := if FARGO cfg then ConsU.set_Mz ur
        (Cons1D.Mz ur - 0.25 * dt pG * Omega gl * Gas.M1 (U pG k j i)) else
        ur in
  let ur := if FARGO cfg then ur else ConsU.set_Mz ur
        (Cons1D.Mz ur - dt pG * Omega gl * Gas.M1 (U pG k j i)) in
  let ul := ConsU.set_My ul
        (Cons1D.My ul + dt pG * Omega gl * Gas.M2 (U pG (k-1)%Z j i)) in
  let ul := if FARGO cfg then ConsU.set_Mz ul
        (Cons1D.Mz ul
        - 0.25 * dt pG * Omega gl * Gas.M1 (U pG (k-1)%Z j i)) else ul in
  let ul := if FARGO cfg then ul else ConsU.set_Mz ul
        (Cons1D.Mz ul - dt pG * Omega gl * Gas.M1 (U pG (k-1)%Z j i)) in
  (ul, ur).
Definition step7 (p : Arr3 Cons1D.t * Arr3 Cons1D.t)
  : Arr3 Cons1D.t * Arr3 Cons1D.t :=
  let box := face_nest (ks pG - 1) (ke pG + 2) (js pG - 1) (je pG + 1)
                       (is_ pG - 1) (ie pG + 1) in
  let p := box step7ab_cell p in
  let p := if MHD cfg then box step7c_cell p else p in
  let p := match StaticGravPot gl with
           | Some phi => box (step7d_grav_cell phi) p
           | None => p
           end in
  let p := if SELF_GRAVITY cfg then box step7d_selfg_cell p else p in
  if SHEARING_BOX cfg then box step7d_shear_cell p else p.
End Steps5to7.

(* ------------------------------------------------------------------ *)
(** ** Step 8: the cell-centred values at the half time step *)

Section Step8.
Variable cfg : Config.
Variable gl : Globals.
Variable ext : Extern.
Variable pG : Grid.
Variables x1Flux x2Flux x3Flux : Arr3 Cons1D.t.

Let dtodx1 := dt pG / dx1 pG.
Let dtodx2 := dt pG / dx2 pG.
Let dtodx3 := dt pG / dx3 pG.
Let q1 := 0.5 * dtodx1.
Let q2 := 0.5 * dtodx2.
Let q3 := 0.5 * dtodx3.

(** Step 8a: d at the half step.  Without MHD the loop is guarded by
    [StaticGravPot != NULL || CoolingFunc != NULL]. *)
Definition step8a_cell (k j i : Z) : Real :=
  let dh := Gas.d (U pG k j i)
        - q1 * (Cons1D.d (x1Flux k j (i+1)%Z) - Cons1D.d (x1Flux k j i))
        - q2 * (Cons1D.d (x2Flux k (j+1)%Z i) - Cons1D.d (x2Flux k j i))
        - q3 * (Cons1D.d (x3Flux (k+1)%Z j i) - Cons1D.d (x3Flux k j i)) in
  dh.

Definition step8a (dhalf : Arr3 Real) : Arr3 Real :=
  if MHD cfg || not_NULL (StaticGravPot gl) || not_NULL (CoolingFunc gl)
  then cellwise (ks pG - 1) (ke pG + 1) (js pG - 1) (je pG + 1)
                (is_ pG - 1) (ie pG + 1)
                (fun k j i _ => step8a_cell k j i) dhalf
  else dhalf.

Variables B1_x1Face B2_x2Face B3_x3Face : Arr3 Real.
Variable dhalf : Arr3 Real.

(** Step 8b, the momenta and the energy at the half step: the locals
    M1h, M2h, M3h and Eh.  Eh is initialised to 0.0 where it is declared. *)
Definition step8b_MhEh (k j i : Z) : Real * Real * Real * Real :=
  let Eh := 0 in
  let M1h := Gas.M1 (U pG k j i)
        - q1 * (Cons1D.Mx (x1Flux k j (i+1)%Z) - Cons1D.Mx (x1Flux k j i))
        - q2 * (Cons1D.Mz (x2Flux k (j+1)%Z i) - Cons1D.Mz (x2Flux k j i))
        - q3 * (Cons1D.My (x3Flux (k+1)%Z j i) - Cons1D.My (x3Flux k j i))
        in
  let M2h := Gas.M2 (U pG k j i)
        - q1 * (Cons1D.My (x1Flux k j (i+1)%Z) - Cons1D.My (x1Flux k j i))
        - q2 * (Cons1D.Mx (x2Flux k (j+1)%Z i) - Cons1D.Mx (x2Flux k j i))
        - q3 * (Cons1D.Mz (x3Flux (k+1)%Z j i) - Cons1D.Mz (x3Flux k j i))
        in
  let M3h := Gas.M3 (U pG k j i)
        - q1 * (Cons1D.Mz (x1Flux k j (i+1)%Z) - Cons1D.Mz (x1Flux k j i))
        - q2 * (Cons1D.My (x2Flux k (j+1)%Z i) - Cons1D.My (x2Flux k j i))
        - q3 * (Cons1D.Mx (x3Flux (k+1)%Z j i) - Cons1D.Mx (x3Flux k j i))
        in
  let Eh := if BAROTROPIC cfg then Eh else Gas.E (U pG k j i)
        - q1 * (Cons1D.E (x1Flux k j (i+1)%Z) - Cons1D.E (x1Flux k j i))
        - q2 * (Cons1D.E (x2Flux k (j+1)%Z i) - Cons1D.E (x2Flux k j i))
        - q3 * (Cons1D.E (x3Flux (k+1)%Z j i) - Cons1D.E (x3Flux k j i)) in
  let '(M1h, M2h, M3h) :=
    match StaticGravPot gl with
    | Some phi =>
      let '(x1, x2, x3) := cc_pos ext pG i j k in
      let phir := phi (x1 + 0.5 * dx1 pG) x2 x3 in
      let phil := phi (x1 - 0.5 * dx1 pG) x2 x3 in
      let M1h := M1h - q1 * (phir - phil) * Gas.d (U pG k j i) in
      let phir := phi x1 (x2 + 0.5 * dx2 pG) x3 in
      let phil := phi x1 (x2 - 0.5 * dx2 pG) x3 in
      let M2h := M2h - q2 * (phir - phil) * Gas.d (U pG k j i) in
      let phir := phi x1 x2 (x3 + 0.5 * dx3 pG) in
      let phil := phi x1 x2 (x3 - 0.5 * dx3 pG) in
      let M3h := M3h - q3 * (phir - phil) * Gas.d (U pG k j i) in
      (M1h, M2h, M3h)
    | None => (M1h, M2h, M3h)
    end in
  let '(M1h, M2h, M3h) :=
    if SELF_GRAVITY cfg then
      let phir := 0.5 * (Phi pG k j i + Phi pG k j (i+1)%Z) in
      let phil := 0.5 * (Phi pG k j i + Phi pG k j (i-1)%Z) in
      let M1h := M1h - q1 * (phir - phil) * Gas.d (U pG k j i) in
      let phir := 0.5 * (Phi pG k j i + Phi pG k (j+1)%Z i) in
      let phil := 0.5 * (Phi pG k j i + Phi pG k (j-1)%Z i) in
      let M2h := M2h - q2 * (phir - phil) * Gas.d (U pG k j i) in
      let phir := 0.5 * (Phi pG k j i + Phi pG (k+1)%Z j i) in
      let phil := 0.5 * (Phi pG k j i + Phi pG (k-1)%Z j i) in
      let M3h := M3h - q3 * (phir - phil) * Gas.d (U pG k j i) in
      (M1h, M2h, M3h)
    else (M1h, M2h, M3h) in
  let M1h := if SHEARING_BOX cfg then M1h
        + dt pG * Omega gl * Gas.M2 (U pG k j i) else M1h in
  let M2h := if SHEARING_BOX cfg then if FARGO cfg then M2h
        - 0.25 * dt pG * Omega gl * Gas.M1 (U pG k j i) else M2h else M2h in
  let M2h := if SHEARING_BOX cfg then if FARGO cfg then M2h else M2h
        - dt pG * Omega gl * Gas.M1 (U pG k j i) else M2h in
  (M1h, M2h, M3h, Eh).

(** Step 8b, the stores to phalf[k][j][i] and emf1_cc, emf2_cc,
    emf3_cc[k][j][i]: [ph], [e1], [e2], [e3] are these elements. *)
Definition step8b_cell (k j i : Z) (ph e1 e2 e3 : Real)
  : Real * Real * Real * Real :=
  let '(M1h, M2h, M3h, Eh) := step8b_MhEh k j i in
  let ph := if BAROTROPIC cfg then ph else
    Eh - 0.5 * (M1h * M1h + M2h * M2h + M3h * M3h) / dhalf k j i in
  let '(ph, e1, e2, e3) :=
    if MHD cfg then
      let B1ch := 0.5 * (B1_x1Face k j i + B1_x1Face k j (i+1)%Z) in
      let B2ch := 0.5 * (B2_x2Face k j i + B2_x2Face k (j+1)%Z i) in
      let B3ch := 0.5 * (B3_x3Face k j i + B3_x3Face (k+1)%Z j i) in
      let e1 := (B2ch * M3h - B3ch * M2h) / dhalf k j i in
      let e2 := (B3ch * M1h - B1ch * M3h) / dhalf k j i in
      let e3 := (B1ch * M2h - B2ch * M1h) / dhalf k j i in
      let ph := if BAROTROPIC cfg then ph else ph
            - 0.5 * (B1ch * B1ch + B2ch * B2ch + B3ch * B3ch) in
      (ph, e1, e2, e3)
    else (ph, e1, e2, e3) in
  let ph := if BAROTROPIC cfg then ph else ph * Gamma_1 gl in
  (ph, e1, e2, e3).

(** Without MHD the loop is guarded by [CoolingFunc != NULL]. *)
Definition step8b (a : Arr3 Real * Arr3 Real * Arr3 Real * Arr3 Real)
  : Arr3 Real * Arr3 Real * Arr3 Real * Arr3 Real :=
  if MHD cfg || not_NULL (CoolingFunc gl) then
    nest (ks pG - 1) (ke pG + 1) (js pG - 1) (je pG + 1)
         (is_ pG - 1) (ie pG + 1)
      (fun k j i a =>
         let '(phalf, emf1_cc, emf2_cc, emf3_cc) := a in
         let '(ph, e1, e2, e3) :=
           step8b_cell k j i (phalf k j i) (emf1_cc k j i) (emf2_cc k j i)
                       (emf3_cc k j i) in
         (upd3 phalf k j i ph, upd3 emf1_cc k j i e1,
          upd3 emf2_cc k j i e2, upd3 emf3_cc k j i e3)) a
  else a.
End Step8.

(* ------------------------------------------------------------------ *)
(** ** Step 9 with the global etah *)

Section Step9_loops.
Variable cfg : Config.
Variable sol : Solver.
Variable pG : Grid.
Variable fc : Faces.
Variables eta1 eta2 eta3 : Arr3 Real.

(** Steps 9b, 9c, 9d as loop nests over the global [etah], the flux
    array and the module-level vectors Wl and Wr: with H_CORRECTION the
    body stores to etah; it stores the primitive states of the face to
    Wl[i] and Wr[i] and calls the Riemann solver, which reads etah, on
    these elements. *)
Definition step9b_loop (s : Real * Arr3 Cons1D.t * LR)
  : Real * Arr3 Cons1D.t * LR :=
  nest (ks pG - 1) (ke pG + 1) (js pG - 1) (je pG + 1) (is_ pG) (ie pG + 1)
    (fun k j i s =>
       let '(etah, x1Flux, st) := s in
       let etah := if H_CORRECTION cfg then etah_x1 eta1 eta2 eta3 k j i
                   else etah in
       let st := mkLR (upd1 (Wl st) i
                         (Cons1D_to_Prim1D sol (Ul_x1Face fc k j i)
                            (MHDARG cfg (B1_x1Face fc k j i))))
                      (Wr st) in
       let st := mkLR (Wl st)
                      (upd1 (Wr st) i
                         (Cons1D_to_Prim1D sol (Ur_x1Face fc k j i)
                            (MHDARG cfg (B1_x1Face fc k j i)))) in
       (etah,
        upd3 x1Flux k j i
          (GET_FLUXES sol etah (Ul_x1Face fc k j i) (Ur_x1Face fc k j i)
                      (Wl st i) (Wr st i) (MHDARG cfg (B1_x1Face fc k j i))),
        st)) s.

Definition step9c_loop (s : Real * Arr3 Cons1D.t * LR)
  : Real * Arr3 Cons1D.t * LR :=
  nest (ks pG - 1) (ke pG + 1) (js pG) (je pG + 1) (is_ pG - 1) (ie pG + 1)
    (fun k j i s =>
       let '(etah, x2Flux, st) := s in
       let etah := if H_CORRECTION cfg then etah_x2 eta1 eta2 eta3 k j i
                   else etah in
       let st := mkLR (upd1 (Wl st) i
                         (Cons1D_to_Prim1D sol (Ul_x2Face fc k j i)
                            (MHDARG cfg (B2_x2Face fc k j i))))
                      (Wr st) in
       let st := mkLR (Wl st)
                      (upd1 (Wr st) i
                         (Cons1D_to_Prim1D sol (Ur_x2Face fc k j i)
                            (MHDARG cfg (B2_x2Face fc k j i)))) in
       (etah,
        upd3 x2Flux k j i
          (GET_FLUXES sol etah (Ul_x2Face fc k j i) (Ur_x2Face fc k j i)
                      (Wl st i) (Wr st i) (MHDARG cfg (B2_x2Face fc k j i))),
        st)) s.

Definition step9d_loop (s : Real * Arr3 Cons1D.t * LR)
  : Real * Arr3 Cons1D.t * LR :=
  nest (ks pG) (ke pG + 1) (js pG - 1) (je pG + 1) (is_ pG - 1) (ie pG + 1)
    (fun k j i s =>
       let '(etah, x3Flux, st) := s in
       let etah := if H_CORRECTION cfg then etah_x3 eta1 eta2 eta3 k j i
                   else etah in
       let st := mkLR (upd1 (Wl st) i
                         (Cons1D_to_Prim1D sol (Ul_x3Face fc k j i)
                            (MHDARG cfg (B3_x3Face fc k j i))))
                      (Wr st) in
       let st := mkLR (Wl st)
                      (upd1 (Wr st) i
                         (Cons1D_to_Prim1D sol (Ur_x3Face fc k j i)
                            (MHDARG cfg (B3_x3Face fc k j i)))) in
       (etah,
        upd3 x3Flux k j i
          (GET_FLUXES sol etah (Ul_x3Face fc k j i) (Ur_x3Face fc k j i)
                      (Wl st i) (Wr st i) (MHDARG cfg (B3_x3Face fc k j i))),
        st)) s.
End Step9_loops.

(* ------------------------------------------------------------------ *)
(** ** integrate_3d_ctu *)

(** The module-level variables of the file, and the global etah. *)
Record Work := mkWork {
  w_faces : Faces;
  w_scratch : Scratch;
  w_eta1 : Arr3 Real; w_eta2 : Arr3 Real; w_eta3 : Arr3 Real;
  w_U1d : Arr1 Cons1D.t;
  w_W : Arr1 Prim1D.t;
  w_lr : LR;
  w_Bxc : Arr1 Real;
  w_Bxi : Arr1 Real;
  w_etah : Real
}.

Section Integrate.
Variable cfg : Config.
Variable gl : Globals.
Variable ext : Extern.
Variable sol : Solver.
Variable rc : Recon.
Variable pG : Grid.
Variable pD : Domain.

(** Steps 1 to 3: the three sweeps.  The one-dimensional vectors pass from
    one sweep to the next. *)
Definition sweep1 (w : Work) : Sweep :=
  step1 cfg gl ext sol rc pG (w_etah w)
    (mkSweep (w_U1d w) (w_W w) (w_lr w) (w_Bxc w) (w_Bxi w)
             (B1_x1Face (w_faces w)) (Ul_x1Face (w_faces w))
             (Ur_x1Face (w_faces w)) (x1Flux (w_scratch w))).

Definition sweep2 (w : Work) : Sweep :=
  let s := sweep1 w in
  step2 cfg gl ext sol rc pG (w_etah w)
    (mkSweep (U1d s) (W s) (lr s) (Bxc s) (Bxi s)
             (B2_x2Face (w_faces w)) (Ul_x2Face (w_faces w))
             (Ur_x2Face (w_faces w)) (x2Flux (w_scratch w))).

Definition sweep3 (w : Work) : Sweep :=
  let s := sweep2 w in
  step3 cfg gl ext sol rc pG (w_etah w)
    (mkSweep (U1d s) (W s) (lr s) (Bxc s) (Bxi s)
             (B3_x3Face (w_faces w)) (Ul_x3Face (w_faces w))
             (Ur_x3Face (w_faces w)) (x3Flux (w_scratch w))).

(** Step 4a (MHD): the cell-centred EMFs, then the corner EMFs. *)
Definition emf_cc_4a (w : Work) : Arr3 Real * Arr3 Real * Arr3 Real :=
  let sc := w_scratch w in
  if MHD cfg then step4a pG (emf1_cc sc, emf2_cc sc, emf3_cc sc)
  else (emf1_cc sc, emf2_cc sc, emf3_cc sc).

Definition emf_4a (w : Work) : Arr3 Real * Arr3 Real * Arr3 Real :=
  let sc := w_scratch w in
  let cc := emf_cc_4a w in
  let F1 := Flux (sweep1 w) in
  let F2 := Flux (sweep2 w) in
  let F3 := Flux (sweep3 w) in
  if MHD cfg then
    (integrate_emf1_corner F2 F3 (fst (fst cc)) pG (emf1 sc),
     integrate_emf2_corner F1 F3 (snd (fst cc)) pG (emf2 sc),
     integrate_emf3_corner F1 F2 (snd cc) pG (emf3 sc))
  else (emf1 sc, emf2 sc, emf3 sc).

(** The face states and interface fields after Step 7. *)
Definition faces_7 (w : Work) : Faces :=
  let s1 := sweep1 w in
  let s2 := sweep2 w in
  let s3 := sweep3 w in
  let e := emf_4a w in
  let f := mkFaces (Ul s1) (Ur s1) (Ul s2) (Ur s2) (Ul s3) (Ur s3)
                   (Bface s1) (Bface s2) (Bface s3) in
  (* Step 4b *)
  let f := if MHD cfg then step4b pG (fst (fst e)) (snd (fst e)) (snd e) f
           else f in
  (* Steps 5, 6, 7 *)
  let p1 := step5 cfg gl ext pG (Flux s2) (Flux s3) (fst (fst e))
                  (Ul_x1Face f, Ur_x1Face f) in
  let p2 := step6 cfg gl ext pG (Flux s1) (Flux s3) (snd (fst e))
                  (Ul_x2Face f, Ur_x2Face f) in
  let p3 := step7 cfg gl ext pG (Flux s1) (Flux s2) (snd e)
                  (Ul_x3Face f, Ur_x3Face f) in
  mkFaces (fst p1) (snd p1) (fst p2) (snd p2) (fst p3) (snd p3)
          (B1_x1Face f) (B2_x2Face f) (B3_x3Face f).

(** Step 8: dhalf, and (phalf, emf1_cc, emf2_cc, emf3_cc). *)
Definition dhalf_8 (w : Work) : Arr3 Real :=
  step8a cfg gl pG (Flux (sweep1 w)) (Flux (sweep2 w)) (Flux (sweep3 w))
         (dhalf (w_scratch w)).

Definition half_8 (w : Work)
  : Arr3 Real * Arr3 Real * Arr3 Real * Arr3 Real :=
  let f := faces_7 w in
  let cc := emf_cc_4a w in
  step8b cfg gl ext pG (Flux (sweep1 w)) (Flux (sweep2 w)) (Flux (sweep3 w))
         (B1_x1Face f) (B2_x2Face f) (B3_x3Face f) (dhalf_8 w)
         (phalf (w_scratch w), fst (fst cc), snd (fst cc), snd cc).

(** Step 9a: the eta arrays. *)
Definition eta1_9 (w : Work) : Arr3 Real :=
  if H_CORRECTION cfg then step9a_eta1 cfg sol pG (faces_7 w) (w_eta1 w)
  else w_eta1 w.
Definition eta2_9 (w : Work) : Arr3 Real :=
  if H_CORRECTION cfg then step9a_eta2 cfg sol pG (faces_7 w) (w_eta2 w)
  else w_eta2 w.
Definition eta3_9 (w : Work) : Arr3 Real :=
  if H_CORRECTION cfg then step9a_eta3 cfg sol pG (faces_7 w) (w_eta3 w)
  else w_eta3 w.

(** Steps 9b to 9d: etah, the fluxes, and the vectors Wl and Wr, which
    the x3 sweep left last. *)
Definition flux1_9 (w : Work) : Real * Arr3 Cons1D.t * LR :=
  step9b_loop cfg sol pG (faces_7 w) (eta1_9 w) (eta2_9 w) (eta3_9 w)
              (w_etah w, Flux (sweep1 w), lr (sweep3 w)).
Definition flux2_9 (w : Work) : Real * Arr3 Cons1D.t * LR :=
  step9c_loop cfg sol pG (faces_7 w) (eta1_9 w) (eta2_9 w) (eta3_9 w)
              (fst (fst (flux1_9 w)), Flux (sweep2 w), snd (flux1_9 w)).
Definition flux3_9 (w : Work) : Real * Arr3 Cons1D.t * LR :=
  step9d_loop cfg sol pG (faces_7 w) (eta1_9 w) (eta2_9 w) (eta3_9 w)
              (fst (fst (flux2_9 w)), Flux (sweep3 w), snd (flux2_9 w)).

(** The scratch arrays on entry to Step 10. *)
Definition scratch_9 (w : Work) : Scratch :=
  let e := emf_4a w in
  let h := half_8 w in
  mkScratch (snd (fst (flux1_9 w))) (snd (fst (flux2_9 w)))
            (snd (fst (flux3_9 w)))
            (fst (fst e)) (snd (fst e)) (snd e)
            (snd (fst (fst h))) (snd (fst h)) (snd h)
            (dhalf_8 w) (fst (fst (fst h)))
            (remapEyiib (w_scratch w)) (remapEyoib (w_scratch w)).

(** The corner EMFs and the remap buffers that Step 10a leaves in the
    scratch arrays. *)
Definition scratch_10 (sc : Scratch) : Scratch :=
  if MHD cfg then
    let e1 := integrate_emf1_corner (x2Flux sc) (x3Flux sc) (emf1_cc sc)
                                    pG (emf1 sc) in
    let e2 := integrate_emf2_corner (x1Flux sc) (x3Flux sc) (emf2_cc sc)
                                    pG (emf2 sc) in
    let e3 := integrate_emf3_corner (x1Flux sc) (x2Flux sc) (emf3_cc sc)
                                    pG (emf3 sc) in
    let '(my_iproc, _, _) := get_myGridIndex ext pD pG in
    let bi := if SHEARING_BOX cfg && (my_iproc =? 0)%Z
              then RemapEy_ix1 ext pG pD e2 (remapEyiib sc)
              else remapEyiib sc in
    let bo := if SHEARING_BOX cfg && (my_iproc =? NGrid_x1 pD - 1)%Z
              then RemapEy_ox1 ext pG pD e2 (remapEyoib sc)
              else remapEyoib sc in
    let e2 := if SHEARING_BOX cfg then step10a_remap ext sc pG pD e2
              else e2 in
    mkScratch (x1Flux sc) (x2Flux sc) (x3Flux sc) e1 e2 e3
              (emf1_cc sc) (emf2_cc sc) (emf3_cc sc) (dhalf sc) (phalf sc)
              bi bo
  else sc.

(** The whole function: the grid it leaves, and the module-level
    variables it leaves.  U1d, W, Bxc and Bxi are those of the last pencil
    of the x3 sweep; Wl and Wr are as the loops of Steps 9b to 9d leave
    them.  There is no result when the shearing-box update of Step 11a
    calls a NULL potential. *)
Definition integrate_3d_ctu (w : Work) : option (Grid * Work) :=
  let s3 := sweep3 w in
  let sc := scratch_9 w in
  match integrate_3d_ctu_update cfg gl ext sc pG pD with
  | None => None
  | Some g =>
      Some (g, mkWork (faces_7 w) (scratch_10 sc)
                      (eta1_9 w) (eta2_9 w) (eta3_9 w)
                      (U1d s3) (W s3) (snd (flux3_9 w)) (Bxc s3) (Bxi s3)
                      (fst (fst (flux3_9 w))))
  end.
End Integrate.

(* ------------------------------------------------------------------ *)
(** ** The common shape of the three sweeps

    Steps 1, 2 and 3 differ in the index that runs along the pencil, in the
    members of the cell state that are loaded into U1d, and in the source
    terms.  [pencil] is their common text, with these as parameters; each of
    step1_pencil, step2_pencil and step3_pencil is an instance of it. *)

Section Pencil.
Variable cfg : Config.
Variable gl : Globals.
Variable sol : Solver.
Variable rc : Recon.
Variable etah : Real.

(** The bounds of the pencil: (is, ie), (js, je) or (ks, ke). *)
Variables lo hi : Z.
(** The stores to the members of U1d[f]. *)
Variable load : Z -> Cons1D.t -> Cons1D.t.
(** The values stored to Bxc[f] and to Bxi[f]. *)
Variables bxc bxi : Z -> Real.
(** The position of the element f of the pencil in the 3D arrays. *)
Variables K J I : Z -> Z.
Variables dt_ dtodx : Real.
(** The source terms of Steps b and c. *)
Variable src : Arr1 Prim1D.t -> LR -> LR.

Definition pencil_a (s : Sweep) : Sweep :=
  for_loop (lo - nghost gl) (hi + nghost gl) (fun f s =>
    let c := load f (U1d s f) in
    let s := if MHD cfg then set_Bxc s (upd1 (Bxc s) f (bxc f)) else s in
    let s := if MHD cfg then set_Bxi s (upd1 (Bxi s) f (bxi f)) else s in
    let s := if MHD cfg
             then set_Bface s (upd3 (Bface s) (K f) (J f) (I f) (bxi f))
             else s in
    set_U1d s (upd1 (U1d s) f c)) s.

Definition pencil_prim (s : Sweep) : Sweep :=
  for_loop (lo - nghost gl) (hi + nghost gl) (fun f s =>
    set_W s (upd1 (W s) f
      (Cons1D_to_Prim1D sol (U1d s f) (MHDARG cfg (Bxc s f))))) s.

Definition pencil_lr (s : Sweep) : Sweep :=
  set_lr s (lr_states rc (W s) (MHDARG_Bxc cfg s) dt_ dtodx
                      (lo - 1) (hi + 1) (lr s)).

Definition pencil_d (s : Sweep) : Sweep :=
  for_loop (lo - 1) (hi + 2) (fun f s =>
    let s := set_Ul s (upd3 (Ul s) (K f) (J f) (I f)
               (Prim1D_to_Cons1D rc (Wl (lr s) f) (MHDARG cfg (Bxi s f)))) in
    let s := set_Ur s (upd3 (Ur s) (K f) (J f) (I f)
               (Prim1D_to_Cons1D rc (Wr (lr s) f) (MHDARG cfg (Bxi s f)))) in
    set_Flux s (upd3 (Flux s) (K f) (J f) (I f)
      (GET_FLUXES sol etah (Ul s (K f) (J f) (I f)) (Ur s (K f) (J f) (I f))
                  (Wl (lr s) f) (Wr (lr s) f)
                  (MHDARG cfg (Bface s (K f) (J f) (I f)))))) s.

Definition pencil (s : Sweep) : Sweep :=
  let s := pencil_a s in
  let s := pencil_prim s in
  let s := pencil_lr s in
  let s := set_lr s (src (W s) (lr s)) in
  pencil_d s.
End Pencil.

(** A sweep: the pencils (a, b) of two nested loops.  What a pencil loads
    and where it stores depends on a and b. *)
Definition sweep (cfg : Config) (gl : Globals) (sol : Solver) (rc : Recon)
    (etah : Real) (alo ahi blo bhi lo hi : Z)
    (load : Z -> Z -> Z -> Cons1D.t -> Cons1D.t)
    (bxc bxi : Z -> Z -> Z -> Real) (K J I : Z -> Z -> Z -> Z)
    (dt_ dtodx : Real) (src : Z -> Z -> Arr1 Prim1D.t -> LR -> LR)
    (s : Sweep) : Sweep :=
  for_loop alo ahi (fun a =>
    for_loop blo bhi (fun b =>
      pencil cfg gl sol rc etah lo hi (load a b) (bxc a b) (bxi a b)
             (K a b) (J a b) (I a b) dt_ dtodx (src a b))) s.

(** The stores of Steps 1a, 2a and 3a to the members of U1d[f]. *)
Definition load_U1d (cfg : Config) (u : Gas.t) (mx my mz by_ bz : Real)
    (c : Cons1D.t) : Cons1D.t :=
  let c := ConsU.set_d c (Gas.d u) in
  let c := ConsU.set_Mx c mx in
  let c := ConsU.set_My c my in
  let c := ConsU.set_Mz c mz in
  let c := if BAROTROPIC cfg then c else ConsU.set_E c (Gas.E u) in
  let c := if MHD cfg then ConsU.set_By c by_ else c in
  let c := if MHD cfg then ConsU.set_Bz c bz else c in
  ConsU.set_s c (for_scal (NSCALARS cfg) (fun n _ => Gas.s u n) (Cons1D.s c)).

(* ------------------------------------------------------------------ *)
(** ** What the integrator needs of the routines of the other files *)

(** Two Cons1D hold the same values in the members that the configuration
    has: E is absent under BAROTROPIC, By and Bz exist under MHD only, and
    there are NSCALARS passive scalars. *)
Definition live_agree (cfg : Config) (u u' : Cons1D.t) : Prop :=
  Cons1D.d u = Cons1D.d u' /\
  Cons1D.Mx u = Cons1D.Mx u' /\
  Cons1D.My u = Cons1D.My u' /\
  Cons1D.Mz u = Cons1D.Mz u' /\
  (BAROTROPIC cfg = false -> Cons1D.E u = Cons1D.E u') /\
  (MHD cfg = true ->
   Cons1D.By u = Cons1D.By u' /\ Cons1D.Bz u = Cons1D.Bz u') /\
  (forall n, (n < NSCALARS cfg)%nat -> Cons1D.s u n = Cons1D.s u' n).

(** Cons1D_to_Prim1D reads the members that the configuration has, and no
    others. *)
Definition c2p_reads_members (cfg : Config) (sol : Solver) : Prop :=
  forall u u' b, live_agree cfg u u' ->
                 Cons1D_to_Prim1D sol u b = Cons1D_to_Prim1D sol u' b.

(** Two optional pencils hold the same values between lo and hi. *)
Definition pencils_agree (lo hi : Z) (B B' : option (Arr1 Real)) : Prop :=
  match B, B' with
  | Some b, Some b' => forall i, (lo <= i <= hi)%Z -> b i = b' i
  | None, None => True
  | _, _ => False
  end.

(** lr_states computes the states at the interfaces il to iu+1 from the
    cells that the integrator has loaded (nghost - 1 cells on either side of
    il and iu), and from nothing else: neither from other elements of W and
    Bxc nor from the previous contents of Wl and Wr. *)
Definition lr_states_reads_pencil (gl : Globals) (rc : Recon) : Prop :=
  forall W W' B B' dt_ dtodx il iu st st',
    (forall i, (il - (nghost gl - 1) <= i <= iu + (nghost gl - 1))%Z ->
               W i = W' i) ->
    pencils_agree (il - (nghost gl - 1)) (iu + (nghost gl - 1)) B B' ->
    forall i, (il <= i <= iu + 1)%Z ->
      Wl (lr_states rc W B dt_ dtodx il iu st) i =
        Wl (lr_states rc W' B' dt_ dtodx il iu st') i /\
      Wr (lr_states rc W B dt_ dtodx il iu st) i =
        Wr (lr_states rc W' B' dt_ dtodx il iu st') i.

(** The source terms change the states of an interface from these states
    and from the two cells next to it. *)
Definition src_reads_neighbours (src : Arr1 Prim1D.t -> LR -> LR) : Prop :=
  forall W W' st st' i,
    W (i - 1)%Z = W' (i - 1)%Z -> W i = W' i ->
    Wl st i = Wl st' i -> Wr st i = Wr st' i ->
    Wl (src W st) i = Wl (src W' st') i /\
    Wr (src W st) i = Wr (src W' st') i.

(* ------------------------------------------------------------------ *)
(** ** The index ranges of Steps 1 to 9 *)

(** Where the three sweeps store the face states and the fluxes. *)
Definition in_sweep1 (g : Grid) (k j i : Z) : bool :=
  in_box (ks g - 2) (ke g + 2) (js g - 2) (je g + 2) (is_ g - 1) (ie g + 2)
         k j i.
Definition in_sweep2 (g : Grid) (k j i : Z) : bool :=
  in_box (ks g - 2) (ke g + 2) (js g - 1) (je g + 2) (is_ g - 2) (ie g + 2)
         k j i.
Definition in_sweep3 (g : Grid) (k j i : Z) : bool :=
  in_box (ks g - 1) (ke g + 2) (js g - 2) (je g + 2) (is_ g - 2) (ie g + 2)
         k j i.

(** Where Steps 1a, 2a and 3a store the interface fields (under MHD). *)
Definition in_load1 (gl : Globals) (g : Grid) (k j i : Z) : bool :=
  in_box (ks g - 2) (ke g + 2) (js g - 2) (je g + 2)
         (is_ g - nghost gl) (ie g + nghost gl) k j i.
Definition in_load2 (gl : Globals) (g : Grid) (k j i : Z) : bool :=
  in_box (ks g - 2) (ke g + 2) (js g - nghost gl) (je g + nghost gl)
         (is_ g - 2) (ie g + 2) k j i.
Definition in_load3 (gl : Globals) (g : Grid) (k j i : Z) : bool :=
  in_box (ks g - nghost gl) (ke g + nghost gl) (js g - 2) (je g + 2)
         (is_ g - 2) (ie g + 2) k j i.

(** Where Steps 5, 6 and 7 correct the face states. *)
Definition in_step5 (g : Grid) (k j i : Z) : bool :=
  in_box (ks g - 1) (ke g + 1) (js g - 1) (je g + 1) (is_ g - 1) (ie g + 2)
         k j i.
Definition in_step6 (g : Grid) (k j i : Z) : bool :=
  in_box (ks g - 1) (ke g + 1) (js g - 1) (je g + 2) (is_ g - 1) (ie g + 1)
         k j i.
Definition in_step7 (g : Grid) (k j i : Z) : bool :=
  in_box (ks g - 1) (ke g + 2) (js g - 1) (je g + 1) (is_ g - 1) (ie g + 1)
         k j i.

(** Where Step 4a stores the cell-centred EMFs, and where the corner
    routines store emf1, emf2 and emf3. *)
Definition in_step4a (g : Grid) (k j i : Z) : bool :=
  in_box (ks g - 2) (ke g + 2) (js g - 2) (je g + 2) (is_ g - 2) (ie g + 2)
         k j i.
Definition in_emf1 (g : Grid) (k j i : Z) : bool :=
  in_box (ks g - 1) (ke g + 2) (js g - 1) (je g + 2) (is_ g - 2) (ie g + 2)
         k j i.
Definition in_emf2 (g : Grid) (k j i : Z) : bool :=
  in_box (ks g - 1) (ke g + 2) (js g - 2) (je g + 2) (is_ g - 1) (ie g + 2)
         k j i.
Definition in_emf3 (g : Grid) (k j i : Z) : bool :=
  in_box (ks g - 2) (ke g + 2) (js g - 1) (je g + 2) (is_ g - 1) (ie g + 2)
         k j i.

(* ------------------------------------------------------------------ *)
(** ** Concrete routines and module-level variables *)

(** A conversion for adiabatic MHD with one passive scalar, a constant fast
    speed, and a flux of Lax-Friedrichs form whose diffusion is etah. *)
Definition ex_solver_lf : Solver :=
  mkSolver
    (fun _ _ => 1)
    (fun u _ =>
       Prim1D.mk (Cons1D.d u) (Cons1D.Mx u / Cons1D.d u)
                 (Cons1D.My u / Cons1D.d u) (Cons1D.Mz u / Cons1D.d u)
                 (Cons1D.E u) (Cons1D.By u) (Cons1D.Bz u)
                 (fun n => match n with
                           | O => Cons1D.s u 0%nat / Cons1D.d u
                           | _ => 0
                           end))
    (fun etah ul ur _ _ _ =>
       ConsU.set_d ul (0.5 * (Cons1D.Mx ul + Cons1D.Mx ur)
                       - etah * (Cons1D.d ur - Cons1D.d ul))).

(** Face states with a jump of density and momentum across every face, and
    interface fields that vary along their axis. *)
Definition ex_faces_jump : Faces :=
  let ul := fun k j i : Z => Cons1D.mk 1 (IZR i) 0 0 1 0 0 (fun _ => 0) in
  let ur := fun k j i : Z => Cons1D.mk 2 (IZR i + 1) 0 0 1 0 0 (fun _ => 0) in
  mkFaces ul ur ul ur ul ur
          (fun k j i => IZR i) (fun k j i => IZR j) (fun k j i => IZR k).

(** First-order reconstruction: the state to the left of the interface i
    is that of the cell i-1, the state to its right that of the cell i. *)
Definition ex_recon : Recon :=
  mkRecon
    (fun W _ _ _ _ _ _ => mkLR (fun i => W (i - 1)%Z) (fun i => W i))
    (fun w _ =>
       Cons1D.mk (Prim1D.d w) (Prim1D.d w * Prim1D.Vx w)
                 (Prim1D.d w * Prim1D.Vy w) (Prim1D.d w * Prim1D.Vz w)
                 (Prim1D.P w) (Prim1D.By w) (Prim1D.Bz w)
                 (fun n => Prim1D.d w * Prim1D.s w n)).

(** The module-level variables as two different histories could have left
    them, with the same etah. *)
Definition ex_work : Work :=
  mkWork ex_faces ex_scratch ex_emf ex_emf ex_emf
         (fun _ => ex_cons) (fun _ => ex_prim) ex_lr (fun _ => 0) (fun _ => 0)
         0.

Definition ex_work_stale : Work :=
  let stale := Cons1D.mk 7 7 7 7 7 7 7 (fun _ => 7) in
  let wstale := Prim1D.mk 7 7 7 7 7 7 7 (fun _ => 7) in
  mkWork (mkFaces (fun _ _ _ => stale) (fun _ _ _ => stale)
                  (fun _ _ _ => stale) (fun _ _ _ => stale)
                  (fun _ _ _ => stale) (fun _ _ _ => stale)
                  (fun _ _ _ => 7) (fun _ _ _ => 7) (fun _ _ _ => 7))
         ex_scratch_stale (fun _ _ _ => 7) (fun _ _ _ => 7) (fun _ _ _ => 7)
         (fun _ => stale) (fun _ => wstale)
         (mkLR (fun _ => wstale) (fun _ => wstale))
         (fun _ => 7) (fun _ => 7)
         0.

(** A cell function of Steps 5 to 7 that stores neither to the density nor
    to the passive scalars of the two face states. *)
Definition keeps_d_s
    (cell : Cons1D.t -> Cons1D.t -> Cons1D.t * Cons1D.t) : Prop :=
  forall ul ur,
    Cons1D.d (fst (cell ul ur)) = Cons1D.d ul /\
    Cons1D.s (fst (cell ul ur)) = Cons1D.s ul /\
    Cons1D.d (snd (cell ul ur)) = Cons1D.d ur /\
    Cons1D.s (snd (cell ul ur)) = Cons1D.s ur.

(** The change of the member m of the cell (k,j,i) over half a time step
    by the fluxes in the two directions transverse to x1, to x2 and to
    x3. *)
Definition transverse_x1 (g : Grid) (F2 F3 : Arr3 Cons1D.t)
    (m : Cons1D.t -> Real) (k j i : Z) : Real :=
  0.5 * (dt g / dx2 g) * (m (F2 k (j+1)%Z i) - m (F2 k j i)) +
  0.5 * (dt g / dx3 g) * (m (F3 (k+1)%Z j i) - m (F3 k j i)).
Definition transverse_x2 (g : Grid) (F1 F3 : Arr3 Cons1D.t)
    (m : Cons1D.t -> Real) (k j i : Z) : Real :=
  0.5 * (dt g / dx1 g) * (m (F1 k j (i+1)%Z) - m (F1 k j i)) +
  0.5 * (dt g / dx3 g) * (m (F3 (k+1)%Z j i) - m (F3 k j i)).
Definition transverse_x3 (g : Grid) (F1 F2 : Arr3 Cons1D.t)
    (m : Cons1D.t -> Real) (k j i : Z) : Real :=
  0.5 * (dt g / dx1 g) * (m (F1 k j (i+1)%Z) - m (F1 k j i)) +
  0.5 * (dt g / dx2 g) * (m (F2 k (j+1)%Z i) - m (F2 k j i)).

(** Two pairs of face arrays hold, at the face (k,j,i), states of the same
    density and the same passive scalars. *)
Definition same_d_s (p q : Arr3 Cons1D.t * Arr3 Cons1D.t) (k j i : Z) : Prop :=
  Cons1D.d (fst p k j i) = Cons1D.d (fst q k j i) /\
  Cons1D.s (fst p k j i) = Cons1D.s (fst q k j i) /\
  Cons1D.d (snd p k j i) = Cons1D.d (snd q k j i) /\
  Cons1D.s (snd p k j i) = Cons1D.s (snd q k j i).

(** What Steps 5, 6 and 7 do to the member m of the two states of the face
    (k,j,i): inside the loop range the left state changes by the transverse
    fluxes of the cell on its left and the right state by those of the cell
    on its right; outside, the states are not stored to. *)
Definition corrected (inside : bool) (m : Cons1D.t -> Real)
    (p p' : Arr3 Cons1D.t * Arr3 Cons1D.t) (k j i : Z) (tl tr : Real) : Prop :=
  if inside
  then m (fst p' k j i) = m (fst p k j i) - tl /\
       m (snd p' k j i) = m (snd p k j i) - tr
  else fst p' k j i = fst p k j i /\ snd p' k j i = snd p k j i.

(* ------------------------------------------------------------------ *)
(** ** The MHD source terms of Steps 5c, 6c and 7c *)

(** [mdb = min_mod(-db_d, db_t)], as Steps 5c, 6c and 7c compute it. *)
Definition min_mod_neg (db_d db_t : Real) : Real :=
  if Rgtb db_d 0 && Rltb db_t 0 then
    if Rgt_dec db_t (- db_d) then db_t else - db_d
  else if Rltb db_d 0 && Rgtb db_t 0 then
    if Rlt_dec db_t (- db_d) then db_t else - db_d
  else 0.

(** The cell-centred field of cell (k,j,i) along an axis. *)
Definition Bc (pG : Grid) (t : axis) (k j i : Z) : Real :=
  match t with
  | X1 => Gas.B1c (U pG k j i)
  | X2 => Gas.B2c (U pG k j i)
  | X3 => Gas.B3c (U pG k j i)
  end.
Definition Bc_at (pG : Grid) (t : axis) (p : pos) : Real :=
  let '(k, j, i) := p in Bc pG t k j i.

(** The body of the loop of Step 5c, 6c or 7c at the face [p] across the
    axis [d]. *)
Definition transverse_mhd_cell (cfg : Config) (pG : Grid) (d : axis) (p : pos)
    (ul ur : Cons1D.t) : Cons1D.t * Cons1D.t :=
  let '(k, j, i) := p in
  match d with
  | X1 => step5c_cell cfg pG k j i ul ur
  | X2 => step6c_cell cfg pG k j i ul ur
  | X3 => step7c_cell cfg pG k j i ul ur
  end.

(** The interface fields of the cell [p] have no divergence. *)
Definition divergence_free_cell (pG : Grid) (p : pos) : Prop :=
  db_at pG X1 p + db_at pG X2 p + db_at pG X3 p = 0.

(** A grid like [ex_grid] whose interface fields have no divergence, with
    a gas that moves along all three axes. *)
Definition ex_grid_solenoidal : Grid :=
  mkGrid (fun _ _ _ => Gas.mk 1 1 2 3 1 0 1 2 (fun _ => 2))
         (fun k j i => IZR i) (fun k j i => - IZR j) (fun k j i => 0)
         (fun _ _ _ => 0)
         (fun _ _ _ => 0) (fun _ _ _ => 0) (fun _ _ _ => 0)
         1 0 1 1 1
         0 1 0 1 0 1.

(* ------------------------------------------------------------------ *)
(** ** The static potential up to a constant *)

(** The globals with the constant [c] added to the static gravitational
    potential, when there is one. *)
Definition shift_potential (c : Real) (gl : Globals) : Globals :=
  mkGlobals (nghost gl) (Omega gl) (Gamma_1 gl) (four_pi_G gl)
            (grav_mean_rho gl)
            (match StaticGravPot gl with
             | Some phi => Some (fun x1 x2 x3 => phi x1 x2 x3 + c)
             | None => None
             end)
            (CoolingFunc gl).

(** The globals of [ex_globals] with a static potential that is not
    linear in the position. *)
Definition ex_globals_well : Globals :=
  mkGlobals 4 2 (2 / 3) 1 0 (Some (fun x1 x2 x3 => x1 * x1 + x2 * x3)) None.

(* ------------------------------------------------------------------ *)
(** * The problem generator of [src/prob/AcousWave.c]

    problem() fills the cells of a grid with a plane wave along the
    direction (costheta, sintheta, 0) and stores to the two globals of
    self-gravity, four_pi_G and grav_mean_rho, that Steps 8b and 11b of the
    integrator read.  The functions cos, sin and sqrt of math.h are those
    of the real numbers. *)

Module AcousWave.

(** Modelled from the spec: the members of [GridS] (athena.h) that
    problem() reads or writes.  [Nx2] and [Nx3] are Nx[1] and Nx[2]; a
    cell is the [Gas.t] of the integrator. *)
Record GridS := mkGridS {
  Nx2 : Z; Nx3 : Z;
  is_ : Z; ie : Z; js : Z; je : Z; ks : Z; ke : Z;
  time : Real;
  U : Arr3 Gas.t;
  B1i : Arr3 Real; B2i : Arr3 Real; B3i : Arr3 Real
}.

Definition set_U (g : GridS) (u : Arr3 Gas.t) : GridS :=
  mkGridS (Nx2 g) (Nx3 g) (is_ g) (ie g) (js g) (je g) (ks g) (ke g)
          (time g) u (B1i g) (B2i g) (B3i g).
Definition set_B1i (g : GridS) (b : Arr3 Real) : GridS :=
  mkGridS (Nx2 g) (Nx3 g) (is_ g) (ie g) (js g) (je g) (ks g) (ke g)
          (time g) (U g) b (B2i g) (B3i g).
Definition set_B2i (g : GridS) (b : Arr3 Real) : GridS :=
  mkGridS (Nx2 g) (Nx3 g) (is_ g) (ie g) (js g) (je g) (ks g) (ke g)
          (time g) (U g) (B1i g) b (B3i g).
Definition set_B3i (g : GridS) (b : Arr3 Real) : GridS :=
  mkGridS (Nx2 g) (Nx3 g) (is_ g) (ie g) (js g) (je g) (ks g) (ke g)
          (time g) (U g) (B1i g) (B2i g) b.

(** A store to one member of the cell U[k][j][i]. *)
Definition set_cell (g : GridS) (k j i : Z) (set : Gas.t -> Real -> Gas.t)
    (v : Real) : GridS :=
  set_U g (upd3 (U g) k j i (set (U g k j i) v)).

(** Stores to the globals four_pi_G and grav_mean_rho. *)
Definition set_four_pi_G (gl : Globals) (v : Real) : Globals :=
  mkGlobals (nghost gl) (Omega gl) (Gamma_1 gl) v (grav_mean_rho gl)
            (StaticGravPot gl) (CoolingFunc gl).
Definition set_grav_mean_rho (gl : Globals) (v : Real) : Globals :=
  mkGlobals (nghost gl) (Omega gl) (Gamma_1 gl) (four_pi_G gl) v
            (StaticGravPot gl) (CoolingFunc gl).

Section Problem.
Variable cfg : Config.
(** The global [Gamma] and the routine cc_pos of another file. *)
Variable Gamma : Real.
Variable cc_pos : GridS -> Z -> Z -> Z -> Real * Real * Real.

(** The index bounds of the loops: is..ie along x1, and the ghost zones
    along x2 and x3 only when the grid extends there. *)
Definition bounds (gl : Globals) (pGrid : GridS)
  : Z * Z * Z * Z * Z * Z :=
  let iu := ie pGrid in
  let il := is_ pGrid in
  let '(ju, jl) :=
    if (Nx2 pGrid >? 1)%Z
    then ((je pGrid + nghost gl)%Z, (js pGrid - nghost gl)%Z)
    else (je pGrid, js pGrid) in
  let '(ku, kl) :=
    if (Nx3 pGrid >? 1)%Z
    then ((ke pGrid + nghost gl)%Z, (ks pGrid - nghost gl)%Z)
    else (ke pGrid, ks pGrid) in
  (kl, ku, jl, ju, il, iu).

(** The body of the loop nest, with the locals that the function sets
    before the loops. *)
Definition problem_cell (gl : Globals)
    (d0 P0 t flag factor costheta sintheta wavenumber omega : Real)
    (k j i : Z) (pGrid : GridS) : GridS :=
  let '(x1, x2, x3) := cc_pos pGrid i j k in
  let theta := wavenumber * (costheta * x1 + sintheta * x2) - omega * t in
  let pGrid := set_cell pGrid k j i Gas.set_d
        (1 + flag * factor * 1e-3 * cos theta) in
  let pGrid :=
    if Rgt_dec (Gamma * P0 * wavenumber * wavenumber / d0
                - four_pi_G gl * d0) 0
    then set_cell pGrid k j i Gas.set_M1
           (costheta * flag * factor * omega * 1e-3 * cos theta
            / wavenumber)
    else set_cell pGrid k j i Gas.set_M1
           (- costheta * flag * factor * omega * 1e-3 * sin theta
            / wavenumber) in
  let pGrid :=
    if Rgt_dec (Gamma * P0 * wavenumber * wavenumber / d0
                - four_pi_G gl * d0) 0
    then set_cell pGrid k j i Gas.set_M2
           (sintheta * flag * factor * omega * 1e-3 * cos theta
            / wavenumber)
    else set_cell pGrid k j i Gas.set_M2
           (- sintheta * flag * factor * omega * 1e-3 * sin theta
            / wavenumber) in
  let pGrid := set_cell pGrid k j i Gas.set_M3 0 in
  let pGrid := set_cell pGrid k j i Gas.set_E
        (1 / (Gamma - 1)
         + flag * factor * Gamma * P0 * 1e-3 * cos theta
           / (d0 * (Gamma - 1))) in
  if MHD cfg then
    let pGrid := set_B1i pGrid (upd3 (B1i pGrid) k j i 0) in
    let pGrid := set_B2i pGrid (upd3 (B2i pGrid) k j i 0) in
    let pGrid := set_B3i pGrid (upd3 (B3i pGrid) k j i 0) in
    let pGrid := set_cell pGrid k j i Gas.set_B1c 0 in
    let pGrid := set_cell pGrid k j i Gas.set_B2c 0 in
    set_cell pGrid k j i Gas.set_B3c 0
  else pGrid.

(** problem(): the globals and the grid it leaves. *)
Definition problem (gl : Globals) (pGrid : GridS) : Globals * GridS :=
  let '(kl, ku, jl, ju, il, iu) := bounds gl pGrid in
  let d0 := 1 in
  let u0 := 0 in
  let P0 := 1 in
  let gl := set_four_pi_G gl 300 in
  let gl := set_grav_mean_rho gl d0 in
  let t := time pGrid in
  let flag := 1 in
  let factor := 300 in
  let sintheta := 0.4472136 in
  let costheta := 2 * sintheta in
  let wavenumber := 2 * PI in
  let omega :=
    if Rgt_dec (Gamma * P0 * wavenumber * wavenumber / d0
                - four_pi_G gl * d0) 0
    then sqrt (Gamma * P0 * wavenumber * wavenumber / d0
               - four_pi_G gl * d0)
    else sqrt (- (Gamma * P0 * wavenumber * wavenumber / d0
                  - four_pi_G gl * d0)) in
  (gl,
   nest kl ku jl ju il iu
     (problem_cell gl d0 P0 t flag factor costheta sintheta wavenumber
                   omega)
     pGrid).
End Problem.

(** The cells that problem() initialises. *)
Definition initialised (gl : Globals) (pGrid : GridS) (k j i : Z) : bool :=
  let '(kl, ku, jl, ju, il, iu) := bounds gl pGrid in
  in_box kl ku jl ju il iu k j i.

(** The members of the grid at the cell (k0, j0, i0). *)
Definition at_cell (k0 j0 i0 : Z) (g : GridS)
  : Gas.t * Real * Real * Real :=
  (U g k0 j0 i0, B1i g k0 j0 i0, B2i g k0 j0 i0, B3i g k0 j0 i0).

(** The members of a cell as one iteration of the loop nest stores them,
    for some phase [theta]. *)
Definition written (cfg : Config) (Gamma : Real) (gl : Globals)
    (d0 P0 flag factor costheta sintheta wavenumber omega : Real)
    (v : Gas.t * Real * Real * Real) : Prop :=
  let '(u, b1, b2, b3) := v in
  exists theta,
    Gas.d u = 1 + flag * factor * 1e-3 * cos theta /\
    Gas.M1 u =
      (if Rgt_dec (Gamma * P0 * wavenumber * wavenumber / d0
                   - four_pi_G gl * d0) 0
       then costheta * flag * factor * omega * 1e-3 * cos theta / wavenumber
       else - costheta * flag * factor * omega * 1e-3 * sin theta
            / wavenumber) /\
    Gas.M2 u =
      (if Rgt_dec (Gamma * P0 * wavenumber * wavenumber / d0
                   - four_pi_G gl * d0) 0
       then sintheta * flag * factor * omega * 1e-3 * cos theta / wavenumber
       else - sintheta * flag * factor * omega * 1e-3 * sin theta
            / wavenumber) /\
    Gas.M3 u = 0 /\
    Gas.E u = 1 / (Gamma - 1)
              + flag * factor * Gamma * P0 * 1e-3 * cos theta
                / (d0 * (Gamma - 1)) /\
    (MHD cfg = true ->
     b1 = 0 /\ b2 = 0 /\ b3 = 0 /\
     Gas.B1c u = 0 /\ Gas.B2c u = 0 /\ Gas.B3c u = 0).

(** The value of the local [omega] of problem(), which reads the
    four_pi_G that the function has just stored. *)
Definition omega_of (Gamma : Real) : Real :=
  let d0 := 1 in
  let P0 := 1 in
  let four_pi_G := 300 in
  let wavenumber := 2 * PI in
  if Rgt_dec (Gamma * P0 * wavenumber * wavenumber / d0 - four_pi_G * d0) 0
  then sqrt (Gamma * P0 * wavenumber * wavenumber / d0 - four_pi_G * d0)
  else sqrt (- (Gamma * P0 * wavenumber * wavenumber / d0
                - four_pi_G * d0)).

(** A 4 x 4 x 1 grid, with the cell centres at the cell indices. *)
Definition ex_gridS : GridS :=
  mkGridS 4 1 0 3 0 3 0 0 0
          (fun _ _ _ => ex_gas) (fun _ _ _ => 1) (fun _ _ _ => 1)
          (fun _ _ _ => 1).
Definition ex_cc_pos (g : GridS) (i j k : Z) : Real * Real * Real :=
  (IZR i, IZR j, IZR k).

End AcousWave.

(** ** Decimal constants *)

Lemma dec_0_5 : 0.5 = 1 / 2. Proof. lra. Qed.
Lemma dec_0_25 : 0.25 = 1 / 4. Proof. lra. Qed.
Lemma dec_0_75 : 0.75 = 3 / 4. Proof. lra. Qed.
Lemma dec_1_5 : 1.5 = 3 / 2. Proof. lra. Qed.

Ltac decimals := rewrite ?dec_0_5, ?dec_0_25, ?dec_0_75, ?dec_1_5.

(** ** Loop lemmas *)

Lemma in_range_true lo hi x : in_range lo hi x = true <-> (lo <= x <= hi)%Z.
Proof. unfold in_range. rewrite andb_true_iff, !Z.leb_le. tauto. Qed.

Lemma in_range_false lo hi x : in_range lo hi x = false <-> ~ (lo <= x <= hi)%Z.
Proof. rewrite <- in_range_true. destruct (in_range lo hi x); intuition congruence. Qed.

Lemma in_box_true klo khi jlo jhi ilo ihi k j i :
  in_box klo khi jlo jhi ilo ihi k j i = true <->
  (klo <= k <= khi)%Z /\ (jlo <= j <= jhi)%Z /\ (ilo <= i <= ihi)%Z.
Proof. unfold in_box. rewrite !andb_true_iff, !in_range_true. tauto. Qed.

Lemma upd3_same {A} (a : Arr3 A) k j i v : upd3 a k j i v k j i = v.
Proof. unfold upd3. now rewrite !Z.eqb_refl. Qed.

Lemma upd3_other {A} (a : Arr3 A) k j i v k' j' i' :
  (k', j', i') <> (k, j, i) -> upd3 a k j i v k' j' i' = a k' j' i'.
Proof.
  intros H. unfold upd3.
  destruct (Z.eqb_spec k' k), (Z.eqb_spec j' j), (Z.eqb_spec i' i);
    simpl; try reflexivity.
  subst. now elim H.
Qed.

Lemma upd1_same {A} (a : Arr1 A) i v : upd1 a i v i = v.
Proof. unfold upd1. now rewrite Z.eqb_refl. Qed.

Lemma upd1_other {A} (a : Arr1 A) i v i' : i' <> i -> upd1 a i v i' = a i'.
Proof. intros H. unfold upd1. destruct (Z.eqb_spec i' i); congruence. Qed.

(** What a loop does to an observation [obs] of its state when only the
    iteration [n0] touches it. *)
Lemma for_n_obs {S V} (obs : S -> V) (body : Z -> S -> S) (n0 : Z) (g : V -> V) :
  forall (n : nat) (lo : Z) (s : S),
    (forall i s, (lo <= i < lo + Z.of_nat n)%Z -> i <> n0 ->
                 obs (body i s) = obs s) ->
    (forall s, (lo <= n0 < lo + Z.of_nat n)%Z -> obs (body n0 s) = g (obs s)) ->
    obs (for_n n lo body s) =
      if ((lo <=? n0) && (n0 <? lo + Z.of_nat n))%Z then g (obs s) else obs s.
Proof.
  induction n as [|n IH]; intros lo s Hoth Hat.
  - simpl. replace (lo + 0)%Z with lo by lia.
    destruct (Z.leb_spec lo n0), (Z.ltb_spec n0 lo); simpl; auto; lia.
  - cbn [for_n]. rewrite IH.
    + destruct (Z.eq_dec lo n0) as [->|Hne].
      * rewrite Hat by lia.
        destruct (Z.leb_spec (n0+1) n0), (Z.leb_spec n0 n0),
                 (Z.ltb_spec n0 (n0 + Z.of_nat (Datatypes.S n))); simpl; auto; lia.
      * rewrite Hoth by lia.
        destruct (Z.leb_spec (lo+1) n0), (Z.leb_spec lo n0),
                 (Z.ltb_spec n0 (lo + 1 + Z.of_nat n)),
                 (Z.ltb_spec n0 (lo + Z.of_nat (Datatypes.S n))); simpl; auto; lia.
    + intros i s' Hi Hn. apply Hoth; lia.
    + intros s' Hi. apply Hat; lia.
Qed.

Lemma for_loop_obs {S V} (obs : S -> V) (body : Z -> S -> S) (n0 : Z)
      (g : V -> V) (lo hi : Z) (s : S) :
  (forall i s, (lo <= i <= hi)%Z -> i <> n0 -> obs (body i s) = obs s) ->
  (forall s, (lo <= n0 <= hi)%Z -> obs (body n0 s) = g (obs s)) ->
  obs (for_loop lo hi body s) = if in_range lo hi n0 then g (obs s) else obs s.
Proof.
  intros Hoth Hat. unfold for_loop.
  rewrite (for_n_obs obs body n0 g).
  - unfold in_range.
    destruct (Z.leb_spec lo n0), (Z.leb_spec n0 hi),
             (Z.ltb_spec n0 (lo + Z.of_nat (Z.to_nat (hi + 1 - lo))));
      simpl; auto; lia.
  - intros i s' Hi. apply Hoth. lia.
  - intros s' Hi. apply Hat. lia.
Qed.

(** A loop none of whose iterations touches [obs] leaves it alone. *)
Lemma for_loop_frame {S V} (obs : S -> V) (body : Z -> S -> S) (lo hi : Z) (s : S) :
  (forall i s, (lo <= i <= hi)%Z -> obs (body i s) = obs s) ->
  obs (for_loop lo hi body s) = obs s.
Proof.
  intros H.
  rewrite (for_loop_obs obs body (lo - 1)%Z (fun v => v)).
  - now destruct (in_range lo hi (lo - 1)).
  - intros; now apply H.
  - intros; lia.
Qed.

Lemma cellwise_spec {A} klo khi jlo jhi ilo ihi (f : Z -> Z -> Z -> A -> A)
      (a : Arr3 A) k j i :
  cellwise klo khi jlo jhi ilo ihi f a k j i =
    if in_box klo khi jlo jhi ilo ihi k j i then f k j i (a k j i) else a k j i.
Proof.
  unfold cellwise, in_box.
  set (obs := fun a : Arr3 A => a k j i).
  change (obs (for_loop klo khi (fun k0 => for_loop jlo jhi (fun j0 =>
            for_loop ilo ihi (fun i0 a0 => upd3 a0 k0 j0 i0 (f k0 j0 i0 (a0 k0 j0 i0))))) a)
          = if in_range klo khi k && in_range jlo jhi j && in_range ilo ihi i
            then f k j i (obs a) else obs a).
  rewrite (for_loop_obs obs _ k
             (fun v => if in_range jlo jhi j && in_range ilo ihi i then f k j i v else v)).
  - now destruct (in_range klo khi k).
  - intros k' s Hk Hne. apply for_loop_frame. intros j' s' Hj.
    apply for_loop_frame. intros i' s'' Hi. unfold obs.
    apply upd3_other. congruence.
  - intros s Hk.
    rewrite (for_loop_obs obs _ j
               (fun v => if in_range ilo ihi i then f k j i v else v)).
    + now destruct (in_range jlo jhi j).
    + intros j' s' Hj Hne. apply for_loop_frame. intros i' s'' Hi. unfold obs.
      apply upd3_other. congruence.
    + intros s' Hj.
      rewrite (for_loop_obs obs _ i (f k j i)).
      * reflexivity.
      * intros i' s'' Hi Hne. unfold obs. apply upd3_other. congruence.
      * intros s'' Hi. unfold obs. apply upd3_same.
Qed.

Lemma for_scal_spec N f s n :
  for_scal N f s n = if (n <? N)%nat then f n (s n) else s n.
Proof.
  induction N as [|m IH] in n |- *; simpl.
  - reflexivity.
  - destruct (Nat.eqb_spec n m) as [->|Hne].
    + rewrite IH. rewrite Nat.ltb_irrefl.
      destruct (Nat.ltb_spec m (Datatypes.S m)); [reflexivity | lia].
    + rewrite IH.
      destruct (Nat.ltb_spec n m), (Nat.ltb_spec n (Datatypes.S m)); auto; lia.
Qed.

(** ** Step 10b *)

Lemma add_B1i_at g k j i v : B1i (add_B1i g k j i v) k j i = B1i g k j i + v.
Proof. unfold add_B1i; simpl. apply upd3_same. Qed.
Lemma add_B2i_at g k j i v : B2i (add_B2i g k j i v) k j i = B2i g k j i + v.
Proof. unfold add_B2i; simpl. apply upd3_same. Qed.
Lemma add_B3i_at g k j i v : B3i (add_B3i g k j i v) k j i = B3i g k j i + v.
Proof. unfold add_B3i; simpl. apply upd3_same. Qed.

Lemma add_B1i_other g k j i v k' j' i' :
  (k', j', i') <> (k, j, i) -> B1i (add_B1i g k j i v) k' j' i' = B1i g k' j' i'.
Proof. intros; unfold add_B1i; simpl. now apply upd3_other. Qed.
Lemma add_B2i_other g k j i v k' j' i' :
  (k', j', i') <> (k, j, i) -> B2i (add_B2i g k j i v) k' j' i' = B2i g k' j' i'.
Proof. intros; unfold add_B2i; simpl. now apply upd3_other. Qed.
Lemma add_B3i_other g k j i v k' j' i' :
  (k', j', i') <> (k, j, i) -> B3i (add_B3i g k j i v) k' j' i' = B3i g k' j' i'.
Proof. intros; unfold add_B3i; simpl. now apply upd3_other. Qed.

Ltac tuple_neq := let H := fresh in intro H; injection H; intros; lia.
Ltac loop_obs O n0 G :=
  etransitivity; [apply (for_loop_obs O _ n0 G) | cbv beta].
Ltac loop_frame O :=
  etransitivity; [apply (for_loop_frame O) | cbv beta].

Section Step10b_facts.
Variable pG : Grid.
Variables emf1 emf2 emf3 : Arr3 Real.

Lemma step10b_B1i k j i :
  B1i (step10b pG emf1 emf2 emf3) k j i =
    if written_B1i pG k j i
    then B1i pG k j i + ct_dB1 pG emf2 emf3 k j i
    else B1i pG k j i.
Proof.
  unfold step10b, written_B1i.
  set (obs := fun g : Grid => B1i g k j i).
  set (d := ct_dB1 pG emf2 emf3 k j i).
  loop_frame obs.
  { intros j' s Hj. apply (for_loop_frame obs). intros i' s' Hi. reflexivity. }
  loop_obs obs k
    (fun v => if in_range (js pG) (je pG) j &&
                 (in_range (is_ pG) (ie pG) i || (i =? ie pG + 1)%Z)
              then v + d else v).
  - intros k' s Hk Hne.
    loop_frame obs. { intros; reflexivity. }
    apply (for_loop_frame obs). intros j' s' Hj. unfold obs at 1.
    rewrite add_B1i_other by congruence.
    apply (for_loop_frame obs). intros i' s'' Hi. unfold obs; simpl.
    apply upd3_other. congruence.
  - intros s Hk.
    loop_frame obs. { intros; reflexivity. }
    loop_obs obs j
      (fun v => if in_range (is_ pG) (ie pG) i || (i =? ie pG + 1)%Z
                then v + d else v).
    + intros j' s' Hj Hne. unfold obs at 1.
      rewrite add_B1i_other by congruence.
      apply (for_loop_frame obs). intros i' s'' Hi. unfold obs; simpl.
      apply upd3_other. congruence.
    + intros s' Hj. unfold obs at 1.
      destruct (Z.eq_dec i (ie pG + 1)) as [Heq|Hne].
      * rewrite Heq at 1. rewrite add_B1i_at.
        destruct (Z.eqb_spec i (ie pG + 1)); [|contradiction].
        rewrite orb_true_r. unfold d. rewrite <- Heq. f_equal.
        apply (for_loop_frame obs).
        intros i' s'' Hi. unfold obs; simpl. apply upd3_other. tuple_neq.
      * rewrite add_B1i_other by congruence.
        loop_obs obs i (fun v => v + d).
        -- intros i' s'' Hi Hne'. unfold obs; simpl. apply upd3_other. congruence.
        -- intros s'' Hi. unfold obs; simpl. apply upd3_same.
        -- destruct (Z.eqb_spec i (ie pG + 1)); [contradiction|].
           now rewrite orb_false_r.
    + now destruct (in_range (js pG) (je pG) j).
  - fold obs. now destruct (in_range (ks pG) (ke pG) k).
Qed.

Lemma step10b_B2i k j i :
  B2i (step10b pG emf1 emf2 emf3) k j i =
    if written_B2i pG k j i
    then B2i pG k j i + ct_dB2 pG emf1 emf3 k j i
    else B2i pG k j i.
Proof.
  unfold step10b, written_B2i.
  set (obs := fun g : Grid => B2i g k j i).
  set (d := ct_dB2 pG emf1 emf3 k j i).
  loop_frame obs.
  { intros j' s Hj. apply (for_loop_frame obs). intros i' s' Hi. reflexivity. }
  loop_obs obs k
    (fun v => if (in_range (js pG) (je pG) j || (j =? je pG + 1)%Z) &&
                 in_range (is_ pG) (ie pG) i
              then v + d else v).
  - intros k' s Hk Hne.
    loop_frame obs.
    { intros i' s' Hi. unfold obs. apply add_B2i_other. congruence. }
    apply (for_loop_frame obs). intros j' s' Hj. unfold obs at 1.
    change (B2i (add_B1i ?g ?a ?b ?c ?v)) with (B2i g).
    apply (for_loop_frame obs). intros i' s'' Hi. unfold obs; simpl.
    apply upd3_other. congruence.
  - intros s Hk.
    destruct (Z.eq_dec j (je pG + 1)) as [Heq|Hne].
    + (* the closing face of the row *)
      loop_obs obs i (fun v => v + d).
      * intros i' s' Hi Hne'. unfold obs. apply add_B2i_other. congruence.
      * intros s' Hi. unfold obs, d. rewrite Heq. apply add_B2i_at.
      * destruct (Z.eqb_spec j (je pG + 1)); [|contradiction].
        rewrite orb_true_r. simpl.
        assert (Hfr : obs (for_loop (js pG) (je pG) (fun j0 g =>
                   add_B1i (for_loop (is_ pG) (ie pG) (fun i0 g0 =>
                      add_B3i (add_B2i (add_B1i g0 k j0 i0 (ct_dB1 pG emf2 emf3 k j0 i0))
                                 k j0 i0 (ct_dB2 pG emf1 emf3 k j0 i0))
                              k j0 i0 (ct_dB3 pG emf1 emf2 k j0 i0)) g)
                     k j0 (ie pG + 1) (ct_dB1 pG emf2 emf3 k j0 (ie pG + 1))) s)
                 = obs s).
        { apply (for_loop_frame obs). intros j' s' Hj. unfold obs at 1.
          change (B2i (add_B1i ?g ?a ?b ?c ?v)) with (B2i g).
          apply (for_loop_frame obs). intros i' s'' Hi. unfold obs; simpl.
          apply upd3_other. tuple_neq. }
        rewrite Hfr. reflexivity.
    + loop_frame obs.
      { intros i' s' Hi. unfold obs. apply add_B2i_other. congruence. }
      loop_obs obs j (fun v => if in_range (is_ pG) (ie pG) i then v + d else v).
      * intros j' s' Hj Hne'. unfold obs at 1.
        change (B2i (add_B1i ?g ?a ?b ?c ?v)) with (B2i g).
        apply (for_loop_frame obs). intros i' s'' Hi. unfold obs; simpl.
        apply upd3_other. congruence.
      * intros s' Hj. unfold obs at 1.
        change (B2i (add_B1i ?g ?a ?b ?c ?v)) with (B2i g).
        loop_obs obs i (fun v => v + d).
        -- intros i' s'' Hi Hne'. unfold obs; simpl. apply upd3_other. congruence.
        -- intros s'' Hi. unfold obs; simpl. apply upd3_same.
        -- reflexivity.
      * destruct (Z.eqb_spec j (je pG + 1)); [contradiction|].
        rewrite orb_false_r. now destruct (in_range (js pG) (je pG) j).
  - fold obs. now destruct (in_range (ks pG) (ke pG) k).
Qed.

Lemma step10b_B3i k j i :
  B3i (step10b pG emf1 emf2 emf3) k j i =
    if written_B3i pG k j i
    then B3i pG k j i + ct_dB3 pG emf1 emf2 k j i
    else B3i pG k j i.
Proof.
  unfold step10b, written_B3i.
  set (obs := fun g : Grid => B3i g k j i).
  set (d := ct_dB3 pG emf1 emf2 k j i).
  set (g1 := for_loop (ks pG) (ke pG) _ pG).
  assert (H1 : obs g1 =
            if in_range (ks pG) (ke pG) k && in_range (js pG) (je pG) j &&
               in_range (is_ pG) (ie pG) i
            then obs pG + d else obs pG).
  { subst g1.
    loop_obs obs k
      (fun v => if in_range (js pG) (je pG) j && in_range (is_ pG) (ie pG) i
                then v + d else v).
    - intros k' s Hk Hne.
      loop_frame obs. { intros; reflexivity. }
      apply (for_loop_frame obs). intros j' s' Hj. unfold obs at 1.
      change (B3i (add_B1i ?g ?a ?b ?c ?v)) with (B3i g).
      apply (for_loop_frame obs). intros i' s'' Hi. unfold obs.
      rewrite add_B3i_other by congruence. reflexivity.
    - intros s Hk.
      loop_frame obs. { intros; reflexivity. }
      loop_obs obs j (fun v => if in_range (is_ pG) (ie pG) i then v + d else v).
      + intros j' s' Hj Hne. unfold obs at 1.
        change (B3i (add_B1i ?g ?a ?b ?c ?v)) with (B3i g).
        apply (for_loop_frame obs). intros i' s'' Hi. unfold obs.
        rewrite add_B3i_other by congruence. reflexivity.
      + intros s' Hj. unfold obs at 1.
        change (B3i (add_B1i ?g ?a ?b ?c ?v)) with (B3i g).
        loop_obs obs i (fun v => v + d).
        * intros i' s'' Hi Hne'. unfold obs.
          rewrite add_B3i_other by congruence. reflexivity.
        * intros s'' Hi. unfold obs. rewrite add_B3i_at. reflexivity.
        * reflexivity.
      + now destruct (in_range (js pG) (je pG) j).
    - now destruct (in_range (ks pG) (ke pG) k). }
  destruct (Z.eq_dec k (ke pG + 1)) as [Heq|Hne].
  - loop_obs obs j (fun v => if in_range (is_ pG) (ie pG) i then v + d else v).
    + intros j' s Hj Hne. apply (for_loop_frame obs). intros i' s' Hi.
      unfold obs. apply add_B3i_other. congruence.
    + intros s Hj.
      loop_obs obs i (fun v => v + d).
      * intros i' s' Hi Hne. unfold obs. apply add_B3i_other. congruence.
      * intros s' Hi. unfold obs, d. rewrite Heq. apply add_B3i_at.
      * reflexivity.
    + rewrite H1.
      assert (Hk : in_range (ks pG) (ke pG) k = false)
        by (apply in_range_false; lia).
      rewrite Hk. destruct (Z.eqb_spec k (ke pG + 1)); [|contradiction].
      simpl. now destruct (in_range (js pG) (je pG) j).
  - loop_frame obs.
    { intros j' s Hj. apply (for_loop_frame obs). intros i' s' Hi.
      unfold obs. apply add_B3i_other. congruence. }
    rewrite H1. destruct (Z.eqb_spec k (ke pG + 1)); [contradiction|].
    now rewrite orb_false_r.
Qed.

(** Step 10b stores to nothing but the three face-field arrays. *)
Lemma step10b_frame {V} (obs : Grid -> V) :
  (forall g k j i v, obs (add_B1i g k j i v) = obs g) ->
  (forall g k j i v, obs (add_B2i g k j i v) = obs g) ->
  (forall g k j i v, obs (add_B3i g k j i v) = obs g) ->
  obs (step10b pG emf1 emf2 emf3) = obs pG.
Proof.
  intros F1 F2 F3. unfold step10b.
  loop_frame obs.
  { intros j s Hj. apply (for_loop_frame obs). intros i s' Hi. apply F3. }
  apply (for_loop_frame obs). intros k s Hk.
  loop_frame obs. { intros i s' Hi. apply F2. }
  apply (for_loop_frame obs). intros j s' Hj.
  rewrite F1. apply (for_loop_frame obs). intros i s'' Hi.
  now rewrite F3, F2, F1.
Qed.
End Step10b_facts.

(** The change of the discrete divergence cancels term by term. *)
Lemma ct_divergence_cancels pG emf1 emf2 emf3 k j i :
  (ct_dB1 pG emf2 emf3 k j (i+1) - ct_dB1 pG emf2 emf3 k j i) / dx1 pG +
  (ct_dB2 pG emf1 emf3 k (j+1) i - ct_dB2 pG emf1 emf3 k j i) / dx2 pG +
  (ct_dB3 pG emf1 emf2 (k+1) j i - ct_dB3 pG emf1 emf2 k j i) / dx3 pG = 0.
Proof. unfold ct_dB1, ct_dB2, ct_dB3, Rdiv. ring. Qed.

Lemma interior_written pG k j i :
  interior pG k j i ->
  written_B1i pG k j i = true /\ written_B1i pG k j (i+1) = true /\
  written_B2i pG k j i = true /\ written_B2i pG k (j+1) i = true /\
  written_B3i pG k j i = true /\ written_B3i pG (k+1) j i = true.
Proof.
  intros (Hk & Hj & Hi).
  unfold written_B1i, written_B2i, written_B3i.
  assert (Ek : in_range (ks pG) (ke pG) k = true) by now apply in_range_true.
  assert (Ej : in_range (js pG) (je pG) j = true) by now apply in_range_true.
  assert (Ei : in_range (is_ pG) (ie pG) i = true) by now apply in_range_true.
  rewrite Ek, Ej, Ei. simpl.
  repeat split; rewrite ?andb_true_r; apply orb_true_iff.
  - destruct (Z.eq_dec i (ie pG)) as [->|]; [right; apply Z.eqb_refl|].
    left. apply in_range_true. lia.
  - destruct (Z.eq_dec j (je pG)) as [->|]; [right; apply Z.eqb_refl|].
    left. apply in_range_true. lia.
  - destruct (Z.eq_dec k (ke pG)) as [->|]; [right; apply Z.eqb_refl|].
    left. apply in_range_true. lia.
Qed.

Lemma step10b_divergence pG emf1 emf2 emf3 k j i :
  interior pG k j i ->
  let pG' := step10b pG emf1 emf2 emf3 in
  dx1 pG' = dx1 pG /\ dx2 pG' = dx2 pG /\ dx3 pG' = dx3 pG /\
  divB pG' k j i = divB pG k j i /\
  (divB pG k j i = 0 -> divB pG' k j i = 0).
Proof.
  intros Hin pG'.
  assert (D1 : dx1 pG' = dx1 pG) by (apply (step10b_frame pG emf1 emf2 emf3 dx1); reflexivity).
  assert (D2 : dx2 pG' = dx2 pG) by (apply (step10b_frame pG emf1 emf2 emf3 dx2); reflexivity).
  assert (D3 : dx3 pG' = dx3 pG) by (apply (step10b_frame pG emf1 emf2 emf3 dx3); reflexivity).
  assert (Hdiv : divB pG' k j i = divB pG k j i).
  { destruct (interior_written pG k j i Hin) as (W1 & W1' & W2 & W2' & W3 & W3').
    unfold divB. rewrite D1, D2, D3. subst pG'.
    rewrite !step10b_B1i, !step10b_B2i, !step10b_B3i.
    rewrite W1, W1', W2, W2', W3, W3'.
    pose proof (ct_divergence_cancels pG emf1 emf2 emf3 k j i) as Hc.
    unfold Rdiv in *. lra. }
  repeat split; auto. intros H0. now rewrite Hdiv.
Qed.

(** ** Steps 11 and 12 *)

Lemma interior_in_box pG k j i :
  in_box (ks pG) (ke pG) (js pG) (je pG) (is_ pG) (ie pG) k j i = true <->
  interior pG k j i.
Proof. apply in_box_true. Qed.

Lemma interior_cells_in pG f u k j i :
  interior pG k j i -> interior_cells pG f u k j i = f k j i (u k j i).
Proof.
  intros H. unfold interior_cells. rewrite cellwise_spec.
  apply interior_in_box in H. now rewrite H.
Qed.

Lemma interior_cells_out pG f u k j i :
  ~ interior pG k j i -> interior_cells pG f u k j i = u k j i.
Proof.
  intros H. unfold interior_cells. rewrite cellwise_spec.
  destruct (in_box _ _ _ _ _ _ k j i) eqn:E; [|reflexivity].
  apply interior_in_box in E. contradiction.
Qed.

(** A loop over the interior cells whose cell function keeps [obs]. *)
Lemma interior_cells_keep {V} (obs : Gas.t -> V) pG f u k j i :
  (forall k j i u, obs (f k j i u) = obs u) ->
  obs (interior_cells pG f u k j i) = obs (u k j i).
Proof.
  intros H. unfold interior_cells. rewrite cellwise_spec.
  destruct (in_box _ _ _ _ _ _ k j i); auto.
Qed.

Section Update_facts.
Variable cfg : Config.
Variable gl : Globals.
Variable ext : Extern.
Variable sc : Scratch.
Variable pG : Grid.
Variable pD : Domain.

(** Step 10 stores to the face fields only. *)
Lemma step10_frame {V} (obs : Grid -> V) :
  (forall g k j i v, obs (add_B1i g k j i v) = obs g) ->
  (forall g k j i v, obs (add_B2i g k j i v) = obs g) ->
  (forall g k j i v, obs (add_B3i g k j i v) = obs g) ->
  obs (step10 cfg ext sc pG pD) = obs pG.
Proof.
  intros. unfold step10. destruct (MHD cfg); [|reflexivity].
  now apply step10b_frame.
Qed.

Lemma step10_U : U (step10 cfg ext sc pG pD) = U pG.
Proof. apply (step10_frame U); reflexivity. Qed.

(** Steps 11a, 11b, 11c keep the density and the passive scalars, and
    never touch the cell-centred field. *)
Lemma step11a_shear_cell_d phi k j i u :
  Gas.d (step11a_shear_cell cfg gl ext sc pG phi k j i u) = Gas.d u.
Proof.
  unfold step11a_shear_cell. destruct (cc_pos ext pG i j k) as [[x1 x2] x3].
  destruct (FARGO cfg), (BAROTROPIC cfg); reflexivity.
Qed.

Lemma step11a_shear_cell_s phi k j i u :
  Gas.s (step11a_shear_cell cfg gl ext sc pG phi k j i u) = Gas.s u.
Proof.
  unfold step11a_shear_cell. destruct (cc_pos ext pG i j k) as [[x1 x2] x3].
  destruct (FARGO cfg), (BAROTROPIC cfg); reflexivity.
Qed.

Lemma step11a_grav_cell_d phi k j i u :
  Gas.d (step11a_grav_cell cfg ext sc pG phi k j i u) = Gas.d u.
Proof.
  unfold step11a_grav_cell. destruct (cc_pos ext pG i j k) as [[x1 x2] x3].
  destruct (BAROTROPIC cfg); reflexivity.
Qed.

Lemma step11a_grav_cell_s phi k j i u :
  Gas.s (step11a_grav_cell cfg ext sc pG phi k j i u) = Gas.s u.
Proof.
  unfold step11a_grav_cell. destruct (cc_pos ext pG i j k) as [[x1 x2] x3].
  destruct (BAROTROPIC cfg); reflexivity.
Qed.

Lemma step11a_keep {V} (obs : Gas.t -> V) u u' k j i :
  (forall phi k j i u,
      obs (step11a_shear_cell cfg gl ext sc pG phi k j i u) = obs u) ->
  (forall phi k j i u,
      obs (step11a_grav_cell cfg ext sc pG phi k j i u) = obs u) ->
  step11a cfg gl ext sc pG u = Some u' ->
  obs (u' k j i) = obs (u k j i).
Proof.
  intros Hs Hg. unfold step11a, step11a_shear, step11a_grav.
  destruct (SHEARING_BOX cfg), (StaticGravPot gl) as [phi|];
    try destruct (has_interior pG); intros [= <-]; auto;
    now apply interior_cells_keep.
Qed.

Lemma step11a_outside u u' k j i :
  step11a cfg gl ext sc pG u = Some u' ->
  ~ interior pG k j i -> u' k j i = u k j i.
Proof.
  unfold step11a, step11a_shear, step11a_grav.
  destruct (SHEARING_BOX cfg), (StaticGravPot gl) as [phi|];
    try destruct (has_interior pG); intros [= <-] Hout; auto;
    now apply interior_cells_out.
Qed.

Lemma step11b_keep {V} (obs : Gas.t -> V) u k j i :
  (forall u v, obs (Gas.set_M1 u v) = obs u) ->
  (forall u v, obs (Gas.set_M2 u v) = obs u) ->
  (forall u v, obs (Gas.set_M3 u v) = obs u) ->
  (forall u v, obs (Gas.set_E u v) = obs u) ->
  obs (step11b cfg gl sc pG u k j i) = obs (u k j i).
Proof.
  intros H1 H2 H3 H4. unfold step11b.
  rewrite !(interior_cells_keep obs); auto; intros;
    unfold step11b_x1_cell, step11b_x2_cell, step11b_x3_cell;
    cbv zeta; destruct (BAROTROPIC cfg); now rewrite ?H4, ?H3, ?H2, ?H1.
Qed.

Lemma step11b_outside u k j i :
  ~ interior pG k j i -> step11b cfg gl sc pG u k j i = u k j i.
Proof.
  intros H. unfold step11b. now rewrite !interior_cells_out.
Qed.

Lemma step11c_keep {V} (obs : Gas.t -> V) u k j i :
  (forall u v, obs (Gas.set_E u v) = obs u) ->
  obs (step11c cfg gl sc pG u k j i) = obs (u k j i).
Proof.
  intros H. unfold step11c.
  destruct (BAROTROPIC cfg); auto. destruct (CoolingFunc gl); auto.
  apply interior_cells_keep. intros. apply H.
Qed.

Lemma step11c_outside u k j i :
  ~ interior pG k j i -> step11c cfg gl sc pG u k j i = u k j i.
Proof.
  intros H. unfold step11c.
  destruct (BAROTROPIC cfg); auto. destruct (CoolingFunc gl); auto.
  now apply interior_cells_out.
Qed.

Lemma step12abc_outside u k j i :
  ~ interior pG k j i -> step12abc cfg sc pG u k j i = u k j i.
Proof.
  intros H. unfold step12abc. now rewrite !interior_cells_out.
Qed.
End Update_facts.

Section Whole_update.
Variable cfg : Config.
Variable gl : Globals.
Variable ext : Extern.
Variable sc : Scratch.
Variable pG : Grid.
Variable pD : Domain.

(** The anatomy of a completed update. *)
Lemma update_anatomy g' :
  integrate_3d_ctu_update cfg gl ext sc pG pD = Some g' ->
  exists u1,
    step11a cfg gl ext sc pG (U pG) = Some u1 /\
    U g' = (if MHD cfg
            then interior_cells pG (step12d_cell (step10 cfg ext sc pG pD))
                                   (after_step12c cfg gl sc pG u1)
            else after_step12c cfg gl sc pG u1) /\
    B1i g' = B1i (step10 cfg ext sc pG pD) /\
    B2i g' = B2i (step10 cfg ext sc pG pD) /\
    B3i g' = B3i (step10 cfg ext sc pG pD) /\
    Phi g' = Phi pG /\ dt g' = dt pG /\ time g' = time pG.
Proof.
  unfold integrate_3d_ctu_update, after_step12c.
  rewrite step10_U.
  destruct (step11a cfg gl ext sc pG (U pG)) as [u1|]; [|discriminate].
  intros [= <-]. exists u1. split; [reflexivity|].
  assert (HP : Phi (step10 cfg ext sc pG pD) = Phi pG)
    by (apply (step10_frame cfg ext sc pG pD Phi); reflexivity).
  assert (Hd : dt (step10 cfg ext sc pG pD) = dt pG)
    by (apply (step10_frame cfg ext sc pG pD dt); reflexivity).
  assert (Ht : time (step10 cfg ext sc pG pD) = time pG)
    by (apply (step10_frame cfg ext sc pG pD time); reflexivity).
  destruct (MHD cfg) eqn:EM, (SELF_GRAVITY cfg); simpl;
    repeat split; auto.
Qed.

Lemma after_step12c_outside u1 k j i :
  ~ interior pG k j i -> after_step12c cfg gl sc pG u1 k j i = u1 k j i.
Proof.
  intros H. unfold after_step12c.
  rewrite step12abc_outside, step11c_outside by assumption.
  destruct (SELF_GRAVITY cfg); auto. now apply step11b_outside.
Qed.

Lemma step12a_cell_d u k j i :
  Gas.d (step12a_cell cfg sc pG k j i u) =
    Gas.d u - dt pG / dx1 pG *
      (Cons1D.d (x1Flux sc k j (i+1)%Z) - Cons1D.d (x1Flux sc k j i)).
Proof. unfold step12a_cell. destruct (BAROTROPIC cfg); reflexivity. Qed.

Lemma step12b_cell_d u k j i :
  Gas.d (step12b_cell cfg sc pG k j i u) =
    Gas.d u - dt pG / dx2 pG *
      (Cons1D.d (x2Flux sc k (j+1)%Z i) - Cons1D.d (x2Flux sc k j i)).
Proof. unfold step12b_cell. destruct (BAROTROPIC cfg); reflexivity. Qed.

Lemma step12c_cell_d u k j i :
  Gas.d (step12c_cell cfg sc pG k j i u) =
    Gas.d u - dt pG / dx3 pG *
      (Cons1D.d (x3Flux sc (k+1)%Z j i) - Cons1D.d (x3Flux sc k j i)).
Proof. unfold step12c_cell. destruct (BAROTROPIC cfg); reflexivity. Qed.

Lemma step12abc_d u k j i :
  interior pG k j i ->
  Gas.d (step12abc cfg sc pG u k j i) =
    Gas.d (u k j i)
    - flux_divergence sc pG Cons1D.d Cons1D.d Cons1D.d k j i.
Proof.
  intros H. unfold step12abc. rewrite !interior_cells_in by assumption.
  rewrite step12c_cell_d, step12b_cell_d, step12a_cell_d.
  unfold flux_divergence. lra.
Qed.

Lemma step12a_cell_s u k j i n :
  (n < NSCALARS cfg)%nat ->
  Gas.s (step12a_cell cfg sc pG k j i u) n =
    Gas.s u n - dt pG / dx1 pG *
      (Cons1D.s (x1Flux sc k j (i+1)%Z) n - Cons1D.s (x1Flux sc k j i) n).
Proof.
  intros Hn. unfold step12a_cell. cbv zeta.
  change (Gas.s (Gas.set_s ?u ?v)) with v.
  rewrite for_scal_spec.
  destruct (Nat.ltb_spec n (NSCALARS cfg)); [|lia].
  destruct (BAROTROPIC cfg); reflexivity.
Qed.

Lemma step12b_cell_s u k j i n :
  (n < NSCALARS cfg)%nat ->
  Gas.s (step12b_cell cfg sc pG k j i u) n =
    Gas.s u n - dt pG / dx2 pG *
      (Cons1D.s (x2Flux sc k (j+1)%Z i) n - Cons1D.s (x2Flux sc k j i) n).
Proof.
  intros Hn. unfold step12b_cell. cbv zeta.
  change (Gas.s (Gas.set_s ?u ?v)) with v.
  rewrite for_scal_spec.
  destruct (Nat.ltb_spec n (NSCALARS cfg)); [|lia].
  destruct (BAROTROPIC cfg); reflexivity.
Qed.

Lemma step12c_cell_s u k j i n :
  (n < NSCALARS cfg)%nat ->
  Gas.s (step12c_cell cfg sc pG k j i u) n =
    Gas.s u n - dt pG / dx3 pG *
      (Cons1D.s (x3Flux sc (k+1)%Z j i) n - Cons1D.s (x3Flux sc k j i) n).
Proof.
  intros Hn. unfold step12c_cell. cbv zeta.
  change (Gas.s (Gas.set_s ?u ?v)) with v.
  rewrite for_scal_spec.
  destruct (Nat.ltb_spec n (NSCALARS cfg)); [|lia].
  destruct (BAROTROPIC cfg); reflexivity.
Qed.

Lemma step12abc_s u k j i n :
  interior pG k j i -> (n < NSCALARS cfg)%nat ->
  Gas.s (step12abc cfg sc pG u k j i) n =
    Gas.s (u k j i) n
    - flux_divergence sc pG (fun f => Cons1D.s f n) (fun f => Cons1D.s f n)
                      (fun f => Cons1D.s f n) k j i.
Proof.
  intros H Hn. unfold step12abc. rewrite !interior_cells_in by assumption.
  rewrite step12c_cell_s, step12b_cell_s, step12a_cell_s by assumption.
  unfold flux_divergence. lra.
Qed.

Lemma before_step12_keep {V} (obs : Gas.t -> V) u1 k j i :
  (forall u v, obs (Gas.set_M1 u v) = obs u) ->
  (forall u v, obs (Gas.set_M2 u v) = obs u) ->
  (forall u v, obs (Gas.set_M3 u v) = obs u) ->
  (forall u v, obs (Gas.set_E u v) = obs u) ->
  obs (step11c cfg gl sc pG
         (if SELF_GRAVITY cfg then step11b cfg gl sc pG u1 else u1) k j i)
  = obs (u1 k j i).
Proof.
  intros. rewrite step11c_keep by assumption.
  destruct (SELF_GRAVITY cfg); auto. now apply step11b_keep.
Qed.

Lemma step12d_cell_keep {V} (obs : Gas.t -> V) g :
  (forall u v, obs (Gas.set_B1c u v) = obs u) ->
  (forall u v, obs (Gas.set_B2c u v) = obs u) ->
  (forall u v, obs (Gas.set_B3c u v) = obs u) ->
  forall k j i u, obs (step12d_cell g k j i u) = obs u.
Proof. intros H1 H2 H3 k j i u. unfold step12d_cell. now rewrite H3, H2, H1. Qed.

(** Density and passive scalars over the whole update. *)
Lemma update_d g' k j i :
  integrate_3d_ctu_update cfg gl ext sc pG pD = Some g' ->
  interior pG k j i ->
  Gas.d (U g' k j i) =
    Gas.d (U pG k j i) - flux_divergence sc pG Cons1D.d Cons1D.d Cons1D.d k j i.
Proof.
  intros Hrun Hin.
  destruct (update_anatomy g' Hrun)
    as (u1 & H11 & HU & _).
  rewrite HU.
  assert (Hd : Gas.d (after_step12c cfg gl sc pG u1 k j i) =
               Gas.d (U pG k j i)
               - flux_divergence sc pG Cons1D.d Cons1D.d Cons1D.d k j i).
  { unfold after_step12c. rewrite step12abc_d by assumption.
    rewrite (before_step12_keep Gas.d) by reflexivity.
    rewrite (step11a_keep cfg gl ext sc pG Gas.d (U pG) u1); auto.
    - intros. apply step11a_shear_cell_d.
    - intros. apply step11a_grav_cell_d. }
  destruct (MHD cfg); auto.
  rewrite (interior_cells_keep Gas.d); auto.
Qed.

Lemma update_s g' k j i n :
  integrate_3d_ctu_update cfg gl ext sc pG pD = Some g' ->
  interior pG k j i -> (n < NSCALARS cfg)%nat ->
  Gas.s (U g' k j i) n =
    Gas.s (U pG k j i) n
    - flux_divergence sc pG (fun f => Cons1D.s f n) (fun f => Cons1D.s f n)
                      (fun f => Cons1D.s f n) k j i.
Proof.
  intros Hrun Hin Hn.
  destruct (update_anatomy g' Hrun)
    as (u1 & H11 & HU & _).
  rewrite HU.
  assert (Hs : Gas.s (after_step12c cfg gl sc pG u1 k j i) n =
               Gas.s (U pG k j i) n
               - flux_divergence sc pG (fun f => Cons1D.s f n)
                   (fun f => Cons1D.s f n) (fun f => Cons1D.s f n) k j i).
  { unfold after_step12c. rewrite step12abc_s by assumption.
    rewrite (before_step12_keep Gas.s) by reflexivity.
    rewrite (step11a_keep cfg gl ext sc pG Gas.s (U pG) u1); auto.
    - intros. apply step11a_shear_cell_s.
    - intros. apply step11a_grav_cell_s. }
  destruct (MHD cfg); auto.
  rewrite (interior_cells_keep Gas.s); auto.
Qed.

(** The update runs to completion unless the shearing-box loop has to call
    a NULL potential. *)
Lemma update_completes :
  SHEARING_BOX cfg = false \/ StaticGravPot gl <> None ->
  exists g', integrate_3d_ctu_update cfg gl ext sc pG pD = Some g'.
Proof.
  intros H. unfold integrate_3d_ctu_update, step11a, step11a_shear.
  destruct (SHEARING_BOX cfg).
  - destruct (StaticGravPot gl) as [phi|].
    + eexists. reflexivity.
    + destruct H; congruence.
  - eexists. reflexivity.
Qed.
End Whole_update.


(** Claim C2.  With MHD enabled, in the grid that a completed update
    returns, the cell-centred field of every interior cell is the arithmetic
    mean of its two bracketing face fields, in each of the three directions.
    The averaging (Step 12d) is the last store: the returned grid is the
    result of Step 12d on the grid [g] that Steps 10 to 12c leave, whose
    cells are those of Step 12c and whose face fields are those of the CT
    update of Step 10; Step 12d leaves these face fields and the other
    members of every cell as they are. *)
Theorem C2_cell_centred_field_is_face_average cfg gl ext sc pG pD g' k j i :
  MHD cfg = true ->
  integrate_3d_ctu_update cfg gl ext sc pG pD = Some g' ->
  interior pG k j i ->
  Gas.B1c (U g' k j i) = 0.5 * (B1i g' k j i + B1i g' k j (i+1)%Z) /\
  Gas.B2c (U g' k j i) = 0.5 * (B2i g' k j i + B2i g' k (j+1)%Z i) /\
  Gas.B3c (U g' k j i) = 0.5 * (B3i g' k j i + B3i g' (k+1)%Z j i) /\
  (exists u1 g,
      step11a cfg gl ext sc pG (U pG) = Some u1 /\
      U g = after_step12c cfg gl sc pG u1 /\
      B1i g = B1i (step10 cfg ext sc pG pD) /\
      B2i g = B2i (step10 cfg ext sc pG pD) /\
      B3i g = B3i (step10 cfg ext sc pG pD) /\
      g' = step12d pG g /\
      B1i g' = B1i g /\ B2i g' = B2i g /\ B3i g' = B3i g /\
      (forall k j i,
          Gas.d (U g' k j i) = Gas.d (U g k j i) /\
          Gas.M1 (U g' k j i) = Gas.M1 (U g k j i) /\
          Gas.M2 (U g' k j i) = Gas.M2 (U g k j i) /\
          Gas.M3 (U g' k j i) = Gas.M3 (U g k j i) /\
          Gas.E (U g' k j i) = Gas.E (U g k j i) /\
          Gas.s (U g' k j i) = Gas.s (U g k j i))).
Proof.
  intros HM Hrun Hin.
  destruct (update_anatomy cfg gl ext sc pG pD g' Hrun)
    as (u1 & H11 & HU & H1 & H2 & H3 & _).
  assert (Hlast : exists g,
             U g = after_step12c cfg gl sc pG u1 /\
             B1i g = B1i (step10 cfg ext sc pG pD) /\
             B2i g = B2i (step10 cfg ext sc pG pD) /\
             B3i g = B3i (step10 cfg ext sc pG pD) /\
             g' = step12d pG g).
  { revert Hrun. unfold integrate_3d_ctu_update.
    rewrite step10_U, H11, HM.
    intros Heq. injection Heq as Heq. subst g'.
    eexists. split; [|split; [|split; [|split; [|reflexivity]]]].
    - unfold after_step12c. destruct (SELF_GRAVITY cfg); reflexivity.
    - destruct (SELF_GRAVITY cfg); reflexivity.
    - destruct (SELF_GRAVITY cfg); reflexivity.
    - destruct (SELF_GRAVITY cfg); reflexivity. }
  rewrite HM in HU.
  refine (conj _ (conj _ (conj _ _)));
    try (rewrite HU, ?H1, ?H2, ?H3, interior_cells_in by assumption;
         reflexivity).
  destruct Hlast as (g & HUg & G1 & G2 & G3 & Hg').
  exists u1, g. split; [exact H11|]. split; [exact HUg|].
  split; [exact G1|]. split; [exact G2|]. split; [exact G3|].
  split; [exact Hg'|].
  split; [now rewrite H1, G1|]. split; [now rewrite H2, G2|].
  split; [now rewrite H3, G3|].
  intros k' j' i'. rewrite Hg'. unfold step12d. cbn [U set_U].
  repeat split.
  - apply (interior_cells_keep Gas.d); intros; now apply step12d_cell_keep.
  - apply (interior_cells_keep Gas.M1); intros; now apply step12d_cell_keep.
  - apply (interior_cells_keep Gas.M2); intros; now apply step12d_cell_keep.
  - apply (interior_cells_keep Gas.M3); intros; now apply step12d_cell_keep.
  - apply (interior_cells_keep Gas.E); intros; now apply step12d_cell_keep.
  - apply (interior_cells_keep Gas.s); intros; now apply step12d_cell_keep.
Qed.

(** Claim C10.  A completed update changes neither dt, nor time, nor Phi.
    It stores to U only at interior cells, to B1i only at the faces
    i in [is, ie+1] of interior (k, j), to B2i only at j in [js, je+1], and
    to B3i only at k in [ks, ke+1]: every ghost cell state and every other
    face field is unchanged.  The grid is taken to have index ranges that
    are not inverted (is <= ie+1, js <= je+1, ks <= ke+1). *)
Theorem C10_frame cfg gl ext sc pG pD g' :
  (is_ pG <= ie pG + 1)%Z -> (js pG <= je pG + 1)%Z -> (ks pG <= ke pG + 1)%Z ->
  integrate_3d_ctu_update cfg gl ext sc pG pD = Some g' ->
  dt g' = dt pG /\ time g' = time pG /\ Phi g' = Phi pG /\
  (forall k j i, ~ interior pG k j i -> U g' k j i = U pG k j i) /\
  (forall k j i,
      ~ ((ks pG <= k <= ke pG)%Z /\ (js pG <= j <= je pG)%Z /\
         (is_ pG <= i <= ie pG + 1)%Z) ->
      B1i g' k j i = B1i pG k j i) /\
  (forall k j i,
      ~ ((ks pG <= k <= ke pG)%Z /\ (js pG <= j <= je pG + 1)%Z /\
         (is_ pG <= i <= ie pG)%Z) ->
      B2i g' k j i = B2i pG k j i) /\
  (forall k j i,
      ~ ((ks pG <= k <= ke pG + 1)%Z /\ (js pG <= j <= je pG)%Z /\
         (is_ pG <= i <= ie pG)%Z) ->
      B3i g' k j i = B3i pG k j i).
Proof.
  intros Wi Wj Wk Hrun.
  destruct (update_anatomy cfg gl ext sc pG pD g' Hrun)
    as (u1 & H11 & HU & H1 & H2 & H3 & HP & Hd & Ht).
  repeat split; auto.
  - intros k j i Hout. rewrite HU.
    assert (Ha : after_step12c cfg gl sc pG u1 k j i = U pG k j i).
    { rewrite after_step12c_outside by assumption.
      now apply (step11a_outside cfg gl ext sc pG (U pG) u1). }
    destruct (MHD cfg); auto. now rewrite interior_cells_out.
  - intros k j i Hout. rewrite H1. unfold step10.
    destruct (MHD cfg); auto. rewrite step10b_B1i.
    destruct (written_B1i pG k j i) eqn:E; auto. exfalso. apply Hout.
    unfold written_B1i in E.
    rewrite !andb_true_iff, orb_true_iff, !in_range_true, Z.eqb_eq in E. lia.
  - intros k j i Hout. rewrite H2. unfold step10.
    destruct (MHD cfg); auto. rewrite step10b_B2i.
    destruct (written_B2i pG k j i) eqn:E; auto. exfalso. apply Hout.
    unfold written_B2i in E.
    rewrite !andb_true_iff, orb_true_iff, !in_range_true, Z.eqb_eq in E. lia.
  - intros k j i Hout. rewrite H3. unfold step10.
    destruct (MHD cfg); auto. rewrite step10b_B3i.
    destruct (written_B3i pG k j i) eqn:E; auto. exfalso. apply Hout.
    unfold written_B3i in E.
    rewrite !andb_true_iff, orb_true_iff, !in_range_true, Z.eqb_eq in E. lia.
Qed.

Lemma update_divB cfg gl ext sc pG pD g' k j i :
  integrate_3d_ctu_update cfg gl ext sc pG pD = Some g' ->
  interior pG k j i ->
  divB g' k j i = divB pG k j i.
Proof.
  intros Hrun Hin.
  destruct (update_anatomy cfg gl ext sc pG pD g' Hrun)
    as (u1 & _ & _ & H1 & H2 & H3 & _).
  assert (Hx : dx1 g' = dx1 pG /\ dx2 g' = dx2 pG /\ dx3 g' = dx3 pG).
  { revert Hrun. unfold integrate_3d_ctu_update.
    destruct (step11a _ _ _ _ _ _); [|discriminate].
    intros Heq. injection Heq as Heq. subst g'.
    assert (D1 : dx1 (step10 cfg ext sc pG pD) = dx1 pG)
      by (apply (step10_frame cfg ext sc pG pD dx1); reflexivity).
    assert (D2 : dx2 (step10 cfg ext sc pG pD) = dx2 pG)
      by (apply (step10_frame cfg ext sc pG pD dx2); reflexivity).
    assert (D3 : dx3 (step10 cfg ext sc pG pD) = dx3 pG)
      by (apply (step10_frame cfg ext sc pG pD dx3); reflexivity).
    destruct (MHD cfg), (SELF_GRAVITY cfg); simpl; auto. }
  destruct Hx as (D1 & D2 & D3).
  unfold divB at 1. rewrite H1, H2, H3, D1, D2, D3.
  unfold step10. destruct (MHD cfg); [|reflexivity].
  match goal with
  | |- context [step10b pG ?a ?b ?c] =>
      pose proof (step10b_divergence pG a b c k j i Hin) as HC;
      set (e1 := a) in *; set (e2 := b) in *; set (e3 := c) in *
  end.
  cbv zeta in HC. destruct HC as (E1 & E2 & E3 & Hd & _).
  unfold divB at 1 in Hd. rewrite E1, E2, E3 in Hd. exact Hd.
Qed.

Ltac gas_simpl :=
  cbn [Gas.d Gas.M1 Gas.M2 Gas.M3 Gas.E Gas.B1c Gas.B2c Gas.B3c Gas.s
       Gas.set_d Gas.set_M1 Gas.set_M2 Gas.set_M3 Gas.set_E
       Gas.set_B1c Gas.set_B2c Gas.set_B3c Gas.set_s fst snd].

Lemma step11a_shear_cell_M1_M2 cfg gl ext sc pG phi k j i u :
  let x1 := fst (fst (cc_pos ext pG i j k)) in
  let om_dt := Omega gl * dt pG in
  let fact := om_dt / (1 + 0.25 * om_dt ^ 2) in
  let q1 := 0.5 * (dt pG / dx1 pG) in
  let q2 := 0.5 * (dt pG / dx2 pG) in
  let q3 := 0.5 * (dt pG / dx3 pG) in
  let TH_om := 3 / 2 * Omega gl in
  let F1 := x1Flux sc in
  let F2 := x2Flux sc in
  let F3 := x3Flux sc in
  let shear (x m : R) := if FARGO cfg then 0 else TH_om * x * m in
  let M1n := Gas.M1 u in
  let dM2n := if FARGO cfg then Gas.M2 u
              else Gas.M2 u + Gas.d u * TH_om * x1 in
  let M1e := M1n
             - q1 * (Cons1D.Mx (F1 k j (i+1)%Z) - Cons1D.Mx (F1 k j i))
             - q2 * (Cons1D.Mz (F2 k (j+1)%Z i) - Cons1D.Mz (F2 k j i))
             - q3 * (Cons1D.My (F3 (k+1)%Z j i) - Cons1D.My (F3 k j i)) in
  let dM2e := dM2n
    - q1 * ((Cons1D.My (F1 k j (i+1)%Z)
               + shear (x1 + 0.5 * dx1 pG) (Cons1D.d (F1 k j (i+1)%Z)))
            - (Cons1D.My (F1 k j i)
               + shear (x1 - 0.5 * dx1 pG) (Cons1D.d (F1 k j i))))
    - q2 * ((Cons1D.Mx (F2 k (j+1)%Z i) + shear x1 (Cons1D.d (F2 k (j+1)%Z i)))
            - (Cons1D.Mx (F2 k j i) + shear x1 (Cons1D.d (F2 k j i))))
    - q3 * ((Cons1D.Mz (F3 (k+1)%Z j i) + shear x1 (Cons1D.d (F3 (k+1)%Z j i)))
            - (Cons1D.Mz (F3 k j i) + shear x1 (Cons1D.d (F3 k j i)))) in
  let u' := step11a_shear_cell cfg gl ext sc pG phi k j i u in
  Gas.M1 u' = M1n + (2 * dM2e - 0.5 * om_dt * M1e) * fact /\
  Gas.M2 u' = Gas.M2 u - 0.5 * (M1e + om_dt * dM2e) * fact
              - (if FARGO cfg then 0
                 else 0.75 * om_dt * (Cons1D.d (F1 k j i)
                                      + Cons1D.d (F1 k j (i+1)%Z))).
Proof.
  intros x1 om_dt fact q1 q2 q3 TH_om F1 F2 F3 shear M1n dM2n M1e dM2e u'.
  subst u'. unfold step11a_shear_cell.
  subst x1. destruct (cc_pos ext pG i j k) as [[x1 x2] x3]. cbn [fst snd] in *.
  assert (Hf : Omega gl * dt pG / (1 + 0.25 * (Omega gl * dt pG) * (Omega gl * dt pG))
               = fact).
  { unfold fact, om_dt. f_equal. ring. }
  rewrite Hf. clearbody fact.
  subst dM2e M1e dM2n M1n shear TH_om q1 q2 q3 F1 F2 F3 om_dt.
  destruct (FARGO cfg), (BAROTROPIC cfg); gas_simpl; decimals; split;
    unfold Rdiv; ring.
Qed.

(** Claim C5.  With SHEARING_BOX enabled, the full-step Coriolis update of
    Step 11a turns the momenta of every interior cell into
      M1 + (2 dM2e - 0.5 Omega dt M1e) fact   and
      M2 - 0.5 (M1e + Omega dt dM2e) fact,
    with fact = Omega dt / (1 + 0.25 (Omega dt)^2), where M1e and dM2e are
    the forward-Euler dt/2 predictions from the second-sweep fluxes and
    dM2n = M2 + d (3/2) Omega x1 (dM2n = M2 under FARGO).  Without FARGO, and
    only then, M2 is decremented further by
    0.75 Omega dt (x1Flux[i].d + x1Flux[i+1].d).  The step produces its
    result whenever the potential callback is set. *)
Theorem C5_shearing_box_coriolis_update cfg gl ext sc pG u k j i :
  SHEARING_BOX cfg = true ->
  interior pG k j i ->
  let x1 := fst (fst (cc_pos ext pG i j k)) in
  let om_dt := Omega gl * dt pG in
  let fact := om_dt / (1 + 0.25 * om_dt ^ 2) in
  let q1 := 0.5 * (dt pG / dx1 pG) in
  let q2 := 0.5 * (dt pG / dx2 pG) in
  let q3 := 0.5 * (dt pG / dx3 pG) in
  let TH_om := 3 / 2 * Omega gl in
  let F1 := x1Flux sc in
  let F2 := x2Flux sc in
  let F3 := x3Flux sc in
  let shear (x m : R) := if FARGO cfg then 0 else TH_om * x * m in
  let M1n := Gas.M1 (u k j i) in
  let dM2n := if FARGO cfg then Gas.M2 (u k j i)
              else Gas.M2 (u k j i) + Gas.d (u k j i) * TH_om * x1 in
  let M1e := M1n
             - q1 * (Cons1D.Mx (F1 k j (i+1)%Z) - Cons1D.Mx (F1 k j i))
             - q2 * (Cons1D.Mz (F2 k (j+1)%Z i) - Cons1D.Mz (F2 k j i))
             - q3 * (Cons1D.My (F3 (k+1)%Z j i) - Cons1D.My (F3 k j i)) in
  let dM2e := dM2n
    - q1 * ((Cons1D.My (F1 k j (i+1)%Z)
               + shear (x1 + 0.5 * dx1 pG) (Cons1D.d (F1 k j (i+1)%Z)))
            - (Cons1D.My (F1 k j i)
               + shear (x1 - 0.5 * dx1 pG) (Cons1D.d (F1 k j i))))
    - q2 * ((Cons1D.Mx (F2 k (j+1)%Z i) + shear x1 (Cons1D.d (F2 k (j+1)%Z i)))
            - (Cons1D.Mx (F2 k j i) + shear x1 (Cons1D.d (F2 k j i))))
    - q3 * ((Cons1D.Mz (F3 (k+1)%Z j i) + shear x1 (Cons1D.d (F3 (k+1)%Z j i)))
            - (Cons1D.Mz (F3 k j i) + shear x1 (Cons1D.d (F3 k j i)))) in
  (forall u',
      step11a cfg gl ext sc pG u = Some u' ->
      Gas.M1 (u' k j i) = M1n + (2 * dM2e - 0.5 * om_dt * M1e) * fact /\
      Gas.M2 (u' k j i) =
        Gas.M2 (u k j i) - 0.5 * (M1e + om_dt * dM2e) * fact
        - (if FARGO cfg then 0
           else 0.75 * om_dt * (Cons1D.d (F1 k j i)
                                + Cons1D.d (F1 k j (i+1)%Z)))) /\
  (StaticGravPot gl <> None ->
   exists u', step11a cfg gl ext sc pG u = Some u').
Proof.
  intros HS Hin x1 om_dt fact q1 q2 q3 TH_om F1 F2 F3 shear M1n dM2n M1e dM2e.
  unfold step11a, step11a_shear. rewrite HS.
  assert (HI : has_interior pG = true).
  { unfold has_interior. destruct Hin as (Hk & Hj & Hi).
    rewrite !andb_true_iff, !Z.leb_le. lia. }
  split.
  - intros u'. destruct (StaticGravPot gl) as [phi|].
    + intros [= <-]. rewrite interior_cells_in by assumption.
      apply step11a_shear_cell_M1_M2.
    + rewrite HI. discriminate.
  - intros Hpot. destruct (StaticGravPot gl) as [phi|]; [|congruence].
    eexists. reflexivity.
Qed.

(** ** Corner EMFs *)

Ltac sign_cases :=
  repeat match goal with
  | |- context [Rgt_dec ?a ?b] => destruct (Rgt_dec a b)
  | |- context [Rlt_dec ?a ?b] => destruct (Rlt_dec a b)
  end.

Section Corner_facts.
Variables x1Flux x2Flux x3Flux : Arr3 Cons1D.t.
Variable emf_cc : Arr3 Real.

Let F := fluxes x1Flux x2Flux x3Flux.

Lemma emf1_corner_value_gs k j i :
  emf1_corner_value x2Flux x3Flux emf_cc k j i = gs_corner X1 F emf_cc (k, j, i).
Proof.
  unfold emf1_corner_value, gs_corner, upwind, F, fluxes, at_pos, back, next.
  sign_cases; lra.
Qed.

Lemma emf2_corner_value_gs k j i :
  emf2_corner_value x1Flux x3Flux emf_cc k j i = gs_corner X2 F emf_cc (k, j, i).
Proof.
  unfold emf2_corner_value, gs_corner, upwind, F, fluxes, at_pos, back, next.
  sign_cases; lra.
Qed.

Lemma emf3_corner_value_gs k j i :
  emf3_corner_value x1Flux x2Flux emf_cc k j i = gs_corner X3 F emf_cc (k, j, i).
Proof.
  unfold emf3_corner_value, gs_corner, upwind, F, fluxes, at_pos, back, next.
  sign_cases; lra.
Qed.
End Corner_facts.

(** Claim C3.  Each of integrate_emf1_corner, integrate_emf2_corner and
    integrate_emf3_corner stores, at every corner of its loop ranges (and
    nowhere else), the Gardiner-Stone value [gs_corner]: 0.25 times the sum
    of the four sign-corrected face-flux EMFs around the edge and of the four
    upwind differences, each of which is picked by the sign of the mass flux
    across the adjacent face (positive: left value minus left cell-centred
    EMF; negative: right value minus right cell-centred EMF; zero: the mean
    of the two).  The three routines are the one formula under the cyclic
    permutation of the axes. *)
Theorem C3_corner_emf_upwind x1Flux x2Flux x3Flux emf1_cc emf2_cc emf3_cc
    pG emf1 emf2 emf3 k j i :
  let F := fluxes x1Flux x2Flux x3Flux in
  integrate_emf1_corner x2Flux x3Flux emf1_cc pG emf1 k j i =
    (if in_box (ks pG - 1) (ke pG + 2) (js pG - 1) (je pG + 2)
               (is_ pG - 2) (ie pG + 2) k j i
     then gs_corner X1 F emf1_cc (k, j, i) else emf1 k j i) /\
  integrate_emf2_corner x1Flux x3Flux emf2_cc pG emf2 k j i =
    (if in_box (ks pG - 1) (ke pG + 2) (js pG - 2) (je pG + 2)
               (is_ pG - 1) (ie pG + 2) k j i
     then gs_corner X2 F emf2_cc (k, j, i) else emf2 k j i) /\
  integrate_emf3_corner x1Flux x2Flux emf3_cc pG emf3 k j i =
    (if in_box (ks pG - 2) (ke pG + 2) (js pG - 1) (je pG + 2)
               (is_ pG - 1) (ie pG + 2) k j i
     then gs_corner X3 F emf3_cc (k, j, i) else emf3 k j i).
Proof.
  intros F.
  unfold integrate_emf1_corner, integrate_emf2_corner, integrate_emf3_corner.
  rewrite !cellwise_spec.
  rewrite (emf1_corner_value_gs x1Flux x2Flux x3Flux),
          (emf2_corner_value_gs x1Flux x2Flux x3Flux),
          (emf3_corner_value_gs x1Flux x2Flux x3Flux).
  repeat split; reflexivity.
Qed.

(** ** Source terms of the sweeps *)

Lemma lr_loop_Wl lo hi fl fr st i :
  Wl (lr_loop lo hi fl fr st) i =
    if in_range lo hi i then fl i (Wl st i) else Wl st i.
Proof.
  unfold lr_loop.
  apply (for_loop_obs (fun s : LR => Wl s i) _ i (fl i)).
  - intros i' s Hi Hne. simpl. now apply upd1_other.
  - intros s Hi. simpl. apply upd1_same.
Qed.

Lemma lr_loop_Wr lo hi fl fr st i :
  Wr (lr_loop lo hi fl fr st) i =
    if in_range lo hi i then fr i (Wr st i) else Wr st i.
Proof.
  unfold lr_loop.
  apply (for_loop_obs (fun s : LR => Wr s i) _ i (fr i)).
  - intros i' s Hi Hne. simpl. now apply upd1_other.
  - intros s Hi. simpl. apply upd1_same.
Qed.

(** The two-step selection of the source is the clipped min/max. *)
Lemma limiter_nonneg a b :
  a >= 0 ->
  (let l := if Rlt_dec a (- b) then a else - b in
   if Rgt_dec l 0 then l else 0) = limited a b.
Proof.
  intros Ha. unfold limited, Rmax, Rmin. cbv zeta.
  destruct (Rle_dec 0 a); [|lra].
  destruct (Rlt_dec a (- b)), (Rle_dec a (- b)); try lra;
    repeat match goal with
    | |- context [Rgt_dec ?x ?y] => destruct (Rgt_dec x y)
    | |- context [Rle_dec ?x ?y] => destruct (Rle_dec x y)
    end; lra.
Qed.

Lemma limiter_neg a b :
  ~ a >= 0 ->
  (let l := if Rgt_dec a (- b) then a else - b in
   if Rlt_dec l 0 then l else 0) = limited a b.
Proof.
  intros Ha. unfold limited, Rmax, Rmin. cbv zeta.
  destruct (Rle_dec 0 a); [lra|].
  destruct (Rgt_dec a (- b)), (Rle_dec a (- b)); try lra;
    repeat match goal with
    | |- context [Rlt_dec ?x ?y] => destruct (Rlt_dec x y)
    | |- context [Rle_dec ?x ?y] => destruct (Rle_dec x y)
    end; lra.
Qed.

Ltac limiter :=
  match goal with
  | |- context [Rge_dec ?a 0] =>
      destruct (Rge_dec a 0) as [Hge|Hge];
      [ rewrite !(limiter_nonneg a) by exact Hge
      | rewrite !(limiter_neg a) by exact Hge ]
  end.

Section Sweep_facts.
Variable pG : Grid.

Lemma step1b_src_left_spec k j i :
  step1b_src_left pG k j i =
    (vel pG X2 k j (i-1) * limited (db pG X1 k j (i-1)) (db pG X2 k j (i-1)),
     vel pG X3 k j (i-1) * limited (db pG X1 k j (i-1)) (db pG X3 k j (i-1))).
Proof.
  unfold step1b_src_left, vel, db.
  replace (i - 1 + 1)%Z with i by lia.
  limiter; reflexivity.
Qed.

Lemma step1b_src_right_spec k j i :
  step1b_src_right pG k j i =
    (vel pG X2 k j i * limited (db pG X1 k j i) (db pG X2 k j i),
     vel pG X3 k j i * limited (db pG X1 k j i) (db pG X3 k j i)).
Proof. unfold step1b_src_right, vel, db. limiter; reflexivity. Qed.

Lemma step2b_src_left_spec k i j :
  step2b_src_left pG k i j =
    (vel pG X3 k (j-1) i * limited (db pG X2 k (j-1) i) (db pG X3 k (j-1) i),
     vel pG X1 k (j-1) i * limited (db pG X2 k (j-1) i) (db pG X1 k (j-1) i)).
Proof.
  unfold step2b_src_left, vel, db.
  replace (j - 1 + 1)%Z with j by lia.
  limiter; reflexivity.
Qed.

Lemma step2b_src_right_spec k i j :
  step2b_src_right pG k i j =
    (vel pG X3 k j i * limited (db pG X2 k j i) (db pG X3 k j i),
     vel pG X1 k j i * limited (db pG X2 k j i) (db pG X1 k j i)).
Proof. unfold step2b_src_right, vel, db. limiter; reflexivity. Qed.

Lemma step3b_src_left_spec j i k :
  step3b_src_left pG j i k =
    (vel pG X1 (k-1) j i * limited (db pG X3 (k-1) j i) (db pG X1 (k-1) j i),
     vel pG X2 (k-1) j i * limited (db pG X3 (k-1) j i) (db pG X2 (k-1) j i)).
Proof.
  unfold step3b_src_left, vel, db.
  replace (k - 1 + 1)%Z with k by lia.
  limiter; reflexivity.
Qed.

Lemma step3b_src_right_spec j i k :
  step3b_src_right pG j i k =
    (vel pG X1 k j i * limited (db pG X3 k j i) (db pG X1 k j i),
     vel pG X2 k j i * limited (db pG X3 k j i) (db pG X2 k j i)).
Proof. unfold step3b_src_right, vel, db. limiter; reflexivity. Qed.
End Sweep_facts.

Ltac prim_simpl :=
  cbn [Prim1D.d Prim1D.Vx Prim1D.Vy Prim1D.Vz Prim1D.P Prim1D.By Prim1D.Bz
       Prim1D.s Prim1D.set_Vx Prim1D.set_Vy Prim1D.set_P Prim1D.set_By
       Prim1D.set_Bz fst snd].

Lemma add_mhd_src_By pG src w :
  Prim1D.By (add_mhd_src pG src w) = Prim1D.By w + dt pG / 2 * fst src.
Proof. unfold add_mhd_src. prim_simpl. lra. Qed.

Lemma add_mhd_src_Bz pG src w :
  Prim1D.Bz (add_mhd_src pG src w) = Prim1D.Bz w + dt pG / 2 * snd src.
Proof. unfold add_mhd_src. prim_simpl. lra. Qed.

(** Claim C4.  In the MHD source loop of the sweep along d, at every
    interface f of the sweep, Wl[f] (from cell f-1) and Wr[f] (from cell f)
    receive By += (dt/2) (M_t1/d) l_t1 and Bz += (dt/2) (M_t2/d) l_t2, where
    t1 and t2 are the next two axes in cyclic order (x1 sweep: M2 l2 and
    M3 l3; x2 sweep: M3 l3 and M1 l1; x3 sweep: M1 l1 and M2 l2) and
    l_t = [limited (db_d) (db_t)]: min(db_d, -db_t) clipped below by 0 when
    db_d >= 0, max(db_d, -db_t) clipped above by 0 when db_d < 0. *)
Theorem C4_mhd_source_limiter pG d a b st f :
  (sweep_lo pG d <= f <= sweep_hi pG d)%Z ->
  let cl := pencil_cell d a b (f - 1) in
  let cr := pencil_cell d a b f in
  let t1 := next d in
  let t2 := next (next d) in
  let l c t := limited (db_at pG d c) (db_at pG t c) in
  let st' := mhd_source_loop pG d a b st in
  Prim1D.By (Wl st' f) =
    Prim1D.By (Wl st f) + dt pG / 2 * (vel_at pG t1 cl * l cl t1) /\
  Prim1D.Bz (Wl st' f) =
    Prim1D.Bz (Wl st f) + dt pG / 2 * (vel_at pG t2 cl * l cl t2) /\
  Prim1D.By (Wr st' f) =
    Prim1D.By (Wr st f) + dt pG / 2 * (vel_at pG t1 cr * l cr t1) /\
  Prim1D.Bz (Wr st' f) =
    Prim1D.Bz (Wr st f) + dt pG / 2 * (vel_at pG t2 cr * l cr t2).
Proof.
  intros Hf cl cr t1 t2 l st'.
  assert (Hr : in_range (sweep_lo pG d) (sweep_hi pG d) f = true)
    by now apply in_range_true.
  subst st' cl cr t1 t2 l.
  destruct d; unfold mhd_source_loop, sweep_lo, sweep_hi in *;
    unfold step1b_mhd, step2b_mhd, step3b_mhd;
    rewrite !lr_loop_Wl, !lr_loop_Wr, Hr;
    rewrite !add_mhd_src_By, !add_mhd_src_Bz;
    rewrite ?step1b_src_left_spec, ?step1b_src_right_spec,
            ?step2b_src_left_spec, ?step2b_src_right_spec,
            ?step3b_src_left_spec, ?step3b_src_right_spec;
    cbn [fst snd pencil_cell next db_at vel_at];
    repeat split; reflexivity.
Qed.

Section Shear_facts.
Variable cfg : Config.
Variable gl : Globals.
Variable ext : Extern.
Variable pG : Grid.

(** Everything before the shearing-box loop ignores the switch. *)
Lemma step1bc_shear_on a b W st :
  SHEARING_BOX cfg = true ->
  step1bc cfg gl ext pG a b W st =
    step1c_shear cfg gl pG W
      (step1bc (without_shearing_box cfg) gl ext pG a b W st).
Proof.
  intros HS. unfold step1bc, without_shearing_box. simpl. now rewrite HS.
Qed.

Lemma step2bc_no_shear a b W st :
  step2bc cfg gl ext pG a b W st =
    step2bc (without_shearing_box cfg) gl ext pG a b W st.
Proof. reflexivity. Qed.

Lemma step3bc_no_shear a b W st :
  step3bc cfg gl ext pG a b W st =
    step3bc (without_shearing_box cfg) gl ext pG a b W st.
Proof. reflexivity. Qed.
End Shear_facts.

(** Claim C7, amended.  With the shearing box enabled only the x1 sweep adds
    the Coriolis half-step source to the reconstructed states:
    Wl[f].Vx += dt Omega W[f-1].Vy and Wl[f].Vy -= c dt Omega W[f-1].Vx with
    c = 1 (c = 0.25 under FARGO), and the same for Wr[f] from cell f.  The
    source phases of the x2 and x3 sweeps are the same with the shearing box
    on and off. *)
Theorem C7_shearing_source_only_in_x1_sweep cfg gl ext pG a b W st f :
  SHEARING_BOX cfg = true ->
  (is_ pG - 1 <= f <= ie pG + 2)%Z ->
  let off := without_shearing_box cfg in
  let c := if FARGO cfg then 0.25 else 1 in
  let s1 := sweep_sources cfg gl ext pG X1 a b W st in
  let s1_off := sweep_sources off gl ext pG X1 a b W st in
  (Prim1D.Vx (Wl s1 f) =
     Prim1D.Vx (Wl s1_off f) + dt pG * Omega gl * Prim1D.Vy (W (f-1)%Z) /\
   Prim1D.Vy (Wl s1 f) =
     Prim1D.Vy (Wl s1_off f) - c * dt pG * Omega gl * Prim1D.Vx (W (f-1)%Z) /\
   Prim1D.Vx (Wr s1 f) =
     Prim1D.Vx (Wr s1_off f) + dt pG * Omega gl * Prim1D.Vy (W f) /\
   Prim1D.Vy (Wr s1 f) =
     Prim1D.Vy (Wr s1_off f) - c * dt pG * Omega gl * Prim1D.Vx (W f)) /\
  sweep_sources cfg gl ext pG X2 a b W st =
    sweep_sources off gl ext pG X2 a b W st /\
  sweep_sources cfg gl ext pG X3 a b W st =
    sweep_sources off gl ext pG X3 a b W st.
Proof.
  intros HS Hf off c s1 s1_off.
  assert (Hr : in_range (is_ pG - 1) (ie pG + 2) f = true)
    by now apply in_range_true.
  split; [|split; [apply step2bc_no_shear | apply step3bc_no_shear]].
  subst s1 s1_off off. unfold sweep_sources.
  rewrite step1bc_shear_on by assumption.
  set (base := step1bc (without_shearing_box cfg) gl ext pG a b W st).
  unfold step1c_shear. rewrite !lr_loop_Wl, !lr_loop_Wr, Hr.
  subst c. destruct (FARGO cfg); prim_simpl; repeat split; lra.
Qed.

(** ** H-correction *)

Lemma is_max_of_single a : is_max_of a [a].
Proof.
  split; [now left|]. intros x [<-|[]]. lra.
Qed.

Lemma MAX_is_max m l x : is_max_of m l -> is_max_of (MAX m x) (x :: l).
Proof.
  intros [Hin Hub]. unfold MAX. destruct (Rgt_dec m x) as [Hgt|Hle]; split.
  - now right.
  - intros y [<-|Hy]; [lra | now apply Hub].
  - now left.
  - intros y [<-|Hy]; [lra|]. specialize (Hub y Hy). lra.
Qed.

Lemma is_max_of_same_elements m l l' :
  (forall y, In y l <-> In y l') -> is_max_of m l -> is_max_of m l'.
Proof.
  intros H [Hin Hub]. split.
  - now apply H.
  - intros y Hy. apply Hub. now apply H.
Qed.

Lemma etah_is_max eta1 eta2 eta3 d p :
  is_max_of (etah_of eta1 eta2 eta3 d p) (nine_etas (etas eta1 eta2 eta3) d p).
Proof.
  destruct p as [[k j] i].
  destruct d; cbn [etah_of]; unfold etah_x1, etah_x2, etah_x3; cbv zeta;
    (eapply is_max_of_same_elements;
     [| do 8 apply MAX_is_max; apply is_max_of_single]);
    intros y; unfold nine_etas, bracket4, etas, at_pos, back, fwd, next;
    simpl; tauto.
Qed.

(** ** integrate_init_3d *)

Lemma set_ptr_same st sl p : set_ptr st sl p sl = p.
Proof. unfold set_ptr. destruct (slot_eq_dec sl sl); congruence. Qed.

Lemma set_ptr_other st sl p sl' : sl' <> sl -> set_ptr st sl p sl' = st sl'.
Proof. intros. unfold set_ptr. destruct (slot_eq_dec sl' sl); congruence. Qed.

(** Freeing never revives a block. *)
Lemma free_all_keeps_dead sls : forall st x,
  is_live (st x) = false -> is_live (free_all sls st x) = false.
Proof.
  induction sls as [|sl rest IH]; intros st x Hx; simpl; auto.
  apply IH. destruct (st sl) as [|lv sh] eqn:E; auto.
  destruct (slot_eq_dec x sl) as [->|Hne].
  - now rewrite set_ptr_same.
  - now rewrite set_ptr_other.
Qed.

Lemma free_all_frees sls : forall st x,
  In x sls -> is_live (free_all sls st x) = false.
Proof.
  induction sls as [|sl rest IH]; intros st x Hin; simpl; [contradiction|].
  destruct Hin as [->|Hin]; [|now apply IH].
  apply free_all_keeps_dead.
  destruct (st x) as [|lv sh] eqn:E.
  - now rewrite E.
  - now rewrite set_ptr_same.
Qed.

(** The pointers after a run of requests: untouched, or one of the
    requested ones. *)
Lemma alloc_all_touches fails reqs : forall n st ok st' x,
  alloc_all fails reqs n st = (ok, st') ->
  st' x = st x \/ In x (map fst reqs).
Proof.
  induction reqs as [|[sl sh] rest IH]; intros n st ok st' x H; simpl in *.
  - injection H as _ <-. now left.
  - destruct (fails n).
    + injection H as _ <-.
      destruct (slot_eq_dec x sl) as [->|Hne]; [right; now left|].
      left. now apply set_ptr_other.
    + destruct (IH _ _ _ _ x H) as [Hx|Hx]; [|right; now right].
      destruct (slot_eq_dec x sl) as [->|Hne]; [right; now left|].
      left. rewrite Hx. now apply set_ptr_other.
Qed.

(** A failing request within the list sends control to on_error. *)
Lemma alloc_all_fails fails reqs : forall c st n,
  fails n = true -> (c <= n < c + List.length reqs)%nat ->
  fst (alloc_all fails reqs c st) = false.
Proof.
  induction reqs as [|[sl sh] rest IH]; intros c st n Hn Hr; simpl in *; [lia|].
  destruct (fails c) eqn:E; [reflexivity|].
  apply (IH _ _ n); auto.
  assert (c <> n) by congruence. lia.
Qed.

(** With no failing request every pointer of the list gets its block. *)
Lemma alloc_all_succeeds fails reqs : forall c st,
  (forall n, (c <= n < c + List.length reqs)%nat -> fails n = false) ->
  NoDup (map fst reqs) ->
  exists st', alloc_all fails reqs c st = (true, st') /\
              (forall sl sh, In (sl, sh) reqs -> st' sl = Block true sh) /\
              (forall sl, ~ In sl (map fst reqs) -> st' sl = st sl).
Proof.
  induction reqs as [|[sl sh] rest IH]; intros c st Hok Hnd; simpl in *.
  - exists st. repeat split; auto. intros ? ? [].
  - rewrite (Hok c) by lia.
    inversion Hnd as [|? ? Hnotin Hnd']; subst.
    destruct (IH (Datatypes.S c) (set_ptr st sl (Block true sh))) as (st' & Hrun & Hin & Hout).
    + intros n Hn. apply Hok. lia.
    + assumption.
    + exists st'. split; [assumption|]. split.
      * intros sl' sh' [Heq|Hin']; [|now apply Hin].
        injection Heq as <- <-. rewrite Hout by assumption. apply set_ptr_same.
      * intros sl' Hn'. rewrite Hout by tauto.
        apply set_ptr_other. intro; subst; tauto.
Qed.

Section Init_facts.
Variable cfg : Config.
Variable gl : Globals.
Variables nx1 nx2 nx3 : Z.

Lemma init_requests_3d sl n3 n2 n1 e :
  In (sl, Shape3 n3 n2 n1 e) (init_requests cfg gl nx1 nx2 nx3) ->
  (n3 = nx3 + 2 * nghost gl /\ n2 = nx2 + 2 * nghost gl /\
   n1 = nx1 + 2 * nghost gl)%Z.
Proof.
  unfold init_requests. cbv zeta.
  rewrite !in_app_iff.
  destruct (MHD cfg), (H_CORRECTION cfg), (SHEARING_BOX cfg),
           (StaticGravPot gl), (CoolingFunc gl); simpl;
    intros H; decompose [or] H; clear H;
    try contradiction; try discriminate;
    match goal with
    | H : (_, _) = (_, _) |- _ => injection H; intros; subst; auto
    end.
Qed.

Lemma init_requests_nodup :
  NoDup (map fst (init_requests cfg gl nx1 nx2 nx3)).
Proof.
  unfold init_requests. cbv zeta.
  destruct (MHD cfg), (H_CORRECTION cfg), (SHEARING_BOX cfg),
           (StaticGravPot gl), (CoolingFunc gl); simpl;
    repeat (constructor; [simpl; intuition discriminate|]); constructor.
Qed.

Lemma init_requests_destructed sl :
  In sl (map fst (init_requests cfg gl nx1 nx2 nx3)) ->
  In sl (destruct_slots cfg).
Proof.
  unfold init_requests, destruct_slots. cbv zeta.
  destruct (MHD cfg), (H_CORRECTION cfg), (SHEARING_BOX cfg),
           (StaticGravPot gl), (CoolingFunc gl); simpl;
    intros H; decompose [or] H; clear H; subst; try contradiction; tauto.
Qed.

Lemma init_success fails :
  (forall n, (n < List.length (init_requests cfg gl nx1 nx2 nx3))%nat ->
             fails n = false) ->
  exists st',
    integrate_init_3d cfg gl fails nx1 nx2 nx3 statics_init = Returned st' /\
    forall sl sh, In (sl, sh) (init_requests cfg gl nx1 nx2 nx3) ->
                  st' sl = Block true sh.
Proof.
  intros Hok.
  destruct (alloc_all_succeeds fails (init_requests cfg gl nx1 nx2 nx3)
              0%nat statics_init) as (st' & Hrun & Hin & _).
  - intros n Hn. apply Hok. lia.
  - apply init_requests_nodup.
  - exists st'. unfold integrate_init_3d. rewrite Hrun. auto.
Qed.

Lemma init_failure fails n :
  fails n = true ->
  (n < List.length (init_requests cfg gl nx1 nx2 nx3))%nat ->
  exists st',
    integrate_init_3d cfg gl fails nx1 nx2 nx3 statics_init
      = Exited init_error_message st' /\
    forall sl, is_live (st' sl) = false.
Proof.
  intros Hn Hlt. unfold integrate_init_3d.
  pose proof (alloc_all_fails fails (init_requests cfg gl nx1 nx2 nx3)
                0%nat statics_init n Hn) as Hf.
  destruct (alloc_all fails (init_requests cfg gl nx1 nx2 nx3) 0 statics_init)
    as [ok st1] eqn:Hrun.
  simpl in Hf. rewrite Hf by lia.
  eexists. split; [reflexivity|].
  intros sl. unfold integrate_destruct, integrate_destruct_3d.
  destruct (alloc_all_touches _ _ _ _ _ _ sl Hrun) as [Hsame|Hreq].
  - apply free_all_keeps_dead. now rewrite Hsame.
  - apply free_all_frees. now apply init_requests_destructed.
Qed.
End Init_facts.

(** Claim C9, amended.  integrate_init_3d requests every 3D scratch array
    with the dimensions (nx3+2 nghost) x (nx2+2 nghost) x (nx1+2 nghost).
    If no request fails it returns with every requested array allocated.  If
    a request fails, it frees every array allocated so far and aborts in
    ath_error with the fixed message
    "[integrate_init]: malloc returned a NULL pointer"; it does not return. *)
Theorem C9_init_allocation_failure_is_fatal cfg gl nx1 nx2 nx3 fails :
  let reqs := init_requests cfg gl nx1 nx2 nx3 in
  (forall sl n3 n2 n1 e,
      In (sl, Shape3 n3 n2 n1 e) reqs ->
      (n3 = nx3 + 2 * nghost gl /\ n2 = nx2 + 2 * nghost gl /\
       n1 = nx1 + 2 * nghost gl)%Z) /\
  ((forall n, (n < List.length reqs)%nat -> fails n = false) ->
   exists st',
     integrate_init_3d cfg gl fails nx1 nx2 nx3 statics_init = Returned st' /\
     forall sl sh, In (sl, sh) reqs -> st' sl = Block true sh) /\
  (forall n,
      fails n = true -> (n < List.length reqs)%nat ->
      exists st',
        integrate_init_3d cfg gl fails nx1 nx2 nx3 statics_init
          = Exited init_error_message st' /\
        (forall sl, is_live (st' sl) = false) /\
        (forall st'', integrate_init_3d cfg gl fails nx1 nx2 nx3 statics_init
                      <> Returned st'')).
Proof.
  intros reqs. split; [|split].
  - intros. eapply init_requests_3d; eauto.
  - apply init_success.
  - intros n Hn Hlt.
    destruct (init_failure cfg gl nx1 nx2 nx3 fails n Hn Hlt) as (st' & Hrun & Hdead).
    exists st'. repeat split; auto.
    intros st''. rewrite Hrun. discriminate.
Qed.

(** Claim C1.  For every interior cell the full-step constrained-transport
    update of the face fields (Step 10b) leaves the discrete divergence
    (B1i[i+1]-B1i[i])/dx1 + (B2i[j+1]-B2i[j])/dx2 + (B3i[k+1]-B3i[k])/dx3
    unchanged, whatever the corner EMF arrays hold; so a cell that is
    divergence-free before the step is divergence-free after it.  The same
    holds between the grid on entry to the update and the grid it returns,
    since nothing after Step 10b stores to the face fields. *)
Theorem C1_divergence_preserved pG k j i :
  interior pG k j i ->
  (forall emf1 emf2 emf3,
      let pG' := step10b pG emf1 emf2 emf3 in
      divB pG' k j i = divB pG k j i /\
      (divB pG k j i = 0 -> divB pG' k j i = 0)) /\
  (forall cfg gl ext sc pD g',
      integrate_3d_ctu_update cfg gl ext sc pG pD = Some g' ->
      divB g' k j i = divB pG k j i /\
      (divB pG k j i = 0 -> divB g' k j i = 0)).
Proof.
  intros Hin. split.
  - intros emf1 emf2 emf3 pG'.
    destruct (step10b_divergence pG emf1 emf2 emf3 k j i Hin)
      as (_ & _ & _ & Hd & H0). now split.
  - intros cfg gl ext sc pD g' Hrun.
    pose proof (update_divB cfg gl ext sc pG pD g' k j i Hrun Hin) as Hd.
    split; [assumption|]. intros H0. now rewrite Hd.
Qed.

Lemma ex_interior : interior ex_grid 0 1 0.
Proof. unfold interior; simpl; lia. Qed.

Lemma C1_witness :
  interior ex_grid 0 1 0 /\
  divB (step10b ex_grid ex_emf ex_emf ex_emf) 0 1 0 = divB ex_grid 0 1 0.
Proof.
  split; [exact ex_interior|].
  exact (proj1 (proj1 (C1_divergence_preserved ex_grid 0 1 0 ex_interior)
                  ex_emf ex_emf ex_emf)).
Defined.

Lemma C2_witness :
  MHD ex_cfg_mhd = true /\
  interior ex_grid 0 1 0 /\
  exists g',
    integrate_3d_ctu_update ex_cfg_mhd ex_globals ex_extern ex_scratch_flux
      ex_grid ex_domain = Some g' /\
    Gas.B1c (U g' 0 1 0) = 0.5 * (B1i g' 0 1 0 + B1i g' 0 1 1) /\
    B1i g' = B1i (step10 ex_cfg_mhd ex_extern ex_scratch_flux ex_grid
                         ex_domain).
Proof.
  split; [reflexivity|]. split; [exact ex_interior|].
  eexists. split; [reflexivity|].
  destruct (C2_cell_centred_field_is_face_average
              ex_cfg_mhd ex_globals ex_extern ex_scratch_flux ex_grid
              ex_domain _ 0 1 0 eq_refl eq_refl ex_interior)
    as (H1 & _ & _ & u1 & g & _ & _ & G1 & _ & _ & _ & E1 & _).
  split; [exact H1|]. exact (eq_trans E1 G1).
Defined.

Lemma C4_witness :
  (sweep_lo ex_grid X2 <= 0 <= sweep_hi ex_grid X2)%Z /\
  Prim1D.By (Wl (mhd_source_loop ex_grid X2 0 0 ex_lr) 0) =
    Prim1D.By (Wl ex_lr 0)
    + dt ex_grid / 2 *
      (vel_at ex_grid X3 (0, -1, 0)%Z *
       limited (db_at ex_grid X2 (0, -1, 0)%Z) (db_at ex_grid X3 (0, -1, 0)%Z)).
Proof.
  assert (Hr : (sweep_lo ex_grid X2 <= 0 <= sweep_hi ex_grid X2)%Z)
    by (simpl; lia).
  split; [exact Hr|].
  exact (proj1 (C4_mhd_source_limiter ex_grid X2 0 0 ex_lr 0 Hr)).
Defined.

Lemma C5_witness :
  SHEARING_BOX ex_cfg_shear = true /\
  interior ex_grid 0 1 0 /\
  exists u',
    step11a ex_cfg_shear ex_globals_pot ex_extern ex_scratch ex_grid
            (U ex_grid) = Some u' /\
    Gas.M1 (u' 0 1 0)%Z = 0 /\ Gas.M2 (u' 0 1 0)%Z = - (1 / 2).
Proof.
  split; [reflexivity|]. split; [exact ex_interior|].
  destruct (C5_shearing_box_coriolis_update
              ex_cfg_shear ex_globals_pot ex_extern ex_scratch ex_grid
              (U ex_grid) 0 1 0 eq_refl ex_interior)
    as (Hform & Hruns).
  destruct Hruns as (u' & Hrun); [discriminate|].
  destruct (Hform u' Hrun) as (HM1 & HM2).
  exists u'. split; [exact Hrun|].
  cbn [ex_cfg_shear FARGO ex_globals_pot Omega ex_grid dt dx1 dx2 dx3 U
       ex_scratch x1Flux x2Flux x3Flux ex_cons ex_gas ex_extern cc_pos
       Gas.d Gas.M1 Gas.M2 Cons1D.d Cons1D.Mx Cons1D.My Cons1D.Mz fst snd]
    in HM1, HM2.
  rewrite HM1, HM2. decimals. split; field.
Defined.

Lemma C7_witness :
  SHEARING_BOX ex_cfg_shear = true /\
  (is_ ex_grid - 1 <= 0 <= ie ex_grid + 2)%Z /\
  Prim1D.Vx (Wl (sweep_sources ex_cfg_shear ex_globals ex_extern ex_grid
                   X1 0 0 (fun _ => ex_prim) ex_lr) 0) =
    Prim1D.Vx (Wl (sweep_sources (without_shearing_box ex_cfg_shear)
                     ex_globals ex_extern ex_grid
                     X1 0 0 (fun _ => ex_prim) ex_lr) 0)
    + dt ex_grid * Omega ex_globals * Prim1D.Vy ex_prim.
Proof.
  assert (Hr : (is_ ex_grid - 1 <= 0 <= ie ex_grid + 2)%Z) by (simpl; lia).
  split; [reflexivity|]. split; [exact Hr|].
  exact (proj1 (proj1 (C7_shearing_source_only_in_x1_sweep
           ex_cfg_shear ex_globals ex_extern ex_grid 0 0
           (fun _ => ex_prim) ex_lr 0 eq_refl Hr))).
Defined.

(** The claim as stated, that every sweep direction adds the Coriolis
    source, fails for the x2 sweep. *)
Lemma C7_counterexample :
  ~ (forall d : axis,
        Prim1D.Vx (Wl (sweep_sources ex_cfg_shear ex_globals ex_extern ex_grid
                         d 0 0 (fun _ => ex_prim) ex_lr) 0) =
        Prim1D.Vx (Wl (sweep_sources (without_shearing_box ex_cfg_shear)
                         ex_globals ex_extern ex_grid
                         d 0 0 (fun _ => ex_prim) ex_lr) 0)
        + dt ex_grid * Omega ex_globals * Prim1D.Vy ex_prim).
Proof.
  intros H. specialize (H X2).
  cbn [sweep_sources step2bc ex_cfg_shear without_shearing_box MHD BAROTROPIC
       SELF_GRAVITY ex_globals StaticGravPot CoolingFunc Omega
       ex_grid dt ex_lr Wl ex_prim Prim1D.Vx Prim1D.Vy] in H.
  lra.
Qed.



Lemma C10_witness :
  exists g',
    integrate_3d_ctu_update ex_cfg_mhd ex_globals ex_extern ex_scratch
      ex_grid ex_domain = Some g' /\
    dt g' = dt ex_grid /\ U g' 0 1 2 = U ex_grid 0 1 2.
Proof.
  eexists. split; [reflexivity|].
  assert (H : (is_ ex_grid <= ie ex_grid + 1)%Z /\
              (js ex_grid <= je ex_grid + 1)%Z /\
              (ks ex_grid <= ke ex_grid + 1)%Z) by (simpl; lia).
  destruct H as (Hi & Hj & Hk).
  destruct (C10_frame ex_cfg_mhd ex_globals ex_extern ex_scratch ex_grid
              ex_domain _ Hi Hj Hk eq_refl) as (Hdt & _ & _ & HU & _).
  split; [exact Hdt|].
  apply HU. unfold interior. simpl. lia.
Defined.

(** The failure of the first request and the failure of the second request
    give the same diagnostic: it does not tell which allocation failed. *)
Lemma C9_counterexample :
  ~ message_identifies_failed_allocation ex_cfg_mhd ex_globals 2 2 2.
Proof.
  intros [failed_of H].
  assert (L : (1 < List.length (init_requests ex_cfg_mhd ex_globals 2 2 2))%nat)
    by (simpl; lia).
  destruct (init_failure ex_cfg_mhd ex_globals 2 2 2 (fun n => Nat.eqb n 0) 0)
    as (st0 & R0 & _); [reflexivity | lia |].
  destruct (init_failure ex_cfg_mhd ex_globals 2 2 2 (fun n => Nat.eqb n 1) 1)
    as (st1 & R1 & _); [reflexivity | lia |].
  assert (E0 : failed_of (init_error_message) = 0%nat).
  { apply (H (fun n => Nat.eqb n 0) 0%nat _ st0); [| lia | exact R0].
    split; [reflexivity | intros m Hm; lia]. }
  assert (E1 : failed_of (init_error_message) = 1%nat).
  { apply (H (fun n => Nat.eqb n 1) 1%nat _ st1); [| lia | exact R1].
    split; [reflexivity|]. intros m Hm. destruct m; [reflexivity | lia]. }
  congruence.
Qed.

Lemma C9_witness :
  (3 < List.length (init_requests ex_cfg_mhd ex_globals 2 2 2))%nat /\
  exists st',
    integrate_init_3d ex_cfg_mhd ex_globals (fun n => Nat.eqb n 3) 2 2 2
      statics_init = Exited init_error_message st' /\
    is_live (st' p_emf1) = false.
Proof.
  assert (L : (3 < List.length (init_requests ex_cfg_mhd ex_globals 2 2 2))%nat)
    by (simpl; lia).
  split; [exact L|].
  destruct (proj2 (proj2 (C9_init_allocation_failure_is_fatal
              ex_cfg_mhd ex_globals 2 2 2 (fun n => Nat.eqb n 3)))
              3%nat eq_refl L) as (st' & Hrun & Hdead & _).
  exists st'. split; [exact Hrun | apply Hdead].
Defined.

(** ** Sums *)

Lemma sum_n_ext n : forall lo f g,
  (forall i, (lo <= i < lo + Z.of_nat n)%Z -> f i = g i) ->
  sum_n n lo f = sum_n n lo g.
Proof.
  induction n as [|n IH]; intros lo f g H; simpl; [reflexivity|].
  rewrite (H lo) by lia. f_equal. apply IH. intros i Hi. apply H. lia.
Qed.

Lemma sum_range_ext lo hi f g :
  (forall i, (lo <= i <= hi)%Z -> f i = g i) ->
  sum_range lo hi f = sum_range lo hi g.
Proof. intros H. apply sum_n_ext. intros i Hi. apply H. lia. Qed.

Lemma sum_n_plus n : forall lo f g,
  sum_n n lo (fun i => f i + g i) = sum_n n lo f + sum_n n lo g.
Proof. induction n as [|n IH]; intros; simpl; [lra|]. rewrite IH. lra. Qed.

Lemma sum_n_minus n : forall lo f g,
  sum_n n lo (fun i => f i - g i) = sum_n n lo f - sum_n n lo g.
Proof. induction n as [|n IH]; intros; simpl; [lra|]. rewrite IH. lra. Qed.

Lemma sum_n_scal n c : forall lo f,
  sum_n n lo (fun i => c * f i) = c * sum_n n lo f.
Proof. induction n as [|n IH]; intros; simpl; [lra|]. rewrite IH. lra. Qed.

Lemma sum_n_zero n : forall lo, sum_n n lo (fun _ => 0) = 0.
Proof. induction n as [|n IH]; intros; simpl; [lra|]. rewrite IH. lra. Qed.

Lemma sum_range_plus lo hi f g :
  sum_range lo hi (fun i => f i + g i) = sum_range lo hi f + sum_range lo hi g.
Proof. apply sum_n_plus. Qed.

Lemma sum_range_minus lo hi f g :
  sum_range lo hi (fun i => f i - g i) = sum_range lo hi f - sum_range lo hi g.
Proof. apply sum_n_minus. Qed.

Lemma sum_range_scal lo hi c f :
  sum_range lo hi (fun i => c * f i) = c * sum_range lo hi f.
Proof. apply sum_n_scal. Qed.

(** A sum of differences of neighbours telescopes. *)
Lemma sum_n_telescope n : forall lo g,
  sum_n n lo (fun i => g (i + 1)%Z - g i) = g (lo + Z.of_nat n)%Z - g lo.
Proof.
  induction n as [|n IH]; intros lo g.
  - simpl. replace (lo + 0)%Z with lo by lia. lra.
  - cbn [sum_n]. rewrite IH.
    replace (lo + 1 + Z.of_nat n)%Z with (lo + Z.of_nat (Datatypes.S n))%Z by lia.
    lra.
Qed.

Lemma sum_range_telescope lo hi g :
  (lo <= hi + 1)%Z ->
  sum_range lo hi (fun i => g (i + 1)%Z - g i) = g (hi + 1)%Z - g lo.
Proof.
  intros H. unfold sum_range. rewrite sum_n_telescope.
  replace (lo + Z.of_nat (Z.to_nat (hi + 1 - lo)))%Z with (hi + 1)%Z by lia.
  reflexivity.
Qed.

(** Two nested sums may be exchanged. *)
Lemma sum_n_swap n m : forall lo lo' (f : Z -> Z -> R),
  sum_n n lo (fun j => sum_n m lo' (fun i => f j i)) =
  sum_n m lo' (fun i => sum_n n lo (fun j => f j i)).
Proof.
  induction n as [|n IH]; intros lo lo' f; simpl.
  - now rewrite sum_n_zero.
  - rewrite IH. now rewrite <- sum_n_plus.
Qed.

Lemma sum_range_swap lo hi lo' hi' (f : Z -> Z -> R) :
  sum_range lo hi (fun j => sum_range lo' hi' (fun i => f j i)) =
  sum_range lo' hi' (fun i => sum_range lo hi (fun j => f j i)).
Proof. apply sum_n_swap. Qed.

Lemma sum_interior_ext pG f g :
  (forall k j i, interior pG k j i -> f k j i = g k j i) ->
  sum_interior pG f = sum_interior pG g.
Proof.
  intros H. unfold sum_interior.
  apply sum_range_ext. intros k Hk.
  apply sum_range_ext. intros j Hj.
  apply sum_range_ext. intros i Hi. apply H. unfold interior. auto.
Qed.

Lemma sum_interior_minus pG f g :
  sum_interior pG (fun k j i => f k j i - g k j i) =
  sum_interior pG f - sum_interior pG g.
Proof.
  unfold sum_interior. rewrite <- sum_range_minus.
  apply sum_range_ext. intros k _. rewrite <- sum_range_minus.
  apply sum_range_ext. intros j _. now rewrite <- sum_range_minus.
Qed.

(** The divergence, summed over the interior, is the net outflow through
    the boundary: every interior face is counted once with each sign. *)
Lemma sum_face_divergence pG G1 G2 G3 :
  ranges_ok pG ->
  sum_interior pG (face_divergence pG G1 G2 G3) = boundary_outflow pG G1 G2 G3.
Proof.
  intros (Hi & Hj & Hk).
  unfold sum_interior, face_divergence, boundary_outflow.
  set (c1 := dt pG / dx1 pG). set (c2 := dt pG / dx2 pG).
  set (c3 := dt pG / dx3 pG).
  set (K := sum_range (ks pG) (ke pG)).
  set (J := sum_range (js pG) (je pG)).
  set (I := sum_range (is_ pG) (ie pG)).
  assert (T1 : K (fun k => J (fun j => I (fun i =>
                 c1 * (G1 k j (i+1)%Z - G1 k j i)))) =
               c1 * K (fun k => J (fun j =>
                 G1 k j (ie pG + 1)%Z - G1 k j (is_ pG)))).
  { unfold K, J, I. rewrite <- sum_range_scal.
    apply sum_range_ext. intros k _. rewrite <- sum_range_scal.
    apply sum_range_ext. intros j _. rewrite sum_range_scal. f_equal.
    now rewrite (sum_range_telescope _ _ (fun i => G1 k j i)). }
  assert (T2 : K (fun k => J (fun j => I (fun i =>
                 c2 * (G2 k (j+1)%Z i - G2 k j i)))) =
               c2 * K (fun k => I (fun i =>
                 G2 k (je pG + 1)%Z i - G2 k (js pG) i))).
  { unfold K, J, I. rewrite <- sum_range_scal.
    apply sum_range_ext. intros k _. rewrite sum_range_swap.
    rewrite <- sum_range_scal.
    apply sum_range_ext. intros i _. rewrite sum_range_scal. f_equal.
    now rewrite (sum_range_telescope _ _ (fun j => G2 k j i)). }
  assert (T3 : K (fun k => J (fun j => I (fun i =>
                 c3 * (G3 (k+1)%Z j i - G3 k j i)))) =
               c3 * J (fun j => I (fun i =>
                 G3 (ke pG + 1)%Z j i - G3 (ks pG) j i))).
  { unfold K, J, I. rewrite sum_range_swap. rewrite <- sum_range_scal.
    apply sum_range_ext. intros j _. rewrite sum_range_swap.
    rewrite <- sum_range_scal.
    apply sum_range_ext. intros i _. rewrite sum_range_scal. f_equal.
    now rewrite (sum_range_telescope _ _ (fun k => G3 k j i)). }
  rewrite <- T1, <- T2, <- T3. unfold K, J, I.
  rewrite <- !sum_range_plus.
  apply sum_range_ext. intros k _. rewrite <- !sum_range_plus.
  apply sum_range_ext. intros j _. rewrite <- !sum_range_plus.
  apply sum_range_ext. intros i _. reflexivity.
Qed.

Lemma sum_flux_divergence sc pG q1 q2 q3 :
  ranges_ok pG ->
  sum_interior pG (flux_divergence sc pG q1 q2 q3) = boundary_flux sc pG q1 q2 q3.
Proof.
  intros H. unfold boundary_flux. rewrite <- sum_face_divergence by assumption.
  reflexivity.
Qed.

(** A cell quantity that changes by a divergence changes, in total, by the
    boundary outflow. *)
Lemma total_balance pG (q q' : Z -> Z -> Z -> R) G1 G2 G3 :
  ranges_ok pG ->
  (forall k j i, interior pG k j i ->
     q' k j i = q k j i - face_divergence pG G1 G2 G3 k j i) ->
  sum_interior pG q' = sum_interior pG q - boundary_outflow pG G1 G2 G3.
Proof.
  intros Hr H. rewrite <- sum_face_divergence by assumption.
  rewrite <- sum_interior_minus. now apply sum_interior_ext.
Qed.

(** ** Momentum and energy through Steps 11 and 12 *)

Ltac gas_fields :=
  cbn [Gas.d Gas.M1 Gas.M2 Gas.M3 Gas.E Gas.s Gas.B1c Gas.B2c Gas.B3c
       Gas.set_d Gas.set_M1 Gas.set_M2 Gas.set_M3 Gas.set_E Gas.set_s
       Gas.set_B1c Gas.set_B2c Gas.set_B3c].

Section Momentum.
Variable cfg : Config.
Variable gl : Globals.
Variable ext : Extern.
Variable sc : Scratch.
Variable pG : Grid.
Variable pD : Domain.

Lemma step12a_cell_M u k j i :
  let u' := step12a_cell cfg sc pG k j i u in
  let fr := x1Flux sc k j (i+1)%Z in
  let fl := x1Flux sc k j i in
  Gas.M1 u' = Gas.M1 u - dt pG / dx1 pG * (Cons1D.Mx fr - Cons1D.Mx fl) /\
  Gas.M2 u' = Gas.M2 u - dt pG / dx1 pG * (Cons1D.My fr - Cons1D.My fl) /\
  Gas.M3 u' = Gas.M3 u - dt pG / dx1 pG * (Cons1D.Mz fr - Cons1D.Mz fl) /\
  (BAROTROPIC cfg = false ->
   Gas.E u' = Gas.E u - dt pG / dx1 pG * (Cons1D.E fr - Cons1D.E fl)).
Proof.
  unfold step12a_cell. cbv zeta.
  destruct (BAROTROPIC cfg); repeat split; try reflexivity; discriminate.
Qed.

Lemma step12b_cell_M u k j i :
  let u' := step12b_cell cfg sc pG k j i u in
  let fr := x2Flux sc k (j+1)%Z i in
  let fl := x2Flux sc k j i in
  Gas.M1 u' = Gas.M1 u - dt pG / dx2 pG * (Cons1D.Mz fr - Cons1D.Mz fl) /\
  Gas.M2 u' = Gas.M2 u - dt pG / dx2 pG * (Cons1D.Mx fr - Cons1D.Mx fl) /\
  Gas.M3 u' = Gas.M3 u - dt pG / dx2 pG * (Cons1D.My fr - Cons1D.My fl) /\
  (BAROTROPIC cfg = false ->
   Gas.E u' = Gas.E u - dt pG / dx2 pG * (Cons1D.E fr - Cons1D.E fl)).
Proof.
  unfold step12b_cell. cbv zeta.
  destruct (BAROTROPIC cfg); repeat split; try reflexivity; discriminate.
Qed.

Lemma step12c_cell_M u k j i :
  let u' := step12c_cell cfg sc pG k j i u in
  let fr := x3Flux sc (k+1)%Z j i in
  let fl := x3Flux sc k j i in
  Gas.M1 u' = Gas.M1 u - dt pG / dx3 pG * (Cons1D.My fr - Cons1D.My fl) /\
  Gas.M2 u' = Gas.M2 u - dt pG / dx3 pG * (Cons1D.Mz fr - Cons1D.Mz fl) /\
  Gas.M3 u' = Gas.M3 u - dt pG / dx3 pG * (Cons1D.Mx fr - Cons1D.Mx fl) /\
  (BAROTROPIC cfg = false ->
   Gas.E u' = Gas.E u - dt pG / dx3 pG * (Cons1D.E fr - Cons1D.E fl)).
Proof.
  unfold step12c_cell. cbv zeta.
  destruct (BAROTROPIC cfg); repeat split; try reflexivity; discriminate.
Qed.

Lemma step12abc_M u k j i :
  interior pG k j i ->
  let u' := step12abc cfg sc pG u k j i in
  Gas.M1 u' = Gas.M1 (u k j i)
    - flux_divergence sc pG Cons1D.Mx Cons1D.Mz Cons1D.My k j i /\
  Gas.M2 u' = Gas.M2 (u k j i)
    - flux_divergence sc pG Cons1D.My Cons1D.Mx Cons1D.Mz k j i /\
  Gas.M3 u' = Gas.M3 (u k j i)
    - flux_divergence sc pG Cons1D.Mz Cons1D.My Cons1D.Mx k j i /\
  (BAROTROPIC cfg = false ->
   Gas.E u' = Gas.E (u k j i)
    - flux_divergence sc pG Cons1D.E Cons1D.E Cons1D.E k j i).
Proof.
  intros H. unfold step12abc. cbv zeta.
  rewrite !interior_cells_in by assumption.
  set (ua := step12a_cell cfg sc pG k j i (u k j i)).
  set (ub := step12b_cell cfg sc pG k j i ua).
  destruct (step12c_cell_M ub k j i) as (C1 & C2 & C3 & C4).
  destruct (step12b_cell_M ua k j i) as (B1 & B2 & B3 & B4).
  destruct (step12a_cell_M (u k j i) k j i) as (A1 & A2 & A3 & A4).
  fold ua in A1, A2, A3, A4. fold ub in B1, B2, B3, B4.
  rewrite C1, C2, C3, B1, B2, B3, A1, A2, A3.
  unfold flux_divergence. repeat split; try lra.
  intros HB. rewrite (C4 HB), (B4 HB), (A4 HB). lra.
Qed.

(** The right-face stress of a cell is the left-face stress of its upper
    neighbour: Step 11b changes the momenta by a difference of stresses
    that are single-valued on the faces. *)
Lemma step11b_x1_cell_M u k j i :
  let u' := step11b_x1_cell cfg gl sc pG k j i u in
  let S := grav_stress_x1 gl pG in
  Gas.M1 u' = Gas.M1 u - dt pG / dx1 pG * (m1_of (S k j (i+1)%Z) - m1_of (S k j i)) /\
  Gas.M2 u' = Gas.M2 u - dt pG / dx1 pG * (m2_of (S k j (i+1)%Z) - m2_of (S k j i)) /\
  Gas.M3 u' = Gas.M3 u - dt pG / dx1 pG * (m3_of (S k j (i+1)%Z) - m3_of (S k j i)).
Proof.
  unfold step11b_x1_cell, grav_stress_x1, m1_of, m2_of, m3_of.
  cbv zeta. replace (i + 1 - 1)%Z with i by lia.
  destruct (BAROTROPIC cfg); repeat split; reflexivity.
Qed.

Lemma step11b_x2_cell_M u k j i :
  let u' := step11b_x2_cell cfg gl sc pG k j i u in
  let S := grav_stress_x2 gl pG in
  Gas.M1 u' = Gas.M1 u - dt pG / dx2 pG * (m1_of (S k (j+1)%Z i) - m1_of (S k j i)) /\
  Gas.M2 u' = Gas.M2 u - dt pG / dx2 pG * (m2_of (S k (j+1)%Z i) - m2_of (S k j i)) /\
  Gas.M3 u' = Gas.M3 u - dt pG / dx2 pG * (m3_of (S k (j+1)%Z i) - m3_of (S k j i)).
Proof.
  unfold step11b_x2_cell, grav_stress_x2, m1_of, m2_of, m3_of.
  cbv zeta. replace (j + 1 - 1)%Z with j by lia.
  destruct (BAROTROPIC cfg); repeat split; reflexivity.
Qed.

Lemma step11b_x3_cell_M u k j i :
  let u' := step11b_x3_cell cfg gl sc pG k j i u in
  let S := grav_stress_x3 gl pG in
  Gas.M1 u' = Gas.M1 u - dt pG / dx3 pG * (m1_of (S (k+1)%Z j i) - m1_of (S k j i)) /\
  Gas.M2 u' = Gas.M2 u - dt pG / dx3 pG * (m2_of (S (k+1)%Z j i) - m2_of (S k j i)) /\
  Gas.M3 u' = Gas.M3 u - dt pG / dx3 pG * (m3_of (S (k+1)%Z j i) - m3_of (S k j i)).
Proof.
  unfold step11b_x3_cell, grav_stress_x3, m1_of, m2_of, m3_of.
  cbv zeta. replace (k + 1 - 1)%Z with k by lia.
  destruct (BAROTROPIC cfg); repeat split; reflexivity.
Qed.

Lemma step11b_M u k j i :
  interior pG k j i ->
  let u' := step11b cfg gl sc pG u k j i in
  Gas.M1 u' = Gas.M1 (u k j i) - stress_divergence gl pG m1_of k j i /\
  Gas.M2 u' = Gas.M2 (u k j i) - stress_divergence gl pG m2_of k j i /\
  Gas.M3 u' = Gas.M3 (u k j i) - stress_divergence gl pG m3_of k j i.
Proof.
  intros H. unfold step11b. cbv zeta.
  rewrite !interior_cells_in by assumption.
  destruct (step11b_x3_cell_M
              (step11b_x2_cell cfg gl sc pG k j i
                 (step11b_x1_cell cfg gl sc pG k j i (u k j i))) k j i)
    as (A1 & A2 & A3).
  destruct (step11b_x2_cell_M (step11b_x1_cell cfg gl sc pG k j i (u k j i)) k j i)
    as (B1 & B2 & B3).
  destruct (step11b_x1_cell_M (u k j i) k j i) as (C1 & C2 & C3).
  rewrite A1, A2, A3, B1, B2, B3, C1, C2, C3.
  unfold stress_divergence, face_divergence. repeat split; lra.
Qed.

Hypothesis Hnog : no_static_gravity cfg gl.

Lemma step11a_no_gravity : step11a cfg gl ext sc pG (U pG) = Some (U pG).
Proof.
  destruct Hnog as (Hs & Hp). unfold step11a, step11a_grav.
  now rewrite Hs, Hp.
Qed.

(** The state of an interior cell after the whole update. *)
Lemma update_M g' k j i :
  integrate_3d_ctu_update cfg gl ext sc pG pD = Some g' ->
  interior pG k j i ->
  Gas.M1 (U g' k j i) =
    Gas.M1 (U pG k j i)
    - (if SELF_GRAVITY cfg then stress_divergence gl pG m1_of k j i else 0)
    - flux_divergence sc pG Cons1D.Mx Cons1D.Mz Cons1D.My k j i /\
  Gas.M2 (U g' k j i) =
    Gas.M2 (U pG k j i)
    - (if SELF_GRAVITY cfg then stress_divergence gl pG m2_of k j i else 0)
    - flux_divergence sc pG Cons1D.My Cons1D.Mx Cons1D.Mz k j i /\
  Gas.M3 (U g' k j i) =
    Gas.M3 (U pG k j i)
    - (if SELF_GRAVITY cfg then stress_divergence gl pG m3_of k j i else 0)
    - flux_divergence sc pG Cons1D.Mz Cons1D.My Cons1D.Mx k j i.
Proof.
  intros Hrun Hin.
  destruct (update_anatomy cfg gl ext sc pG pD g' Hrun) as (u1 & H11 & HU & _).
  rewrite step11a_no_gravity in H11. injection H11 as <-.
  assert (HA :
    let a := after_step12c cfg gl sc pG (U pG) k j i in
    Gas.M1 a = Gas.M1 (U pG k j i)
      - (if SELF_GRAVITY cfg then stress_divergence gl pG m1_of k j i else 0)
      - flux_divergence sc pG Cons1D.Mx Cons1D.Mz Cons1D.My k j i /\
    Gas.M2 a = Gas.M2 (U pG k j i)
      - (if SELF_GRAVITY cfg then stress_divergence gl pG m2_of k j i else 0)
      - flux_divergence sc pG Cons1D.My Cons1D.Mx Cons1D.Mz k j i /\
    Gas.M3 a = Gas.M3 (U pG k j i)
      - (if SELF_GRAVITY cfg then stress_divergence gl pG m3_of k j i else 0)
      - flux_divergence sc pG Cons1D.Mz Cons1D.My Cons1D.Mx k j i).
  { unfold after_step12c. cbv zeta.
    match goal with |- context [step12abc cfg sc pG ?u k j i] =>
      destruct (step12abc_M u k j i Hin) as (S1 & S2 & S3 & _) end.
    rewrite S1, S2, S3.
    rewrite (step11c_keep cfg gl sc pG Gas.M1) by reflexivity.
    rewrite (step11c_keep cfg gl sc pG Gas.M2) by reflexivity.
    rewrite (step11c_keep cfg gl sc pG Gas.M3) by reflexivity.
    destruct (SELF_GRAVITY cfg).
    - destruct (step11b_M (U pG) k j i Hin) as (A1 & A2 & A3).
      rewrite A1, A2, A3. repeat split.
    - repeat split; lra. }
  rewrite HU. destruct (MHD cfg); [|exact HA].
  rewrite (interior_cells_keep Gas.M1), (interior_cells_keep Gas.M2),
    (interior_cells_keep Gas.M3); auto.
Qed.

Lemma update_E g' k j i :
  integrate_3d_ctu_update cfg gl ext sc pG pD = Some g' ->
  interior pG k j i ->
  SELF_GRAVITY cfg = false -> CoolingFunc gl = None ->
  BAROTROPIC cfg = false ->
  Gas.E (U g' k j i) =
    Gas.E (U pG k j i)
    - flux_divergence sc pG Cons1D.E Cons1D.E Cons1D.E k j i.
Proof.
  intros Hrun Hin HS HC HB.
  destruct (update_anatomy cfg gl ext sc pG pD g' Hrun) as (u1 & H11 & HU & _).
  rewrite step11a_no_gravity in H11. injection H11 as <-.
  assert (HA : Gas.E (after_step12c cfg gl sc pG (U pG) k j i) =
               Gas.E (U pG k j i)
               - flux_divergence sc pG Cons1D.E Cons1D.E Cons1D.E k j i).
  { unfold after_step12c.
    match goal with |- context [step12abc cfg sc pG ?u k j i] =>
      destruct (step12abc_M u k j i Hin) as (_ & _ & _ & S4) end.
    rewrite (S4 HB). unfold step11c. now rewrite HB, HC, HS. }
  rewrite HU. destruct (MHD cfg); [|exact HA].
  rewrite (interior_cells_keep Gas.E); auto.
Qed.
End Momentum.

(** Extra X1.  Mass and every passive scalar are conserved by the full-step
    update: the total of the density over the interior cells, and the total
    of each passive scalar n < NSCALARS, change by exactly the net flux
    through the faces on the boundary of the interior block.  The fluxes on
    the faces between interior cells cancel, whatever they are and whichever
    source terms are switched on. *)
Theorem X1_mass_and_scalars_conserved cfg gl ext sc pG pD g' :
  integrate_3d_ctu_update cfg gl ext sc pG pD = Some g' ->
  ranges_ok pG ->
  total pG Gas.d g' =
    total pG Gas.d pG - boundary_flux sc pG Cons1D.d Cons1D.d Cons1D.d /\
  (forall n, (n < NSCALARS cfg)%nat ->
     let sn := fun f : Cons1D.t => Cons1D.s f n in
     total pG (fun u => Gas.s u n) g' =
       total pG (fun u => Gas.s u n) pG - boundary_flux sc pG sn sn sn).
Proof.
  intros Hrun Hr. split.
  - apply total_balance; [assumption|]. intros k j i Hin.
    apply (update_d cfg gl ext sc pG pD g' k j i Hrun Hin).
  - intros n Hn sn. unfold total, boundary_flux.
    apply total_balance; [assumption|]. intros k j i Hin.
    apply (update_s cfg gl ext sc pG pD g' k j i n Hrun Hin Hn).
Qed.

(** Extra X2.  Without the shearing box, a static potential and
    self-gravity, the full-step update conserves momentum: the total of each
    momentum component over the interior cells changes by the net boundary
    flux only, where M1 takes the Mx, Mz, My components of the x1-, x2-,
    x3-fluxes, M2 takes My, Mx, Mz and M3 takes Mz, My, Mx.  Without cooling
    and with an energy equation the same holds for the total energy. *)
Theorem X2_momentum_and_energy_conserved cfg gl ext sc pG pD g' :
  no_static_gravity cfg gl -> SELF_GRAVITY cfg = false ->
  integrate_3d_ctu_update cfg gl ext sc pG pD = Some g' ->
  ranges_ok pG ->
  total pG Gas.M1 g' =
    total pG Gas.M1 pG - boundary_flux sc pG Cons1D.Mx Cons1D.Mz Cons1D.My /\
  total pG Gas.M2 g' =
    total pG Gas.M2 pG - boundary_flux sc pG Cons1D.My Cons1D.Mx Cons1D.Mz /\
  total pG Gas.M3 g' =
    total pG Gas.M3 pG - boundary_flux sc pG Cons1D.Mz Cons1D.My Cons1D.Mx /\
  (BAROTROPIC cfg = false -> CoolingFunc gl = None ->
   total pG Gas.E g' =
     total pG Gas.E pG - boundary_flux sc pG Cons1D.E Cons1D.E Cons1D.E).
Proof.
  intros Hg HS Hrun Hr.
  assert (HM := fun k j i (Hin : interior pG k j i) =>
                  update_M cfg gl ext sc pG pD Hg g' k j i Hrun Hin).
  rewrite HS in HM.
  repeat split.
  - apply total_balance; [assumption|]. intros k j i Hin.
    rewrite (proj1 (HM k j i Hin)). unfold flux_divergence, face_divergence. lra.
  - apply total_balance; [assumption|]. intros k j i Hin.
    rewrite (proj1 (proj2 (HM k j i Hin))).
    unfold flux_divergence, face_divergence. lra.
  - apply total_balance; [assumption|]. intros k j i Hin.
    rewrite (proj2 (proj2 (HM k j i Hin))).
    unfold flux_divergence, face_divergence. lra.
  - intros HB HC. apply total_balance; [assumption|]. intros k j i Hin.
    apply (update_E cfg gl ext sc pG pD Hg g' k j i Hrun Hin HS HC HB).
Qed.

(** Extra X3.  Self-gravity enters the momentum equation in flux form: the
    stress that Step 11b takes at the right face of a cell is the one it
    takes at the left face of the next cell.  Hence, without the shearing
    box and a static potential, the total of each momentum component over
    the interior changes by the boundary fluxes and the gravitational
    stresses on the boundary faces only. *)
Theorem X3_self_gravity_in_flux_form cfg gl ext sc pG pD g' :
  no_static_gravity cfg gl -> SELF_GRAVITY cfg = true ->
  integrate_3d_ctu_update cfg gl ext sc pG pD = Some g' ->
  ranges_ok pG ->
  total pG Gas.M1 g' =
    total pG Gas.M1 pG - boundary_stress gl pG m1_of
    - boundary_flux sc pG Cons1D.Mx Cons1D.Mz Cons1D.My /\
  total pG Gas.M2 g' =
    total pG Gas.M2 pG - boundary_stress gl pG m2_of
    - boundary_flux sc pG Cons1D.My Cons1D.Mx Cons1D.Mz /\
  total pG Gas.M3 g' =
    total pG Gas.M3 pG - boundary_stress gl pG m3_of
    - boundary_flux sc pG Cons1D.Mz Cons1D.My Cons1D.Mx.
Proof.
  intros Hg HS Hrun Hr.
  assert (HM := fun k j i (Hin : interior pG k j i) =>
                  update_M cfg gl ext sc pG pD Hg g' k j i Hrun Hin).
  rewrite HS in HM.
  assert (step : forall (q : Gas.t -> R) m q1 q2 q3,
    (forall k j i, interior pG k j i ->
       q (U g' k j i) = q (U pG k j i) - stress_divergence gl pG m k j i
                        - flux_divergence sc pG q1 q2 q3 k j i) ->
    total pG q g' = total pG q pG - boundary_stress gl pG m
                    - boundary_flux sc pG q1 q2 q3).
  { intros q m q1 q2 q3 H. unfold total, boundary_stress, boundary_flux.
    rewrite <- !sum_face_divergence by assumption.
    rewrite <- !sum_interior_minus. apply sum_interior_ext.
    intros k j i Hin. rewrite (H k j i Hin). reflexivity. }
  repeat split; apply step; intros k j i Hin.
  - apply (proj1 (HM k j i Hin)).
  - apply (proj1 (proj2 (HM k j i Hin))).
  - apply (proj2 (proj2 (HM k j i Hin))).
Qed.

Lemma ex_ranges_ok : ranges_ok ex_grid.
Proof. unfold ranges_ok; simpl; lia. Qed.

Lemma ex_ranges_ok_phi : ranges_ok ex_grid_phi.
Proof. unfold ranges_ok; simpl; lia. Qed.

Lemma X1_witness :
  exists g',
    integrate_3d_ctu_update ex_cfg_mhd ex_globals ex_extern ex_scratch_flux
      ex_grid ex_domain = Some g' /\
    ranges_ok ex_grid /\
    total ex_grid Gas.d g' =
      total ex_grid Gas.d ex_grid
      - boundary_flux ex_scratch_flux ex_grid Cons1D.d Cons1D.d Cons1D.d.
Proof.
  eexists. split; [reflexivity|]. split; [exact ex_ranges_ok|].
  exact (proj1 (X1_mass_and_scalars_conserved
                  ex_cfg_mhd ex_globals ex_extern ex_scratch_flux ex_grid
                  ex_domain _ eq_refl ex_ranges_ok)).
Defined.

Lemma X2_witness :
  no_static_gravity ex_cfg_mhd ex_globals /\
  SELF_GRAVITY ex_cfg_mhd = false /\
  ranges_ok ex_grid /\
  exists g',
    integrate_3d_ctu_update ex_cfg_mhd ex_globals ex_extern ex_scratch_flux
      ex_grid ex_domain = Some g' /\
    total ex_grid Gas.M1 g' =
      total ex_grid Gas.M1 ex_grid
      - boundary_flux ex_scratch_flux ex_grid Cons1D.Mx Cons1D.Mz Cons1D.My.
Proof.
  assert (Hg : no_static_gravity ex_cfg_mhd ex_globals)
    by (split; reflexivity).
  split; [exact Hg|]. split; [reflexivity|]. split; [exact ex_ranges_ok|].
  eexists. split; [reflexivity|].
  exact (proj1 (X2_momentum_and_energy_conserved
                  ex_cfg_mhd ex_globals ex_extern ex_scratch_flux ex_grid
                  ex_domain _ Hg eq_refl eq_refl ex_ranges_ok)).
Defined.

Lemma X3_witness :
  no_static_gravity ex_cfg_selfg ex_globals /\
  SELF_GRAVITY ex_cfg_selfg = true /\
  ranges_ok ex_grid_phi /\
  exists g',
    integrate_3d_ctu_update ex_cfg_selfg ex_globals ex_extern ex_scratch_flux
      ex_grid_phi ex_domain = Some g' /\
    total ex_grid_phi Gas.M1 g' =
      total ex_grid_phi Gas.M1 ex_grid_phi
      - boundary_stress ex_globals ex_grid_phi m1_of
      - boundary_flux ex_scratch_flux ex_grid_phi
                      Cons1D.Mx Cons1D.Mz Cons1D.My.
Proof.
  assert (Hg : no_static_gravity ex_cfg_selfg ex_globals)
    by (split; reflexivity).
  split; [exact Hg|]. split; [reflexivity|]. split; [exact ex_ranges_ok_phi|].
  eexists. split; [reflexivity|].
  exact (proj1 (X3_self_gravity_in_flux_form
                  ex_cfg_selfg ex_globals ex_extern ex_scratch_flux
                  ex_grid_phi ex_domain _ Hg eq_refl eq_refl
                  ex_ranges_ok_phi)).
Defined.

(** ** integrate_init_3d followed by integrate_destruct_3d *)

(** What [free] leaves of a pointer: the pointer itself, to a dead block. *)
Lemma free_all_spec sls : forall st x,
  free_all sls st x =
    if in_dec slot_eq_dec x sls
    then freed (st x)
    else st x.
Proof.
  induction sls as [|sl rest IH]; intros st x; [reflexivity|].
  cbn [free_all]. rewrite IH.
  assert (H1 : (match st sl with
                | NULL => st
                | Block _ sh => set_ptr st sl (Block false sh)
                end) x = if slot_eq_dec x sl then freed (st x) else st x).
  { destruct (slot_eq_dec x sl) as [->|Hne].
    - destruct (st sl) eqn:E; [now rewrite E|now rewrite set_ptr_same].
    - destruct (st sl); [reflexivity|now rewrite set_ptr_other]. }
  rewrite H1.
  destruct (in_dec slot_eq_dec x rest) as [Hin|Hnin];
    destruct (in_dec slot_eq_dec x (sl :: rest)) as [Hin'|Hnin'];
    destruct (slot_eq_dec x sl) as [->|Hne];
    try reflexivity;
    try (exfalso; apply Hnin'; simpl; auto; fail);
    try (destruct (st sl); reflexivity);
    try (destruct (st x); reflexivity).
  destruct Hin' as [E|E]; [congruence|contradiction].
Qed.

(** A run of requests that reaches its end has met no failing request. *)
Lemma alloc_all_true fails reqs : forall c st st',
  alloc_all fails reqs c st = (true, st') ->
  forall n, (c <= n < c + List.length reqs)%nat -> fails n = false.
Proof.
  intros c st st' H n Hn. destruct (fails n) eqn:E; [|reflexivity].
  pose proof (alloc_all_fails fails reqs c st n E Hn) as Hf.
  rewrite H in Hf. discriminate.
Qed.

Section Round_trip.
Variable cfg : Config.
Variable gl : Globals.
Variables nx1 nx2 nx3 : Z.

Let reqs := init_requests cfg gl nx1 nx2 nx3.

Lemma init_returned fails st0 st1 :
  integrate_init_3d cfg gl fails nx1 nx2 nx3 st0 = Returned st1 ->
  (forall n, (n < List.length reqs)%nat -> fails n = false) /\
  (forall sl sh, In (sl, sh) reqs -> st1 sl = Block true sh) /\
  (forall sl, ~ In sl (map fst reqs) -> st1 sl = st0 sl).
Proof.
  unfold integrate_init_3d. fold reqs.
  destruct (alloc_all fails reqs 0 st0) as [[|] st'] eqn:Hrun;
    [|discriminate].
  intros [= <-].
  assert (Hok : forall n, (0 <= n < 0 + List.length reqs)%nat -> fails n = false)
    by (apply (alloc_all_true fails reqs 0%nat st0 st' Hrun)).
  destruct (alloc_all_succeeds fails reqs 0%nat st0 Hok
              (init_requests_nodup cfg gl nx1 nx2 nx3))
    as (st'' & Hrun' & Hin & Hout).
  rewrite Hrun in Hrun'. injection Hrun' as <-.
  repeat split; auto. intros n Hn. apply Hok. lia.
Qed.

Lemma init_returns fails st0 :
  (forall n, (n < List.length reqs)%nat -> fails n = false) ->
  exists st1, integrate_init_3d cfg gl fails nx1 nx2 nx3 st0 = Returned st1.
Proof.
  intros Hok.
  destruct (alloc_all_succeeds fails reqs 0%nat st0) as (st' & Hrun & _).
  - intros n Hn. apply Hok. lia.
  - apply init_requests_nodup.
  - exists st'. unfold integrate_init_3d. fold reqs. now rewrite Hrun.
Qed.
End Round_trip.

(** Extra X4.  After a successful integrate_init_3d, integrate_destruct_3d
    frees every block that was allocated, in every configuration, so that no
    live block is left; it leaves each pointer as it is, now pointing to a
    freed block, and does not reset it to NULL.  A pointer that
    integrate_init_3d did not allocate stays NULL, and on the initial
    all-NULL pointers integrate_destruct_3d does nothing. *)
Theorem X4_destruct_frees_all_of_init cfg gl nx1 nx2 nx3 fails st1 :
  integrate_init_3d cfg gl fails nx1 nx2 nx3 statics_init = Returned st1 ->
  let reqs := init_requests cfg gl nx1 nx2 nx3 in
  let st2 := integrate_destruct_3d cfg st1 in
  (forall sl sh, In (sl, sh) reqs -> st1 sl = Block true sh) /\
  (forall sl, is_live (st2 sl) = false) /\
  (forall sl sh, In (sl, sh) reqs -> st2 sl = Block false sh) /\
  (forall sl, ~ In sl (map fst reqs) -> st2 sl = NULL) /\
  (forall sl, integrate_destruct_3d cfg statics_init sl = NULL).
Proof.
  intros Hinit reqs st2.
  destruct (init_returned cfg gl nx1 nx2 nx3 fails statics_init st1 Hinit)
    as (Hok & Hin & Hout). fold reqs in Hok, Hin, Hout.
  assert (H2in : forall sl sh, In (sl, sh) reqs -> st2 sl = Block false sh).
  { intros sl sh H. unfold st2, integrate_destruct_3d. rewrite free_all_spec.
    rewrite (Hin sl sh H).
    destruct (in_dec slot_eq_dec sl (destruct_slots cfg)) as [_|Hn];
      [reflexivity|].
    exfalso. apply Hn. apply (init_requests_destructed cfg gl nx1 nx2 nx3).
    change sl with (fst (sl, sh)). now apply in_map. }
  assert (H2out : forall sl, ~ In sl (map fst reqs) -> st2 sl = NULL).
  { intros sl H. unfold st2, integrate_destruct_3d. rewrite free_all_spec.
    rewrite (Hout sl H). unfold statics_init.
    destruct (in_dec slot_eq_dec sl (destruct_slots cfg)); reflexivity. }
  split; [exact Hin|].
  split; [|split; [exact H2in|split; [exact H2out|]]].
  - intros sl.
    destruct (in_dec slot_eq_dec sl (map fst reqs)) as [Hi|Hn].
    + apply in_map_iff in Hi. destruct Hi as ([sl' sh] & E & Hi).
      simpl in E. subst sl'. now rewrite (H2in sl sh Hi).
    + now rewrite (H2out sl Hn).
  - intros sl. unfold integrate_destruct_3d. rewrite free_all_spec.
    unfold statics_init.
    destruct (in_dec slot_eq_dec sl (destruct_slots cfg)); reflexivity.
Qed.

Lemma X4_witness :
  exists st1,
    integrate_init_3d ex_cfg_mhd ex_globals (fun _ => false) 2 2 2
      statics_init = Returned st1 /\
    (forall sl, is_live (integrate_destruct_3d ex_cfg_mhd st1 sl) = false) /\
    integrate_destruct_3d ex_cfg_mhd st1 p_emf1 =
      Block false (Shape3 10 10 10 SzReal).
Proof.
  eexists. split; [reflexivity|].
  destruct (X4_destruct_frees_all_of_init ex_cfg_mhd ex_globals 2 2 2
              (fun _ => false) _ eq_refl) as (_ & Hdead & Hin & _).
  split; [exact Hdead|].
  apply Hin. left. reflexivity.
Defined.

(** ** Step 9: what the H-correction reads *)

(** Rewrite every range test that the hypotheses decide. *)
Ltac box_true :=
  repeat match goal with
  | |- context [in_box ?a ?b ?c ?d ?e ?f ?k ?j ?i] =>
      let H := fresh in
      assert (H : in_box a b c d e f k j i = true)
        by (apply in_box_true; lia);
      rewrite H; clear H
  end.

Section Step9_facts.
Variable cfg : Config.
Variable sol : Solver.
Variable pG : Grid.
Variable fc : Faces.

Lemma etah_x1_fresh e1 e2 e3 e1' e2' e3' k j i :
  in_step9b pG k j i = true ->
  etah_x1 (step9a_eta1 cfg sol pG fc e1) (step9a_eta2 cfg sol pG fc e2)
          (step9a_eta3 cfg sol pG fc e3) k j i =
  etah_x1 (step9a_eta1 cfg sol pG fc e1') (step9a_eta2 cfg sol pG fc e2')
          (step9a_eta3 cfg sol pG fc e3') k j i.
Proof.
  intros H. apply in_box_true in H.
  unfold etah_x1, step9a_eta1, step9a_eta2, step9a_eta3.
  rewrite !cellwise_spec. box_true. reflexivity.
Qed.

Lemma etah_x2_fresh e1 e2 e3 e1' e2' e3' k j i :
  in_step9c pG k j i = true ->
  etah_x2 (step9a_eta1 cfg sol pG fc e1) (step9a_eta2 cfg sol pG fc e2)
          (step9a_eta3 cfg sol pG fc e3) k j i =
  etah_x2 (step9a_eta1 cfg sol pG fc e1') (step9a_eta2 cfg sol pG fc e2')
          (step9a_eta3 cfg sol pG fc e3') k j i.
Proof.
  intros H. apply in_box_true in H.
  unfold etah_x2, step9a_eta1, step9a_eta2, step9a_eta3.
  rewrite !cellwise_spec. box_true. reflexivity.
Qed.

Lemma etah_x3_fresh e1 e2 e3 e1' e2' e3' k j i :
  in_step9d pG k j i = true ->
  etah_x3 (step9a_eta1 cfg sol pG fc e1) (step9a_eta2 cfg sol pG fc e2)
          (step9a_eta3 cfg sol pG fc e3) k j i =
  etah_x3 (step9a_eta1 cfg sol pG fc e1') (step9a_eta2 cfg sol pG fc e2')
          (step9a_eta3 cfg sol pG fc e3') k j i.
Proof.
  intros H. apply in_box_true in H.
  unfold etah_x3, step9a_eta1, step9a_eta2, step9a_eta3.
  rewrite !cellwise_spec. box_true. reflexivity.
Qed.

Lemma eta_of_nonneg Ul Ur B : 0 <= eta_of cfg sol Ul Ur B.
Proof.
  unfold eta_of. cbv zeta.
  match goal with |- 0 <= 0.5 * Rabs ?x => pose proof (Rabs_pos x) end. lra.
Qed.

Lemma etah_above_own e1 e2 e3 d p :
  at_pos (etas e1 e2 e3 d) p <= etah_of e1 e2 e3 d p.
Proof.
  destruct (etah_is_max e1 e2 e3 d p) as [_ Hub]. apply Hub.
  unfold nine_etas. now left.
Qed.
End Step9_facts.

(** Extra X5.  The fluxes that Step 9 stores do not depend on what the
    arrays eta1, eta2, eta3 hold on entry: with the H-correction every one of
    the nine eta values that Steps 9b-9d read for a face of their loop
    ranges lies in the range that Step 9a has just written; without it no
    eta is read.  Outside the loop ranges the flux arrays keep their
    contents. *)
Theorem X5_step9_reads_only_fresh_eta cfg sol pG fc etah0
    e1 e2 e3 e1' e2' e3' F1 F2 F3 k j i :
  let r := step9 cfg sol pG fc etah0 e1 e2 e3 F1 F2 F3 in
  let r' := step9 cfg sol pG fc etah0 e1' e2' e3' F1 F2 F3 in
  fst (fst r) k j i = fst (fst r') k j i /\
  snd (fst r) k j i = snd (fst r') k j i /\
  snd r k j i = snd r' k j i /\
  (in_step9b pG k j i = false -> fst (fst r) k j i = F1 k j i) /\
  (in_step9c pG k j i = false -> snd (fst r) k j i = F2 k j i) /\
  (in_step9d pG k j i = false -> snd r k j i = F3 k j i).
Proof.
  unfold step9. cbv zeta. cbn [fst snd].
  unfold step9b, step9c, step9d. rewrite !cellwise_spec.
  fold (in_step9b pG k j i) (in_step9c pG k j i) (in_step9d pG k j i).
  repeat split.
  - destruct (in_step9b pG k j i) eqn:E; [|reflexivity].
    destruct (H_CORRECTION cfg); [|reflexivity].
    now rewrite (etah_x1_fresh cfg sol pG fc e1 e2 e3 e1' e2' e3').
  - destruct (in_step9c pG k j i) eqn:E; [|reflexivity].
    destruct (H_CORRECTION cfg); [|reflexivity].
    now rewrite (etah_x2_fresh cfg sol pG fc e1 e2 e3 e1' e2' e3').
  - destruct (in_step9d pG k j i) eqn:E; [|reflexivity].
    destruct (H_CORRECTION cfg); [|reflexivity].
    now rewrite (etah_x3_fresh cfg sol pG fc e1 e2 e3 e1' e2' e3').
  - now intros ->.
  - now intros ->.
  - now intros ->.
Qed.

(** Extra X6.  With the H-correction, the value of etah with which the
    Riemann solver is called at a face of the loop range of Step 9b, 9c or
    9d is at least the freshly computed eta of that face itself, and
    therefore never negative. *)
Theorem X6_etah_bounds cfg sol pG fc e1 e2 e3 k j i :
  let eta1 := step9a_eta1 cfg sol pG fc e1 in
  let eta2 := step9a_eta2 cfg sol pG fc e2 in
  let eta3 := step9a_eta3 cfg sol pG fc e3 in
  (in_step9b pG k j i = true ->
   0 <= eta_of cfg sol (Ul_x1Face fc k j i) (Ur_x1Face fc k j i)
                       (B1_x1Face fc k j i)
     <= etah_x1 eta1 eta2 eta3 k j i) /\
  (in_step9c pG k j i = true ->
   0 <= eta_of cfg sol (Ul_x2Face fc k j i) (Ur_x2Face fc k j i)
                       (B2_x2Face fc k j i)
     <= etah_x2 eta1 eta2 eta3 k j i) /\
  (in_step9d pG k j i = true ->
   0 <= eta_of cfg sol (Ul_x3Face fc k j i) (Ur_x3Face fc k j i)
                       (B3_x3Face fc k j i)
     <= etah_x3 eta1 eta2 eta3 k j i).
Proof.
  intros eta1 eta2 eta3. repeat split; try apply eta_of_nonneg.
  - pose proof (etah_above_own eta1 eta2 eta3 X1 (k, j, i)) as Hub.
    cbn [etah_of etas at_pos] in Hub.
    apply in_box_true in H.
    unfold eta1 at 1, step9a_eta1 in Hub. rewrite cellwise_spec in Hub.
    revert Hub. box_true. intros Hub. exact Hub.
  - pose proof (etah_above_own eta1 eta2 eta3 X2 (k, j, i)) as Hub.
    cbn [etah_of etas at_pos] in Hub.
    apply in_box_true in H.
    unfold eta2 at 1, step9a_eta2 in Hub. rewrite cellwise_spec in Hub.
    revert Hub. box_true. intros Hub. exact Hub.
  - pose proof (etah_above_own eta1 eta2 eta3 X3 (k, j, i)) as Hub.
    cbn [etah_of etas at_pos] in Hub.
    apply in_box_true in H.
    unfold eta3 at 1, step9a_eta3 in Hub. rewrite cellwise_spec in Hub.
    revert Hub. box_true. intros Hub. exact Hub.
Qed.

(** ** Steps 10 to 12 read the scratch arrays only where Steps 8 and 9 store *)

Lemma cells_agree pG (f f' : Z -> Z -> Z -> Gas.t -> Gas.t) u u' k j i :
  (interior pG k j i -> forall v, f k j i v = f' k j i v) ->
  u k j i = u' k j i ->
  interior_cells pG f u k j i = interior_cells pG f' u' k j i.
Proof.
  intros Hf Hu. unfold interior_cells. rewrite !cellwise_spec.
  destruct (in_box _ _ _ _ _ _ k j i) eqn:E; [|exact Hu].
  rewrite Hu. apply Hf. now apply interior_in_box.
Qed.

(** Rewrite the reads of one array into the reads of the other, at every
    index that the side condition places in the range of agreement. *)
Ltac in_fresh :=
  unfold in_step9b, in_step9c, in_step9d, in_step8;
  apply in_box_true; unfold ranges_ok, interior in *; lia.
Ltac agree_with H := repeat (rewrite H by in_fresh).

Section Fresh.
Variable cfg : Config.
Variable gl : Globals.
Variable ext : Extern.
Variables sc sc' : Scratch.
Variable pG : Grid.
Variable pD : Domain.

Hypothesis Hr : ranges_ok pG.
Hypothesis HF1 : forall k j i, in_step9b pG k j i = true ->
                               x1Flux sc k j i = x1Flux sc' k j i.
Hypothesis HF2 : forall k j i, in_step9c pG k j i = true ->
                               x2Flux sc k j i = x2Flux sc' k j i.
Hypothesis HF3 : forall k j i, in_step9d pG k j i = true ->
                               x3Flux sc k j i = x3Flux sc' k j i.

Ltac agree := agree_with HF1; agree_with HF2; agree_with HF3.

Section With_emf_cc.
Hypothesis HC1 : forall k j i, in_step8 pG k j i = true ->
                               emf1_cc sc k j i = emf1_cc sc' k j i.
Hypothesis HC2 : forall k j i, in_step8 pG k j i = true ->
                               emf2_cc sc k j i = emf2_cc sc' k j i.
Hypothesis HC3 : forall k j i, in_step8 pG k j i = true ->
                               emf3_cc sc k j i = emf3_cc sc' k j i.

Lemma emf1_corner_agree e e' k j i :
  (ks pG <= k <= ke pG + 1)%Z -> (js pG <= j <= je pG + 1)%Z ->
  (is_ pG <= i <= ie pG)%Z ->
  integrate_emf1_corner (x2Flux sc) (x3Flux sc) (emf1_cc sc) pG e k j i =
  integrate_emf1_corner (x2Flux sc') (x3Flux sc') (emf1_cc sc') pG e' k j i.
Proof.
  intros Hk Hj Hi. unfold integrate_emf1_corner. rewrite !cellwise_spec.
  box_true. unfold emf1_corner_value. agree. agree_with HC1. reflexivity.
Qed.

Lemma emf2_corner_agree e e' k j i :
  (ks pG <= k <= ke pG + 1)%Z -> (js pG <= j <= je pG)%Z ->
  (is_ pG <= i <= ie pG + 1)%Z ->
  integrate_emf2_corner (x1Flux sc) (x3Flux sc) (emf2_cc sc) pG e k j i =
  integrate_emf2_corner (x1Flux sc') (x3Flux sc') (emf2_cc sc') pG e' k j i.
Proof.
  intros Hk Hj Hi. unfold integrate_emf2_corner. rewrite !cellwise_spec.
  box_true. unfold emf2_corner_value. agree. agree_with HC2. reflexivity.
Qed.

Lemma emf3_corner_agree e e' k j i :
  (ks pG <= k <= ke pG)%Z -> (js pG <= j <= je pG + 1)%Z ->
  (is_ pG <= i <= ie pG + 1)%Z ->
  integrate_emf3_corner (x1Flux sc) (x2Flux sc) (emf3_cc sc) pG e k j i =
  integrate_emf3_corner (x1Flux sc') (x2Flux sc') (emf3_cc sc') pG e' k j i.
Proof.
  intros Hk Hj Hi. unfold integrate_emf3_corner. rewrite !cellwise_spec.
  box_true. unfold emf3_corner_value. agree. agree_with HC3. reflexivity.
Qed.

Lemma step10b_corners_agree k j i :
  let g := step10b pG
    (integrate_emf1_corner (x2Flux sc) (x3Flux sc) (emf1_cc sc) pG (emf1 sc))
    (integrate_emf2_corner (x1Flux sc) (x3Flux sc) (emf2_cc sc) pG (emf2 sc))
    (integrate_emf3_corner (x1Flux sc) (x2Flux sc) (emf3_cc sc) pG (emf3 sc)) in
  let g' := step10b pG
    (integrate_emf1_corner (x2Flux sc') (x3Flux sc') (emf1_cc sc') pG (emf1 sc'))
    (integrate_emf2_corner (x1Flux sc') (x3Flux sc') (emf2_cc sc') pG (emf2 sc'))
    (integrate_emf3_corner (x1Flux sc') (x2Flux sc') (emf3_cc sc') pG (emf3 sc')) in
  B1i g k j i = B1i g' k j i /\ B2i g k j i = B2i g' k j i /\
  B3i g k j i = B3i g' k j i.
Proof.
  cbv zeta.
  rewrite !step10b_B1i, !step10b_B2i, !step10b_B3i.
  destruct Hr as (Ri & Rj & Rk).
  repeat split.
  - destruct (written_B1i pG k j i) eqn:E; [|reflexivity]. f_equal.
    unfold written_B1i in E.
    rewrite !andb_true_iff, orb_true_iff, !in_range_true, Z.eqb_eq in E.
    unfold ct_dB1.
    rewrite (emf2_corner_agree (emf2 sc) (emf2 sc') (k+1) j i),
            (emf2_corner_agree (emf2 sc) (emf2 sc') k j i),
            (emf3_corner_agree (emf3 sc) (emf3 sc') k (j+1) i),
            (emf3_corner_agree (emf3 sc) (emf3 sc') k j i) by lia.
    reflexivity.
  - destruct (written_B2i pG k j i) eqn:E; [|reflexivity]. f_equal.
    unfold written_B2i in E.
    rewrite !andb_true_iff, orb_true_iff, !in_range_true, Z.eqb_eq in E.
    unfold ct_dB2.
    rewrite (emf1_corner_agree (emf1 sc) (emf1 sc') (k+1) j i),
            (emf1_corner_agree (emf1 sc) (emf1 sc') k j i),
            (emf3_corner_agree (emf3 sc) (emf3 sc') k j (i+1)),
            (emf3_corner_agree (emf3 sc) (emf3 sc') k j i) by lia.
    reflexivity.
  - destruct (written_B3i pG k j i) eqn:E; [|reflexivity]. f_equal.
    unfold written_B3i in E.
    rewrite !andb_true_iff, orb_true_iff, !in_range_true, Z.eqb_eq in E.
    unfold ct_dB3.
    rewrite (emf1_corner_agree (emf1 sc) (emf1 sc') k (j+1) i),
            (emf1_corner_agree (emf1 sc) (emf1 sc') k j i),
            (emf2_corner_agree (emf2 sc) (emf2 sc') k j (i+1)),
            (emf2_corner_agree (emf2 sc) (emf2 sc') k j i) by lia.
    reflexivity.
Qed.
End With_emf_cc.

Lemma step11b_agree u u' k j i :
  u k j i = u' k j i ->
  step11b cfg gl sc pG u k j i = step11b cfg gl sc' pG u' k j i.
Proof.
  intros Hu. unfold step11b. cbv zeta.
  apply cells_agree;
    [intros Hin v; unfold step11b_x3_cell; cbv zeta; agree; reflexivity|].
  apply cells_agree;
    [intros Hin v; unfold step11b_x2_cell; cbv zeta; agree; reflexivity|].
  apply cells_agree;
    [intros Hin v; unfold step11b_x1_cell; cbv zeta; agree; reflexivity|].
  exact Hu.
Qed.

Lemma step12abc_agree u u' k j i :
  u k j i = u' k j i ->
  step12abc cfg sc pG u k j i = step12abc cfg sc' pG u' k j i.
Proof.
  intros Hu. unfold step12abc. cbv zeta.
  apply cells_agree;
    [intros Hin v; unfold step12c_cell; cbv zeta; agree; reflexivity|].
  apply cells_agree;
    [intros Hin v; unfold step12b_cell; cbv zeta; agree; reflexivity|].
  apply cells_agree;
    [intros Hin v; unfold step12a_cell; cbv zeta; agree; reflexivity|].
  exact Hu.
Qed.

Hypothesis HDH : reads_dhalf cfg gl = true ->
                 forall k j i, in_step8 pG k j i = true ->
                               dhalf sc k j i = dhalf sc' k j i.
Hypothesis HPH : reads_phalf cfg gl = true ->
                 forall k j i, in_step8 pG k j i = true ->
                               phalf sc k j i = phalf sc' k j i.

Lemma step11a_grav_agree k j i :
  step11a_grav cfg gl ext sc pG (U pG) k j i =
  step11a_grav cfg gl ext sc' pG (U pG) k j i.
Proof.
  unfold step11a_grav. unfold reads_dhalf in HDH.
  destruct (StaticGravPot gl) as [phi|]; [|reflexivity].
  pose proof (HDH eq_refl) as D.
  apply cells_agree; [|reflexivity].
  intros Hin v. unfold step11a_grav_cell.
  destruct (cc_pos ext pG i j k) as [[x1 x2] x3]. cbv zeta.
  agree. agree_with D. reflexivity.
Qed.

Lemma step11c_agree u u' k j i :
  u k j i = u' k j i ->
  step11c cfg gl sc pG u k j i = step11c cfg gl sc' pG u' k j i.
Proof.
  intros Hu. unfold step11c.
  unfold reads_dhalf, reads_phalf in HDH, HPH.
  destruct (BAROTROPIC cfg); [exact Hu|].
  destruct (CoolingFunc gl) as [cool|]; [|exact Hu].
  assert (D : forall k j i, in_step8 pG k j i = true ->
                            dhalf sc k j i = dhalf sc' k j i)
    by (apply HDH; cbn; apply orb_true_r).
  pose proof (HPH eq_refl) as P.
  apply cells_agree; [|exact Hu].
  intros Hin v. cbv zeta. agree_with D. agree_with P. reflexivity.
Qed.

Lemma after_step12c_agree u u' k j i :
  u k j i = u' k j i ->
  after_step12c cfg gl sc pG u k j i = after_step12c cfg gl sc' pG u' k j i.
Proof.
  intros Hu. unfold after_step12c.
  apply step12abc_agree, step11c_agree.
  destruct (SELF_GRAVITY cfg); [now apply step11b_agree|exact Hu].
Qed.

(** The saved mass fluxes of the grid that a completed update returns. *)
Lemma update_mass_flux s g' :
  integrate_3d_ctu_update cfg gl ext s pG pD = Some g' ->
  let save (F : Arr3 Cons1D.t) (m : Arr3 Real) :=
    if SELF_GRAVITY cfg then
      cellwise (ks pG) (ke pG + 1) (js pG) (je pG + 1) (is_ pG) (ie pG + 1)
               (fun k j i _ => Cons1D.d (F k j i)) m
    else m in
  x1MassFlux g' = save (x1Flux s) (x1MassFlux pG) /\
  x2MassFlux g' = save (x2Flux s) (x2MassFlux pG) /\
  x3MassFlux g' = save (x3Flux s) (x3MassFlux pG).
Proof.
  unfold integrate_3d_ctu_update.
  destruct (step11a cfg gl ext s pG (U (step10 cfg ext s pG pD)))
    as [u1|]; [|discriminate].
  intros [= <-].
  assert (H1 : x1MassFlux (step10 cfg ext s pG pD) = x1MassFlux pG)
    by (apply (step10_frame cfg ext s pG pD x1MassFlux); reflexivity).
  assert (H2 : x2MassFlux (step10 cfg ext s pG pD) = x2MassFlux pG)
    by (apply (step10_frame cfg ext s pG pD x2MassFlux); reflexivity).
  assert (H3 : x3MassFlux (step10 cfg ext s pG pD) = x3MassFlux pG)
    by (apply (step10_frame cfg ext s pG pD x3MassFlux); reflexivity).
  destruct (MHD cfg) eqn:EM, (SELF_GRAVITY cfg); simpl;
    rewrite ?H1, ?H2, ?H3; repeat split.
Qed.
End Fresh.

(** The grids that two runs of Steps 10 to 12 return from scratch arrays
    that agree where Steps 8 and 9 store. *)
Lemma update_fresh_agree cfg gl ext sc sc' pG pD g g' :
  SHEARING_BOX cfg = false ->
  ranges_ok pG ->
  fresh_agree cfg gl pG sc sc' ->
  integrate_3d_ctu_update cfg gl ext sc pG pD = Some g ->
  integrate_3d_ctu_update cfg gl ext sc' pG pD = Some g' ->
  grid_agree g g'.
Proof.
  intros Hns Hr (HF1 & HF2 & HF3 & HC & HDH & HPH) Hg Hg'.
  intros k j i.
  destruct (update_anatomy cfg gl ext sc pG pD g Hg)
    as (u1 & H11 & HU & HB1 & HB2 & HB3 & _).
  destruct (update_anatomy cfg gl ext sc' pG pD g' Hg')
    as (u1' & H11' & HU' & HB1' & HB2' & HB3' & _).
  assert (HB : forall k j i,
    B1i (step10 cfg ext sc pG pD) k j i = B1i (step10 cfg ext sc' pG pD) k j i /\
    B2i (step10 cfg ext sc pG pD) k j i = B2i (step10 cfg ext sc' pG pD) k j i /\
    B3i (step10 cfg ext sc pG pD) k j i = B3i (step10 cfg ext sc' pG pD) k j i).
  { intros k0 j0 i0. unfold step10. rewrite Hns.
    destruct (MHD cfg); [|repeat split].
    apply step10b_corners_agree; try assumption;
      intros a b c Hin; apply (HC eq_refl a b c Hin). }
  destruct (HB k j i) as (E1 & E2 & E3).
  destruct (update_mass_flux cfg gl ext pG pD sc g Hg) as (M1 & M2 & M3).
  destruct (update_mass_flux cfg gl ext pG pD sc' g' Hg') as (M1' & M2' & M3').
  assert (HA : forall k j i, after_step12c cfg gl sc pG u1 k j i =
                             after_step12c cfg gl sc' pG u1' k j i).
  { intros k0 j0 i0.
    apply after_step12c_agree; try assumption.
    revert H11 H11'. unfold step11a. rewrite Hns. intros [= <-] [= <-].
    apply step11a_grav_agree; assumption. }
  repeat split.
  - rewrite HU, HU'. destruct (MHD cfg); [|apply HA].
    unfold interior_cells. rewrite !cellwise_spec.
    destruct (in_box _ _ _ _ _ _ k j i) eqn:E; [|apply HA].
    rewrite HA. unfold step12d_cell.
    destruct (HB k j (i+1)%Z) as (A1 & _).
    destruct (HB k (j+1)%Z i) as (_ & A2 & _).
    destruct (HB (k+1)%Z j i) as (_ & _ & A3).
    now rewrite E1, E2, E3, A1, A2, A3.
  - now rewrite HB1, HB1'.
  - now rewrite HB2, HB2'.
  - now rewrite HB3, HB3'.
  - rewrite M1, M1'. destruct (SELF_GRAVITY cfg); [|reflexivity].
    rewrite !cellwise_spec.
    destruct (in_box _ _ _ _ _ _ k j i) eqn:E; [|reflexivity].
    apply in_box_true in E. apply f_equal, HF1. unfold in_step9b.
    apply in_box_true. lia.
  - rewrite M2, M2'. destruct (SELF_GRAVITY cfg); [|reflexivity].
    rewrite !cellwise_spec.
    destruct (in_box _ _ _ _ _ _ k j i) eqn:E; [|reflexivity].
    apply in_box_true in E. apply f_equal, HF2. unfold in_step9c.
    apply in_box_true. lia.
  - rewrite M3, M3'. destruct (SELF_GRAVITY cfg); [|reflexivity].
    rewrite !cellwise_spec.
    destruct (in_box _ _ _ _ _ _ k j i) eqn:E; [|reflexivity].
    apply in_box_true in E. apply f_equal, HF3. unfold in_step9d.
    apply in_box_true. lia.
Qed.

(** Extra X7.  Without the shearing box, the grid that the full-step update
    (Steps 10 to 12) returns depends on the scratch arrays only through the
    values that Steps 8 and 9 of the same call store: the x1-, x2- and
    x3-fluxes in the loop ranges of Steps 9b, 9c and 9d, and dhalf, phalf and
    the cell-centred EMFs in the loop range of Step 8.  Values left outside
    these ranges by an earlier step or call, and the previous contents of the
    corner EMF arrays, are never read into the cell states, the face fields
    or the saved mass fluxes. *)
Theorem X7_update_reads_only_fresh_scratch cfg gl ext sc sc' pG pD :
  SHEARING_BOX cfg = false ->
  ranges_ok pG ->
  fresh_agree cfg gl pG sc sc' ->
  exists g g',
    integrate_3d_ctu_update cfg gl ext sc pG pD = Some g /\
    integrate_3d_ctu_update cfg gl ext sc' pG pD = Some g' /\
    grid_agree g g'.
Proof.
  intros Hns Hr Hfresh.
  destruct (update_completes cfg gl ext sc pG pD (or_introl Hns)) as (g & Hg).
  destruct (update_completes cfg gl ext sc' pG pD (or_introl Hns)) as (g' & Hg').
  exists g, g'. split; [exact Hg|]. split; [exact Hg'|].
  exact (update_fresh_agree cfg gl ext sc sc' pG pD g g' Hns Hr Hfresh Hg Hg').
Qed.

Lemma ex_fresh_agree :
  fresh_agree ex_cfg_mhd ex_globals ex_grid ex_scratch ex_scratch_stale.
Proof.
  unfold fresh_agree, ex_scratch_stale.
  cbn [x1Flux x2Flux x3Flux emf1_cc emf2_cc emf3_cc dhalf phalf].
  repeat split; try reflexivity.
  - intros k j i ->. reflexivity.
  - intros k j i ->. reflexivity.
  - intros k j i ->. reflexivity.
Qed.

Lemma X7_witness :
  SHEARING_BOX ex_cfg_mhd = false /\
  ranges_ok ex_grid /\
  x1Flux ex_scratch 0 0 (-1) <> x1Flux ex_scratch_stale 0 0 (-1) /\
  exists g g',
    integrate_3d_ctu_update ex_cfg_mhd ex_globals ex_extern ex_scratch
      ex_grid ex_domain = Some g /\
    integrate_3d_ctu_update ex_cfg_mhd ex_globals ex_extern ex_scratch_stale
      ex_grid ex_domain = Some g' /\
    grid_agree g g'.
Proof.
  assert (Hr : ranges_ok ex_grid) by (unfold ranges_ok; simpl; lia).
  split; [reflexivity|]. split; [exact Hr|].
  split.
  - unfold ex_scratch_stale, ex_scratch, ex_cons. simpl.
    intros H. apply (f_equal Cons1D.d) in H. simpl in H. lra.
  - exact (X7_update_reads_only_fresh_scratch
             ex_cfg_mhd ex_globals ex_extern ex_scratch ex_scratch_stale
             ex_grid ex_domain eq_refl Hr ex_fresh_agree).
Defined.

(** ** Loop nests over a state *)

(** What a nest does to an observation of its state that only the iteration
    (k0, j0, i0) touches. *)
Lemma nest_obs {S V} (obs : S -> V) (body : Z -> Z -> Z -> S -> S)
      klo khi jlo jhi ilo ihi k0 j0 i0 (g : V -> V) (s : S) :
  (forall k j i s, (k, j, i) <> (k0, j0, i0) -> obs (body k j i s) = obs s) ->
  (forall s, obs (body k0 j0 i0 s) = g (obs s)) ->
  obs (nest klo khi jlo jhi ilo ihi body s) =
    if in_box klo khi jlo jhi ilo ihi k0 j0 i0 then g (obs s) else obs s.
Proof.
  intros Hoth Hat. unfold nest, in_box.
  rewrite (for_loop_obs obs _ k0
             (fun v => if in_range jlo jhi j0 && in_range ilo ihi i0
                       then g v else v)).
  - now destruct (in_range klo khi k0).
  - intros k' s' Hk Hne. apply for_loop_frame. intros j' s'' Hj.
    apply for_loop_frame. intros i' s3 Hi. apply Hoth. congruence.
  - intros s' Hk.
    rewrite (for_loop_obs obs _ j0
               (fun v => if in_range ilo ihi i0 then g v else v)).
    + now destruct (in_range jlo jhi j0).
    + intros j' s'' Hj Hne. apply for_loop_frame. intros i' s3 Hi.
      apply Hoth. congruence.
    + intros s'' Hj.
      rewrite (for_loop_obs obs _ i0 g).
      * reflexivity.
      * intros i' s3 Hi Hne. apply Hoth. congruence.
      * intros s3 Hi. apply Hat.
Qed.

(** A nest none of whose iterations touches [obs]. *)
Lemma nest_frame {S V} (obs : S -> V) (body : Z -> Z -> Z -> S -> S)
      klo khi jlo jhi ilo ihi (s : S) :
  (forall k j i s, obs (body k j i s) = obs s) ->
  obs (nest klo khi jlo jhi ilo ihi body s) = obs s.
Proof.
  intros H. unfold nest. apply for_loop_frame. intros k s' _.
  apply for_loop_frame. intros j s'' _. apply for_loop_frame.
  intros i s3 _. apply H.
Qed.

(** The value that the last iteration of a nest leaves in an observation
    that every iteration overwrites. *)
Lemma for_n_last {S V} (obs : S -> V) (body : Z -> S -> S) (v : Z -> V) :
  forall (n : nat) (lo : Z) (s : S),
    (forall i s, obs (body i s) = v i) ->
    obs (for_n n lo body s) =
      match n with
      | O => obs s
      | Datatypes.S m => v (lo + Z.of_nat m)%Z
      end.
Proof.
  induction n as [|n IH]; intros lo s H; [reflexivity|].
  cbn [for_n]. rewrite IH by assumption.
  destruct n as [|m].
  - rewrite H. f_equal. lia.
  - f_equal. lia.
Qed.

Lemma for_loop_last {S V} (obs : S -> V) (body : Z -> S -> S) (v : Z -> V)
      lo hi s :
  (forall i s, obs (body i s) = v i) ->
  obs (for_loop lo hi body s) = if (lo <=? hi)%Z then v hi else obs s.
Proof.
  intros H. unfold for_loop. rewrite (for_n_last obs body v) by assumption.
  destruct (Z.leb_spec lo hi).
  - destruct (Z.to_nat (hi + 1 - lo)) eqn:E; [lia|]. f_equal. lia.
  - replace (Z.to_nat (hi + 1 - lo)) with 0%nat by lia. reflexivity.
Qed.

(** ** Steps 5 to 7: the nest over a pair of face arrays *)

Lemma face_nest_fst klo khi jlo jhi ilo ihi cell p k j i :
  fst (face_nest klo khi jlo jhi ilo ihi cell p) k j i =
    if in_box klo khi jlo jhi ilo ihi k j i
    then fst (cell k j i (fst p k j i) (snd p k j i))
    else fst p k j i.
Proof.
  unfold face_nest.
  set (obs := fun q : Arr3 Cons1D.t * Arr3 Cons1D.t =>
                (fst q k j i, snd q k j i)).
  assert (H : obs (nest klo khi jlo jhi ilo ihi
                (fun k j i p =>
                   let c := cell k j i (fst p k j i) (snd p k j i) in
                   (upd3 (fst p) k j i (fst c), upd3 (snd p) k j i (snd c))) p)
              = if in_box klo khi jlo jhi ilo ihi k j i
                then cell k j i (fst (obs p)) (snd (obs p)) else obs p).
  { apply (nest_obs obs _ klo khi jlo jhi ilo ihi k j i
             (fun v => cell k j i (fst v) (snd v))).
    - intros k' j' i' s Hne. unfold obs. cbn [fst snd].
      rewrite !upd3_other by congruence. reflexivity.
    - intros s. unfold obs. cbn [fst snd]. rewrite !upd3_same.
      symmetry. apply surjective_pairing. }
  unfold obs in H. destruct (in_box klo khi jlo jhi ilo ihi k j i).
  - cbn [fst snd] in H. rewrite <- H. reflexivity.
  - now injection H.
Qed.

Lemma face_nest_snd klo khi jlo jhi ilo ihi cell p k j i :
  snd (face_nest klo khi jlo jhi ilo ihi cell p) k j i =
    if in_box klo khi jlo jhi ilo ihi k j i
    then snd (cell k j i (fst p k j i) (snd p k j i))
    else snd p k j i.
Proof.
  unfold face_nest.
  set (obs := fun q : Arr3 Cons1D.t * Arr3 Cons1D.t =>
                (fst q k j i, snd q k j i)).
  assert (H : obs (nest klo khi jlo jhi ilo ihi
                (fun k j i p =>
                   let c := cell k j i (fst p k j i) (snd p k j i) in
                   (upd3 (fst p) k j i (fst c), upd3 (snd p) k j i (snd c))) p)
              = if in_box klo khi jlo jhi ilo ihi k j i
                then cell k j i (fst (obs p)) (snd (obs p)) else obs p).
  { apply (nest_obs obs _ klo khi jlo jhi ilo ihi k j i
             (fun v => cell k j i (fst v) (snd v))).
    - intros k' j' i' s Hne. unfold obs. cbn [fst snd].
      rewrite !upd3_other by congruence. reflexivity.
    - intros s. unfold obs. cbn [fst snd]. rewrite !upd3_same.
      symmetry. apply surjective_pairing. }
  unfold obs in H. destruct (in_box klo khi jlo jhi ilo ihi k j i).
  - cbn [fst snd] in H. rewrite <- H. reflexivity.
  - now injection H.
Qed.

(** ** Step 4a *)

Lemma step4a_spec pG e k j i :
  let e' := step4a pG e in
  let inb := in_box (ks pG - 2) (ke pG + 2) (js pG - 2) (je pG + 2)
                    (is_ pG - 2) (ie pG + 2) k j i in
  fst (fst e') k j i =
    (if inb then fst (fst (step4a_cell pG k j i)) else fst (fst e) k j i) /\
  snd (fst e') k j i =
    (if inb then snd (fst (step4a_cell pG k j i)) else snd (fst e) k j i) /\
  snd e' k j i =
    (if inb then snd (step4a_cell pG k j i) else snd e k j i).
Proof.
  cbv zeta. unfold step4a.
  set (body := fun k j i (e : Arr3 Real * Arr3 Real * Arr3 Real) =>
                 let '(e1, e2, e3) := step4a_cell pG k j i in
                 (upd3 (fst (fst e)) k j i e1, upd3 (snd (fst e)) k j i e2,
                  upd3 (snd e) k j i e3)).
  destruct (step4a_cell pG k j i) as [[c1 c2] c3] eqn:Ec. cbn [fst snd].
  repeat split.
  - apply (nest_obs (fun e : Arr3 Real * Arr3 Real * Arr3 Real =>
                       fst (fst e) k j i) body _ _ _ _ _ _ k j i (fun _ => c1)).
    + intros k' j' i' s Hne. unfold body.
      destruct (step4a_cell pG k' j' i') as [[a1 a2] a3]. cbn [fst snd].
      now apply upd3_other.
    + intros s. unfold body. rewrite Ec. cbn [fst snd]. apply upd3_same.
  - apply (nest_obs (fun e : Arr3 Real * Arr3 Real * Arr3 Real =>
                       snd (fst e) k j i) body _ _ _ _ _ _ k j i (fun _ => c2)).
    + intros k' j' i' s Hne. unfold body.
      destruct (step4a_cell pG k' j' i') as [[a1 a2] a3]. cbn [fst snd].
      now apply upd3_other.
    + intros s. unfold body. rewrite Ec. cbn [fst snd]. apply upd3_same.
  - apply (nest_obs (fun e : Arr3 Real * Arr3 Real * Arr3 Real =>
                       snd e k j i) body _ _ _ _ _ _ k j i (fun _ => c3)).
    + intros k' j' i' s Hne. unfold body.
      destruct (step4a_cell pG k' j' i') as [[a1 a2] a3]. cbn [fst snd].
      now apply upd3_other.
    + intros s. unfold body. rewrite Ec. cbn [fst snd]. apply upd3_same.
Qed.

(** ** Step 4b *)

Lemma add_B1_x1Face_at g k j i v :
  B1_x1Face (add_B1_x1Face g k j i v) k j i = B1_x1Face g k j i + v.
Proof. unfold add_B1_x1Face; simpl. apply upd3_same. Qed.
Lemma add_B2_x2Face_at g k j i v :
  B2_x2Face (add_B2_x2Face g k j i v) k j i = B2_x2Face g k j i + v.
Proof. unfold add_B2_x2Face; simpl. apply upd3_same. Qed.
Lemma add_B3_x3Face_at g k j i v :
  B3_x3Face (add_B3_x3Face g k j i v) k j i = B3_x3Face g k j i + v.
Proof. unfold add_B3_x3Face; simpl. apply upd3_same. Qed.

Lemma add_B1_x1Face_other g k j i v k' j' i' :
  (k', j', i') <> (k, j, i) ->
  B1_x1Face (add_B1_x1Face g k j i v) k' j' i' = B1_x1Face g k' j' i'.
Proof. intros; unfold add_B1_x1Face; simpl. now apply upd3_other. Qed.
Lemma add_B2_x2Face_other g k j i v k' j' i' :
  (k', j', i') <> (k, j, i) ->
  B2_x2Face (add_B2_x2Face g k j i v) k' j' i' = B2_x2Face g k' j' i'.
Proof. intros; unfold add_B2_x2Face; simpl. now apply upd3_other. Qed.
Lemma add_B3_x3Face_other g k j i v k' j' i' :
  (k', j', i') <> (k, j, i) ->
  B3_x3Face (add_B3_x3Face g k j i v) k' j' i' = B3_x3Face g k' j' i'.
Proof. intros; unfold add_B3_x3Face; simpl. now apply upd3_other. Qed.

Section Step4b_facts.
Variable pG : Grid.
Variable f0 : Faces.
Variables emf1 emf2 emf3 : Arr3 Real.

Lemma step4b_B1 k j i :
  B1_x1Face (step4b pG emf1 emf2 emf3 f0) k j i =
    if written_B1_x1Face pG k j i
    then B1_x1Face f0 k j i + half_dB1 pG emf2 emf3 k j i
    else B1_x1Face f0 k j i.
Proof.
  unfold step4b, written_B1_x1Face.
  set (obs := fun g : Faces => B1_x1Face g k j i).
  set (d := half_dB1 pG emf2 emf3 k j i).
  loop_frame obs.
  { intros j' s Hj. apply (for_loop_frame obs). intros i' s' Hi. reflexivity. }
  loop_obs obs k
    (fun v => if in_range (js pG - 1) (je pG + 1) j &&
                 (in_range (is_ pG - 1) (ie pG + 1) i || (i =? ie pG + 2)%Z)
              then v + d else v).
  - intros k' s Hk Hne.
    loop_frame obs. { intros; reflexivity. }
    apply (for_loop_frame obs). intros j' s' Hj. unfold obs at 1.
    rewrite add_B1_x1Face_other by congruence.
    apply (for_loop_frame obs). intros i' s'' Hi. unfold obs; simpl.
    apply upd3_other. congruence.
  - intros s Hk.
    loop_frame obs. { intros; reflexivity. }
    loop_obs obs j
      (fun v => if in_range (is_ pG - 1) (ie pG + 1) i || (i =? ie pG + 2)%Z
                then v + d else v).
    + intros j' s' Hj Hne. unfold obs at 1.
      rewrite add_B1_x1Face_other by congruence.
      apply (for_loop_frame obs). intros i' s'' Hi. unfold obs; simpl.
      apply upd3_other. congruence.
    + intros s' Hj. unfold obs at 1.
      destruct (Z.eq_dec i (ie pG + 2)) as [Heq|Hne].
      * rewrite Heq at 1. rewrite add_B1_x1Face_at.
        destruct (Z.eqb_spec i (ie pG + 2)); [|contradiction].
        rewrite orb_true_r. unfold d. rewrite <- Heq. f_equal.
        apply (for_loop_frame obs).
        intros i' s'' Hi. unfold obs; simpl. apply upd3_other. tuple_neq.
      * rewrite add_B1_x1Face_other by congruence.
        loop_obs obs i (fun v => v + d).
        -- intros i' s'' Hi Hne'. unfold obs; simpl. apply upd3_other. congruence.
        -- intros s'' Hi. unfold obs; simpl. apply upd3_same.
        -- destruct (Z.eqb_spec i (ie pG + 2)); [contradiction|].
           now rewrite orb_false_r.
    + now destruct (in_range (js pG - 1) (je pG + 1) j).
  - fold obs. now destruct (in_range (ks pG - 1) (ke pG + 1) k).
Qed.

Lemma step4b_B2 k j i :
  B2_x2Face (step4b pG emf1 emf2 emf3 f0) k j i =
    if written_B2_x2Face pG k j i
    then B2_x2Face f0 k j i + half_dB2 pG emf1 emf3 k j i
    else B2_x2Face f0 k j i.
Proof.
  unfold step4b, written_B2_x2Face.
  set (obs := fun g : Faces => B2_x2Face g k j i).
  set (d := half_dB2 pG emf1 emf3 k j i).
  loop_frame obs.
  { intros j' s Hj. apply (for_loop_frame obs). intros i' s' Hi. reflexivity. }
  loop_obs obs k
    (fun v => if (in_range (js pG - 1) (je pG + 1) j || (j =? je pG + 2)%Z) &&
                 in_range (is_ pG - 1) (ie pG + 1) i
              then v + d else v).
  - intros k' s Hk Hne.
    loop_frame obs.
    { intros i' s' Hi. unfold obs. apply add_B2_x2Face_other. congruence. }
    apply (for_loop_frame obs). intros j' s' Hj. unfold obs at 1.
    change (B2_x2Face (add_B1_x1Face ?g ?a ?b ?c ?v)) with (B2_x2Face g).
    apply (for_loop_frame obs). intros i' s'' Hi. unfold obs; simpl.
    apply upd3_other. congruence.
  - intros s Hk.
    destruct (Z.eq_dec j (je pG + 2)) as [Heq|Hne].
    + (* the closing face of the row *)
      loop_obs obs i (fun v => v + d).
      * intros i' s' Hi Hne'. unfold obs. apply add_B2_x2Face_other. congruence.
      * intros s' Hi. unfold obs, d. rewrite Heq. apply add_B2_x2Face_at.
      * destruct (Z.eqb_spec j (je pG + 2)); [|contradiction].
        rewrite orb_true_r. simpl.
        assert (Hfr : obs (for_loop (js pG - 1) (je pG + 1) (fun j0 g =>
                   add_B1_x1Face (for_loop (is_ pG - 1) (ie pG + 1) (fun i0 g0 =>
                      add_B3_x3Face (add_B2_x2Face (add_B1_x1Face g0 k j0 i0 (half_dB1 pG emf2 emf3 k j0 i0))
                                 k j0 i0 (half_dB2 pG emf1 emf3 k j0 i0))
                              k j0 i0 (half_dB3 pG emf1 emf2 k j0 i0)) g)
                     k j0 (ie pG + 2) (half_dB1 pG emf2 emf3 k j0 (ie pG + 2))) s)
                 = obs s).
        { apply (for_loop_frame obs). intros j' s' Hj. unfold obs at 1.
          change (B2_x2Face (add_B1_x1Face ?g ?a ?b ?c ?v)) with (B2_x2Face g).
          apply (for_loop_frame obs). intros i' s'' Hi. unfold obs; simpl.
          apply upd3_other. tuple_neq. }
        rewrite Hfr. reflexivity.
    + loop_frame obs.
      { intros i' s' Hi. unfold obs. apply add_B2_x2Face_other. congruence. }
      loop_obs obs j (fun v => if in_range (is_ pG - 1) (ie pG + 1) i then v + d else v).
      * intros j' s' Hj Hne'. unfold obs at 1.
        change (B2_x2Face (add_B1_x1Face ?g ?a ?b ?c ?v)) with (B2_x2Face g).
        apply (for_loop_frame obs). intros i' s'' Hi. unfold obs; simpl.
        apply upd3_other. congruence.
      * intros s' Hj. unfold obs at 1.
        change (B2_x2Face (add_B1_x1Face ?g ?a ?b ?c ?v)) with (B2_x2Face g).
        loop_obs obs i (fun v => v + d).
        -- intros i' s'' Hi Hne'. unfold obs; simpl. apply upd3_other. congruence.
        -- intros s'' Hi. unfold obs; simpl. apply upd3_same.
        -- reflexivity.
      * destruct (Z.eqb_spec j (je pG + 2)); [contradiction|].
        rewrite orb_false_r. now destruct (in_range (js pG - 1) (je pG + 1) j).
  - fold obs. now destruct (in_range (ks pG - 1) (ke pG + 1) k).
Qed.

Lemma step4b_B3 k j i :
  B3_x3Face (step4b pG emf1 emf2 emf3 f0) k j i =
    if written_B3_x3Face pG k j i
    then B3_x3Face f0 k j i + half_dB3 pG emf1 emf2 k j i
    else B3_x3Face f0 k j i.
Proof.
  unfold step4b, written_B3_x3Face.
  set (obs := fun g : Faces => B3_x3Face g k j i).
  set (d := half_dB3 pG emf1 emf2 k j i).
  set (g1 := for_loop (ks pG - 1) (ke pG + 1) _ f0).
  assert (H1 : obs g1 =
            if in_range (ks pG - 1) (ke pG + 1) k && in_range (js pG - 1) (je pG + 1) j &&
               in_range (is_ pG - 1) (ie pG + 1) i
            then obs f0 + d else obs f0).
  { subst g1.
    loop_obs obs k
      (fun v => if in_range (js pG - 1) (je pG + 1) j && in_range (is_ pG - 1) (ie pG + 1) i
                then v + d else v).
    - intros k' s Hk Hne.
      loop_frame obs. { intros; reflexivity. }
      apply (for_loop_frame obs). intros j' s' Hj. unfold obs at 1.
      change (B3_x3Face (add_B1_x1Face ?g ?a ?b ?c ?v)) with (B3_x3Face g).
      apply (for_loop_frame obs). intros i' s'' Hi. unfold obs.
      rewrite add_B3_x3Face_other by congruence. reflexivity.
    - intros s Hk.
      loop_frame obs. { intros; reflexivity. }
      loop_obs obs j (fun v => if in_range (is_ pG - 1) (ie pG + 1) i then v + d else v).
      + intros j' s' Hj Hne. unfold obs at 1.
        change (B3_x3Face (add_B1_x1Face ?g ?a ?b ?c ?v)) with (B3_x3Face g).
        apply (for_loop_frame obs). intros i' s'' Hi. unfold obs.
        rewrite add_B3_x3Face_other by congruence. reflexivity.
      + intros s' Hj. unfold obs at 1.
        change (B3_x3Face (add_B1_x1Face ?g ?a ?b ?c ?v)) with (B3_x3Face g).
        loop_obs obs i (fun v => v + d).
        * intros i' s'' Hi Hne'. unfold obs.
          rewrite add_B3_x3Face_other by congruence. reflexivity.
        * intros s'' Hi. unfold obs. rewrite add_B3_x3Face_at. reflexivity.
        * reflexivity.
      + now destruct (in_range (js pG - 1) (je pG + 1) j).
    - now destruct (in_range (ks pG - 1) (ke pG + 1) k). }
  destruct (Z.eq_dec k (ke pG + 2)) as [Heq|Hne].
  - loop_obs obs j (fun v => if in_range (is_ pG - 1) (ie pG + 1) i then v + d else v).
    + intros j' s Hj Hne. apply (for_loop_frame obs). intros i' s' Hi.
      unfold obs. apply add_B3_x3Face_other. congruence.
    + intros s Hj.
      loop_obs obs i (fun v => v + d).
      * intros i' s' Hi Hne. unfold obs. apply add_B3_x3Face_other. congruence.
      * intros s' Hi. unfold obs, d. rewrite Heq. apply add_B3_x3Face_at.
      * reflexivity.
    + rewrite H1.
      assert (Hk : in_range (ks pG - 1) (ke pG + 1) k = false)
        by (apply in_range_false; lia).
      rewrite Hk. destruct (Z.eqb_spec k (ke pG + 2)); [|contradiction].
      simpl. now destruct (in_range (js pG - 1) (je pG + 1) j).
  - loop_frame obs.
    { intros j' s Hj. apply (for_loop_frame obs). intros i' s' Hi.
      unfold obs. apply add_B3_x3Face_other. congruence. }
    rewrite H1. destruct (Z.eqb_spec k (ke pG + 2)); [contradiction|].
    now rewrite orb_false_r.
Qed.

(** Step 10b stores to nothing but the three face-field arrays. *)
Lemma step4b_frame {V} (obs : Faces -> V) :
  (forall g k j i v, obs (add_B1_x1Face g k j i v) = obs g) ->
  (forall g k j i v, obs (add_B2_x2Face g k j i v) = obs g) ->
  (forall g k j i v, obs (add_B3_x3Face g k j i v) = obs g) ->
  obs (step4b pG emf1 emf2 emf3 f0) = obs f0.
Proof.
  intros F1 F2 F3. unfold step4b.
  loop_frame obs.
  { intros j s Hj. apply (for_loop_frame obs). intros i s' Hi. apply F3. }
  apply (for_loop_frame obs). intros k s Hk.
  loop_frame obs. { intros i s' Hi. apply F2. }
  apply (for_loop_frame obs). intros j s' Hj.
  rewrite F1. apply (for_loop_frame obs). intros i s'' Hi.
  now rewrite F3, F2, F1.
Qed.
End Step4b_facts.

Lemma half_divergence_cancels pG emf1 emf2 emf3 k j i :
  (half_dB1 pG emf2 emf3 k j (i+1) - half_dB1 pG emf2 emf3 k j i) / dx1 pG +
  (half_dB2 pG emf1 emf3 k (j+1) i - half_dB2 pG emf1 emf3 k j i) / dx2 pG +
  (half_dB3 pG emf1 emf2 (k+1) j i - half_dB3 pG emf1 emf2 k j i) / dx3 pG = 0.
Proof. unfold half_dB1, half_dB2, half_dB3, Rdiv. ring. Qed.

Lemma half_step_cell_written pG k j i :
  half_step_cell pG k j i ->
  written_B1_x1Face pG k j i = true /\ written_B1_x1Face pG k j (i+1) = true /\
  written_B2_x2Face pG k j i = true /\ written_B2_x2Face pG k (j+1) i = true /\
  written_B3_x3Face pG k j i = true /\ written_B3_x3Face pG (k+1) j i = true.
Proof.
  intros (Hk & Hj & Hi).
  unfold written_B1_x1Face, written_B2_x2Face, written_B3_x3Face.
  assert (Ek : in_range (ks pG - 1) (ke pG + 1) k = true)
    by now apply in_range_true.
  assert (Ej : in_range (js pG - 1) (je pG + 1) j = true)
    by now apply in_range_true.
  assert (Ei : in_range (is_ pG - 1) (ie pG + 1) i = true)
    by now apply in_range_true.
  rewrite Ek, Ej, Ei. simpl.
  repeat split; rewrite ?andb_true_r; apply orb_true_iff.
  - destruct (Z.eq_dec i (ie pG + 1)) as [->|].
    + right. apply Z.eqb_eq. lia.
    + left. apply in_range_true. lia.
  - destruct (Z.eq_dec j (je pG + 1)) as [->|].
    + right. apply Z.eqb_eq. lia.
    + left. apply in_range_true. lia.
  - destruct (Z.eq_dec k (ke pG + 1)) as [->|].
    + right. apply Z.eqb_eq. lia.
    + left. apply in_range_true. lia.
Qed.

(** Extra X8.  The half-step constrained-transport update of the interface
    fields (Step 4b) leaves their discrete divergence unchanged in every
    cell of its range, the interior cells and one layer of ghost cells
    around them, whatever the corner EMFs hold.  It stores to the three
    interface-field arrays only, and there only to the faces of these
    cells. *)
Theorem X8_half_step_ct_preserves_divergence pG emf1 emf2 emf3 f k j i :
  let f' := step4b pG emf1 emf2 emf3 f in
  (half_step_cell pG k j i ->
   divB_faces pG f' k j i = divB_faces pG f k j i) /\
  (written_B1_x1Face pG k j i = false ->
   B1_x1Face f' k j i = B1_x1Face f k j i) /\
  (written_B2_x2Face pG k j i = false ->
   B2_x2Face f' k j i = B2_x2Face f k j i) /\
  (written_B3_x3Face pG k j i = false ->
   B3_x3Face f' k j i = B3_x3Face f k j i) /\
  Ul_x1Face f' = Ul_x1Face f /\ Ur_x1Face f' = Ur_x1Face f /\
  Ul_x2Face f' = Ul_x2Face f /\ Ur_x2Face f' = Ur_x2Face f /\
  Ul_x3Face f' = Ul_x3Face f /\ Ur_x3Face f' = Ur_x3Face f.
Proof.
  intros f'. subst f'.
  split; [|split; [|split; [|split]]].
  - intros Hin.
    destruct (half_step_cell_written pG k j i Hin)
      as (W1 & W1' & W2 & W2' & W3 & W3').
    unfold divB_faces.
    rewrite !step4b_B1, !step4b_B2, !step4b_B3.
    rewrite W1, W1', W2, W2', W3, W3'.
    pose proof (half_divergence_cancels pG emf1 emf2 emf3 k j i) as Hc.
    unfold Rdiv in *. lra.
  - intros E. now rewrite step4b_B1, E.
  - intros E. now rewrite step4b_B2, E.
  - intros E. now rewrite step4b_B3, E.
  - repeat split;
      match goal with |- ?P (step4b _ _ _ _ _) = _ =>
        apply (step4b_frame pG f emf1 emf2 emf3 P); reflexivity end.
Qed.

(** ** Step 8 *)

Lemma step8b_spec cfg gl ext pG F1 F2 F3 B1 B2 B3 dh a k j i :
  let a' := step8b cfg gl ext pG F1 F2 F3 B1 B2 B3 dh a in
  let old := (fst (fst (fst a)) k j i, snd (fst (fst a)) k j i,
              snd (fst a) k j i, snd a k j i) in
  (fst (fst (fst a')) k j i, snd (fst (fst a')) k j i,
   snd (fst a') k j i, snd a' k j i) =
    if (MHD cfg || not_NULL (CoolingFunc gl)) &&
       in_step8 pG k j i
    then step8b_cell cfg gl ext pG F1 F2 F3 B1 B2 B3 dh k j i
           (fst (fst (fst a)) k j i) (snd (fst (fst a)) k j i)
           (snd (fst a) k j i) (snd a k j i)
    else old.
Proof.
  cbv zeta. unfold step8b.
  destruct (MHD cfg || not_NULL (CoolingFunc gl)); [|reflexivity].
  cbn [andb].
  set (obs := fun a : Arr3 Real * Arr3 Real * Arr3 Real * Arr3 Real =>
                (fst (fst (fst a)) k j i, snd (fst (fst a)) k j i,
                 snd (fst a) k j i, snd a k j i)).
  apply (nest_obs obs _ _ _ _ _ _ _ k j i
           (fun v => step8b_cell cfg gl ext pG F1 F2 F3 B1 B2 B3 dh k j i
                       (fst (fst (fst v))) (snd (fst (fst v)))
                       (snd (fst v)) (snd v))).
  - intros k' j' i' [[[p e1] e2] e3] Hne. unfold obs.
    destruct (step8b_cell cfg gl ext pG F1 F2 F3 B1 B2 B3 dh k' j' i'
                (p k' j' i') (e1 k' j' i') (e2 k' j' i') (e3 k' j' i'))
      as [[[c0 c1] c2] c3].
    cbn [fst snd]. rewrite !upd3_other by congruence. reflexivity.
  - intros [[[p e1] e2] e3]. unfold obs. cbn [fst snd].
    destruct (step8b_cell cfg gl ext pG F1 F2 F3 B1 B2 B3 dh k j i
                (p k j i) (e1 k j i) (e2 k j i) (e3 k j i))
      as [[[c0 c1] c2] c3].
    cbn [fst snd]. now rewrite !upd3_same.
Qed.

(** The cell-centred EMF is a cross product: it has no component along
    either of its factors. *)
Lemma cross_product_orthogonal (b1 b2 b3 m1 m2 m3 d : R) :
  let e1 := (b2 * m3 - b3 * m2) / d in
  let e2 := (b3 * m1 - b1 * m3) / d in
  let e3 := (b1 * m2 - b2 * m1) / d in
  e1 * b1 + e2 * b2 + e3 * b3 = 0 /\ e1 * m1 + e2 * m2 + e3 * m3 = 0.
Proof. cbv zeta. unfold Rdiv. split; ring. Qed.

(** Extra X9.  The cell-centred EMFs that Step 4a stores are those of ideal
    MHD at time n: in every cell of the loop range the vector (emf1_cc,
    emf2_cc, emf3_cc) is perpendicular to the cell-centred field and to the
    momentum.  With MHD, Step 8b replaces them, in the cells of its
    (smaller) range, by a vector that is perpendicular to the half-step
    momentum (M1h, M2h, M3h) and to the average of the half-step interface
    fields; outside that range Step 8b leaves them alone. *)
Theorem X9_cell_centred_emf_is_perpendicular cfg gl ext pG e
    F1 F2 F3 B1 B2 B3 dh ph k j i :
  let e4 := step4a pG e in
  let e1 := fst (fst e4) k j i in
  let e2 := snd (fst e4) k j i in
  let e3 := snd e4 k j i in
  let a8 := step8b cfg gl ext pG F1 F2 F3 B1 B2 B3 dh
                   (ph, fst (fst e4), snd (fst e4), snd e4) in
  let h1 := snd (fst (fst a8)) k j i in
  let h2 := snd (fst a8) k j i in
  let h3 := snd a8 k j i in
  let Mh := step8b_MhEh cfg gl ext pG F1 F2 F3 k j i in
  let M1h := fst (fst (fst Mh)) in
  let M2h := snd (fst (fst Mh)) in
  let M3h := snd (fst Mh) in
  let u := U pG k j i in
  (in_box (ks pG - 2) (ke pG + 2) (js pG - 2) (je pG + 2)
          (is_ pG - 2) (ie pG + 2) k j i = true ->
   e1 * Gas.B1c u + e2 * Gas.B2c u + e3 * Gas.B3c u = 0 /\
   e1 * Gas.M1 u + e2 * Gas.M2 u + e3 * Gas.M3 u = 0) /\
  (MHD cfg = true -> in_step8 pG k j i = true ->
   h1 * (0.5 * (B1 k j i + B1 k j (i+1)%Z)) +
   h2 * (0.5 * (B2 k j i + B2 k (j+1)%Z i)) +
   h3 * (0.5 * (B3 k j i + B3 (k+1)%Z j i)) = 0 /\
   h1 * M1h + h2 * M2h + h3 * M3h = 0) /\
  (in_step8 pG k j i = false -> h1 = e1 /\ h2 = e2 /\ h3 = e3).
Proof.
  cbv zeta.
  destruct (step4a_spec pG e k j i) as (A1 & A2 & A3). cbv zeta in A1, A2, A3.
  pose proof (step8b_spec cfg gl ext pG F1 F2 F3 B1 B2 B3 dh
                (ph, fst (fst (step4a pG e)), snd (fst (step4a pG e)),
                 snd (step4a pG e)) k j i) as H8.
  cbv zeta in H8. cbn [fst snd] in H8.
  split; [|split].
  - intros Hin. rewrite A1, A2, A3, Hin. unfold step4a_cell. cbn [fst snd].
    apply cross_product_orthogonal.
  - intros HM Hin. rewrite HM, Hin in H8. cbn [orb andb] in H8.
    unfold step8b_cell in H8. rewrite HM in H8.
    destruct (step8b_MhEh cfg gl ext pG F1 F2 F3 k j i)
      as [[[M1h M2h] M3h] Eh].
    cbn [fst snd].
    injection H8 as _ E1 E2 E3. rewrite E1, E2, E3.
    apply cross_product_orthogonal.
  - intros Hout. rewrite Hout in H8. rewrite andb_false_r in H8.
    injection H8 as _ E1 E2 E3. auto.
Qed.

(** ** Step 9 and the global etah *)

(** The value that a nest leaves in an observation that every iteration
    overwrites: that of the last iteration, if there is one. *)
Lemma nest_last {S V} (obs : S -> V) (body : Z -> Z -> Z -> S -> S)
      (v : Z -> Z -> Z -> V) klo khi jlo jhi ilo ihi s :
  (forall k j i s, obs (body k j i s) = v k j i) ->
  obs (nest klo khi jlo jhi ilo ihi body s) =
    if ((klo <=? khi) && (jlo <=? jhi) && (ilo <=? ihi))%Z
    then v khi jhi ihi else obs s.
Proof.
  intros H. unfold nest.
  destruct (Z.leb_spec ilo ihi) as [Hi|Hi].
  - destruct (Z.leb_spec jlo jhi) as [Hj|Hj].
    + rewrite andb_true_r, andb_true_r.
      apply (for_loop_last obs _ (fun k => v k jhi ihi)).
      intros k s'.
      rewrite (for_loop_last obs _ (fun j => v k j ihi)).
      * destruct (Z.leb_spec jlo jhi); [reflexivity|lia].
      * intros j s''. rewrite (for_loop_last obs _ (fun i => v k j i)).
        -- destruct (Z.leb_spec ilo ihi); [reflexivity|lia].
        -- intros i s3. apply H.
    + rewrite andb_false_r. cbn [andb].
      apply for_loop_frame. intros k s' _. unfold for_loop.
      replace (Z.to_nat (jhi + 1 - jlo)) with 0%nat by lia. reflexivity.
  - rewrite andb_false_r.
    apply for_loop_frame. intros k s' _.
    apply for_loop_frame. intros j s'' _. unfold for_loop.
    replace (Z.to_nat (ihi + 1 - ilo)) with 0%nat by lia. reflexivity.
Qed.

Section Step9_loop_facts.
Variable cfg : Config.
Variable sol : Solver.
Variable pG : Grid.
Variable fc : Faces.
Variables eta1 eta2 eta3 : Arr3 Real.

(** The generic shape of Steps 9b to 9d. *)
Lemma step9_loop_spec klo khi jlo jhi ilo ihi
      (eh : Z -> Z -> Z -> Real) (fl : Real -> Z -> Z -> Z -> Cons1D.t)
      etah0 F k j i :
  let r := nest klo khi jlo jhi ilo ihi
             (fun k j i (s : Real * Arr3 Cons1D.t) =>
                let etah := if H_CORRECTION cfg then eh k j i else fst s in
                (etah, upd3 (snd s) k j i (fl etah k j i))) (etah0, F) in
  snd r k j i =
    cellwise klo khi jlo jhi ilo ihi
      (fun k j i _ =>
         fl (if H_CORRECTION cfg then eh k j i else etah0) k j i) F k j i /\
  fst r = if H_CORRECTION cfg &&
             ((klo <=? khi) && (jlo <=? jhi) && (ilo <=? ihi))%Z
          then eh khi jhi ihi else etah0.
Proof.
  cbv zeta. rewrite cellwise_spec. destruct (H_CORRECTION cfg); split.
  - apply (nest_obs (fun s : Real * Arr3 Cons1D.t => snd s k j i) _
             klo khi jlo jhi ilo ihi k j i (fun _ => fl (eh k j i) k j i)).
    + intros k' j' i' s Hne. cbn [snd]. now apply upd3_other.
    + intros s. cbn [snd]. apply upd3_same.
  - cbn [andb].
    apply (nest_last (fun s : Real * Arr3 Cons1D.t => fst s) _ eh).
    intros; reflexivity.
  - set (obs := fun s : Real * Arr3 Cons1D.t => (fst s, snd s k j i)).
    assert (H : obs (nest klo khi jlo jhi ilo ihi
                (fun k j i (s : Real * Arr3 Cons1D.t) =>
                   (fst s, upd3 (snd s) k j i (fl (fst s) k j i)))
                (etah0, F)) =
              if in_box klo khi jlo jhi ilo ihi k j i
              then (etah0, fl etah0 k j i) else (etah0, F k j i)).
    { apply (nest_obs obs _ klo khi jlo jhi ilo ihi k j i
               (fun v => (fst v, fl (fst v) k j i))).
      - intros k' j' i' s Hne. unfold obs. cbn [fst snd].
        now rewrite upd3_other.
      - intros s. unfold obs. cbn [fst snd]. now rewrite upd3_same. }
    unfold obs in H.
    destruct (in_box klo khi jlo jhi ilo ihi k j i); now injection H.
  - cbn [andb].
    apply (nest_frame (fun s : Real * Arr3 Cons1D.t => fst s)).
    intros; reflexivity.
Qed.
End Step9_loop_facts.

(** A component of the state of a loop that evolves on its own. *)
Lemma for_n_proj {S T} (f : S -> T) (body : Z -> S -> S) (body' : Z -> T -> T) :
  (forall i s, f (body i s) = body' i (f s)) ->
  forall (n : nat) (lo : Z) (s : S),
    f (for_n n lo body s) = for_n n lo body' (f s).
Proof.
  intros H. induction n as [|n IH]; intros lo s; [reflexivity|].
  cbn [for_n]. now rewrite IH, H.
Qed.

Lemma nest_proj {S T} (f : S -> T) (body : Z -> Z -> Z -> S -> S)
    (body' : Z -> Z -> Z -> T -> T) klo khi jlo jhi ilo ihi (s : S) :
  (forall k j i s, f (body k j i s) = body' k j i (f s)) ->
  f (nest klo khi jlo jhi ilo ihi body s) =
  nest klo khi jlo jhi ilo ihi body' (f s).
Proof.
  intros H. unfold nest, for_loop.
  apply for_n_proj. intros k s1.
  apply for_n_proj. intros j s2.
  apply for_n_proj. intros i s3. apply H.
Qed.

Section Step9_loops_run.
Variable cfg : Config.
Variable sol : Solver.
Variable pG : Grid.
Variable fc : Faces.
Variables eta1 eta2 eta3 : Arr3 Real.

(** In Steps 9b to 9d the Riemann solver is called on the elements of Wl
    and Wr that the iteration has just stored, so that etah and the flux
    array evolve as in a loop that keeps these two states in locals. *)
Lemma step9b_loop_fst etah0 F st :
  fst (step9b_loop cfg sol pG fc eta1 eta2 eta3 (etah0, F, st)) =
  nest (ks pG - 1) (ke pG + 1) (js pG - 1) (je pG + 1) (is_ pG) (ie pG + 1)
    (fun k j i (s : Real * Arr3 Cons1D.t) =>
       let etah := if H_CORRECTION cfg then etah_x1 eta1 eta2 eta3 k j i
                   else fst s in
       (etah, upd3 (snd s) k j i
                (riemann cfg sol etah (Ul_x1Face fc k j i)
                         (Ur_x1Face fc k j i) (B1_x1Face fc k j i))))
    (etah0, F).
Proof.
  unfold step9b_loop.
  apply (nest_proj (fun s : Real * Arr3 Cons1D.t * LR => fst s)).
  intros k j i [[e F'] st']. cbn [fst snd Wl Wr].
  now rewrite !upd1_same.
Qed.

Lemma step9c_loop_fst etah0 F st :
  fst (step9c_loop cfg sol pG fc eta1 eta2 eta3 (etah0, F, st)) =
  nest (ks pG - 1) (ke pG + 1) (js pG) (je pG + 1) (is_ pG - 1) (ie pG + 1)
    (fun k j i (s : Real * Arr3 Cons1D.t) =>
       let etah := if H_CORRECTION cfg then etah_x2 eta1 eta2 eta3 k j i
                   else fst s in
       (etah, upd3 (snd s) k j i
                (riemann cfg sol etah (Ul_x2Face fc k j i)
                         (Ur_x2Face fc k j i) (B2_x2Face fc k j i))))
    (etah0, F).
Proof.
  unfold step9c_loop.
  apply (nest_proj (fun s : Real * Arr3 Cons1D.t * LR => fst s)).
  intros k j i [[e F'] st']. cbn [fst snd Wl Wr].
  now rewrite !upd1_same.
Qed.

Lemma step9d_loop_fst etah0 F st :
  fst (step9d_loop cfg sol pG fc eta1 eta2 eta3 (etah0, F, st)) =
  nest (ks pG) (ke pG + 1) (js pG - 1) (je pG + 1) (is_ pG - 1) (ie pG + 1)
    (fun k j i (s : Real * Arr3 Cons1D.t) =>
       let etah := if H_CORRECTION cfg then etah_x3 eta1 eta2 eta3 k j i
                   else fst s in
       (etah, upd3 (snd s) k j i
                (riemann cfg sol etah (Ul_x3Face fc k j i)
                         (Ur_x3Face fc k j i) (B3_x3Face fc k j i))))
    (etah0, F).
Proof.
  unfold step9d_loop.
  apply (nest_proj (fun s : Real * Arr3 Cons1D.t * LR => fst s)).
  intros k j i [[e F'] st']. cbn [fst snd Wl Wr].
  now rewrite !upd1_same.
Qed.
End Step9_loops_run.

(** Extra X10.  Steps 9b, 9c and 9d, run as loops that store to the global
    etah and to Wl[i], Wr[i] before each Riemann solve, compute the flux
    arrays of the
    functional description of Step 9 (the one whose etah is the maximum of
    nine eta values).  With the H-correction they leave in etah the value
    computed for the last face of the last non-empty loop; without it etah
    is never stored to. *)
Theorem X10_step9_loops_and_etah cfg sol pG fc eta1 eta2 eta3 etah0 F st
    k j i :
  let rb := fst (step9b_loop cfg sol pG fc eta1 eta2 eta3 (etah0, F, st)) in
  let rc := fst (step9c_loop cfg sol pG fc eta1 eta2 eta3 (etah0, F, st)) in
  let rd := fst (step9d_loop cfg sol pG fc eta1 eta2 eta3 (etah0, F, st)) in
  snd rb k j i = step9b cfg sol pG fc eta1 eta2 eta3 etah0 F k j i /\
  snd rc k j i = step9c cfg sol pG fc eta1 eta2 eta3 etah0 F k j i /\
  snd rd k j i = step9d cfg sol pG fc eta1 eta2 eta3 etah0 F k j i /\
  fst rb =
    (if H_CORRECTION cfg &&
        ((ks pG - 1 <=? ke pG + 1) && (js pG - 1 <=? je pG + 1) &&
         (is_ pG <=? ie pG + 1))%Z
     then etah_x1 eta1 eta2 eta3 (ke pG + 1) (je pG + 1) (ie pG + 1)
     else etah0) /\
  fst rc =
    (if H_CORRECTION cfg &&
        ((ks pG - 1 <=? ke pG + 1) && (js pG <=? je pG + 1) &&
         (is_ pG - 1 <=? ie pG + 1))%Z
     then etah_x2 eta1 eta2 eta3 (ke pG + 1) (je pG + 1) (ie pG + 1)
     else etah0) /\
  fst rd =
    (if H_CORRECTION cfg &&
        ((ks pG <=? ke pG + 1) && (js pG - 1 <=? je pG + 1) &&
         (is_ pG - 1 <=? ie pG + 1))%Z
     then etah_x3 eta1 eta2 eta3 (ke pG + 1) (je pG + 1) (ie pG + 1)
     else etah0).
Proof.
  cbv zeta. rewrite step9b_loop_fst, step9c_loop_fst, step9d_loop_fst.
  destruct (step9_loop_spec cfg
              (ks pG - 1) (ke pG + 1) (js pG - 1) (je pG + 1)
              (is_ pG) (ie pG + 1)
              (etah_x1 eta1 eta2 eta3)
              (fun etah k j i => riemann cfg sol etah (Ul_x1Face fc k j i)
                                   (Ur_x1Face fc k j i) (B1_x1Face fc k j i))
              etah0 F k j i) as (B1 & B2).
  destruct (step9_loop_spec cfg
              (ks pG - 1) (ke pG + 1) (js pG) (je pG + 1)
              (is_ pG - 1) (ie pG + 1)
              (etah_x2 eta1 eta2 eta3)
              (fun etah k j i => riemann cfg sol etah (Ul_x2Face fc k j i)
                                   (Ur_x2Face fc k j i) (B2_x2Face fc k j i))
              etah0 F k j i) as (C1 & C2).
  destruct (step9_loop_spec cfg
              (ks pG) (ke pG + 1) (js pG - 1) (je pG + 1)
              (is_ pG - 1) (ie pG + 1)
              (etah_x3 eta1 eta2 eta3)
              (fun etah k j i => riemann cfg sol etah (Ul_x3Face fc k j i)
                                   (Ur_x3Face fc k j i) (B3_x3Face fc k j i))
              etah0 F k j i) as (D1 & D2).
  cbv zeta in B1, B2, C1, C2, D1, D2.
  repeat split.
  - exact B1.
  - exact C1.
  - exact D1.
  - exact B2.
  - exact C2.
  - exact D2.
Qed.

(** Claim C6.  With H_CORRECTION enabled, Step 9a stores
    eta_d = 0.5 |lambda_R - lambda_L| at every face of its loop ranges, with
    lambda_R = Ur.Mx/Ur.d + cfast(Ur) and lambda_L = Ul.Mx/Ul.d - cfast(Ul)
    on the face states it is given; and in the loops of Steps 9b-9d every
    Riemann solve is called with etah equal to the maximum of exactly nine
    eta values: the face's own, and for each of the two transverse axes the
    four faces that bracket it, by the same index pattern for the three
    axes.  In integrate_3d_ctu the face states are the transverse-corrected
    ones that Step 7 leaves, the etas those that Step 9a has just stored,
    and the fluxes so computed are the ones that Steps 10 to 12 read. *)
Theorem C6_h_correction cfg sol pG fc etah0 :
  H_CORRECTION cfg = true ->
  (forall eta k j i,
      step9a_eta1 cfg sol pG fc eta k j i =
        if in_box (ks pG - 1) (ke pG + 1) (js pG - 1) (je pG + 1)
                  (is_ pG - 1) (ie pG + 2) k j i
        then eta_of cfg sol (Ul_x1Face fc k j i) (Ur_x1Face fc k j i)
                    (B1_x1Face fc k j i)
        else eta k j i) /\
  (forall eta k j i,
      step9a_eta2 cfg sol pG fc eta k j i =
        if in_box (ks pG - 1) (ke pG + 1) (js pG - 1) (je pG + 2)
                  (is_ pG - 1) (ie pG + 1) k j i
        then eta_of cfg sol (Ul_x2Face fc k j i) (Ur_x2Face fc k j i)
                    (B2_x2Face fc k j i)
        else eta k j i) /\
  (forall eta k j i,
      step9a_eta3 cfg sol pG fc eta k j i =
        if in_box (ks pG - 1) (ke pG + 2) (js pG - 1) (je pG + 1)
                  (is_ pG - 1) (ie pG + 1) k j i
        then eta_of cfg sol (Ul_x3Face fc k j i) (Ur_x3Face fc k j i)
                    (B3_x3Face fc k j i)
        else eta k j i) /\
  (forall eta1 eta2 eta3 d p,
      List.length (nine_etas (etas eta1 eta2 eta3) d p) = 9%nat /\
      is_max_of (etah_of eta1 eta2 eta3 d p)
                (nine_etas (etas eta1 eta2 eta3) d p)) /\
  (forall eta1 eta2 eta3 F st k j i,
      in_box (ks pG - 1) (ke pG + 1) (js pG - 1) (je pG + 1)
             (is_ pG) (ie pG + 1) k j i = true ->
      snd (fst (step9b_loop cfg sol pG fc eta1 eta2 eta3 (etah0, F, st)))
          k j i =
        riemann cfg sol (etah_of eta1 eta2 eta3 X1 (k, j, i))
                (Ul_x1Face fc k j i) (Ur_x1Face fc k j i) (B1_x1Face fc k j i)) /\
  (forall eta1 eta2 eta3 F st k j i,
      in_box (ks pG - 1) (ke pG + 1) (js pG) (je pG + 1)
             (is_ pG - 1) (ie pG + 1) k j i = true ->
      snd (fst (step9c_loop cfg sol pG fc eta1 eta2 eta3 (etah0, F, st)))
          k j i =
        riemann cfg sol (etah_of eta1 eta2 eta3 X2 (k, j, i))
                (Ul_x2Face fc k j i) (Ur_x2Face fc k j i) (B2_x2Face fc k j i)) /\
  (forall eta1 eta2 eta3 F st k j i,
      in_box (ks pG) (ke pG + 1) (js pG - 1) (je pG + 1)
             (is_ pG - 1) (ie pG + 1) k j i = true ->
      snd (fst (step9d_loop cfg sol pG fc eta1 eta2 eta3 (etah0, F, st)))
          k j i =
        riemann cfg sol (etah_of eta1 eta2 eta3 X3 (k, j, i))
                (Ul_x3Face fc k j i) (Ur_x3Face fc k j i) (B3_x3Face fc k j i)) /\
  (forall gl ext rc w,
      let fc7 := faces_7 cfg gl ext sol rc pG w in
      let sc := scratch_9 cfg gl ext sol rc pG w in
      let e1 := eta1_9 cfg gl ext sol rc pG w in
      let e2 := eta2_9 cfg gl ext sol rc pG w in
      let e3 := eta3_9 cfg gl ext sol rc pG w in
      e1 = step9a_eta1 cfg sol pG fc7 (w_eta1 w) /\
      e2 = step9a_eta2 cfg sol pG fc7 (w_eta2 w) /\
      e3 = step9a_eta3 cfg sol pG fc7 (w_eta3 w) /\
      (forall k j i,
          in_box (ks pG - 1) (ke pG + 1) (js pG - 1) (je pG + 1)
                 (is_ pG) (ie pG + 1) k j i = true ->
          x1Flux sc k j i =
            riemann cfg sol (etah_of e1 e2 e3 X1 (k, j, i))
                    (Ul_x1Face fc7 k j i) (Ur_x1Face fc7 k j i)
                    (B1_x1Face fc7 k j i)) /\
      (forall k j i,
          in_box (ks pG - 1) (ke pG + 1) (js pG) (je pG + 1)
                 (is_ pG - 1) (ie pG + 1) k j i = true ->
          x2Flux sc k j i =
            riemann cfg sol (etah_of e1 e2 e3 X2 (k, j, i))
                    (Ul_x2Face fc7 k j i) (Ur_x2Face fc7 k j i)
                    (B2_x2Face fc7 k j i)) /\
      (forall k j i,
          in_box (ks pG) (ke pG + 1) (js pG - 1) (je pG + 1)
                 (is_ pG - 1) (ie pG + 1) k j i = true ->
          x3Flux sc k j i =
            riemann cfg sol (etah_of e1 e2 e3 X3 (k, j, i))
                    (Ul_x3Face fc7 k j i) (Ur_x3Face fc7 k j i)
                    (B3_x3Face fc7 k j i))).
Proof.
  intros HH.
  assert (Lb : forall fc eta1 eta2 eta3 e0 F st k j i,
      in_box (ks pG - 1) (ke pG + 1) (js pG - 1) (je pG + 1)
             (is_ pG) (ie pG + 1) k j i = true ->
      snd (fst (step9b_loop cfg sol pG fc eta1 eta2 eta3 (e0, F, st))) k j i =
        riemann cfg sol (etah_of eta1 eta2 eta3 X1 (k, j, i))
                (Ul_x1Face fc k j i) (Ur_x1Face fc k j i) (B1_x1Face fc k j i)).
  { intros fc' eta1 eta2 eta3 e0 F st k j i Hin. rewrite step9b_loop_fst.
    rewrite (proj1 (step9_loop_spec cfg _ _ _ _ _ _ (etah_x1 eta1 eta2 eta3)
               (fun etah k j i => riemann cfg sol etah (Ul_x1Face fc' k j i)
                  (Ur_x1Face fc' k j i) (B1_x1Face fc' k j i)) e0 F k j i)).
    now rewrite cellwise_spec, Hin, HH. }
  assert (Lc : forall fc eta1 eta2 eta3 e0 F st k j i,
      in_box (ks pG - 1) (ke pG + 1) (js pG) (je pG + 1)
             (is_ pG - 1) (ie pG + 1) k j i = true ->
      snd (fst (step9c_loop cfg sol pG fc eta1 eta2 eta3 (e0, F, st))) k j i =
        riemann cfg sol (etah_of eta1 eta2 eta3 X2 (k, j, i))
                (Ul_x2Face fc k j i) (Ur_x2Face fc k j i) (B2_x2Face fc k j i)).
  { intros fc' eta1 eta2 eta3 e0 F st k j i Hin. rewrite step9c_loop_fst.
    rewrite (proj1 (step9_loop_spec cfg _ _ _ _ _ _ (etah_x2 eta1 eta2 eta3)
               (fun etah k j i => riemann cfg sol etah (Ul_x2Face fc' k j i)
                  (Ur_x2Face fc' k j i) (B2_x2Face fc' k j i)) e0 F k j i)).
    now rewrite cellwise_spec, Hin, HH. }
  assert (Ld : forall fc eta1 eta2 eta3 e0 F st k j i,
      in_box (ks pG) (ke pG + 1) (js pG - 1) (je pG + 1)
             (is_ pG - 1) (ie pG + 1) k j i = true ->
      snd (fst (step9d_loop cfg sol pG fc eta1 eta2 eta3 (e0, F, st))) k j i =
        riemann cfg sol (etah_of eta1 eta2 eta3 X3 (k, j, i))
                (Ul_x3Face fc k j i) (Ur_x3Face fc k j i) (B3_x3Face fc k j i)).
  { intros fc' eta1 eta2 eta3 e0 F st k j i Hin. rewrite step9d_loop_fst.
    rewrite (proj1 (step9_loop_spec cfg _ _ _ _ _ _ (etah_x3 eta1 eta2 eta3)
               (fun etah k j i => riemann cfg sol etah (Ul_x3Face fc' k j i)
                  (Ur_x3Face fc' k j i) (B3_x3Face fc' k j i)) e0 F k j i)).
    now rewrite cellwise_spec, Hin, HH. }
  split; [intros; unfold step9a_eta1; now rewrite cellwise_spec|].
  split; [intros; unfold step9a_eta2; now rewrite cellwise_spec|].
  split; [intros; unfold step9a_eta3; now rewrite cellwise_spec|].
  split; [intros; split; [reflexivity|apply etah_is_max]|].
  split; [intros; now apply Lb|].
  split; [intros; now apply Lc|].
  split; [intros; now apply Ld|].
  intros gl ext rc w fc7 sc e1 e2 e3.
  subst e1 e2 e3. unfold eta1_9, eta2_9, eta3_9. rewrite HH. fold fc7.
  split; [reflexivity|]. split; [reflexivity|]. split; [reflexivity|].
  subst sc. unfold scratch_9. cbn [x1Flux x2Flux x3Flux].
  unfold flux1_9, flux2_9, flux3_9, eta1_9, eta2_9, eta3_9.
  rewrite HH. fold fc7.
  split; [intros; now apply Lb|].
  split; [intros; now apply Lc|].
  intros; now apply Ld.
Qed.

Lemma C6_witness :
  H_CORRECTION ex_cfg_mhd = true /\
  in_box (ks ex_grid - 1) (ke ex_grid + 1) (js ex_grid - 1) (je ex_grid + 1)
         (is_ ex_grid) (ie ex_grid + 1) 0 0 1 = true /\
  snd (fst (step9b_loop ex_cfg_mhd ex_solver_lf ex_grid ex_faces_jump
              ex_emf ex_emf ex_emf (0, x1Flux ex_scratch, ex_lr)))
      0%Z 0%Z 1%Z =
    riemann ex_cfg_mhd ex_solver_lf (etah_of ex_emf ex_emf ex_emf X1 (0, 0, 1)%Z)
            (Ul_x1Face ex_faces_jump 0%Z 0%Z 1%Z)
            (Ur_x1Face ex_faces_jump 0%Z 0%Z 1%Z)
            (B1_x1Face ex_faces_jump 0%Z 0%Z 1%Z).
Proof.
  split; [reflexivity|]. split; [reflexivity|].
  exact (proj1 (proj2 (proj2 (proj2 (proj2
           (C6_h_correction ex_cfg_mhd ex_solver_lf ex_grid ex_faces_jump 0
              eq_refl)))))
           ex_emf ex_emf ex_emf (x1Flux ex_scratch) ex_lr 0%Z 0%Z 1%Z eq_refl).
Defined.

(** ** The three sweeps (Steps 1 to 3) *)

Lemma step1_is_sweep cfg gl ext sol rc pG etah s :
  step1 cfg gl ext sol rc pG etah s =
  sweep cfg gl sol rc etah (ks pG - 2) (ke pG + 2) (js pG - 2) (je pG + 2)
    (is_ pG) (ie pG)
    (fun k j i => let u := U pG k j i in
                  load_U1d cfg u (Gas.M1 u) (Gas.M2 u) (Gas.M3 u)
                           (Gas.B2c u) (Gas.B3c u))
    (fun k j i => Gas.B1c (U pG k j i)) (fun k j i => B1i pG k j i)
    (fun k j i => k) (fun k j i => j) (fun k j i => i)
    (dt pG) (dt pG / dx1 pG) (step1bc cfg gl ext pG) s.
Proof. reflexivity. Qed.

Lemma step2_is_sweep cfg gl ext sol rc pG etah s :
  step2 cfg gl ext sol rc pG etah s =
  sweep cfg gl sol rc etah (ks pG - 2) (ke pG + 2) (is_ pG - 2) (ie pG + 2)
    (js pG) (je pG)
    (fun k i j => let u := U pG k j i in
                  load_U1d cfg u (Gas.M2 u) (Gas.M3 u) (Gas.M1 u)
                           (Gas.B3c u) (Gas.B1c u))
    (fun k i j => Gas.B2c (U pG k j i)) (fun k i j => B2i pG k j i)
    (fun k i j => k) (fun k i j => j) (fun k i j => i)
    (dt pG) (dt pG / dx2 pG) (step2bc cfg gl ext pG) s.
Proof. reflexivity. Qed.

Lemma step3_is_sweep cfg gl ext sol rc pG etah s :
  step3 cfg gl ext sol rc pG etah s =
  sweep cfg gl sol rc etah (js pG - 2) (je pG + 2) (is_ pG - 2) (ie pG + 2)
    (ks pG) (ke pG)
    (fun j i k => let u := U pG k j i in
                  load_U1d cfg u (Gas.M3 u) (Gas.M1 u) (Gas.M2 u)
                           (Gas.B1c u) (Gas.B2c u))
    (fun j i k => Gas.B3c (U pG k j i)) (fun j i k => B3i pG k j i)
    (fun j i k => k) (fun j i k => j) (fun j i k => i)
    (dt pG) (dt pG / dx3 pG) (step3bc cfg gl ext pG) s.
Proof. reflexivity. Qed.

(** The members of [Sweep] after one store. *)
Ltac sweep_fields :=
  cbn [U1d W lr Bxc Bxi Bface Ul Ur Flux
       set_U1d set_W set_lr set_Bxc set_Bxi set_Bface set_Ul set_Ur set_Flux].

Lemma load_U1d_live cfg u mx my mz by_ bz c c' :
  live_agree cfg (load_U1d cfg u mx my mz by_ bz c)
                 (load_U1d cfg u mx my mz by_ bz c').
Proof.
  unfold load_U1d, live_agree. cbv zeta.
  destruct (BAROTROPIC cfg), (MHD cfg); cbn;
    (repeat split; try reflexivity; try discriminate;
     intros n Hn; rewrite !for_scal_spec;
     apply Nat.ltb_lt in Hn; now rewrite Hn).
Qed.

Section Pencil_facts.
Variable cfg : Config.
Variable gl : Globals.
Variable sol : Solver.
Variable rc : Recon.
Variable etah : Real.
Variables lo hi : Z.
Variable load : Z -> Cons1D.t -> Cons1D.t.
Variables bxc bxi : Z -> Real.
Variables K J I : Z -> Z.
Variables dt_ dtodx : Real.
Variable src : Arr1 Prim1D.t -> LR -> LR.

Let pen_a := pencil_a cfg gl lo hi load bxc bxi K J I.
Let pen_prim := pencil_prim cfg gl sol lo hi.
Let pen_lr := pencil_lr cfg rc lo hi dt_ dtodx.
Let pen_d := pencil_d cfg sol rc etah lo hi K J I.
Let pen := pencil cfg gl sol rc etah lo hi load bxc bxi K J I dt_ dtodx src.

Let llo := (lo - nghost gl)%Z.
Let lhi := (hi + nghost gl)%Z.

(** Two elements of the pencil lie at two positions of the 3D arrays. *)
Hypothesis Hinj : forall f f', K f = K f' -> J f = J f' -> I f = I f' -> f = f'.

Lemma pencil_a_U1d s f :
  U1d (pen_a s) f = if in_range llo lhi f then load f (U1d s f) else U1d s f.
Proof.
  unfold pen_a, pencil_a.
  apply (for_loop_obs (fun s : Sweep => U1d s f) _ f (load f)).
  - intros i t Hi Hne. cbv zeta. destruct (MHD cfg); sweep_fields;
      now apply upd1_other.
  - intros t Hi. cbv zeta. destruct (MHD cfg); sweep_fields; apply upd1_same.
Qed.

Lemma pencil_a_Bxc s f :
  MHD cfg = true ->
  Bxc (pen_a s) f = if in_range llo lhi f then bxc f else Bxc s f.
Proof.
  intros HM. unfold pen_a, pencil_a. rewrite HM.
  apply (for_loop_obs (fun s : Sweep => Bxc s f) _ f (fun _ => bxc f)).
  - intros i t Hi Hne. sweep_fields. now apply upd1_other.
  - intros t Hi. sweep_fields. apply upd1_same.
Qed.

Lemma pencil_a_Bxi s f :
  MHD cfg = true ->
  Bxi (pen_a s) f = if in_range llo lhi f then bxi f else Bxi s f.
Proof.
  intros HM. unfold pen_a, pencil_a. rewrite HM.
  apply (for_loop_obs (fun s : Sweep => Bxi s f) _ f (fun _ => bxi f)).
  - intros i t Hi Hne. sweep_fields. now apply upd1_other.
  - intros t Hi. sweep_fields. apply upd1_same.
Qed.

Lemma pencil_a_Bface_at s f :
  MHD cfg = true ->
  Bface (pen_a s) (K f) (J f) (I f) =
    if in_range llo lhi f then bxi f else Bface s (K f) (J f) (I f).
Proof.
  intros HM. unfold pen_a, pencil_a. rewrite HM.
  apply (for_loop_obs (fun s : Sweep => Bface s (K f) (J f) (I f)) _ f
                      (fun _ => bxi f)).
  - intros i t Hi Hne. sweep_fields. apply upd3_other.
    intros [= E1 E2 E3]. apply Hne. symmetry. now apply Hinj.
  - intros t Hi. sweep_fields. apply upd3_same.
Qed.

Lemma pencil_a_Bface_off s k j i :
  (forall f, (llo <= f <= lhi)%Z -> (K f, J f, I f) <> (k, j, i)) ->
  Bface (pen_a s) k j i = Bface s k j i.
Proof.
  intros Hoff. unfold pen_a, pencil_a.
  apply (for_loop_frame (fun s : Sweep => Bface s k j i)).
  intros f t Hf. cbv zeta. destruct (MHD cfg); sweep_fields; [|reflexivity].
  apply upd3_other. intros E. apply (Hoff f Hf). now symmetry.
Qed.

Lemma pencil_a_no_MHD s :
  MHD cfg = false ->
  Bxc (pen_a s) = Bxc s /\ Bxi (pen_a s) = Bxi s /\ Bface (pen_a s) = Bface s.
Proof.
  intros HM. unfold pen_a, pencil_a. rewrite HM.
  repeat split.
  - apply (for_loop_frame (fun s : Sweep => Bxc s)). reflexivity.
  - apply (for_loop_frame (fun s : Sweep => Bxi s)). reflexivity.
  - apply (for_loop_frame (fun s : Sweep => Bface s)). reflexivity.
Qed.

(** Step a stores to U1d, Bxc, Bxi and the interface field only. *)
Lemma pencil_a_frame s :
  W (pen_a s) = W s /\ lr (pen_a s) = lr s /\
  Ul (pen_a s) = Ul s /\ Ur (pen_a s) = Ur s /\ Flux (pen_a s) = Flux s.
Proof.
  unfold pen_a, pencil_a.
  repeat split;
    [ apply (for_loop_frame (fun s : Sweep => W s))
    | apply (for_loop_frame (fun s : Sweep => lr s))
    | apply (for_loop_frame (fun s : Sweep => Ul s))
    | apply (for_loop_frame (fun s : Sweep => Ur s))
    | apply (for_loop_frame (fun s : Sweep => Flux s)) ];
    intros f t Hf; cbv zeta; destruct (MHD cfg); reflexivity.
Qed.

(** The conversion to primitive variables stores to W only. *)
Lemma pencil_prim_frame s :
  U1d (pen_prim s) = U1d s /\ lr (pen_prim s) = lr s /\
  Bxc (pen_prim s) = Bxc s /\ Bxi (pen_prim s) = Bxi s /\
  Bface (pen_prim s) = Bface s /\
  Ul (pen_prim s) = Ul s /\ Ur (pen_prim s) = Ur s /\
  Flux (pen_prim s) = Flux s.
Proof.
  unfold pen_prim, pencil_prim.
  repeat split;
    [ apply (for_loop_frame (fun s : Sweep => U1d s))
    | apply (for_loop_frame (fun s : Sweep => lr s))
    | apply (for_loop_frame (fun s : Sweep => Bxc s))
    | apply (for_loop_frame (fun s : Sweep => Bxi s))
    | apply (for_loop_frame (fun s : Sweep => Bface s))
    | apply (for_loop_frame (fun s : Sweep => Ul s))
    | apply (for_loop_frame (fun s : Sweep => Ur s))
    | apply (for_loop_frame (fun s : Sweep => Flux s)) ];
    intros f t Hf; reflexivity.
Qed.

Lemma pencil_prim_W s f :
  W (pen_prim s) f =
    if in_range llo lhi f
    then Cons1D_to_Prim1D sol (U1d s f) (MHDARG cfg (Bxc s f))
    else W s f.
Proof.
  unfold pen_prim, pencil_prim.
  pose (obs := fun t : Sweep => (U1d t, Bxc t, W t f)).
  pose (g := fun o : Arr1 Cons1D.t * Arr1 Real * Prim1D.t =>
               (fst (fst o), snd (fst o),
                Cons1D_to_Prim1D sol (fst (fst o) f)
                                 (MHDARG cfg (snd (fst o) f)))).
  assert (H : obs (for_loop llo lhi
                (fun f s => set_W s (upd1 (W s) f
                   (Cons1D_to_Prim1D sol (U1d s f) (MHDARG cfg (Bxc s f)))))
                s) =
              if in_range llo lhi f then g (obs s) else obs s).
  { apply for_loop_obs.
    - intros i t Hi Hne. unfold obs. sweep_fields. now rewrite upd1_other.
    - intros t Hi. unfold obs, g. sweep_fields. cbn [fst snd].
      now rewrite upd1_same. }
  apply (f_equal snd) in H. unfold obs, g in H. cbn [fst snd] in H.
  fold llo lhi. destruct (in_range llo lhi f); exact H.
Qed.

(** Step d stores to the face states and to the fluxes only. *)
Lemma pencil_d_frame s :
  U1d (pen_d s) = U1d s /\ W (pen_d s) = W s /\ lr (pen_d s) = lr s /\
  Bxc (pen_d s) = Bxc s /\ Bxi (pen_d s) = Bxi s /\
  Bface (pen_d s) = Bface s.
Proof.
  unfold pen_d, pencil_d.
  repeat split;
    [ apply (for_loop_frame (fun s : Sweep => U1d s))
    | apply (for_loop_frame (fun s : Sweep => W s))
    | apply (for_loop_frame (fun s : Sweep => lr s))
    | apply (for_loop_frame (fun s : Sweep => Bxc s))
    | apply (for_loop_frame (fun s : Sweep => Bxi s))
    | apply (for_loop_frame (fun s : Sweep => Bface s)) ];
    intros f t Hf; reflexivity.
Qed.

Lemma pencil_d_off s k j i :
  (forall f, (lo - 1 <= f <= hi + 2)%Z -> (K f, J f, I f) <> (k, j, i)) ->
  Ul (pen_d s) k j i = Ul s k j i /\ Ur (pen_d s) k j i = Ur s k j i /\
  Flux (pen_d s) k j i = Flux s k j i.
Proof.
  intros Hoff. unfold pen_d, pencil_d.
  repeat split;
    [ apply (for_loop_frame (fun s : Sweep => Ul s k j i))
    | apply (for_loop_frame (fun s : Sweep => Ur s k j i))
    | apply (for_loop_frame (fun s : Sweep => Flux s k j i)) ];
    intros f t Hf; cbv zeta; sweep_fields; apply upd3_other;
    intros E; apply (Hoff f Hf); now symmetry.
Qed.

Lemma pencil_d_at s f :
  (lo - 1 <= f <= hi + 2)%Z ->
  let ul := Prim1D_to_Cons1D rc (Wl (lr s) f) (MHDARG cfg (Bxi s f)) in
  let ur := Prim1D_to_Cons1D rc (Wr (lr s) f) (MHDARG cfg (Bxi s f)) in
  Ul (pen_d s) (K f) (J f) (I f) = ul /\
  Ur (pen_d s) (K f) (J f) (I f) = ur /\
  Flux (pen_d s) (K f) (J f) (I f) =
    GET_FLUXES sol etah ul ur (Wl (lr s) f) (Wr (lr s) f)
               (MHDARG cfg (Bface s (K f) (J f) (I f))).
Proof.
  intros Hf. cbv zeta.
  pose (obs := fun t : Sweep =>
    (lr t, Bxi t, Bface t,
     (Ul t (K f) (J f) (I f), Ur t (K f) (J f) (I f),
      Flux t (K f) (J f) (I f)))).
  pose (g := fun o : LR * Arr1 Real * Arr3 Real *
                     (Cons1D.t * Cons1D.t * Cons1D.t) =>
    let l := fst (fst (fst o)) in
    let bi := snd (fst (fst o)) in
    let bf := snd (fst o) in
    let ul := Prim1D_to_Cons1D rc (Wl l f) (MHDARG cfg (bi f)) in
    let ur := Prim1D_to_Cons1D rc (Wr l f) (MHDARG cfg (bi f)) in
    (l, bi, bf,
     (ul, ur,
      GET_FLUXES sol etah ul ur (Wl l f) (Wr l f)
                 (MHDARG cfg (bf (K f) (J f) (I f)))))).
  assert (H : obs (pen_d s) =
              if in_range (lo - 1) (hi + 2) f then g (obs s) else obs s).
  { unfold pen_d, pencil_d. apply for_loop_obs.
    - intros i t Hi Hne. unfold obs. cbv zeta. sweep_fields.
      rewrite !upd3_other; [reflexivity| | |];
        intros [= E1 E2 E3]; apply Hne; now apply Hinj.
    - intros t Hi. unfold obs, g. cbv zeta. sweep_fields. cbn [fst snd].
      now rewrite !upd3_same. }
  assert (Hin : in_range (lo - 1) (hi + 2) f = true)
    by now apply in_range_true.
  rewrite Hin in H. unfold obs, g in H. cbv zeta in H. cbn [fst snd] in H.
  injection H as _ _ _ E1 E2 E3. auto.
Qed.

(** *** The whole pencil *)

Lemma pencil_Bface_at s f :
  MHD cfg = true -> (llo <= f <= lhi)%Z ->
  Bface (pen s) (K f) (J f) (I f) = bxi f.
Proof.
  intros HM Hf. unfold pen, pencil. cbv zeta.
  fold pen_a pen_prim pen_lr pen_d.
  destruct (pencil_d_frame
              (set_lr (pen_lr (pen_prim (pen_a s)))
                 (src (W (pen_lr (pen_prim (pen_a s))))
                      (lr (pen_lr (pen_prim (pen_a s)))))))
    as (_ & _ & _ & _ & _ & ->).
  unfold pen_lr, pencil_lr. sweep_fields.
  destruct (pencil_prim_frame (pen_a s)) as (_ & _ & _ & _ & -> & _).
  rewrite pencil_a_Bface_at by assumption.
  apply in_range_true in Hf. now rewrite Hf.
Qed.

Lemma pencil_Bface_off s k j i :
  (forall f, (llo <= f <= lhi)%Z -> (K f, J f, I f) <> (k, j, i)) ->
  Bface (pen s) k j i = Bface s k j i.
Proof.
  intros Hoff. unfold pen, pencil. cbv zeta.
  fold pen_a pen_prim pen_lr pen_d.
  destruct (pencil_d_frame
              (set_lr (pen_lr (pen_prim (pen_a s)))
                 (src (W (pen_lr (pen_prim (pen_a s))))
                      (lr (pen_lr (pen_prim (pen_a s)))))))
    as (_ & _ & _ & _ & _ & ->).
  unfold pen_lr, pencil_lr. sweep_fields.
  destruct (pencil_prim_frame (pen_a s)) as (_ & _ & _ & _ & -> & _).
  now apply pencil_a_Bface_off.
Qed.

Lemma pencil_Bface_no_MHD s :
  MHD cfg = false -> Bface (pen s) = Bface s.
Proof.
  intros HM. unfold pen, pencil. cbv zeta.
  fold pen_a pen_prim pen_lr pen_d.
  destruct (pencil_d_frame
              (set_lr (pen_lr (pen_prim (pen_a s)))
                 (src (W (pen_lr (pen_prim (pen_a s))))
                      (lr (pen_lr (pen_prim (pen_a s)))))))
    as (_ & _ & _ & _ & _ & ->).
  unfold pen_lr, pencil_lr. sweep_fields.
  destruct (pencil_prim_frame (pen_a s)) as (_ & _ & _ & _ & -> & _).
  now destruct (pencil_a_no_MHD s HM) as (_ & _ & ->).
Qed.

Lemma pencil_off s k j i :
  (forall f, (lo - 1 <= f <= hi + 2)%Z -> (K f, J f, I f) <> (k, j, i)) ->
  Ul (pen s) k j i = Ul s k j i /\ Ur (pen s) k j i = Ur s k j i /\
  Flux (pen s) k j i = Flux s k j i.
Proof.
  intros Hoff. unfold pen, pencil. cbv zeta.
  fold pen_a pen_prim pen_lr pen_d.
  destruct (pencil_d_off
              (set_lr (pen_lr (pen_prim (pen_a s)))
                 (src (W (pen_lr (pen_prim (pen_a s))))
                      (lr (pen_lr (pen_prim (pen_a s))))))
              k j i Hoff) as (-> & -> & ->).
  unfold pen_lr, pencil_lr. sweep_fields.
  destruct (pencil_prim_frame (pen_a s))
    as (_ & _ & _ & _ & _ & -> & -> & ->).
  destruct (pencil_a_frame s) as (_ & _ & -> & -> & ->).
  auto.
Qed.

(** The states and fluxes that a pencil stores are computed from the
    values it has loaded, and from nothing that the vectors and arrays held
    before. *)
Hypothesis Hng : (2 <= nghost gl)%Z.
Hypothesis Hload : forall f c c', live_agree cfg (load f c) (load f c').
Hypothesis Hc2p : c2p_reads_members cfg sol.
Hypothesis Hlr : lr_states_reads_pencil gl rc.
Hypothesis Hsrc : src_reads_neighbours src.

Lemma pencil_W_loaded s s' f :
  (llo <= f <= lhi)%Z ->
  W (pen_prim (pen_a s)) f = W (pen_prim (pen_a s')) f.
Proof.
  intros Hf. rewrite !pencil_prim_W. fold llo lhi.
  apply in_range_true in Hf. rewrite Hf.
  rewrite !pencil_a_U1d. rewrite Hf.
  rewrite (Hc2p (load f (U1d s f)) (load f (U1d s' f))
                (MHDARG cfg (Bxc (pen_a s) f))) by apply Hload.
  f_equal. unfold MHDARG. destruct (MHD cfg) eqn:HM; [|reflexivity].
  rewrite !pencil_a_Bxc by assumption. now rewrite Hf.
Qed.

Lemma pencil_lr_loaded s s' f :
  (lo - 1 <= f <= hi + 2)%Z ->
  let t := pen_lr (pen_prim (pen_a s)) in
  let t' := pen_lr (pen_prim (pen_a s')) in
  Wl (src (W t) (lr t)) f = Wl (src (W t') (lr t')) f /\
  Wr (src (W t) (lr t)) f = Wr (src (W t') (lr t')) f.
Proof.
  intros Hf t t'.
  assert (HW : forall i, (llo <= i <= lhi)%Z -> W t i = W t' i).
  { intros i Hi. unfold t, t', pen_lr, pencil_lr. sweep_fields.
    now apply pencil_W_loaded. }
  assert (HL : Wl (lr t) f = Wl (lr t') f /\ Wr (lr t) f = Wr (lr t') f).
  { unfold t, t', pen_lr, pencil_lr. sweep_fields.
    apply Hlr.
    - intros i Hi. apply pencil_W_loaded. unfold llo, lhi. lia.
    - unfold MHDARG_Bxc, pencils_agree.
      destruct (MHD cfg) eqn:HM; [|exact Logic.I].
      intros i Hi.
      destruct (pencil_prim_frame (pen_a s)) as (_ & _ & -> & _).
      destruct (pencil_prim_frame (pen_a s')) as (_ & _ & -> & _).
      rewrite !pencil_a_Bxc by assumption.
      assert (E : in_range llo lhi i = true)
        by (apply in_range_true; unfold llo, lhi; lia).
      now rewrite E.
    - lia. }
  apply Hsrc.
  - apply HW. unfold llo, lhi. lia.
  - apply HW. unfold llo, lhi. lia.
  - apply HL.
  - apply HL.
Qed.

Lemma pencil_agree s s' f :
  (lo - 1 <= f <= hi + 2)%Z ->
  Ul (pen s) (K f) (J f) (I f) = Ul (pen s') (K f) (J f) (I f) /\
  Ur (pen s) (K f) (J f) (I f) = Ur (pen s') (K f) (J f) (I f) /\
  Flux (pen s) (K f) (J f) (I f) = Flux (pen s') (K f) (J f) (I f).
Proof.
  intros Hf. unfold pen, pencil. cbv zeta.
  fold pen_a pen_prim pen_lr pen_d.
  set (t := pen_lr (pen_prim (pen_a s))).
  set (t' := pen_lr (pen_prim (pen_a s'))).
  destruct (pencil_d_at (set_lr t (src (W t) (lr t))) f Hf)
    as (E1 & E2 & E3).
  destruct (pencil_d_at (set_lr t' (src (W t') (lr t'))) f Hf)
    as (E1' & E2' & E3').
  cbv zeta in E1, E2, E3, E1', E2', E3'.
  rewrite E1, E2, E3, E1', E2', E3'. sweep_fields.
  destruct (pencil_lr_loaded s s' f Hf) as (L & R).
  fold t t' in L, R. rewrite L, R.
  assert (Hf' : in_range llo lhi f = true)
    by (apply in_range_true; unfold llo, lhi; lia).
  assert (EB : MHDARG cfg (Bxi t f) = MHDARG cfg (Bxi t' f)).
  { unfold MHDARG. destruct (MHD cfg) eqn:HM; [|reflexivity].
    unfold t, t', pen_lr, pencil_lr. sweep_fields.
    destruct (pencil_prim_frame (pen_a s)) as (_ & _ & _ & -> & _).
    destruct (pencil_prim_frame (pen_a s')) as (_ & _ & _ & -> & _).
    rewrite !pencil_a_Bxi by assumption. now rewrite Hf'. }
  assert (EF : MHDARG cfg (Bface t (K f) (J f) (I f)) =
               MHDARG cfg (Bface t' (K f) (J f) (I f))).
  { unfold MHDARG. destruct (MHD cfg) eqn:HM; [|reflexivity].
    unfold t, t', pen_lr, pencil_lr. sweep_fields.
    destruct (pencil_prim_frame (pen_a s)) as (_ & _ & _ & _ & -> & _).
    destruct (pencil_prim_frame (pen_a s')) as (_ & _ & _ & _ & -> & _).
    rewrite !pencil_a_Bface_at by assumption. now rewrite Hf'. }
  rewrite EB, EF. auto.
Qed.
End Pencil_facts.

(** What two nested loops do to an observation that only the iteration
    (a0, b0) touches. *)
Lemma for2_obs {S V} (obs : S -> V) (body : Z -> Z -> S -> S)
      alo ahi blo bhi a0 b0 (g : V -> V) (s : S) :
  (forall a b s, (a, b) <> (a0, b0) -> obs (body a b s) = obs s) ->
  (forall s, obs (body a0 b0 s) = g (obs s)) ->
  obs (for_loop alo ahi (fun a => for_loop blo bhi (fun b => body a b)) s) =
    if in_range alo ahi a0 && in_range blo bhi b0 then g (obs s) else obs s.
Proof.
  intros Hoth Hat.
  rewrite (for_loop_obs obs _ a0
             (fun v => if in_range blo bhi b0 then g v else v)).
  - now destruct (in_range alo ahi a0).
  - intros a s' Ha Hne. apply for_loop_frame. intros b s'' Hb.
    apply Hoth. congruence.
  - intros s' Ha. rewrite (for_loop_obs obs _ b0 g).
    + reflexivity.
    + intros b s'' Hb Hne. apply Hoth. congruence.
    + intros s'' Hb. apply Hat.
Qed.

Lemma for2_frame {S V} (obs : S -> V) (body : Z -> Z -> S -> S)
      alo ahi blo bhi (s : S) :
  (forall a b s, (alo <= a <= ahi)%Z -> (blo <= b <= bhi)%Z ->
                 obs (body a b s) = obs s) ->
  obs (for_loop alo ahi (fun a => for_loop blo bhi (fun b => body a b)) s) =
    obs s.
Proof.
  intros H. apply for_loop_frame. intros a s' Ha.
  apply for_loop_frame. intros b s'' Hb. now apply H.
Qed.

Section Sweep_facts.
Variable cfg : Config.
Variable gl : Globals.
Variable sol : Solver.
Variable rc : Recon.
Variable etah : Real.
Variables alo ahi blo bhi lo hi : Z.
Variable load : Z -> Z -> Z -> Cons1D.t -> Cons1D.t.
Variables bxc bxi : Z -> Z -> Z -> Real.
Variables K J I : Z -> Z -> Z -> Z.
Variables dt_ dtodx : Real.
Variable src : Z -> Z -> Arr1 Prim1D.t -> LR -> LR.

Let sw := sweep cfg gl sol rc etah alo ahi blo bhi lo hi load bxc bxi K J I
                dt_ dtodx src.
Let pen a b := pencil cfg gl sol rc etah lo hi (load a b) (bxc a b) (bxi a b)
                      (K a b) (J a b) (I a b) dt_ dtodx (src a b).

(** Two elements of two pencils lie at two positions of the 3D arrays. *)
Hypothesis Hpos : forall a b f a' b' f',
  K a b f = K a' b' f' -> J a b f = J a' b' f' -> I a b f = I a' b' f' ->
  a = a' /\ b = b' /\ f = f'.

Lemma pos_inj a b f f' :
  K a b f = K a b f' -> J a b f = J a b f' -> I a b f = I a b f' -> f = f'.
Proof. intros E1 E2 E3. now destruct (Hpos a b f a b f' E1 E2 E3) as (_ & _ & ?). Qed.

Lemma sweep_Bface_at s a b f :
  MHD cfg = true ->
  (alo <= a <= ahi)%Z -> (blo <= b <= bhi)%Z ->
  (lo - nghost gl <= f <= hi + nghost gl)%Z ->
  Bface (sw s) (K a b f) (J a b f) (I a b f) = bxi a b f.
Proof.
  intros HM Ha Hb Hf. unfold sw, sweep.
  rewrite (for2_obs (fun t : Sweep => Bface t (K a b f) (J a b f) (I a b f))
             _ alo ahi blo bhi a b (fun _ => bxi a b f)).
  - apply in_range_true in Ha, Hb. now rewrite Ha, Hb.
  - intros a' b' t Hne. apply pencil_Bface_off. intros f' Hf' [= E1 E2 E3].
    destruct (Hpos _ _ _ _ _ _ E1 E2 E3) as (-> & -> & _). now apply Hne.
  - intros t. apply pencil_Bface_at; try assumption. apply pos_inj.
Qed.

Lemma sweep_Bface_off s k j i :
  (forall a b f, (alo <= a <= ahi)%Z -> (blo <= b <= bhi)%Z ->
                 (lo - nghost gl <= f <= hi + nghost gl)%Z ->
                 (K a b f, J a b f, I a b f) <> (k, j, i)) ->
  Bface (sw s) k j i = Bface s k j i.
Proof.
  intros Hoff. unfold sw, sweep.
  apply (for2_frame (fun t : Sweep => Bface t k j i)).
  intros a b t Ha Hb. apply pencil_Bface_off. intros f Hf.
  now apply Hoff.
Qed.

Lemma sweep_Bface_no_MHD s : MHD cfg = false -> Bface (sw s) = Bface s.
Proof.
  intros HM. unfold sw, sweep.
  apply (for2_frame (fun t : Sweep => Bface t)).
  intros a b t _ _. now apply pencil_Bface_no_MHD.
Qed.

Lemma sweep_off s k j i :
  (forall a b f, (alo <= a <= ahi)%Z -> (blo <= b <= bhi)%Z ->
                 (lo - 1 <= f <= hi + 2)%Z ->
                 (K a b f, J a b f, I a b f) <> (k, j, i)) ->
  Ul (sw s) k j i = Ul s k j i /\ Ur (sw s) k j i = Ur s k j i /\
  Flux (sw s) k j i = Flux s k j i.
Proof.
  intros Hoff. unfold sw, sweep.
  assert (H : (fun t : Sweep => (Ul t k j i, Ur t k j i, Flux t k j i))
                (for_loop alo ahi (fun a => for_loop blo bhi (fun b =>
                   pen a b)) s) =
              (Ul s k j i, Ur s k j i, Flux s k j i)).
  { apply (for2_frame (fun t : Sweep => (Ul t k j i, Ur t k j i, Flux t k j i))).
    intros a b t Ha Hb.
    destruct (pencil_off cfg gl sol rc etah lo hi (load a b) (bxc a b)
                (bxi a b) (K a b) (J a b) (I a b) dt_ dtodx (src a b)
                t k j i) as (E1 & E2 & E3).
    - intros f Hf. now apply Hoff.
    - unfold pen. now rewrite E1, E2, E3. }
  cbv beta in H. unfold pen in H. injection H as E1 E2 E3. auto.
Qed.

Hypothesis Hng : (2 <= nghost gl)%Z.
Hypothesis Hload : forall a b f c c',
  live_agree cfg (load a b f c) (load a b f c').
Hypothesis Hc2p : c2p_reads_members cfg sol.
Hypothesis Hlr : lr_states_reads_pencil gl rc.
Hypothesis Hsrc : forall a b, src_reads_neighbours (src a b).

(** The states and the fluxes that a sweep stores do not depend on what
    the vectors and arrays held before. *)
Lemma sweep_agree s s' a b f :
  (alo <= a <= ahi)%Z -> (blo <= b <= bhi)%Z -> (lo - 1 <= f <= hi + 2)%Z ->
  Ul (sw s) (K a b f) (J a b f) (I a b f) =
    Ul (sw s') (K a b f) (J a b f) (I a b f) /\
  Ur (sw s) (K a b f) (J a b f) (I a b f) =
    Ur (sw s') (K a b f) (J a b f) (I a b f) /\
  Flux (sw s) (K a b f) (J a b f) (I a b f) =
    Flux (sw s') (K a b f) (J a b f) (I a b f).
Proof.
  intros Ha Hb Hf.
  pose (obs := fun t : Sweep =>
    (Ul t (K a b f) (J a b f) (I a b f), Ur t (K a b f) (J a b f) (I a b f),
     Flux t (K a b f) (J a b f) (I a b f))).
  assert (H : forall t, obs (sw t) = obs (pen a b s)).
  { intros t. unfold sw, sweep.
    rewrite (for2_obs obs _ alo ahi blo bhi a b (fun _ => obs (pen a b s))).
    - apply in_range_true in Ha, Hb. now rewrite Ha, Hb.
    - intros a' b' t' Hne. unfold obs.
      destruct (pencil_off cfg gl sol rc etah lo hi (load a' b') (bxc a' b')
                  (bxi a' b') (K a' b') (J a' b') (I a' b') dt_ dtodx
                  (src a' b') t'
                  (K a b f) (J a b f) (I a b f)) as (E1 & E2 & E3).
      + intros f' Hf' [= E1 E2 E3].
        destruct (Hpos _ _ _ _ _ _ E1 E2 E3) as (-> & -> & _).
        now apply Hne.
      + now rewrite E1, E2, E3.
    - intros t'. unfold obs, pen.
      destruct (pencil_agree cfg gl sol rc etah lo hi (load a b) (bxc a b)
                  (bxi a b) (K a b) (J a b) (I a b) dt_ dtodx (src a b)
                  (pos_inj a b) Hng (Hload a b) Hc2p Hlr (Hsrc a b)
                  t' s f Hf) as (E1 & E2 & E3).
      now rewrite E1, E2, E3. }
  assert (E : obs (sw s) = obs (sw s')) by now rewrite !H.
  unfold obs in E. injection E as E1 E2 E3. auto.
Qed.
End Sweep_facts.

(** *** The source terms of Steps 1b-1c, 2b-2c, 3b-3c *)

Lemma lr_loop_agree lo hi fl fr fl' fr' st st' i :
  (forall w, fl i w = fl' i w) -> (forall w, fr i w = fr' i w) ->
  Wl st i = Wl st' i /\ Wr st i = Wr st' i ->
  Wl (lr_loop lo hi fl fr st) i = Wl (lr_loop lo hi fl' fr' st') i /\
  Wr (lr_loop lo hi fl fr st) i = Wr (lr_loop lo hi fl' fr' st') i.
Proof.
  intros Hl Hr (EL & ER). rewrite !lr_loop_Wl, !lr_loop_Wr.
  destruct (in_range lo hi i); [|auto].
  now rewrite EL, ER, Hl, Hr.
Qed.

Ltac lr_stages HW1 HW :=
  repeat match goal with
         | |- context [if ?b then _ else _] => destruct b
         | |- context [match ?o with Some _ => _ | None => _ end] => destruct o
         end;
  repeat first [ split; assumption
               | apply lr_loop_agree;
                 [ intros w; cbv beta zeta; now rewrite ?HW1, ?HW
                 | intros w; cbv beta zeta; now rewrite ?HW1, ?HW | ] ].

Lemma step1bc_reads_neighbours cfg gl ext pG k j :
  src_reads_neighbours (step1bc cfg gl ext pG k j).
Proof.
  intros W W' st st' i HW1 HW EL ER. unfold step1bc. cbv zeta. lr_stages HW1 HW.
Qed.

Lemma step2bc_reads_neighbours cfg gl ext pG k i :
  src_reads_neighbours (step2bc cfg gl ext pG k i).
Proof.
  intros W W' st st' j HW1 HW EL ER. unfold step2bc. cbv zeta. lr_stages HW1 HW.
Qed.

Lemma step3bc_reads_neighbours cfg gl ext pG j i :
  src_reads_neighbours (step3bc cfg gl ext pG j i).
Proof.
  intros W W' st st' k HW1 HW EL ER. unfold step3bc. cbv zeta. lr_stages HW1 HW.
Qed.

(** *** Steps 1, 2 and 3 *)

Ltac box_hyp H :=
  unfold in_sweep1, in_sweep2, in_sweep3, in_load1, in_load2, in_load3 in H;
  first [ apply in_box_true in H
        | unfold in_box in H;
          rewrite !andb_false_iff, !in_range_false in H ].

Section Steps123_facts.
Variable cfg : Config.
Variable gl : Globals.
Variable ext : Extern.
Variable sol : Solver.
Variable rc : Recon.
Variable pG : Grid.
Variable etah : Real.

Let st1 := step1 cfg gl ext sol rc pG etah.
Let st2 := step2 cfg gl ext sol rc pG etah.
Let st3 := step3 cfg gl ext sol rc pG etah.

(** The sweeps store the face states and the fluxes in their ranges
    only. *)
Lemma step1_off s k j i :
  in_sweep1 pG k j i = false ->
  Ul (st1 s) k j i = Ul s k j i /\ Ur (st1 s) k j i = Ur s k j i /\
  Flux (st1 s) k j i = Flux s k j i.
Proof.
  intros Hout. unfold st1. rewrite step1_is_sweep. apply sweep_off.
  intros a b f Ha Hb Hf [= -> -> ->]. box_hyp Hout. lia.
Qed.

Lemma step2_off s k j i :
  in_sweep2 pG k j i = false ->
  Ul (st2 s) k j i = Ul s k j i /\ Ur (st2 s) k j i = Ur s k j i /\
  Flux (st2 s) k j i = Flux s k j i.
Proof.
  intros Hout. unfold st2. rewrite step2_is_sweep. apply sweep_off.
  intros a b f Ha Hb Hf [= -> -> ->]. box_hyp Hout. lia.
Qed.

Lemma step3_off s k j i :
  in_sweep3 pG k j i = false ->
  Ul (st3 s) k j i = Ul s k j i /\ Ur (st3 s) k j i = Ur s k j i /\
  Flux (st3 s) k j i = Flux s k j i.
Proof.
  intros Hout. unfold st3. rewrite step3_is_sweep. apply sweep_off.
  intros a b f Ha Hb Hf [= -> -> ->]. box_hyp Hout. lia.
Qed.

(** Under MHD, Steps 1a, 2a and 3a copy the interface fields of the grid
    to the face arrays; without MHD the face arrays are not stored to. *)
Lemma step1_Bface s k j i :
  Bface (st1 s) k j i =
    if MHD cfg && in_load1 gl pG k j i then B1i pG k j i else Bface s k j i.
Proof.
  unfold st1. rewrite step1_is_sweep.
  destruct (MHD cfg) eqn:HM; [|now rewrite sweep_Bface_no_MHD].
  cbn [andb]. destruct (in_load1 gl pG k j i) eqn:E; box_hyp E.
  - apply (sweep_Bface_at cfg gl sol rc etah _ _ _ _ _ _ _ _
             (fun k j i => B1i pG k j i)
             (fun k j i => k) (fun k j i => j) (fun k j i => i));
      try assumption; lia.
  - apply sweep_Bface_off. intros a b f Ha Hb Hf [= -> -> ->]. lia.
Qed.

Lemma step2_Bface s k j i :
  Bface (st2 s) k j i =
    if MHD cfg && in_load2 gl pG k j i then B2i pG k j i else Bface s k j i.
Proof.
  unfold st2. rewrite step2_is_sweep.
  destruct (MHD cfg) eqn:HM; [|now rewrite sweep_Bface_no_MHD].
  cbn [andb]. destruct (in_load2 gl pG k j i) eqn:E; box_hyp E.
  - apply (sweep_Bface_at cfg gl sol rc etah _ _ _ _ _ _ _ _
             (fun k i j => B2i pG k j i)
             (fun k i j => k) (fun k i j => j) (fun k i j => i)
             _ _ _ (fun a b f a' b' f' E1 E2 E3 => conj E1 (conj E3 E2))
             s k i j);
      try assumption; lia.
  - apply sweep_Bface_off. intros a b f Ha Hb Hf [= -> -> ->]. lia.
Qed.

Lemma step3_Bface s k j i :
  Bface (st3 s) k j i =
    if MHD cfg && in_load3 gl pG k j i then B3i pG k j i else Bface s k j i.
Proof.
  unfold st3. rewrite step3_is_sweep.
  destruct (MHD cfg) eqn:HM; [|now rewrite sweep_Bface_no_MHD].
  cbn [andb]. destruct (in_load3 gl pG k j i) eqn:E; box_hyp E.
  - apply (sweep_Bface_at cfg gl sol rc etah _ _ _ _ _ _ _ _
             (fun j i k => B3i pG k j i)
             (fun j i k => k) (fun j i k => j) (fun j i k => i)
             _ _ _ (fun a b f a' b' f' E1 E2 E3 => conj E2 (conj E3 E1))
             s j i k);
      try assumption; lia.
  - apply sweep_Bface_off. intros a b f Ha Hb Hf [= -> -> ->]. lia.
Qed.

Hypothesis Hng : (2 <= nghost gl)%Z.
Hypothesis Hc2p : c2p_reads_members cfg sol.
Hypothesis Hlr : lr_states_reads_pencil gl rc.

(** In their ranges, the sweeps store values that do not depend on what
    the vectors and arrays held before. *)
Lemma step1_agree s s' k j i :
  in_sweep1 pG k j i = true ->
  Ul (st1 s) k j i = Ul (st1 s') k j i /\
  Ur (st1 s) k j i = Ur (st1 s') k j i /\
  Flux (st1 s) k j i = Flux (st1 s') k j i.
Proof.
  intros Hin. box_hyp Hin. unfold st1. rewrite !step1_is_sweep.
  apply (sweep_agree cfg gl sol rc etah _ _ _ _ _ _ _ _ _
           (fun k j i => k) (fun k j i => j) (fun k j i => i));
    try assumption; try lia.
  - intros a b f c c'. apply load_U1d_live.
  - intros a b. apply step1bc_reads_neighbours.
Qed.

Lemma step2_agree s s' k j i :
  in_sweep2 pG k j i = true ->
  Ul (st2 s) k j i = Ul (st2 s') k j i /\
  Ur (st2 s) k j i = Ur (st2 s') k j i /\
  Flux (st2 s) k j i = Flux (st2 s') k j i.
Proof.
  intros Hin. box_hyp Hin. unfold st2. rewrite !step2_is_sweep.
  apply (sweep_agree cfg gl sol rc etah _ _ _ _ _ _ _ _ _
           (fun k i j => k) (fun k i j => j) (fun k i j => i)
           _ _ _ (fun a b f a' b' f' E1 E2 E3 => conj E1 (conj E3 E2))
           Hng (fun a b f c c' => load_U1d_live _ _ _ _ _ _ _ c c') Hc2p Hlr
           (step2bc_reads_neighbours cfg gl ext pG) s s' k i j);
    lia.
Qed.

Lemma step3_agree s s' k j i :
  in_sweep3 pG k j i = true ->
  Ul (st3 s) k j i = Ul (st3 s') k j i /\
  Ur (st3 s) k j i = Ur (st3 s') k j i /\
  Flux (st3 s) k j i = Flux (st3 s') k j i.
Proof.
  intros Hin. box_hyp Hin. unfold st3. rewrite !step3_is_sweep.
  apply (sweep_agree cfg gl sol rc etah _ _ _ _ _ _ _ _ _
           (fun j i k => k) (fun j i k => j) (fun j i k => i)
           _ _ _ (fun a b f a' b' f' E1 E2 E3 => conj E2 (conj E3 E1))
           Hng (fun a b f c c' => load_U1d_live _ _ _ _ _ _ _ c c') Hc2p Hlr
           (step3bc_reads_neighbours cfg gl ext pG) s s' j i k);
    lia.
Qed.
End Steps123_facts.

(** ** What Steps 4 to 9 read *)

(** An index lies in one of the ranges of Steps 1 to 9. *)
Ltac rng :=
  unfold in_sweep1, in_sweep2, in_sweep3, in_load1, in_load2, in_load3,
         in_step4a, in_emf1, in_emf2, in_emf3, in_step5, in_step6, in_step7,
         in_step8, in_step9b, in_step9c, in_step9d;
  apply in_box_true; unfold ranges_ok in *; lia.

(** Turn the membership of a range into inequalities. *)
Ltac rng_hyp H :=
  unfold in_sweep1, in_sweep2, in_sweep3, in_load1, in_load2, in_load3,
         in_step4a, in_emf1, in_emf2, in_emf3, in_step5, in_step6, in_step7,
         in_step8, in_step9b, in_step9c, in_step9d in H;
  apply in_box_true in H.

(** Replace the reads of one array by the reads of another that agrees with
    it on a range. *)
Ltac reads H := repeat (rewrite H by rng).

(** *** Step 4a: the corner EMFs *)

Section Corner_reads.
Variable pG : Grid.
Variables F1 F1' F2 F2' F3 F3' : Arr3 Cons1D.t.
Variables c1 c1' c2 c2' c3 c3' : Arr3 Real.
Hypothesis H1 : forall k j i, in_sweep1 pG k j i = true -> F1 k j i = F1' k j i.
Hypothesis H2 : forall k j i, in_sweep2 pG k j i = true -> F2 k j i = F2' k j i.
Hypothesis H3 : forall k j i, in_sweep3 pG k j i = true -> F3 k j i = F3' k j i.
Hypothesis C1 : forall k j i, in_step4a pG k j i = true -> c1 k j i = c1' k j i.
Hypothesis C2 : forall k j i, in_step4a pG k j i = true -> c2 k j i = c2' k j i.
Hypothesis C3 : forall k j i, in_step4a pG k j i = true -> c3 k j i = c3' k j i.

Lemma emf1_corner_reads e e' k j i :
  in_emf1 pG k j i = true ->
  integrate_emf1_corner F2 F3 c1 pG e k j i =
  integrate_emf1_corner F2' F3' c1' pG e' k j i.
Proof.
  intros Hin. unfold integrate_emf1_corner. rewrite !cellwise_spec.
  unfold in_emf1 in Hin. rewrite Hin. rng_hyp Hin.
  unfold emf1_corner_value. reads H2. reads H3. reads C1. reflexivity.
Qed.

Lemma emf2_corner_reads e e' k j i :
  in_emf2 pG k j i = true ->
  integrate_emf2_corner F1 F3 c2 pG e k j i =
  integrate_emf2_corner F1' F3' c2' pG e' k j i.
Proof.
  intros Hin. unfold integrate_emf2_corner. rewrite !cellwise_spec.
  unfold in_emf2 in Hin. rewrite Hin. rng_hyp Hin.
  unfold emf2_corner_value. reads H1. reads H3. reads C2. reflexivity.
Qed.

Lemma emf3_corner_reads e e' k j i :
  in_emf3 pG k j i = true ->
  integrate_emf3_corner F1 F2 c3 pG e k j i =
  integrate_emf3_corner F1' F2' c3' pG e' k j i.
Proof.
  intros Hin. unfold integrate_emf3_corner. rewrite !cellwise_spec.
  unfold in_emf3 in Hin. rewrite Hin. rng_hyp Hin.
  unfold emf3_corner_value. reads H1. reads H2. reads C3. reflexivity.
Qed.
End Corner_reads.

(** *** Step 4b *)

Section Step4b_reads.
Variable pG : Grid.
Variables e1 e1' e2 e2' e3 e3' : Arr3 Real.
Variables f f' : Faces.
Hypothesis Hr : ranges_ok pG.
Hypothesis E1 : forall k j i, in_emf1 pG k j i = true -> e1 k j i = e1' k j i.
Hypothesis E2 : forall k j i, in_emf2 pG k j i = true -> e2 k j i = e2' k j i.
Hypothesis E3 : forall k j i, in_emf3 pG k j i = true -> e3 k j i = e3' k j i.

Lemma step4b_B1_reads k j i :
  B1_x1Face f k j i = B1_x1Face f' k j i ->
  B1_x1Face (step4b pG e1 e2 e3 f) k j i =
  B1_x1Face (step4b pG e1' e2' e3' f') k j i.
Proof.
  intros HB. rewrite !step4b_B1, HB.
  destruct (written_B1_x1Face pG k j i) eqn:W; [|reflexivity].
  unfold written_B1_x1Face in W.
  rewrite !andb_true_iff, orb_true_iff, !in_range_true, Z.eqb_eq in W.
  unfold half_dB1. reads E2. reads E3. reflexivity.
Qed.

Lemma step4b_B2_reads k j i :
  B2_x2Face f k j i = B2_x2Face f' k j i ->
  B2_x2Face (step4b pG e1 e2 e3 f) k j i =
  B2_x2Face (step4b pG e1' e2' e3' f') k j i.
Proof.
  intros HB. rewrite !step4b_B2, HB.
  destruct (written_B2_x2Face pG k j i) eqn:W; [|reflexivity].
  unfold written_B2_x2Face in W.
  rewrite !andb_true_iff, orb_true_iff, !in_range_true, Z.eqb_eq in W.
  unfold half_dB2. reads E1. reads E3. reflexivity.
Qed.

Lemma step4b_B3_reads k j i :
  B3_x3Face f k j i = B3_x3Face f' k j i ->
  B3_x3Face (step4b pG e1 e2 e3 f) k j i =
  B3_x3Face (step4b pG e1' e2' e3' f') k j i.
Proof.
  intros HB. rewrite !step4b_B3, HB.
  destruct (written_B3_x3Face pG k j i) eqn:W; [|reflexivity].
  unfold written_B3_x3Face in W.
  rewrite !andb_true_iff, orb_true_iff, !in_range_true, Z.eqb_eq in W.
  unfold half_dB3. reads E1. reads E2. reflexivity.
Qed.
End Step4b_reads.

(** *** Steps 5 to 7 *)

(** A nest over the pair of face arrays changes the element (k,j,i) by its
    cell function alone. *)
Lemma face_nest_reads klo khi jlo jhi ilo ihi cell cell' p p' k j i :
  (in_box klo khi jlo jhi ilo ihi k j i = true ->
   forall ul ur, cell k j i ul ur = cell' k j i ul ur) ->
  fst p k j i = fst p' k j i /\ snd p k j i = snd p' k j i ->
  fst (face_nest klo khi jlo jhi ilo ihi cell p) k j i =
    fst (face_nest klo khi jlo jhi ilo ihi cell' p') k j i /\
  snd (face_nest klo khi jlo jhi ilo ihi cell p) k j i =
    snd (face_nest klo khi jlo jhi ilo ihi cell' p') k j i.
Proof.
  intros Hc (Hl & Hr). rewrite !face_nest_fst, !face_nest_snd.
  destruct (in_box klo khi jlo jhi ilo ihi k j i); [|auto].
  rewrite !(Hc eq_refl). unfold Arr3 in *. now rewrite Hl, Hr.
Qed.

Section Steps567_reads.
Variable cfg : Config.
Variable gl : Globals.
Variable ext : Extern.
Variable pG : Grid.
Variables F1 F1' F2 F2' F3 F3' : Arr3 Cons1D.t.
Variables e1 e1' e2 e2' e3 e3' : Arr3 Real.
Hypothesis H1 : forall k j i, in_sweep1 pG k j i = true -> F1 k j i = F1' k j i.
Hypothesis H2 : forall k j i, in_sweep2 pG k j i = true -> F2 k j i = F2' k j i.
Hypothesis H3 : forall k j i, in_sweep3 pG k j i = true -> F3 k j i = F3' k j i.
Hypothesis E1 : MHD cfg = true ->
  forall k j i, in_emf1 pG k j i = true -> e1 k j i = e1' k j i.
Hypothesis E2 : MHD cfg = true ->
  forall k j i, in_emf2 pG k j i = true -> e2 k j i = e2' k j i.
Hypothesis E3 : MHD cfg = true ->
  forall k j i, in_emf3 pG k j i = true -> e3 k j i = e3' k j i.

Lemma step5ab_cell_reads k j i ul ur :
  in_step5 pG k j i = true ->
  step5ab_cell cfg pG F2 F3 e1 k j i ul ur =
  step5ab_cell cfg pG F2' F3' e1' k j i ul ur.
Proof.
  intros Hin. rng_hyp Hin. cbv delta [step5ab_cell]. cbv beta. reads H2. reads H3.
  destruct (Bool.bool_dec (MHD cfg) true) as [HM|HM].
  - pose proof (E1 HM) as E. reads E. reflexivity.
  - apply not_true_is_false in HM. rewrite HM. reflexivity.
Qed.

Lemma step6ab_cell_reads k j i ul ur :
  in_step6 pG k j i = true ->
  step6ab_cell cfg pG F1 F3 e2 k j i ul ur =
  step6ab_cell cfg pG F1' F3' e2' k j i ul ur.
Proof.
  intros Hin. rng_hyp Hin. cbv delta [step6ab_cell]. cbv beta. reads H1. reads H3.
  destruct (Bool.bool_dec (MHD cfg) true) as [HM|HM].
  - pose proof (E2 HM) as E. reads E. reflexivity.
  - apply not_true_is_false in HM. rewrite HM. reflexivity.
Qed.

Lemma step7ab_cell_reads k j i ul ur :
  in_step7 pG k j i = true ->
  step7ab_cell cfg pG F1 F2 e3 k j i ul ur =
  step7ab_cell cfg pG F1' F2' e3' k j i ul ur.
Proof.
  intros Hin. rng_hyp Hin. cbv delta [step7ab_cell]. cbv beta. reads H1. reads H2.
  destruct (Bool.bool_dec (MHD cfg) true) as [HM|HM].
  - pose proof (E3 HM) as E. reads E. reflexivity.
  - apply not_true_is_false in HM. rewrite HM. reflexivity.
Qed.

Lemma step5d_grav_cell_reads phi k j i ul ur :
  in_step5 pG k j i = true ->
  step5d_grav_cell cfg ext pG F2 F3 phi k j i ul ur =
  step5d_grav_cell cfg ext pG F2' F3' phi k j i ul ur.
Proof.
  intros Hin. rng_hyp Hin. cbv delta [step5d_grav_cell]. cbv beta. reads H2. reads H3.
  reflexivity.
Qed.

Lemma step6d_grav_cell_reads phi k j i ul ur :
  in_step6 pG k j i = true ->
  step6d_grav_cell cfg ext pG F1 F3 phi k j i ul ur =
  step6d_grav_cell cfg ext pG F1' F3' phi k j i ul ur.
Proof.
  intros Hin. rng_hyp Hin. cbv delta [step6d_grav_cell]. cbv beta. reads H1. reads H3.
  reflexivity.
Qed.

Lemma step7d_grav_cell_reads phi k j i ul ur :
  in_step7 pG k j i = true ->
  step7d_grav_cell cfg ext pG F1 F2 phi k j i ul ur =
  step7d_grav_cell cfg ext pG F1' F2' phi k j i ul ur.
Proof.
  intros Hin. rng_hyp Hin. cbv delta [step7d_grav_cell]. cbv beta. reads H1. reads H2.
  reflexivity.
Qed.

Lemma step5d_selfg_cell_reads k j i ul ur :
  in_step5 pG k j i = true ->
  step5d_selfg_cell cfg pG F2 F3 k j i ul ur =
  step5d_selfg_cell cfg pG F2' F3' k j i ul ur.
Proof.
  intros Hin. rng_hyp Hin. cbv delta [step5d_selfg_cell]. cbv beta. reads H2. reads H3.
  reflexivity.
Qed.

Lemma step6d_selfg_cell_reads k j i ul ur :
  in_step6 pG k j i = true ->
  step6d_selfg_cell cfg pG F1 F3 k j i ul ur =
  step6d_selfg_cell cfg pG F1' F3' k j i ul ur.
Proof.
  intros Hin. rng_hyp Hin. cbv delta [step6d_selfg_cell]. cbv beta. reads H1. reads H3.
  reflexivity.
Qed.

Lemma step7d_selfg_cell_reads k j i ul ur :
  in_step7 pG k j i = true ->
  step7d_selfg_cell cfg pG F1 F2 k j i ul ur =
  step7d_selfg_cell cfg pG F1' F2' k j i ul ur.
Proof.
  intros Hin. rng_hyp Hin. cbv delta [step7d_selfg_cell]. cbv beta. reads H1. reads H2.
  reflexivity.
Qed.

(** Steps 5, 6 and 7 change the face states of a face from these states,
    from the first-pass fluxes in the ranges of the three sweeps and from
    the corner EMFs in the ranges of the corner routines. *)
Lemma step5_reads p p' k j i :
  fst p k j i = fst p' k j i /\ snd p k j i = snd p' k j i ->
  fst (step5 cfg gl ext pG F2 F3 e1 p) k j i =
    fst (step5 cfg gl ext pG F2' F3' e1' p') k j i /\
  snd (step5 cfg gl ext pG F2 F3 e1 p) k j i =
    snd (step5 cfg gl ext pG F2' F3' e1' p') k j i.
Proof.
  intros Hp. unfold step5. cbv zeta.
  destruct (SELF_GRAVITY cfg);
    [apply face_nest_reads;
     [intros Hin ul ur; now apply step5d_selfg_cell_reads|]|];
  (destruct (StaticGravPot gl) as [phi|];
    [apply face_nest_reads;
     [intros Hin ul ur; now apply step5d_grav_cell_reads|]|]);
  (case (MHD cfg);
    [apply face_nest_reads; [reflexivity|]|]);
  (apply face_nest_reads;
    [intros Hin ul ur; now apply step5ab_cell_reads|exact Hp]).
Qed.

Lemma step6_reads p p' k j i :
  fst p k j i = fst p' k j i /\ snd p k j i = snd p' k j i ->
  fst (step6 cfg gl ext pG F1 F3 e2 p) k j i =
    fst (step6 cfg gl ext pG F1' F3' e2' p') k j i /\
  snd (step6 cfg gl ext pG F1 F3 e2 p) k j i =
    snd (step6 cfg gl ext pG F1' F3' e2' p') k j i.
Proof.
  intros Hp. unfold step6. cbv zeta.
  destruct (SHEARING_BOX cfg);
    [apply face_nest_reads; [reflexivity|]|];
  (destruct (SELF_GRAVITY cfg);
    [apply face_nest_reads;
     [intros Hin ul ur; now apply step6d_selfg_cell_reads|]|]);
  (destruct (StaticGravPot gl) as [phi|];
    [apply face_nest_reads;
     [intros Hin ul ur; now apply step6d_grav_cell_reads|]|]);
  (case (MHD cfg);
    [apply face_nest_reads; [reflexivity|]|]);
  (apply face_nest_reads;
    [intros Hin ul ur; now apply step6ab_cell_reads|exact Hp]).
Qed.

Lemma step7_reads p p' k j i :
  fst p k j i = fst p' k j i /\ snd p k j i = snd p' k j i ->
  fst (step7 cfg gl ext pG F1 F2 e3 p) k j i =
    fst (step7 cfg gl ext pG F1' F2' e3' p') k j i /\
  snd (step7 cfg gl ext pG F1 F2 e3 p) k j i =
    snd (step7 cfg gl ext pG F1' F2' e3' p') k j i.
Proof.
  intros Hp. unfold step7. cbv zeta.
  destruct (SHEARING_BOX cfg);
    [apply face_nest_reads; [reflexivity|]|];
  (destruct (SELF_GRAVITY cfg);
    [apply face_nest_reads;
     [intros Hin ul ur; now apply step7d_selfg_cell_reads|]|]);
  (destruct (StaticGravPot gl) as [phi|];
    [apply face_nest_reads;
     [intros Hin ul ur; now apply step7d_grav_cell_reads|]|]);
  (case (MHD cfg);
    [apply face_nest_reads; [reflexivity|]|]);
  (apply face_nest_reads;
    [intros Hin ul ur; now apply step7ab_cell_reads|exact Hp]).
Qed.
End Steps567_reads.

(** *** Step 8 *)

Section Step8_reads.
Variable cfg : Config.
Variable gl : Globals.
Variable ext : Extern.
Variable pG : Grid.
Variables F1 F1' F2 F2' F3 F3' : Arr3 Cons1D.t.
Hypothesis H1 : forall k j i, in_sweep1 pG k j i = true -> F1 k j i = F1' k j i.
Hypothesis H2 : forall k j i, in_sweep2 pG k j i = true -> F2 k j i = F2' k j i.
Hypothesis H3 : forall k j i, in_sweep3 pG k j i = true -> F3 k j i = F3' k j i.

Lemma step8a_reads dh dh' k j i :
  in_step8 pG k j i = true ->
  MHD cfg || not_NULL (StaticGravPot gl) || not_NULL (CoolingFunc gl) = true ->
  step8a cfg gl pG F1 F2 F3 dh k j i = step8a cfg gl pG F1' F2' F3' dh' k j i.
Proof.
  intros Hin Hg. unfold step8a. rewrite Hg, !cellwise_spec.
  unfold in_step8 in Hin. rewrite Hin. rng_hyp Hin.
  unfold step8a_cell. reads H1. reads H2. reads H3. reflexivity.
Qed.

Lemma step8b_MhEh_reads k j i :
  in_step8 pG k j i = true ->
  step8b_MhEh cfg gl ext pG F1 F2 F3 k j i =
  step8b_MhEh cfg gl ext pG F1' F2' F3' k j i.
Proof.
  intros Hin. rng_hyp Hin. unfold step8b_MhEh.
  reads H1. reads H2. reads H3. reflexivity.
Qed.

Variables B1 B1' B2 B2' B3 B3' : Arr3 Real.
Variables dh dh' : Arr3 Real.
Hypothesis HB1 : MHD cfg = true ->
  forall k j i, in_step5 pG k j i = true -> B1 k j i = B1' k j i.
Hypothesis HB2 : MHD cfg = true ->
  forall k j i, in_step6 pG k j i = true -> B2 k j i = B2' k j i.
Hypothesis HB3 : MHD cfg = true ->
  forall k j i, in_step7 pG k j i = true -> B3 k j i = B3' k j i.
Hypothesis HD : forall k j i, in_step8 pG k j i = true -> dh k j i = dh' k j i.

Lemma step8b_reads a a' k j i :
  in_step8 pG k j i = true ->
  MHD cfg || not_NULL (CoolingFunc gl) = true ->
  let r := step8b cfg gl ext pG F1 F2 F3 B1 B2 B3 dh a in
  let r' := step8b cfg gl ext pG F1' F2' F3' B1' B2' B3' dh' a' in
  (BAROTROPIC cfg = false ->
   fst (fst (fst r)) k j i = fst (fst (fst r')) k j i) /\
  (MHD cfg = true ->
   snd (fst (fst r)) k j i = snd (fst (fst r')) k j i /\
   snd (fst r) k j i = snd (fst r') k j i /\
   snd r k j i = snd r' k j i).
Proof.
  intros Hin Hg r r'.
  pose proof (step8b_spec cfg gl ext pG F1 F2 F3 B1 B2 B3 dh a k j i) as S.
  pose proof (step8b_spec cfg gl ext pG F1' F2' F3' B1' B2' B3' dh' a' k j i)
    as S'.
  cbv zeta in S, S'. fold r in S. fold r' in S'.
  rewrite Hg, Hin in S, S'. cbn [andb] in S, S'.
  unfold step8b_cell in S, S'.
  rewrite step8b_MhEh_reads in S by assumption.
  rng_hyp Hin. rewrite HD in S by rng.
  destruct (step8b_MhEh cfg gl ext pG F1' F2' F3' k j i)
    as [[[M1h M2h] M3h] Eh].
  destruct (Bool.bool_dec (MHD cfg) true) as [HM|HM].
  - pose proof (HB1 HM) as A1. pose proof (HB2 HM) as A2.
    pose proof (HB3 HM) as A3.
    rewrite HM in S, S'.
    rewrite !A1, !A2, !A3 in S by rng.
    split.
    + intros HB. rewrite HB in S, S'.
      apply (f_equal (fun t => fst (fst (fst t)))) in S, S'.
      cbn [fst snd] in S, S'. now rewrite S, S'.
    + intros _. destruct (BAROTROPIC cfg);
        injection S as _ Sa Sb Sc; injection S' as _ Sa' Sb' Sc';
        now rewrite Sa, Sb, Sc, Sa', Sb', Sc'.
  - apply not_true_is_false in HM. rewrite HM in S, S'.
    split; [|intros HM'; congruence].
    intros HB. rewrite HB in S, S'.
    apply (f_equal (fun t => fst (fst (fst t)))) in S, S'.
    cbn [fst snd] in S, S'. now rewrite S, S'.
Qed.
End Step8_reads.

(** *** Step 9 *)

Section Step9_reads.
Variable cfg : Config.
Variable sol : Solver.
Variable pG : Grid.
Variables f f' : Faces.
Hypothesis HL1 : forall k j i, in_step5 pG k j i = true ->
  Ul_x1Face f k j i = Ul_x1Face f' k j i.
Hypothesis HR1 : forall k j i, in_step5 pG k j i = true ->
  Ur_x1Face f k j i = Ur_x1Face f' k j i.
Hypothesis HL2 : forall k j i, in_step6 pG k j i = true ->
  Ul_x2Face f k j i = Ul_x2Face f' k j i.
Hypothesis HR2 : forall k j i, in_step6 pG k j i = true ->
  Ur_x2Face f k j i = Ur_x2Face f' k j i.
Hypothesis HL3 : forall k j i, in_step7 pG k j i = true ->
  Ul_x3Face f k j i = Ul_x3Face f' k j i.
Hypothesis HR3 : forall k j i, in_step7 pG k j i = true ->
  Ur_x3Face f k j i = Ur_x3Face f' k j i.
Hypothesis HB1 : forall k j i, in_step5 pG k j i = true ->
  MHDARG cfg (B1_x1Face f k j i) = MHDARG cfg (B1_x1Face f' k j i).
Hypothesis HB2 : forall k j i, in_step6 pG k j i = true ->
  MHDARG cfg (B2_x2Face f k j i) = MHDARG cfg (B2_x2Face f' k j i).
Hypothesis HB3 : forall k j i, in_step7 pG k j i = true ->
  MHDARG cfg (B3_x3Face f k j i) = MHDARG cfg (B3_x3Face f' k j i).

Lemma step9a_eta1_reads e e' k j i :
  in_step5 pG k j i = true ->
  step9a_eta1 cfg sol pG f e k j i = step9a_eta1 cfg sol pG f' e' k j i.
Proof.
  intros Hin. unfold step9a_eta1. rewrite !cellwise_spec.
  unfold in_step5 in Hin. rewrite Hin.
  fold (in_step5 pG k j i) in Hin.
  now rewrite (HL1 k j i), (HR1 k j i), (HB1 k j i).
Qed.

Lemma step9a_eta2_reads e e' k j i :
  in_step6 pG k j i = true ->
  step9a_eta2 cfg sol pG f e k j i = step9a_eta2 cfg sol pG f' e' k j i.
Proof.
  intros Hin. unfold step9a_eta2. rewrite !cellwise_spec.
  unfold in_step6 in Hin. rewrite Hin.
  fold (in_step6 pG k j i) in Hin.
  now rewrite (HL2 k j i), (HR2 k j i), (HB2 k j i).
Qed.

Lemma step9a_eta3_reads e e' k j i :
  in_step7 pG k j i = true ->
  step9a_eta3 cfg sol pG f e k j i = step9a_eta3 cfg sol pG f' e' k j i.
Proof.
  intros Hin. unfold step9a_eta3. rewrite !cellwise_spec.
  unfold in_step7 in Hin. rewrite Hin.
  fold (in_step7 pG k j i) in Hin.
  now rewrite (HL3 k j i), (HR3 k j i), (HB3 k j i).
Qed.

Variables n1 n1' n2 n2' n3 n3' : Arr3 Real.
Hypothesis N1 : H_CORRECTION cfg = true ->
  forall k j i, in_step5 pG k j i = true -> n1 k j i = n1' k j i.
Hypothesis N2 : H_CORRECTION cfg = true ->
  forall k j i, in_step6 pG k j i = true -> n2 k j i = n2' k j i.
Hypothesis N3 : H_CORRECTION cfg = true ->
  forall k j i, in_step7 pG k j i = true -> n3 k j i = n3' k j i.

Lemma etah_x1_reads k j i :
  H_CORRECTION cfg = true -> in_step9b pG k j i = true ->
  etah_x1 n1 n2 n3 k j i = etah_x1 n1' n2' n3' k j i.
Proof.
  intros HH Hin. rng_hyp Hin.
  pose proof (N1 HH) as A1. pose proof (N2 HH) as A2.
  pose proof (N3 HH) as A3.
  unfold etah_x1. reads A1. reads A2. reads A3. reflexivity.
Qed.

Lemma etah_x2_reads k j i :
  H_CORRECTION cfg = true -> in_step9c pG k j i = true ->
  etah_x2 n1 n2 n3 k j i = etah_x2 n1' n2' n3' k j i.
Proof.
  intros HH Hin. rng_hyp Hin.
  pose proof (N1 HH) as A1. pose proof (N2 HH) as A2.
  pose proof (N3 HH) as A3.
  unfold etah_x2. reads A1. reads A2. reads A3. reflexivity.
Qed.

Lemma etah_x3_reads k j i :
  H_CORRECTION cfg = true -> in_step9d pG k j i = true ->
  etah_x3 n1 n2 n3 k j i = etah_x3 n1' n2' n3' k j i.
Proof.
  intros HH Hin. rng_hyp Hin.
  pose proof (N1 HH) as A1. pose proof (N2 HH) as A2.
  pose proof (N3 HH) as A3.
  unfold etah_x3. reads A1. reads A2. reads A3. reflexivity.
Qed.

Lemma riemann_MHDARG etah ul ur b b' :
  MHDARG cfg b = MHDARG cfg b' ->
  riemann cfg sol etah ul ur b = riemann cfg sol etah ul ur b'.
Proof. intros E. unfold riemann. now rewrite E. Qed.

(** The fluxes of Steps 9b-9d in their loop ranges, and the value left
    in etah. *)
Lemma step9b_loop_reads etah0 F F' st st' :
  let r := fst (step9b_loop cfg sol pG f n1 n2 n3 (etah0, F, st)) in
  let r' := fst (step9b_loop cfg sol pG f' n1' n2' n3' (etah0, F', st')) in
  fst r = fst r' /\
  forall k j i, in_step9b pG k j i = true -> snd r k j i = snd r' k j i.
Proof.
  cbv zeta. rewrite !step9b_loop_fst. split.
  - rewrite (proj2 (step9_loop_spec cfg _ _ _ _ _ _
               (etah_x1 n1 n2 n3)
               (fun etah k j i => riemann cfg sol etah (Ul_x1Face f k j i)
                  (Ur_x1Face f k j i) (B1_x1Face f k j i)) etah0 F 0 0 0)).
    rewrite (proj2 (step9_loop_spec cfg _ _ _ _ _ _
               (etah_x1 n1' n2' n3')
               (fun etah k j i => riemann cfg sol etah (Ul_x1Face f' k j i)
                  (Ur_x1Face f' k j i) (B1_x1Face f' k j i)) etah0 F' 0 0 0)).
    destruct (Bool.bool_dec (H_CORRECTION cfg) true) as [HH|HH];
      [rewrite HH|apply not_true_is_false in HH; now rewrite HH].
    cbn [andb].
    destruct ((ks pG - 1 <=? ke pG + 1) && (js pG - 1 <=? je pG + 1) &&
              (is_ pG <=? ie pG + 1))%Z eqn:E; [|reflexivity].
    rewrite !andb_true_iff, !Z.leb_le in E.
    apply etah_x1_reads; [assumption|rng].
  - intros k j i Hin.
    rewrite (proj1 (step9_loop_spec cfg _ _ _ _ _ _
               (etah_x1 n1 n2 n3)
               (fun etah k j i => riemann cfg sol etah (Ul_x1Face f k j i)
                  (Ur_x1Face f k j i) (B1_x1Face f k j i)) etah0 F k j i)).
    rewrite (proj1 (step9_loop_spec cfg _ _ _ _ _ _
               (etah_x1 n1' n2' n3')
               (fun etah k j i => riemann cfg sol etah (Ul_x1Face f' k j i)
                  (Ur_x1Face f' k j i) (B1_x1Face f' k j i)) etah0 F' k j i)).
    rewrite !cellwise_spec. unfold in_step9b in Hin. rewrite Hin.
    fold (in_step9b pG k j i) in Hin.
    assert (E : (if H_CORRECTION cfg then etah_x1 n1 n2 n3 k j i else etah0) =
                (if H_CORRECTION cfg then etah_x1 n1' n2' n3' k j i else etah0)).
    { destruct (Bool.bool_dec (H_CORRECTION cfg) true) as [HH|HH];
        [rewrite HH|apply not_true_is_false in HH; now rewrite HH].
      now apply etah_x1_reads. }
    rewrite E. rng_hyp Hin.
    rewrite (HL1 k j i), (HR1 k j i) by rng.
    apply riemann_MHDARG. apply HB1. rng.
Qed.

Lemma step9c_loop_reads etah0 F F' st st' :
  let r := fst (step9c_loop cfg sol pG f n1 n2 n3 (etah0, F, st)) in
  let r' := fst (step9c_loop cfg sol pG f' n1' n2' n3' (etah0, F', st')) in
  fst r = fst r' /\
  forall k j i, in_step9c pG k j i = true -> snd r k j i = snd r' k j i.
Proof.
  cbv zeta. rewrite !step9c_loop_fst. split.
  - rewrite (proj2 (step9_loop_spec cfg _ _ _ _ _ _
               (etah_x2 n1 n2 n3)
               (fun etah k j i => riemann cfg sol etah (Ul_x2Face f k j i)
                  (Ur_x2Face f k j i) (B2_x2Face f k j i)) etah0 F 0 0 0)).
    rewrite (proj2 (step9_loop_spec cfg _ _ _ _ _ _
               (etah_x2 n1' n2' n3')
               (fun etah k j i => riemann cfg sol etah (Ul_x2Face f' k j i)
                  (Ur_x2Face f' k j i) (B2_x2Face f' k j i)) etah0 F' 0 0 0)).
    destruct (Bool.bool_dec (H_CORRECTION cfg) true) as [HH|HH];
      [rewrite HH|apply not_true_is_false in HH; now rewrite HH].
    cbn [andb].
    destruct ((ks pG - 1 <=? ke pG + 1) && (js pG <=? je pG + 1) &&
              (is_ pG - 1 <=? ie pG + 1))%Z eqn:E; [|reflexivity].
    rewrite !andb_true_iff, !Z.leb_le in E.
    apply etah_x2_reads; [assumption|rng].
  - intros k j i Hin.
    rewrite (proj1 (step9_loop_spec cfg _ _ _ _ _ _
               (etah_x2 n1 n2 n3)
               (fun etah k j i => riemann cfg sol etah (Ul_x2Face f k j i)
                  (Ur_x2Face f k j i) (B2_x2Face f k j i)) etah0 F k j i)).
    rewrite (proj1 (step9_loop_spec cfg _ _ _ _ _ _
               (etah_x2 n1' n2' n3')
               (fun etah k j i => riemann cfg sol etah (Ul_x2Face f' k j i)
                  (Ur_x2Face f' k j i) (B2_x2Face f' k j i)) etah0 F' k j i)).
    rewrite !cellwise_spec. unfold in_step9c in Hin. rewrite Hin.
    fold (in_step9c pG k j i) in Hin.
    assert (E : (if H_CORRECTION cfg then etah_x2 n1 n2 n3 k j i else etah0) =
                (if H_CORRECTION cfg then etah_x2 n1' n2' n3' k j i else etah0)).
    { destruct (Bool.bool_dec (H_CORRECTION cfg) true) as [HH|HH];
        [rewrite HH|apply not_true_is_false in HH; now rewrite HH].
      now apply etah_x2_reads. }
    rewrite E. rng_hyp Hin.
    rewrite (HL2 k j i), (HR2 k j i) by rng.
    apply riemann_MHDARG. apply HB2. rng.
Qed.

Lemma step9d_loop_reads etah0 F F' st st' :
  let r := fst (step9d_loop cfg sol pG f n1 n2 n3 (etah0, F, st)) in
  let r' := fst (step9d_loop cfg sol pG f' n1' n2' n3' (etah0, F', st')) in
  fst r = fst r' /\
  forall k j i, in_step9d pG k j i = true -> snd r k j i = snd r' k j i.
Proof.
  cbv zeta. rewrite !step9d_loop_fst. split.
  - rewrite (proj2 (step9_loop_spec cfg _ _ _ _ _ _
               (etah_x3 n1 n2 n3)
               (fun etah k j i => riemann cfg sol etah (Ul_x3Face f k j i)
                  (Ur_x3Face f k j i) (B3_x3Face f k j i)) etah0 F 0 0 0)).
    rewrite (proj2 (step9_loop_spec cfg _ _ _ _ _ _
               (etah_x3 n1' n2' n3')
               (fun etah k j i => riemann cfg sol etah (Ul_x3Face f' k j i)
                  (Ur_x3Face f' k j i) (B3_x3Face f' k j i)) etah0 F' 0 0 0)).
    destruct (Bool.bool_dec (H_CORRECTION cfg) true) as [HH|HH];
      [rewrite HH|apply not_true_is_false in HH; now rewrite HH].
    cbn [andb].
    destruct ((ks pG <=? ke pG + 1) && (js pG - 1 <=? je pG + 1) &&
              (is_ pG - 1 <=? ie pG + 1))%Z eqn:E; [|reflexivity].
    rewrite !andb_true_iff, !Z.leb_le in E.
    apply etah_x3_reads; [assumption|rng].
  - intros k j i Hin.
    rewrite (proj1 (step9_loop_spec cfg _ _ _ _ _ _
               (etah_x3 n1 n2 n3)
               (fun etah k j i => riemann cfg sol etah (Ul_x3Face f k j i)
                  (Ur_x3Face f k j i) (B3_x3Face f k j i)) etah0 F k j i)).
    rewrite (proj1 (step9_loop_spec cfg _ _ _ _ _ _
               (etah_x3 n1' n2' n3')
               (fun etah k j i => riemann cfg sol etah (Ul_x3Face f' k j i)
                  (Ur_x3Face f' k j i) (B3_x3Face f' k j i)) etah0 F' k j i)).
    rewrite !cellwise_spec. unfold in_step9d in Hin. rewrite Hin.
    fold (in_step9d pG k j i) in Hin.
    assert (E : (if H_CORRECTION cfg then etah_x3 n1 n2 n3 k j i else etah0) =
                (if H_CORRECTION cfg then etah_x3 n1' n2' n3' k j i else etah0)).
    { destruct (Bool.bool_dec (H_CORRECTION cfg) true) as [HH|HH];
        [rewrite HH|apply not_true_is_false in HH; now rewrite HH].
      now apply etah_x3_reads. }
    rewrite E. rng_hyp Hin.
    rewrite (HL3 k j i), (HR3 k j i) by rng.
    apply riemann_MHDARG. apply HB3. rng.
Qed.
End Step9_reads.

(** ** integrate_3d_ctu: what a call takes from the previous one *)

Section Two_calls.
Variable cfg : Config.
Variable gl : Globals.
Variable ext : Extern.
Variable sol : Solver.
Variable rc : Recon.
Variable pG : Grid.
Variable pD : Domain.

(** The module-level variables on entry to two calls. *)
Variables w w' : Work.

Let sw1 := sweep1 cfg gl ext sol rc pG.
Let sw2 := sweep2 cfg gl ext sol rc pG.
Let sw3 := sweep3 cfg gl ext sol rc pG.
Let cc4 := emf_cc_4a cfg pG.
Let emf4 := emf_4a cfg gl ext sol rc pG.
Let fc7 := faces_7 cfg gl ext sol rc pG.
Let dh8 := dhalf_8 cfg gl ext sol rc pG.
Let hf8 := half_8 cfg gl ext sol rc pG.

Hypothesis Hng : (2 <= nghost gl)%Z.
Hypothesis Hr : ranges_ok pG.
Hypothesis Hc2p : c2p_reads_members cfg sol.
Hypothesis Hlr : lr_states_reads_pencil gl rc.
Hypothesis Hetah : w_etah w = w_etah w'.

(** *** Steps 1 to 3 *)

Lemma sweep1_agree k j i :
  in_sweep1 pG k j i = true ->
  Ul (sw1 w) k j i = Ul (sw1 w') k j i /\
  Ur (sw1 w) k j i = Ur (sw1 w') k j i /\
  Flux (sw1 w) k j i = Flux (sw1 w') k j i.
Proof.
  intros Hin. unfold sw1, sweep1. rewrite Hetah.
  now apply step1_agree.
Qed.

Lemma sweep2_agree k j i :
  in_sweep2 pG k j i = true ->
  Ul (sw2 w) k j i = Ul (sw2 w') k j i /\
  Ur (sw2 w) k j i = Ur (sw2 w') k j i /\
  Flux (sw2 w) k j i = Flux (sw2 w') k j i.
Proof.
  intros Hin. unfold sw2, sweep2. cbv zeta. rewrite Hetah.
  now apply step2_agree.
Qed.

Lemma sweep3_agree k j i :
  in_sweep3 pG k j i = true ->
  Ul (sw3 w) k j i = Ul (sw3 w') k j i /\
  Ur (sw3 w) k j i = Ur (sw3 w') k j i /\
  Flux (sw3 w) k j i = Flux (sw3 w') k j i.
Proof.
  intros Hin. unfold sw3, sweep3. cbv zeta. rewrite Hetah.
  now apply step3_agree.
Qed.

Lemma sweep_Flux_agree :
  (forall k j i, in_sweep1 pG k j i = true ->
                 Flux (sw1 w) k j i = Flux (sw1 w') k j i) /\
  (forall k j i, in_sweep2 pG k j i = true ->
                 Flux (sw2 w) k j i = Flux (sw2 w') k j i) /\
  (forall k j i, in_sweep3 pG k j i = true ->
                 Flux (sw3 w) k j i = Flux (sw3 w') k j i).
Proof.
  repeat split; intros k j i Hin.
  - apply sweep1_agree, Hin.
  - apply sweep2_agree, Hin.
  - apply sweep3_agree, Hin.
Qed.

(** Under MHD the face arrays hold the interface fields of the grid. *)
Lemma sweep_Bface v :
  MHD cfg = true ->
  (forall k j i, in_step5 pG k j i = true ->
                 Bface (sw1 v) k j i = B1i pG k j i) /\
  (forall k j i, in_step6 pG k j i = true ->
                 Bface (sw2 v) k j i = B2i pG k j i) /\
  (forall k j i, in_step7 pG k j i = true ->
                 Bface (sw3 v) k j i = B3i pG k j i).
Proof.
  intros HM. repeat split; intros k j i Hin; rng_hyp Hin.
  - unfold sw1, sweep1. rewrite step1_Bface, HM.
    replace (in_load1 gl pG k j i) with true by (symmetry; rng).
    reflexivity.
  - unfold sw2, sweep2. cbv zeta. rewrite step2_Bface, HM.
    replace (in_load2 gl pG k j i) with true by (symmetry; rng).
    reflexivity.
  - unfold sw3, sweep3. cbv zeta. rewrite step3_Bface, HM.
    replace (in_load3 gl pG k j i) with true by (symmetry; rng).
    reflexivity.
Qed.

(** *** Step 4 *)

Lemma emf_cc_4a_agree :
  MHD cfg = true ->
  (forall k j i, in_step4a pG k j i = true ->
     fst (fst (cc4 w)) k j i = fst (fst (cc4 w')) k j i) /\
  (forall k j i, in_step4a pG k j i = true ->
     snd (fst (cc4 w)) k j i = snd (fst (cc4 w')) k j i) /\
  (forall k j i, in_step4a pG k j i = true ->
     snd (cc4 w) k j i = snd (cc4 w') k j i).
Proof.
  intros HM. unfold cc4, emf_cc_4a. cbv zeta. rewrite HM.
  repeat split; intros k j i Hin; unfold in_step4a in Hin.
  - rewrite !(proj1 (step4a_spec pG _ k j i)). cbv zeta. now rewrite Hin.
  - rewrite !(proj1 (proj2 (step4a_spec pG _ k j i))). cbv zeta.
    now rewrite Hin.
  - rewrite !(proj2 (proj2 (step4a_spec pG _ k j i))). cbv zeta.
    now rewrite Hin.
Qed.

Lemma emf_4a_agree :
  MHD cfg = true ->
  (forall k j i, in_emf1 pG k j i = true ->
     fst (fst (emf4 w)) k j i = fst (fst (emf4 w')) k j i) /\
  (forall k j i, in_emf2 pG k j i = true ->
     snd (fst (emf4 w)) k j i = snd (fst (emf4 w')) k j i) /\
  (forall k j i, in_emf3 pG k j i = true ->
     snd (emf4 w) k j i = snd (emf4 w') k j i).
Proof.
  intros HM. unfold emf4, emf_4a. cbv zeta. rewrite HM. cbn [fst snd].
  destruct sweep_Flux_agree as (H1 & H2 & H3).
  destruct (emf_cc_4a_agree HM) as (C1 & C2 & C3).
  repeat split; intros k j i Hin.
  - now apply (emf1_corner_reads pG _ _ _ _ _ _ H2 H3 C1).
  - now apply (emf2_corner_reads pG _ _ _ _ _ _ H1 H3 C2).
  - now apply (emf3_corner_reads pG _ _ _ _ _ _ H1 H2 C3).
Qed.

(** *** Steps 4b to 7 *)

(** The faces on entry to Step 5. *)
Let fc4 (v : Work) : Faces :=
  let f := mkFaces (Ul (sw1 v)) (Ur (sw1 v)) (Ul (sw2 v)) (Ur (sw2 v))
                   (Ul (sw3 v)) (Ur (sw3 v))
                   (Bface (sw1 v)) (Bface (sw2 v)) (Bface (sw3 v)) in
  if MHD cfg
  then step4b pG (fst (fst (emf4 v))) (snd (fst (emf4 v))) (snd (emf4 v)) f
  else f.

Lemma faces_4_states v :
  Ul_x1Face (fc4 v) = Ul (sw1 v) /\ Ur_x1Face (fc4 v) = Ur (sw1 v) /\
  Ul_x2Face (fc4 v) = Ul (sw2 v) /\ Ur_x2Face (fc4 v) = Ur (sw2 v) /\
  Ul_x3Face (fc4 v) = Ul (sw3 v) /\ Ur_x3Face (fc4 v) = Ur (sw3 v).
Proof.
  unfold fc4. cbv zeta.
  set (f := mkFaces (Ul (sw1 v)) (Ur (sw1 v)) (Ul (sw2 v)) (Ur (sw2 v))
                    (Ul (sw3 v)) (Ur (sw3 v))
                    (Bface (sw1 v)) (Bface (sw2 v)) (Bface (sw3 v))).
  destruct (MHD cfg); [|repeat split].
  repeat split.
  - now rewrite (step4b_frame pG f _ _ _ Ul_x1Face).
  - now rewrite (step4b_frame pG f _ _ _ Ur_x1Face).
  - now rewrite (step4b_frame pG f _ _ _ Ul_x2Face).
  - now rewrite (step4b_frame pG f _ _ _ Ur_x2Face).
  - now rewrite (step4b_frame pG f _ _ _ Ul_x3Face).
  - now rewrite (step4b_frame pG f _ _ _ Ur_x3Face).
Qed.

Lemma faces_4_B_agree :
  MHD cfg = true ->
  (forall k j i, in_step5 pG k j i = true ->
     B1_x1Face (fc4 w) k j i = B1_x1Face (fc4 w') k j i) /\
  (forall k j i, in_step6 pG k j i = true ->
     B2_x2Face (fc4 w) k j i = B2_x2Face (fc4 w') k j i) /\
  (forall k j i, in_step7 pG k j i = true ->
     B3_x3Face (fc4 w) k j i = B3_x3Face (fc4 w') k j i).
Proof.
  intros HM. unfold fc4. cbv zeta. rewrite HM.
  destruct (emf_4a_agree HM) as (E1 & E2 & E3).
  destruct (sweep_Bface w HM) as (A1 & A2 & A3).
  destruct (sweep_Bface w' HM) as (A1' & A2' & A3').
  repeat split; intros k j i Hin.
  - apply step4b_B1_reads; try assumption.
    cbn [B1_x1Face]. now rewrite A1, A1'.
  - apply step4b_B2_reads; try assumption.
    cbn [B2_x2Face]. now rewrite A2, A2'.
  - apply step4b_B3_reads; try assumption.
    cbn [B3_x3Face]. now rewrite A3, A3'.
Qed.

Lemma faces_7_eq v :
  fc7 v =
  let p1 := step5 cfg gl ext pG (Flux (sw2 v)) (Flux (sw3 v))
                  (fst (fst (emf4 v)))
                  (Ul_x1Face (fc4 v), Ur_x1Face (fc4 v)) in
  let p2 := step6 cfg gl ext pG (Flux (sw1 v)) (Flux (sw3 v))
                  (snd (fst (emf4 v)))
                  (Ul_x2Face (fc4 v), Ur_x2Face (fc4 v)) in
  let p3 := step7 cfg gl ext pG (Flux (sw1 v)) (Flux (sw2 v))
                  (snd (emf4 v))
                  (Ul_x3Face (fc4 v), Ur_x3Face (fc4 v)) in
  mkFaces (fst p1) (snd p1) (fst p2) (snd p2) (fst p3) (snd p3)
          (B1_x1Face (fc4 v)) (B2_x2Face (fc4 v)) (B3_x3Face (fc4 v)).
Proof. reflexivity. Qed.

Lemma faces_7_agree :
  (forall k j i, in_step5 pG k j i = true ->
     Ul_x1Face (fc7 w) k j i = Ul_x1Face (fc7 w') k j i /\
     Ur_x1Face (fc7 w) k j i = Ur_x1Face (fc7 w') k j i /\
     MHDARG cfg (B1_x1Face (fc7 w) k j i) =
       MHDARG cfg (B1_x1Face (fc7 w') k j i)) /\
  (forall k j i, in_step6 pG k j i = true ->
     Ul_x2Face (fc7 w) k j i = Ul_x2Face (fc7 w') k j i /\
     Ur_x2Face (fc7 w) k j i = Ur_x2Face (fc7 w') k j i /\
     MHDARG cfg (B2_x2Face (fc7 w) k j i) =
       MHDARG cfg (B2_x2Face (fc7 w') k j i)) /\
  (forall k j i, in_step7 pG k j i = true ->
     Ul_x3Face (fc7 w) k j i = Ul_x3Face (fc7 w') k j i /\
     Ur_x3Face (fc7 w) k j i = Ur_x3Face (fc7 w') k j i /\
     MHDARG cfg (B3_x3Face (fc7 w) k j i) =
       MHDARG cfg (B3_x3Face (fc7 w') k j i)).
Proof.
  rewrite !faces_7_eq. cbv zeta. cbn [Ul_x1Face Ur_x1Face Ul_x2Face Ur_x2Face
    Ul_x3Face Ur_x3Face B1_x1Face B2_x2Face B3_x3Face].
  destruct sweep_Flux_agree as (H1 & H2 & H3).
  assert (E : MHD cfg = true ->
    (forall k j i, in_emf1 pG k j i = true ->
       fst (fst (emf4 w)) k j i = fst (fst (emf4 w')) k j i) /\
    (forall k j i, in_emf2 pG k j i = true ->
       snd (fst (emf4 w)) k j i = snd (fst (emf4 w')) k j i) /\
    (forall k j i, in_emf3 pG k j i = true ->
       snd (emf4 w) k j i = snd (emf4 w') k j i)) by apply emf_4a_agree.
  destruct (faces_4_states w) as (L1 & R1 & L2 & R2 & L3 & R3).
  destruct (faces_4_states w') as (L1' & R1' & L2' & R2' & L3' & R3').
  rewrite L1, R1, L2, R2, L3, R3, L1', R1', L2', R2', L3', R3'.
  assert (B : forall b b' : Real, (MHD cfg = true -> b = b') ->
                                  MHDARG cfg b = MHDARG cfg b').
  { intros b b' Hb. unfold MHDARG. destruct (MHD cfg); [|reflexivity].
    now rewrite Hb. }
  split; [|split]; intros k j i Hin.
  - destruct (step5_reads cfg gl ext pG _ _ _ _ _ _ H2 H3
                (fun HM => proj1 (E HM))
                (Ul (sw1 w), Ur (sw1 w)) (Ul (sw1 w'), Ur (sw1 w')) k j i)
      as (A1 & A2).
    { cbn [fst snd]. rng_hyp Hin. split; apply sweep1_agree; rng. }
    split; [exact A1|]. split; [exact A2|].
    apply B. intros HM. now apply (proj1 (faces_4_B_agree HM)).
  - destruct (step6_reads cfg gl ext pG _ _ _ _ _ _ H1 H3
                (fun HM => proj1 (proj2 (E HM)))
                (Ul (sw2 w), Ur (sw2 w)) (Ul (sw2 w'), Ur (sw2 w')) k j i)
      as (A1 & A2).
    { cbn [fst snd]. rng_hyp Hin. split; apply sweep2_agree; rng. }
    split; [exact A1|]. split; [exact A2|].
    apply B. intros HM. now apply (proj1 (proj2 (faces_4_B_agree HM))).
  - destruct (step7_reads cfg gl ext pG _ _ _ _ _ _ H1 H2
                (fun HM => proj2 (proj2 (E HM)))
                (Ul (sw3 w), Ur (sw3 w)) (Ul (sw3 w'), Ur (sw3 w')) k j i)
      as (A1 & A2).
    { cbn [fst snd]. rng_hyp Hin. split; apply sweep3_agree; rng. }
    split; [exact A1|]. split; [exact A2|].
    apply B. intros HM. now apply (proj2 (proj2 (faces_4_B_agree HM))).
Qed.
(** *** Step 8 *)

Lemma dhalf_8_agree k j i :
  MHD cfg || not_NULL (StaticGravPot gl) || not_NULL (CoolingFunc gl) = true ->
  in_step8 pG k j i = true ->
  dh8 w k j i = dh8 w' k j i.
Proof.
  intros Hg Hin. unfold dh8, dhalf_8.
  destruct sweep_Flux_agree as (H1 & H2 & H3).
  now apply step8a_reads.
Qed.

Lemma half_8_agree k j i :
  MHD cfg || not_NULL (CoolingFunc gl) = true ->
  in_step8 pG k j i = true ->
  (BAROTROPIC cfg = false ->
   fst (fst (fst (hf8 w))) k j i = fst (fst (fst (hf8 w'))) k j i) /\
  (MHD cfg = true ->
   snd (fst (fst (hf8 w))) k j i = snd (fst (fst (hf8 w'))) k j i /\
   snd (fst (hf8 w)) k j i = snd (fst (hf8 w')) k j i /\
   snd (hf8 w) k j i = snd (hf8 w') k j i).
Proof.
  intros Hg Hin. unfold hf8, half_8. cbv zeta.
  destruct sweep_Flux_agree as (H1 & H2 & H3).
  fold fc7 dh8.
  assert (Hg' : MHD cfg || not_NULL (StaticGravPot gl) ||
                not_NULL (CoolingFunc gl) = true).
  { destruct (MHD cfg); [reflexivity|]. cbn [orb] in *.
    rewrite Hg. apply orb_true_r. }
  apply (step8b_reads cfg gl ext pG _ _ _ _ _ _ H1 H2 H3); try assumption.
  - intros HM a b c Hc. rewrite !faces_7_eq. cbn [B1_x1Face].
    now apply (proj1 (faces_4_B_agree HM)).
  - intros HM a b c Hc. rewrite !faces_7_eq. cbn [B2_x2Face].
    now apply (proj1 (proj2 (faces_4_B_agree HM))).
  - intros HM a b c Hc. rewrite !faces_7_eq. cbn [B3_x3Face].
    now apply (proj2 (proj2 (faces_4_B_agree HM))).
  - intros a b c Hc. now apply dhalf_8_agree.
Qed.

(** *** Step 9 *)

Let n1 := eta1_9 cfg gl ext sol rc pG.
Let n2 := eta2_9 cfg gl ext sol rc pG.
Let n3 := eta3_9 cfg gl ext sol rc pG.
Let fl1 := flux1_9 cfg gl ext sol rc pG.
Let fl2 := flux2_9 cfg gl ext sol rc pG.
Let fl3 := flux3_9 cfg gl ext sol rc pG.

Lemma eta_9_agree :
  H_CORRECTION cfg = true ->
  (forall k j i, in_step5 pG k j i = true -> n1 w k j i = n1 w' k j i) /\
  (forall k j i, in_step6 pG k j i = true -> n2 w k j i = n2 w' k j i) /\
  (forall k j i, in_step7 pG k j i = true -> n3 w k j i = n3 w' k j i).
Proof.
  intros HH. unfold n1, n2, n3, eta1_9, eta2_9, eta3_9. rewrite HH.
  fold fc7. destruct faces_7_agree as (A1 & A2 & A3).
  repeat split; intros k j i Hin.
  - apply step9a_eta1_reads; try assumption; intros a b c Hc; now apply A1.
  - apply step9a_eta2_reads; try assumption; intros a b c Hc; now apply A2.
  - apply step9a_eta3_reads; try assumption; intros a b c Hc; now apply A3.
Qed.

Lemma flux_9_agree :
  (fst (fst (fl1 w)) = fst (fst (fl1 w')) /\
   forall k j i, in_step9b pG k j i = true ->
                 snd (fst (fl1 w)) k j i = snd (fst (fl1 w')) k j i) /\
  (fst (fst (fl2 w)) = fst (fst (fl2 w')) /\
   forall k j i, in_step9c pG k j i = true ->
                 snd (fst (fl2 w)) k j i = snd (fst (fl2 w')) k j i) /\
  (fst (fst (fl3 w)) = fst (fst (fl3 w')) /\
   forall k j i, in_step9d pG k j i = true ->
                 snd (fst (fl3 w)) k j i = snd (fst (fl3 w')) k j i).
Proof.
  destruct faces_7_agree as (A1 & A2 & A3).
  assert (N : H_CORRECTION cfg = true ->
    (forall k j i, in_step5 pG k j i = true -> n1 w k j i = n1 w' k j i) /\
    (forall k j i, in_step6 pG k j i = true -> n2 w k j i = n2 w' k j i) /\
    (forall k j i, in_step7 pG k j i = true -> n3 w k j i = n3 w' k j i))
    by apply eta_9_agree.
  assert (F1 : fst (fst (fl1 w)) = fst (fst (fl1 w')) /\
               forall k j i, in_step9b pG k j i = true ->
                             snd (fst (fl1 w)) k j i = snd (fst (fl1 w')) k j i).
  { unfold fl1, flux1_9. fold fc7 n1 n2 n3. rewrite Hetah.
    apply step9b_loop_reads.
    - intros a b c Hc. now apply A1.
    - intros a b c Hc. now apply A1.
    - intros a b c Hc. now apply A1.
    - intros HH. apply (N HH).
    - intros HH. apply (N HH).
    - intros HH. apply (N HH). }
  assert (F2 : fst (fst (fl2 w)) = fst (fst (fl2 w')) /\
               forall k j i, in_step9c pG k j i = true ->
                             snd (fst (fl2 w)) k j i = snd (fst (fl2 w')) k j i).
  { unfold fl2, flux2_9. fold fc7 n1 n2 n3 fl1. rewrite (proj1 F1).
    apply step9c_loop_reads.
    - intros a b c Hc. now apply A2.
    - intros a b c Hc. now apply A2.
    - intros a b c Hc. now apply A2.
    - intros HH. apply (N HH).
    - intros HH. apply (N HH).
    - intros HH. apply (N HH). }
  split; [exact F1|]. split; [exact F2|].
  unfold fl3, flux3_9. fold fc7 n1 n2 n3 fl2. rewrite (proj1 F2).
  apply step9d_loop_reads.
  - intros a b c Hc. now apply A3.
  - intros a b c Hc. now apply A3.
  - intros a b c Hc. now apply A3.
  - intros HH. apply (N HH).
  - intros HH. apply (N HH).
  - intros HH. apply (N HH).
Qed.

(** *** The scratch arrays on entry to Step 10 *)

Lemma scratch_9_fresh :
  fresh_agree cfg gl pG (scratch_9 cfg gl ext sol rc pG w)
                        (scratch_9 cfg gl ext sol rc pG w').
Proof.
  destruct flux_9_agree as ((_ & F1) & (_ & F2) & (_ & F3)).
  unfold fresh_agree, scratch_9. cbv zeta.
  cbn [x1Flux x2Flux x3Flux emf1_cc emf2_cc emf3_cc dhalf phalf].
  fold fl1 fl2 fl3 hf8 dh8.
  split; [exact F1|]. split; [exact F2|]. split; [exact F3|].
  split; [|split].
  - intros HM k j i Hin.
    apply (half_8_agree k j i); [now rewrite HM|assumption|assumption].
  - intros Hd k j i Hin. apply dhalf_8_agree; [|assumption].
    unfold reads_dhalf, reads_phalf in Hd.
    destruct (MHD cfg); [reflexivity|]. cbn [orb].
    destruct (not_NULL (StaticGravPot gl)); [reflexivity|]. cbn [orb] in *.
    now apply andb_true_iff in Hd.
  - intros Hp k j i Hin. unfold reads_phalf in Hp.
    apply andb_true_iff in Hp. destruct Hp as (Hb & Hc).
    apply negb_true_iff in Hb.
    apply (half_8_agree k j i); [|assumption|assumption].
    rewrite Hc. apply orb_true_r.
Qed.
End Two_calls.

(** Extra X11.  A call of integrate_3d_ctu takes nothing from the calls
    before it but the global etah.  Without the shearing box, with at least
    two ghost cells (three under MHD, whose sweeps read the interface fields
    of the grid up to the faces ie+3, je+3, ke+3), a reconstruction that
    reads only the cells that the
    sweep has loaded and a Cons1D_to_Prim1D that reads only the members that
    the configuration has, two calls on the same grid that start from any
    two contents of the module-level vectors and arrays (face states,
    fluxes, EMFs, eta, dhalf, phalf, U1d, W, Wl, Wr, Bxc, Bxi) but from the
    same etah return the same cell states, interface fields and mass fluxes,
    and leave the same etah. *)
Theorem X11_integrate_carries_only_etah cfg gl ext sol rc pG pD w w' :
  SHEARING_BOX cfg = false ->
  ((if MHD cfg then 3 else 2) <= nghost gl)%Z ->
  ranges_ok pG ->
  c2p_reads_members cfg sol ->
  lr_states_reads_pencil gl rc ->
  w_etah w = w_etah w' ->
  exists g g' w1 w1',
    integrate_3d_ctu cfg gl ext sol rc pG pD w = Some (g, w1) /\
    integrate_3d_ctu cfg gl ext sol rc pG pD w' = Some (g', w1') /\
    grid_agree g g' /\ w_etah w1 = w_etah w1'.
Proof.
  intros Hns Hng3 Hr Hc2p Hlr Hetah.
  assert (Hng : (2 <= nghost gl)%Z) by (destruct (MHD cfg); lia).
  pose proof (scratch_9_fresh cfg gl ext sol rc pG w w' Hng Hr Hc2p Hlr Hetah)
    as Hfresh.
  destruct (flux_9_agree cfg gl ext sol rc pG w w' Hng Hr Hc2p Hlr Hetah)
    as (_ & _ & (He3 & _)).
  unfold integrate_3d_ctu. cbv zeta.
  destruct (update_completes cfg gl ext (scratch_9 cfg gl ext sol rc pG w)
              pG pD (or_introl Hns)) as (g & Hg).
  destruct (update_completes cfg gl ext (scratch_9 cfg gl ext sol rc pG w')
              pG pD (or_introl Hns)) as (g' & Hg').
  rewrite Hg, Hg'.
  eexists. eexists. eexists. eexists.
  split; [reflexivity|]. split; [reflexivity|].
  split.
  - exact (update_fresh_agree cfg gl ext _ _ pG pD g g' Hns Hr Hfresh Hg Hg').
  - cbn [w_etah]. exact He3.
Qed.

Lemma ex_c2p_reads_members : c2p_reads_members ex_cfg_mhd ex_solver_lf.
Proof.
  intros u u' b (Hd & Hx & Hy & Hz & HE & HB & Hs).
  destruct (HB eq_refl) as (HBy & HBz).
  cbn [ex_solver_lf Cons1D_to_Prim1D].
  rewrite Hd, Hx, Hy, Hz, (HE eq_refl), HBy, HBz, (Hs 0%nat).
  - reflexivity.
  - simpl. lia.
Qed.

Lemma ex_lr_states_reads_pencil : lr_states_reads_pencil ex_globals ex_recon.
Proof.
  intros W W' B B' dt_ dtodx il iu st st' HW HB i Hi.
  cbn [ex_recon lr_states Wl Wr]. cbn [ex_globals nghost] in HW.
  split; apply HW; lia.
Qed.

Lemma X11_witness :
  SHEARING_BOX ex_cfg_mhd = false /\
  ((if MHD ex_cfg_mhd then 3 else 2) <= nghost ex_globals)%Z /\
  ranges_ok ex_grid /\ w_etah ex_work = w_etah ex_work_stale /\
  exists g g' w1 w1',
    integrate_3d_ctu ex_cfg_mhd ex_globals ex_extern ex_solver_lf ex_recon
      ex_grid ex_domain ex_work = Some (g, w1) /\
    integrate_3d_ctu ex_cfg_mhd ex_globals ex_extern ex_solver_lf ex_recon
      ex_grid ex_domain ex_work_stale = Some (g', w1') /\
    grid_agree g g' /\ w_etah w1 = w_etah w1'.
Proof.
  assert (Hng : ((if MHD ex_cfg_mhd then 3 else 2) <= nghost ex_globals)%Z)
    by (simpl; lia).
  assert (Hr : ranges_ok ex_grid) by (unfold ranges_ok; simpl; lia).
  split; [reflexivity|]. split; [exact Hng|]. split; [exact Hr|].
  split; [reflexivity|].
  exact (X11_integrate_carries_only_etah
           ex_cfg_mhd ex_globals ex_extern ex_solver_lf ex_recon
           ex_grid ex_domain ex_work ex_work_stale
           eq_refl Hng Hr ex_c2p_reads_members ex_lr_states_reads_pencil
           eq_refl).
Defined.

(** ** What the sweeps store, and the interface fields at the half step *)

(** Extra X12.  Each of the three sweeps (Steps 1, 2, 3) stores the face
    states and the first-pass fluxes in its own loop range only: two ghost
    layers in the transverse directions and the interfaces lo-1 to hi+2
    along the sweep.  Under MHD it copies the interface field of the grid to
    its face array, over the transverse range and all nghost layers along
    the sweep, and stores to no other element of the face array; without
    MHD the face array is left alone. *)
Theorem X12_sweeps_store cfg gl ext sol rc pG etah s k j i :
  let s1 := step1 cfg gl ext sol rc pG etah s in
  let s2 := step2 cfg gl ext sol rc pG etah s in
  let s3 := step3 cfg gl ext sol rc pG etah s in
  (in_sweep1 pG k j i = false ->
   Ul s1 k j i = Ul s k j i /\ Ur s1 k j i = Ur s k j i /\
   Flux s1 k j i = Flux s k j i) /\
  (in_sweep2 pG k j i = false ->
   Ul s2 k j i = Ul s k j i /\ Ur s2 k j i = Ur s k j i /\
   Flux s2 k j i = Flux s k j i) /\
  (in_sweep3 pG k j i = false ->
   Ul s3 k j i = Ul s k j i /\ Ur s3 k j i = Ur s k j i /\
   Flux s3 k j i = Flux s k j i) /\
  Bface s1 k j i =
    (if MHD cfg && in_load1 gl pG k j i then B1i pG k j i else Bface s k j i) /\
  Bface s2 k j i =
    (if MHD cfg && in_load2 gl pG k j i then B2i pG k j i else Bface s k j i) /\
  Bface s3 k j i =
    (if MHD cfg && in_load3 gl pG k j i then B3i pG k j i else Bface s k j i).
Proof.
  cbv zeta. split; [|split; [|split; [|split; [|split]]]].
  - intros Hout. now apply step1_off.
  - intros Hout. now apply step2_off.
  - intros Hout. now apply step3_off.
  - apply step1_Bface.
  - apply step2_Bface.
  - apply step3_Bface.
Qed.

(** Extra X13.  Under MHD and with at least three ghost cells (the sweeps
    read the interface fields of the grid up to the faces ie+3, je+3, ke+3),
    the interface
    fields B1_x1Face, B2_x2Face, B3_x3Face that a call of integrate_3d_ctu
    leaves (the fields at the half time step) have, in every interior cell
    and in one layer of ghost cells, the discrete divergence that the
    interface fields of the grid had on entry.  In particular they are
    divergence-free there whenever the grid is. *)
Theorem X13_half_step_fields_keep_divergence
    cfg gl ext sol rc pG pD w g w1 k j i :
  MHD cfg = true ->
  (3 <= nghost gl)%Z ->
  integrate_3d_ctu cfg gl ext sol rc pG pD w = Some (g, w1) ->
  half_step_cell pG k j i ->
  divB_faces pG (w_faces w1) k j i = divB pG k j i /\
  (divB pG k j i = 0 -> divB_faces pG (w_faces w1) k j i = 0).
Proof.
  intros HM Hng3 Hrun Hin.
  assert (Hng : (2 <= nghost gl)%Z) by lia.
  assert (E : divB_faces pG (w_faces w1) k j i = divB pG k j i).
  { unfold integrate_3d_ctu in Hrun. cbv zeta in Hrun.
    destruct (integrate_3d_ctu_update cfg gl ext
                (scratch_9 cfg gl ext sol rc pG w) pG pD); [|discriminate].
    injection Hrun as _ <-. cbn [w_faces].
    unfold faces_7. cbv zeta. rewrite HM.
    destruct (half_step_cell_written pG k j i Hin)
      as (W1 & W1' & W2 & W2' & W3 & W3').
    unfold divB_faces, divB. cbn [B1_x1Face B2_x2Face B3_x3Face].
    rewrite !step4b_B1, !step4b_B2, !step4b_B3.
    rewrite W1, W1', W2, W2', W3, W3'. cbn [B1_x1Face B2_x2Face B3_x3Face].
    destruct (sweep_Bface cfg gl ext sol rc pG Hng w HM) as (A1 & A2 & A3).
    destruct Hin as (Hk & Hj & Hi).
    rewrite (A1 k j (i+1)%Z), (A1 k j i), (A2 k (j+1)%Z i), (A2 k j i),
            (A3 (k+1)%Z j i), (A3 k j i) by rng.
    pose proof (half_divergence_cancels pG
                  (fst (fst (emf_4a cfg gl ext sol rc pG w)))
                  (snd (fst (emf_4a cfg gl ext sol rc pG w)))
                  (snd (emf_4a cfg gl ext sol rc pG w)) k j i) as Hc.
    unfold Rdiv in *. lra. }
  split; [exact E|]. intros H0. now rewrite E.
Qed.

Lemma ex_half_step_cell : half_step_cell ex_grid 0 1 0.
Proof. unfold half_step_cell; simpl; lia. Qed.

Lemma X13_witness :
  MHD ex_cfg_mhd = true /\ (3 <= nghost ex_globals)%Z /\
  half_step_cell ex_grid 0 1 0 /\
  exists g w1,
    integrate_3d_ctu ex_cfg_mhd ex_globals ex_extern ex_solver_lf ex_recon
      ex_grid ex_domain ex_work = Some (g, w1) /\
    divB_faces ex_grid (w_faces w1) 0 1 0 = divB ex_grid 0 1 0.
Proof.
  assert (Hng : (3 <= nghost ex_globals)%Z) by (simpl; lia).
  split; [reflexivity|]. split; [exact Hng|].
  split; [exact ex_half_step_cell|].
  eexists. eexists. split; [reflexivity|].
  exact (proj1 (X13_half_step_fields_keep_divergence
                  ex_cfg_mhd ex_globals ex_extern ex_solver_lf ex_recon
                  ex_grid ex_domain ex_work _ _ 0 1 0
                  eq_refl Hng eq_refl ex_half_step_cell)).
Defined.

(** ** Steps 5 to 7: the density and the passive scalars of the face states *)

(** Expose the body of a cell function, keeping its local definitions. *)
Ltac open_cell f :=
  cbv delta [f]; cbv beta;
  repeat match goal with
         | |- context [cc_pos ?e ?g ?a ?b ?c] =>
             destruct (cc_pos e g a b c) as [[? ?] ?]
         end.

Ltac keeps f cfg :=
  intros ul ur; open_cell f;
  destruct (BAROTROPIC cfg); try destruct (FARGO cfg);
  repeat split; reflexivity.

Section Sources_keep.
Variable cfg : Config.
Variable gl : Globals.
Variable ext : Extern.
Variable pG : Grid.
Variables F1 F2 F3 : Arr3 Cons1D.t.

Lemma step5c_keeps k j i : keeps_d_s (step5c_cell cfg pG k j i).
Proof. keeps step5c_cell cfg. Qed.
Lemma step6c_keeps k j i : keeps_d_s (step6c_cell cfg pG k j i).
Proof. keeps step6c_cell cfg. Qed.
Lemma step7c_keeps k j i : keeps_d_s (step7c_cell cfg pG k j i).
Proof. keeps step7c_cell cfg. Qed.

Lemma step5d_grav_keeps phi k j i :
  keeps_d_s (step5d_grav_cell cfg ext pG F2 F3 phi k j i).
Proof. keeps step5d_grav_cell cfg. Qed.
Lemma step6d_grav_keeps phi k j i :
  keeps_d_s (step6d_grav_cell cfg ext pG F1 F3 phi k j i).
Proof. keeps step6d_grav_cell cfg. Qed.
Lemma step7d_grav_keeps phi k j i :
  keeps_d_s (step7d_grav_cell cfg ext pG F1 F2 phi k j i).
Proof. keeps step7d_grav_cell cfg. Qed.

Lemma step5d_selfg_keeps k j i :
  keeps_d_s (step5d_selfg_cell cfg pG F2 F3 k j i).
Proof. keeps step5d_selfg_cell cfg. Qed.
Lemma step6d_selfg_keeps k j i :
  keeps_d_s (step6d_selfg_cell cfg pG F1 F3 k j i).
Proof. keeps step6d_selfg_cell cfg. Qed.
Lemma step7d_selfg_keeps k j i :
  keeps_d_s (step7d_selfg_cell cfg pG F1 F2 k j i).
Proof. keeps step7d_selfg_cell cfg. Qed.

Lemma step6d_shear_keeps k j i : keeps_d_s (step6d_shear_cell cfg gl pG k j i).
Proof. keeps step6d_shear_cell cfg. Qed.
Lemma step7d_shear_keeps k j i : keeps_d_s (step7d_shear_cell cfg gl pG k j i).
Proof. keeps step7d_shear_cell cfg. Qed.
End Sources_keep.

(** A nest whose cell function keeps the density and the scalars. *)
Lemma face_nest_keeps klo khi jlo jhi ilo ihi cell p k j i :
  (forall k j i, keeps_d_s (cell k j i)) ->
  let r := face_nest klo khi jlo jhi ilo ihi cell p in
  Cons1D.d (fst r k j i) = Cons1D.d (fst p k j i) /\
  Cons1D.s (fst r k j i) = Cons1D.s (fst p k j i) /\
  Cons1D.d (snd r k j i) = Cons1D.d (snd p k j i) /\
  Cons1D.s (snd r k j i) = Cons1D.s (snd p k j i).
Proof.
  intros H r. unfold r. rewrite face_nest_fst, face_nest_snd.
  destruct (in_box klo khi jlo jhi ilo ihi k j i); [apply H|auto].
Qed.

Section Flux_corrections.
Variable cfg : Config.
Variable gl : Globals.
Variable ext : Extern.
Variable pG : Grid.
Variables F1 F2 F3 : Arr3 Cons1D.t.
Variables e1 e2 e3 : Arr3 Real.

(** Steps 5a-5b, 6a-6b, 7a-7b: the density and the scalars of the two
    states. *)
Lemma step5ab_cell_d k j i ul ur :
  let c := step5ab_cell cfg pG F2 F3 e1 k j i ul ur in
  Cons1D.d (fst c) =
    Cons1D.d ul - transverse_x1 pG F2 F3 Cons1D.d k j (i-1) /\
  Cons1D.d (snd c) = Cons1D.d ur - transverse_x1 pG F2 F3 Cons1D.d k j i.
Proof.
  cbv zeta. unfold transverse_x1.
  assert (El : Cons1D.d (fst (step5ab_cell cfg pG F2 F3 e1 k j i ul ur)) =
    Cons1D.d ul
    - 0.5 * (dt pG / dx2 pG) * (Cons1D.d (F2 k (j+1)%Z (i-1)%Z) - Cons1D.d (F2 k j (i-1)%Z))
    - 0.5 * (dt pG / dx3 pG) * (Cons1D.d (F3 (k+1)%Z j (i-1)%Z) - Cons1D.d (F3 k j (i-1)%Z)))
    by (open_cell step5ab_cell; destruct (BAROTROPIC cfg), (MHD cfg);
        reflexivity).
  assert (Er : Cons1D.d (snd (step5ab_cell cfg pG F2 F3 e1 k j i ul ur)) =
    Cons1D.d ur
    - 0.5 * (dt pG / dx2 pG) * (Cons1D.d (F2 k (j+1)%Z i) - Cons1D.d (F2 k j i))
    - 0.5 * (dt pG / dx3 pG) * (Cons1D.d (F3 (k+1)%Z j i) - Cons1D.d (F3 k j i)))
    by (open_cell step5ab_cell; destruct (BAROTROPIC cfg), (MHD cfg);
        reflexivity).
  rewrite El, Er. split; lra.
Qed.

Lemma step5ab_cell_s k j i ul ur n :
  (n < NSCALARS cfg)%nat ->
  let c := step5ab_cell cfg pG F2 F3 e1 k j i ul ur in
  let sn := fun u : Cons1D.t => Cons1D.s u n in
  sn (fst c) = sn ul - transverse_x1 pG F2 F3 sn k j (i-1) /\
  sn (snd c) = sn ur - transverse_x1 pG F2 F3 sn k j i.
Proof.
  intros Hn. cbv zeta. unfold transverse_x1.
  assert (El : Cons1D.s (fst (step5ab_cell cfg pG F2 F3 e1 k j i ul ur)) =
    for_scal (NSCALARS cfg)
      (fun n sn => sn - 0.5 * (dt pG / dx3 pG) * (Cons1D.s (F3 (k+1)%Z j (i-1)%Z) n - Cons1D.s (F3 k j (i-1)%Z) n))
      (for_scal (NSCALARS cfg)
         (fun n sn => sn - 0.5 * (dt pG / dx2 pG) * (Cons1D.s (F2 k (j+1)%Z (i-1)%Z) n - Cons1D.s (F2 k j (i-1)%Z) n))
         (Cons1D.s ul)))
    by (open_cell step5ab_cell; destruct (BAROTROPIC cfg), (MHD cfg);
        reflexivity).
  assert (Er : Cons1D.s (snd (step5ab_cell cfg pG F2 F3 e1 k j i ul ur)) =
    for_scal (NSCALARS cfg)
      (fun n sn => sn - 0.5 * (dt pG / dx3 pG) * (Cons1D.s (F3 (k+1)%Z j i) n - Cons1D.s (F3 k j i) n))
      (for_scal (NSCALARS cfg)
         (fun n sn => sn - 0.5 * (dt pG / dx2 pG) * (Cons1D.s (F2 k (j+1)%Z i) n - Cons1D.s (F2 k j i) n))
         (Cons1D.s ur)))
    by (open_cell step5ab_cell; destruct (BAROTROPIC cfg), (MHD cfg);
        reflexivity).
  rewrite El, Er, !for_scal_spec.
  apply Nat.ltb_lt in Hn. rewrite Hn. split; lra.
Qed.

Lemma step6ab_cell_d k j i ul ur :
  let c := step6ab_cell cfg pG F1 F3 e2 k j i ul ur in
  Cons1D.d (fst c) =
    Cons1D.d ul - transverse_x2 pG F1 F3 Cons1D.d k (j-1) i /\
  Cons1D.d (snd c) = Cons1D.d ur - transverse_x2 pG F1 F3 Cons1D.d k j i.
Proof.
  cbv zeta. unfold transverse_x2.
  assert (El : Cons1D.d (fst (step6ab_cell cfg pG F1 F3 e2 k j i ul ur)) =
    Cons1D.d ul
    - 0.5 * (dt pG / dx1 pG) * (Cons1D.d (F1 k (j-1)%Z (i+1)%Z) - Cons1D.d (F1 k (j-1)%Z i))
    - 0.5 * (dt pG / dx3 pG) * (Cons1D.d (F3 (k+1)%Z (j-1)%Z i) - Cons1D.d (F3 k (j-1)%Z i)))
    by (open_cell step6ab_cell; destruct (BAROTROPIC cfg), (MHD cfg);
        reflexivity).
  assert (Er : Cons1D.d (snd (step6ab_cell cfg pG F1 F3 e2 k j i ul ur)) =
    Cons1D.d ur
    - 0.5 * (dt pG / dx1 pG) * (Cons1D.d (F1 k j (i+1)%Z) - Cons1D.d (F1 k j i))
    - 0.5 * (dt pG / dx3 pG) * (Cons1D.d (F3 (k+1)%Z j i) - Cons1D.d (F3 k j i)))
    by (open_cell step6ab_cell; destruct (BAROTROPIC cfg), (MHD cfg);
        reflexivity).
  rewrite El, Er. split; lra.
Qed.

Lemma step6ab_cell_s k j i ul ur n :
  (n < NSCALARS cfg)%nat ->
  let c := step6ab_cell cfg pG F1 F3 e2 k j i ul ur in
  let sn := fun u : Cons1D.t => Cons1D.s u n in
  sn (fst c) = sn ul - transverse_x2 pG F1 F3 sn k (j-1) i /\
  sn (snd c) = sn ur - transverse_x2 pG F1 F3 sn k j i.
Proof.
  intros Hn. cbv zeta. unfold transverse_x2.
  assert (El : Cons1D.s (fst (step6ab_cell cfg pG F1 F3 e2 k j i ul ur)) =
    for_scal (NSCALARS cfg)
      (fun n sn => sn - 0.5 * (dt pG / dx3 pG) * (Cons1D.s (F3 (k+1)%Z (j-1)%Z i) n - Cons1D.s (F3 k (j-1)%Z i) n))
      (for_scal (NSCALARS cfg)
         (fun n sn => sn - 0.5 * (dt pG / dx1 pG) * (Cons1D.s (F1 k (j-1)%Z (i+1)%Z) n - Cons1D.s (F1 k (j-1)%Z i) n))
         (Cons1D.s ul)))
    by (open_cell step6ab_cell; destruct (BAROTROPIC cfg), (MHD cfg);
        reflexivity).
  assert (Er : Cons1D.s (snd (step6ab_cell cfg pG F1 F3 e2 k j i ul ur)) =
    for_scal (NSCALARS cfg)
      (fun n sn => sn - 0.5 * (dt pG / dx3 pG) * (Cons1D.s (F3 (k+1)%Z j i) n - Cons1D.s (F3 k j i) n))
      (for_scal (NSCALARS cfg)
         (fun n sn => sn - 0.5 * (dt pG / dx1 pG) * (Cons1D.s (F1 k j (i+1)%Z) n - Cons1D.s (F1 k j i) n))
         (Cons1D.s ur)))
    by (open_cell step6ab_cell; destruct (BAROTROPIC cfg), (MHD cfg);
        reflexivity).
  rewrite El, Er, !for_scal_spec.
  apply Nat.ltb_lt in Hn. rewrite Hn. split; lra.
Qed.

Lemma step7ab_cell_d k j i ul ur :
  let c := step7ab_cell cfg pG F1 F2 e3 k j i ul ur in
  Cons1D.d (fst c) =
    Cons1D.d ul - transverse_x3 pG F1 F2 Cons1D.d (k-1) j i /\
  Cons1D.d (snd c) = Cons1D.d ur - transverse_x3 pG F1 F2 Cons1D.d k j i.
Proof.
  cbv zeta. unfold transverse_x3.
  assert (El : Cons1D.d (fst (step7ab_cell cfg pG F1 F2 e3 k j i ul ur)) =
    Cons1D.d ul
    - 0.5 * (dt pG / dx1 pG) * (Cons1D.d (F1 (k-1)%Z j (i+1)%Z) - Cons1D.d (F1 (k-1)%Z j i))
    - 0.5 * (dt pG / dx2 pG) * (Cons1D.d (F2 (k-1)%Z (j+1)%Z i) - Cons1D.d (F2 (k-1)%Z j i)))
    by (open_cell step7ab_cell; destruct (BAROTROPIC cfg), (MHD cfg);
        reflexivity).
  assert (Er : Cons1D.d (snd (step7ab_cell cfg pG F1 F2 e3 k j i ul ur)) =
    Cons1D.d ur
    - 0.5 * (dt pG / dx1 pG) * (Cons1D.d (F1 k j (i+1)%Z) - Cons1D.d (F1 k j i))
    - 0.5 * (dt pG / dx2 pG) * (Cons1D.d (F2 k (j+1)%Z i) - Cons1D.d (F2 k j i)))
    by (open_cell step7ab_cell; destruct (BAROTROPIC cfg), (MHD cfg);
        reflexivity).
  rewrite El, Er. split; lra.
Qed.

Lemma step7ab_cell_s k j i ul ur n :
  (n < NSCALARS cfg)%nat ->
  let c := step7ab_cell cfg pG F1 F2 e3 k j i ul ur in
  let sn := fun u : Cons1D.t => Cons1D.s u n in
  sn (fst c) = sn ul - transverse_x3 pG F1 F2 sn (k-1) j i /\
  sn (snd c) = sn ur - transverse_x3 pG F1 F2 sn k j i.
Proof.
  intros Hn. cbv zeta. unfold transverse_x3.
  assert (El : Cons1D.s (fst (step7ab_cell cfg pG F1 F2 e3 k j i ul ur)) =
    for_scal (NSCALARS cfg)
      (fun n sn => sn - 0.5 * (dt pG / dx2 pG) * (Cons1D.s (F2 (k-1)%Z (j+1)%Z i) n - Cons1D.s (F2 (k-1)%Z j i) n))
      (for_scal (NSCALARS cfg)
         (fun n sn => sn - 0.5 * (dt pG / dx1 pG) * (Cons1D.s (F1 (k-1)%Z j (i+1)%Z) n - Cons1D.s (F1 (k-1)%Z j i) n))
         (Cons1D.s ul)))
    by (open_cell step7ab_cell; destruct (BAROTROPIC cfg), (MHD cfg);
        reflexivity).
  assert (Er : Cons1D.s (snd (step7ab_cell cfg pG F1 F2 e3 k j i ul ur)) =
    for_scal (NSCALARS cfg)
      (fun n sn => sn - 0.5 * (dt pG / dx2 pG) * (Cons1D.s (F2 k (j+1)%Z i) n - Cons1D.s (F2 k j i) n))
      (for_scal (NSCALARS cfg)
         (fun n sn => sn - 0.5 * (dt pG / dx1 pG) * (Cons1D.s (F1 k j (i+1)%Z) n - Cons1D.s (F1 k j i) n))
         (Cons1D.s ur)))
    by (open_cell step7ab_cell; destruct (BAROTROPIC cfg), (MHD cfg);
        reflexivity).
  rewrite El, Er, !for_scal_spec.
  apply Nat.ltb_lt in Hn. rewrite Hn. split; lra.
Qed.
Lemma same_d_s_trans p q r k j i :
  same_d_s p q k j i -> same_d_s q r k j i -> same_d_s p r k j i.
Proof.
  intros (A1 & A2 & A3 & A4) (B1 & B2 & B3 & B4).
  unfold same_d_s. now rewrite A1, A2, A3, A4.
Qed.

Lemma same_d_s_nest klo khi jlo jhi ilo ihi cell p q k j i :
  (forall k j i, keeps_d_s (cell k j i)) ->
  same_d_s p q k j i ->
  same_d_s (face_nest klo khi jlo jhi ilo ihi cell p) q k j i.
Proof.
  intros H Hpq. apply (same_d_s_trans _ p); [|exact Hpq].
  now apply face_nest_keeps.
Qed.

Lemma same_d_s_refl p k j i : same_d_s p p k j i.
Proof. repeat split. Qed.

(** After Steps 5a-5b (6a-6b, 7a-7b) the density and the scalars are
    final. *)
Lemma step5_same p k j i :
  same_d_s (step5 cfg gl ext pG F2 F3 e1 p)
           (face_nest (ks pG - 1) (ke pG + 1) (js pG - 1) (je pG + 1)
                      (is_ pG - 1) (ie pG + 2)
                      (step5ab_cell cfg pG F2 F3 e1) p) k j i.
Proof.
  unfold step5. cbv zeta.
  destruct (SELF_GRAVITY cfg);
    [apply same_d_s_nest; [intros; apply step5d_selfg_keeps|]|];
  (destruct (StaticGravPot gl) as [phi|];
    [apply same_d_s_nest; [intros; apply step5d_grav_keeps|]|]);
  (destruct (MHD cfg);
    [apply same_d_s_nest; [intros; apply step5c_keeps|]|]);
  apply same_d_s_refl.
Qed.

Lemma step6_same p k j i :
  same_d_s (step6 cfg gl ext pG F1 F3 e2 p)
           (face_nest (ks pG - 1) (ke pG + 1) (js pG - 1) (je pG + 2)
                      (is_ pG - 1) (ie pG + 1)
                      (step6ab_cell cfg pG F1 F3 e2) p) k j i.
Proof.
  unfold step6. cbv zeta.
  destruct (SHEARING_BOX cfg);
    [apply same_d_s_nest; [intros; apply step6d_shear_keeps|]|];
  (destruct (SELF_GRAVITY cfg);
    [apply same_d_s_nest; [intros; apply step6d_selfg_keeps|]|]);
  (destruct (StaticGravPot gl) as [phi|];
    [apply same_d_s_nest; [intros; apply step6d_grav_keeps|]|]);
  (destruct (MHD cfg);
    [apply same_d_s_nest; [intros; apply step6c_keeps|]|]);
  apply same_d_s_refl.
Qed.

Lemma step7_same p k j i :
  same_d_s (step7 cfg gl ext pG F1 F2 e3 p)
           (face_nest (ks pG - 1) (ke pG + 2) (js pG - 1) (je pG + 1)
                      (is_ pG - 1) (ie pG + 1)
                      (step7ab_cell cfg pG F1 F2 e3) p) k j i.
Proof.
  unfold step7. cbv zeta.
  destruct (SHEARING_BOX cfg);
    [apply same_d_s_nest; [intros; apply step7d_shear_keeps|]|];
  (destruct (SELF_GRAVITY cfg);
    [apply same_d_s_nest; [intros; apply step7d_selfg_keeps|]|]);
  (destruct (StaticGravPot gl) as [phi|];
    [apply same_d_s_nest; [intros; apply step7d_grav_keeps|]|]);
  (destruct (MHD cfg);
    [apply same_d_s_nest; [intros; apply step7c_keeps|]|]);
  apply same_d_s_refl.
Qed.

(** Outside their loop ranges Steps 5, 6 and 7 store to no face state. *)
Lemma face_nest_outside klo khi jlo jhi ilo ihi cell p k j i :
  in_box klo khi jlo jhi ilo ihi k j i = false ->
  fst (face_nest klo khi jlo jhi ilo ihi cell p) k j i = fst p k j i /\
  snd (face_nest klo khi jlo jhi ilo ihi cell p) k j i = snd p k j i.
Proof. intros E. now rewrite face_nest_fst, face_nest_snd, E. Qed.

Lemma step5_outside p k j i :
  in_step5 pG k j i = false ->
  fst (step5 cfg gl ext pG F2 F3 e1 p) k j i = fst p k j i /\
  snd (step5 cfg gl ext pG F2 F3 e1 p) k j i = snd p k j i.
Proof.
  intros E. unfold in_step5 in E. unfold step5. cbv zeta.
  destruct (SELF_GRAVITY cfg), (StaticGravPot gl), (MHD cfg);
    repeat (rewrite (proj1 (face_nest_outside _ _ _ _ _ _ _ _ k j i E)),
                    (proj2 (face_nest_outside _ _ _ _ _ _ _ _ k j i E)));
    auto.
Qed.

Lemma step6_outside p k j i :
  in_step6 pG k j i = false ->
  fst (step6 cfg gl ext pG F1 F3 e2 p) k j i = fst p k j i /\
  snd (step6 cfg gl ext pG F1 F3 e2 p) k j i = snd p k j i.
Proof.
  intros E. unfold in_step6 in E. unfold step6. cbv zeta.
  destruct (SHEARING_BOX cfg), (SELF_GRAVITY cfg), (StaticGravPot gl),
           (MHD cfg);
    repeat (rewrite (proj1 (face_nest_outside _ _ _ _ _ _ _ _ k j i E)),
                    (proj2 (face_nest_outside _ _ _ _ _ _ _ _ k j i E)));
    auto.
Qed.

Lemma step7_outside p k j i :
  in_step7 pG k j i = false ->
  fst (step7 cfg gl ext pG F1 F2 e3 p) k j i = fst p k j i /\
  snd (step7 cfg gl ext pG F1 F2 e3 p) k j i = snd p k j i.
Proof.
  intros E. unfold in_step7 in E. unfold step7. cbv zeta.
  destruct (SHEARING_BOX cfg), (SELF_GRAVITY cfg), (StaticGravPot gl),
           (MHD cfg);
    repeat (rewrite (proj1 (face_nest_outside _ _ _ _ _ _ _ _ k j i E)),
                    (proj2 (face_nest_outside _ _ _ _ _ _ _ _ k j i E)));
    auto.
Qed.

Lemma step5_corrected p k j i :
  let p' := step5 cfg gl ext pG F2 F3 e1 p in
  corrected (in_step5 pG k j i) Cons1D.d p p' k j i
            (transverse_x1 pG F2 F3 Cons1D.d k j (i-1))
            (transverse_x1 pG F2 F3 Cons1D.d k j i) /\
  forall n, (n < NSCALARS cfg)%nat ->
    let sn := fun u : Cons1D.t => Cons1D.s u n in
    corrected (in_step5 pG k j i) sn p p' k j i
              (transverse_x1 pG F2 F3 sn k j (i-1))
              (transverse_x1 pG F2 F3 sn k j i).
Proof.
  cbv zeta. unfold corrected.
  destruct (in_step5 pG k j i) eqn:E.
  - destruct (step5_same p k j i) as (A1 & A2 & A3 & A4).
    rewrite A1, A2, A3, A4, face_nest_fst, face_nest_snd.
    unfold in_step5 in E. rewrite E. split.
    + apply step5ab_cell_d.
    + intros n Hn. now apply step5ab_cell_s.
  - split; [|intros n Hn]; now apply step5_outside.
Qed.

Lemma step6_corrected p k j i :
  let p' := step6 cfg gl ext pG F1 F3 e2 p in
  corrected (in_step6 pG k j i) Cons1D.d p p' k j i
            (transverse_x2 pG F1 F3 Cons1D.d k (j-1) i)
            (transverse_x2 pG F1 F3 Cons1D.d k j i) /\
  forall n, (n < NSCALARS cfg)%nat ->
    let sn := fun u : Cons1D.t => Cons1D.s u n in
    corrected (in_step6 pG k j i) sn p p' k j i
              (transverse_x2 pG F1 F3 sn k (j-1) i)
              (transverse_x2 pG F1 F3 sn k j i).
Proof.
  cbv zeta. unfold corrected.
  destruct (in_step6 pG k j i) eqn:E.
  - destruct (step6_same p k j i) as (A1 & A2 & A3 & A4).
    rewrite A1, A2, A3, A4, face_nest_fst, face_nest_snd.
    unfold in_step6 in E. rewrite E. split.
    + apply step6ab_cell_d.
    + intros n Hn. now apply step6ab_cell_s.
  - split; [|intros n Hn]; now apply step6_outside.
Qed.

Lemma step7_corrected p k j i :
  let p' := step7 cfg gl ext pG F1 F2 e3 p in
  corrected (in_step7 pG k j i) Cons1D.d p p' k j i
            (transverse_x3 pG F1 F2 Cons1D.d (k-1) j i)
            (transverse_x3 pG F1 F2 Cons1D.d k j i) /\
  forall n, (n < NSCALARS cfg)%nat ->
    let sn := fun u : Cons1D.t => Cons1D.s u n in
    corrected (in_step7 pG k j i) sn p p' k j i
              (transverse_x3 pG F1 F2 sn (k-1) j i)
              (transverse_x3 pG F1 F2 sn k j i).
Proof.
  cbv zeta. unfold corrected.
  destruct (in_step7 pG k j i) eqn:E.
  - destruct (step7_same p k j i) as (A1 & A2 & A3 & A4).
    rewrite A1, A2, A3, A4, face_nest_fst, face_nest_snd.
    unfold in_step7 in E. rewrite E. split.
    + apply step7ab_cell_d.
    + intros n Hn. now apply step7ab_cell_s.
  - split; [|intros n Hn]; now apply step7_outside.
Qed.
End Flux_corrections.

(** Extra X14.  Steps 5, 6 and 7 are the transverse flux-gradient
    corrections of CTU, whatever source terms are enabled: inside the loop
    range of the step, the density and each passive scalar n < NSCALARS of
    the left state of a face change by the fluxes, over half a time step, in
    the two transverse directions across the cell on the left of the face,
    and those of the right state by the same for the cell on its right.  The
    MHD, gravity and shearing-box source terms of Steps 5c-5d, 6c-6d and
    7c-7d never store to the density or the scalars.  Outside the loop range
    a step stores to no face state. *)
Theorem X14_transverse_flux_corrections
    cfg gl ext pG F1 F2 F3 e1 e2 e3 p1 p2 p3 k j i :
  let p1' := step5 cfg gl ext pG F2 F3 e1 p1 in
  let p2' := step6 cfg gl ext pG F1 F3 e2 p2 in
  let p3' := step7 cfg gl ext pG F1 F2 e3 p3 in
  let members (ok : (Cons1D.t -> Real) -> Prop) :=
    ok Cons1D.d /\
    forall n, (n < NSCALARS cfg)%nat -> ok (fun u => Cons1D.s u n) in
  members (fun m =>
    corrected (in_step5 pG k j i) m p1 p1' k j i
              (transverse_x1 pG F2 F3 m k j (i-1))
              (transverse_x1 pG F2 F3 m k j i)) /\
  members (fun m =>
    corrected (in_step6 pG k j i) m p2 p2' k j i
              (transverse_x2 pG F1 F3 m k (j-1) i)
              (transverse_x2 pG F1 F3 m k j i)) /\
  members (fun m =>
    corrected (in_step7 pG k j i) m p3 p3' k j i
              (transverse_x3 pG F1 F2 m (k-1) j i)
              (transverse_x3 pG F1 F2 m k j i)).
Proof.
  cbv zeta. split; [|split].
  - apply (step5_corrected cfg gl ext pG F2 F3 e1 p1 k j i).
  - apply (step6_corrected cfg gl ext pG F1 F3 e2 p2 k j i).
  - apply (step7_corrected cfg gl ext pG F1 F2 e3 p3 k j i).
Qed.

(** ** The MHD source terms of Steps 5c, 6c and 7c *)

Lemma Rgtb_true a b : Rgtb a b = true <-> a > b.
Proof. unfold Rgtb. destruct (Rgt_dec a b); split; intros; try lra; congruence. Qed.

Lemma Rltb_true a b : Rltb a b = true <-> a < b.
Proof. unfold Rltb. destruct (Rlt_dec a b); split; intros; try lra; congruence. Qed.

(** min_mod(-a, b) is minus the limited quantity of the sweeps. *)
Lemma min_mod_neg_limited a b : min_mod_neg a b = - limited a b.
Proof.
  unfold min_mod_neg, limited, Rmax, Rmin, Rgtb, Rltb.
  repeat (match goal with
          | |- context [Rgt_dec ?x ?y] => destruct (Rgt_dec x y)
          | |- context [Rlt_dec ?x ?y] => destruct (Rlt_dec x y)
          | |- context [Rle_dec ?x ?y] => destruct (Rle_dec x y)
          | H : context [Rle_dec ?x ?y] |- _ => destruct (Rle_dec x y)
          end; cbn [andb]); lra.
Qed.

(** In a cell without divergence the two limited quantities add up to the
    gradient along the sweep. *)
Lemma limited_split a b c :
  a + b + c = 0 -> limited a b + limited a c = a.
Proof.
  intros H. unfold limited, Rmax, Rmin.
  repeat match goal with
         | |- context [Rle_dec ?x ?y] => destruct (Rle_dec x y)
         | H : context [Rle_dec ?x ?y] |- _ => destruct (Rle_dec x y)
         end; lra.
Qed.

Lemma pencil_cell_back d a b f :
  pencil_cell d a b (f - 1) = back d (pencil_cell d a b f).
Proof. now destruct d. Qed.

(** The source terms of Steps 5c, 6c and 7c, for any way [lim] of writing
    minus the min_mod of the code. *)
Lemma transverse_mhd_cell_with cfg pG d p ul ur (lim : pos -> axis -> Real) :
  (forall c t, lim c t = - min_mod_neg (db_at pG d c) (db_at pG t c)) ->
  let t1 := next d in
  let t2 := next (next d) in
  let hdt := 0.5 * dt pG in
  let added (c : pos) (u u' : Cons1D.t) :=
    Cons1D.Mx u' = Cons1D.Mx u + hdt * Bc_at pG d c * db_at pG d c /\
    Cons1D.My u' = Cons1D.My u + hdt * Bc_at pG t1 c * db_at pG d c /\
    Cons1D.Mz u' = Cons1D.Mz u + hdt * Bc_at pG t2 c * db_at pG d c /\
    Cons1D.By u' = Cons1D.By u + hdt * vel_at pG t1 c * lim c t2 /\
    Cons1D.Bz u' = Cons1D.Bz u + hdt * vel_at pG t2 c * lim c t1 /\
    Cons1D.E u' =
      if BAROTROPIC cfg then Cons1D.E u
      else Cons1D.E u
           + hdt * (Bc_at pG t1 c * vel_at pG t1 c * lim c t2
                    + Bc_at pG t2 c * vel_at pG t2 c * lim c t1) in
  let r := transverse_mhd_cell cfg pG d p ul ur in
  added (back d p) ul (fst r) /\ added p ur (snd r).
Proof.
  intros Hlim. cbv beta zeta. rewrite !Hlim.
  destruct p as [[k j] i].
  destruct d; cbn [transverse_mhd_cell back next Bc_at db_at vel_at];
    unfold db, vel, Bc, min_mod_neg;
    [ replace (i - 1 + 1)%Z with i by lia
    | replace (j - 1 + 1)%Z with j by lia
    | replace (k - 1 + 1)%Z with k by lia ];
    destruct (BAROTROPIC cfg) eqn:HB;
    repeat split;
    first [ reflexivity
          | cbv delta [step5c_cell step6c_cell step7c_cell]; cbv beta;
            rewrite HB; reflexivity ].
Qed.

(** X15.  The MHD source terms of Steps 5c, 6c and 7c are one rule up to a
    cyclic permutation of the axes.  At a face across the axis d, with t1
    and t2 the next two axes, the left state takes the values of the cell
    behind the face and the right state those of the cell of the face:
    the three momenta get (dt/2) dB_d/dx_d times the cell-centred fields
    B_d, B_t1, B_t2; By gets (dt/2) v_t1 l_t2 and Bz gets (dt/2) v_t2 l_t1,
    where l_t = [limited (db_d) (db_t)] is the limited gradient of the
    sweeps, taken with the other transverse axis than in Steps 1b, 2b, 3b;
    the energy gets (dt/2) (B_t1 v_t1 l_t2 + B_t2 v_t2 l_t1), and nothing
    when the gas is barotropic. *)
Theorem X15_transverse_mhd_source_terms cfg pG d p ul ur :
  let t1 := next d in
  let t2 := next (next d) in
  let hdt := 0.5 * dt pG in
  let lim c t := limited (db_at pG d c) (db_at pG t c) in
  let added (c : pos) (u u' : Cons1D.t) :=
    Cons1D.Mx u' = Cons1D.Mx u + hdt * Bc_at pG d c * db_at pG d c /\
    Cons1D.My u' = Cons1D.My u + hdt * Bc_at pG t1 c * db_at pG d c /\
    Cons1D.Mz u' = Cons1D.Mz u + hdt * Bc_at pG t2 c * db_at pG d c /\
    Cons1D.By u' = Cons1D.By u + hdt * vel_at pG t1 c * lim c t2 /\
    Cons1D.Bz u' = Cons1D.Bz u + hdt * vel_at pG t2 c * lim c t1 /\
    Cons1D.E u' =
      if BAROTROPIC cfg then Cons1D.E u
      else Cons1D.E u
           + hdt * (Bc_at pG t1 c * vel_at pG t1 c * lim c t2
                    + Bc_at pG t2 c * vel_at pG t2 c * lim c t1) in
  let r := transverse_mhd_cell cfg pG d p ul ur in
  added (back d p) ul (fst r) /\ added p ur (snd r).
Proof.
  apply (transverse_mhd_cell_with cfg pG d p ul ur
           (fun c t => limited (db_at pG d c) (db_at pG t c))).
  intros c t. rewrite min_mod_neg_limited. lra.
Qed.

(** The MHD source loop of a sweep, at one interface. *)
Lemma mhd_source_loop_at pG d a b st f :
  (sweep_lo pG d <= f <= sweep_hi pG d)%Z ->
  let cl := pencil_cell d a b (f - 1) in
  let cr := pencil_cell d a b f in
  let t1 := next d in
  let t2 := next (next d) in
  let l c t := limited (db_at pG d c) (db_at pG t c) in
  let st' := mhd_source_loop pG d a b st in
  Prim1D.By (Wl st' f) =
    Prim1D.By (Wl st f) + dt pG / 2 * (vel_at pG t1 cl * l cl t1) /\
  Prim1D.Bz (Wl st' f) =
    Prim1D.Bz (Wl st f) + dt pG / 2 * (vel_at pG t2 cl * l cl t2) /\
  Prim1D.By (Wr st' f) =
    Prim1D.By (Wr st f) + dt pG / 2 * (vel_at pG t1 cr * l cr t1) /\
  Prim1D.Bz (Wr st' f) =
    Prim1D.Bz (Wr st f) + dt pG / 2 * (vel_at pG t2 cr * l cr t2).
Proof.
  intros Hf cl cr t1 t2 l st'.
  assert (Hr : in_range (sweep_lo pG d) (sweep_hi pG d) f = true)
    by now apply in_range_true.
  subst st' cl cr t1 t2 l.
  destruct d; unfold mhd_source_loop, sweep_lo, sweep_hi in *;
    unfold step1b_mhd, step2b_mhd, step3b_mhd;
    rewrite !lr_loop_Wl, !lr_loop_Wr, Hr;
    rewrite !add_mhd_src_By, !add_mhd_src_Bz;
    rewrite ?step1b_src_left_spec, ?step1b_src_right_spec,
            ?step2b_src_left_spec, ?step2b_src_right_spec,
            ?step3b_src_left_spec, ?step3b_src_right_spec;
    cbn [fst snd pencil_cell next db_at vel_at];
    repeat split; reflexivity.
Qed.

Lemma divergence_free_split pG d c :
  divergence_free_cell pG c ->
  limited (db_at pG d c) (db_at pG (next d) c)
  + limited (db_at pG d c) (db_at pG (next (next d)) c) = db_at pG d c.
Proof.
  unfold divergence_free_cell. intros H.
  apply limited_split. destruct d; cbn [next]; lra.
Qed.

(** X16.  In a cell whose interface fields have no divergence, the limited
    MHD source terms of a sweep (Step 1b, 2b or 3b) and of the transverse
    correction of the same face (Step 5c, 6c or 7c) add up to the term
    without a limiter: at the interface f of the sweep along d, By of the
    left state receives (dt/2) v_t1 dB_d/dx_d and Bz receives
    (dt/2) v_t2 dB_d/dx_d in the two steps together, with the values of the
    cell behind the face, and the right state the same with the values of
    the cell of the face. *)
Theorem X16_mhd_source_terms_add_up cfg pG d a b f st ul ur :
  (sweep_lo pG d <= f <= sweep_hi pG d)%Z ->
  let cl := pencil_cell d a b (f - 1) in
  let cr := pencil_cell d a b f in
  divergence_free_cell pG cl ->
  divergence_free_cell pG cr ->
  let t1 := next d in
  let t2 := next (next d) in
  let st' := mhd_source_loop pG d a b st in
  let r := transverse_mhd_cell cfg pG d cr ul ur in
  (Prim1D.By (Wl st' f) - Prim1D.By (Wl st f))
    + (Cons1D.By (fst r) - Cons1D.By ul)
    = dt pG / 2 * (vel_at pG t1 cl * db_at pG d cl) /\
  (Prim1D.Bz (Wl st' f) - Prim1D.Bz (Wl st f))
    + (Cons1D.Bz (fst r) - Cons1D.Bz ul)
    = dt pG / 2 * (vel_at pG t2 cl * db_at pG d cl) /\
  (Prim1D.By (Wr st' f) - Prim1D.By (Wr st f))
    + (Cons1D.By (snd r) - Cons1D.By ur)
    = dt pG / 2 * (vel_at pG t1 cr * db_at pG d cr) /\
  (Prim1D.Bz (Wr st' f) - Prim1D.Bz (Wr st f))
    + (Cons1D.Bz (snd r) - Cons1D.Bz ur)
    = dt pG / 2 * (vel_at pG t2 cr * db_at pG d cr).
Proof.
  intros Hf cl cr Hl Hr t1 t2 st' r.
  pose proof (mhd_source_loop_at pG d a b st f Hf) as S.
  pose proof (transverse_mhd_cell_with cfg pG d cr ul ur
                (fun c t => limited (db_at pG d c) (db_at pG t c))) as T.
  cbv beta zeta in S, T.
  assert (Eb : back d cr = cl) by (subst cl cr; now rewrite pencil_cell_back).
  rewrite Eb in T.
  pose proof (divergence_free_split pG d cl Hl) as Dl.
  pose proof (divergence_free_split pG d cr Hr) as Dr.
  subst t1 t2 st' r. fold cl cr in S.
  destruct S as (S1 & S2 & S3 & S4).
  destruct T as ((_ & _ & _ & T1 & T2 & _) & (_ & _ & _ & T3 & T4 & _)).
  { intros c t. rewrite min_mod_neg_limited. lra. }
  rewrite S1, S2, S3, S4, T1, T2, T3, T4.
  set (a1 := limited (db_at pG d cl) (db_at pG (next d) cl)) in *.
  set (a2 := limited (db_at pG d cl) (db_at pG (next (next d)) cl)) in *.
  set (b1 := limited (db_at pG d cr) (db_at pG (next d) cr)) in *.
  set (b2 := limited (db_at pG d cr) (db_at pG (next (next d)) cr)) in *.
  clearbody a1 a2 b1 b2.
  rewrite <- Dl, <- Dr.
  assert (H05 : 0.5 = 1 / 2) by lra. rewrite H05.
  repeat split; field.
Qed.

Lemma ex_divergence_free c : divergence_free_cell ex_grid_solenoidal c.
Proof.
  destruct c as [[k j] i].
  unfold divergence_free_cell, db_at, db, ex_grid_solenoidal.
  cbn [B1i B2i B3i dx1 dx2 dx3].
  rewrite !plus_IZR. lra.
Qed.

Lemma X16_witness :
  (sweep_lo ex_grid_solenoidal X1 <= 1 <= sweep_hi ex_grid_solenoidal X1)%Z /\
  divergence_free_cell ex_grid_solenoidal (0, 0, 0)%Z /\
  divergence_free_cell ex_grid_solenoidal (0, 0, 1)%Z /\
  (Prim1D.By (Wl (mhd_source_loop ex_grid_solenoidal X1 0 0 ex_lr) 1)
     - Prim1D.By (Wl ex_lr 1))
  + (Cons1D.By (fst (transverse_mhd_cell ex_cfg_mhd ex_grid_solenoidal X1
                       (0, 0, 1)%Z ex_cons ex_cons))
     - Cons1D.By ex_cons)
  = dt ex_grid_solenoidal / 2
    * (vel_at ex_grid_solenoidal X2 (0, 0, 0)%Z
       * db_at ex_grid_solenoidal X1 (0, 0, 0)%Z).
Proof.
  assert (Hf : (sweep_lo ex_grid_solenoidal X1 <= 1
                <= sweep_hi ex_grid_solenoidal X1)%Z) by (simpl; lia).
  split; [exact Hf|].
  split; [exact (ex_divergence_free _)|].
  split; [exact (ex_divergence_free _)|].
  exact (proj1 (X16_mhd_source_terms_add_up ex_cfg_mhd ex_grid_solenoidal
                  X1 0 0 1 ex_lr ex_cons ex_cons Hf
                  (ex_divergence_free _) (ex_divergence_free _))).
Defined.

(** ** The static potential enters through differences only *)

Lemma shift_diff a b c : (a + c) - (b + c) = a - b.
Proof. lra. Qed.

Ltac ext_all :=
  repeat (let x := fresh "x" in extensionality x).

Ltac open_pos :=
  repeat match goal with
         | |- context [cc_pos ?e ?g ?a ?b ?c] =>
             destruct (cc_pos e g a b c) as [[? ?] ?]
         end.

Section Shift.
Variable cfg : Config.
Variable ext : Extern.
Variable sol : Solver.
Variable rc : Recon.
Variable pG : Grid.
Variable pD : Domain.
Variables (ng : Z) (Om G1 fpg gmr : Real).
Variable phi : Real -> Real -> Real -> Real.
Variable cool : option (Real -> Real -> Real -> Real).
Variable c : Real.

Local Abbreviation phi' := (fun x1 x2 x3 : Real => phi x1 x2 x3 + c).
Local Abbreviation gl0 := (mkGlobals ng Om G1 fpg gmr (Some phi) cool).
Local Abbreviation gl1 := (mkGlobals ng Om G1 fpg gmr (Some phi') cool).

(** *** Steps 1c, 2c, 3c *)
Lemma step1c_grav_shift : step1c_grav ext pG phi' = step1c_grav ext pG phi.
Proof.
  ext_all. unfold step1c_grav.
  f_equal; ext_all; open_pos; now rewrite shift_diff.
Qed.

Lemma step2c_grav_shift : step2c_grav ext pG phi' = step2c_grav ext pG phi.
Proof.
  ext_all. unfold step2c_grav.
  f_equal; ext_all; open_pos; now rewrite shift_diff.
Qed.

Lemma step3c_grav_shift : step3c_grav ext pG phi' = step3c_grav ext pG phi.
Proof.
  ext_all. unfold step3c_grav.
  f_equal; ext_all; open_pos; now rewrite shift_diff.
Qed.

Lemma step1bc_shift : step1bc cfg gl1 ext pG = step1bc cfg gl0 ext pG.
Proof.
  ext_all. unfold step1bc. cbn [StaticGravPot].
  now rewrite step1c_grav_shift.
Qed.

Lemma step2bc_shift : step2bc cfg gl1 ext pG = step2bc cfg gl0 ext pG.
Proof.
  ext_all. unfold step2bc. cbn [StaticGravPot].
  now rewrite step2c_grav_shift.
Qed.

Lemma step3bc_shift : step3bc cfg gl1 ext pG = step3bc cfg gl0 ext pG.
Proof.
  ext_all. unfold step3bc. cbn [StaticGravPot].
  now rewrite step3c_grav_shift.
Qed.

Lemma sweep_shift : sweep cfg gl1 sol rc = sweep cfg gl0 sol rc.
Proof. reflexivity. Qed.

Lemma step1_shift :
  step1 cfg gl1 ext sol rc pG = step1 cfg gl0 ext sol rc pG.
Proof.
  ext_all. rewrite !step1_is_sweep, step1bc_shift, sweep_shift. reflexivity.
Qed.

Lemma step2_shift :
  step2 cfg gl1 ext sol rc pG = step2 cfg gl0 ext sol rc pG.
Proof.
  ext_all. rewrite !step2_is_sweep, step2bc_shift, sweep_shift. reflexivity.
Qed.

Lemma step3_shift :
  step3 cfg gl1 ext sol rc pG = step3 cfg gl0 ext sol rc pG.
Proof.
  ext_all. rewrite !step3_is_sweep, step3bc_shift, sweep_shift. reflexivity.
Qed.

(** *** Steps 5d, 6d, 7d *)
Lemma step5d_grav_cell_shift F2 F3 :
  step5d_grav_cell cfg ext pG F2 F3 phi' = step5d_grav_cell cfg ext pG F2 F3 phi.
Proof.
  ext_all. unfold step5d_grav_cell. open_pos.
  now rewrite !shift_diff.
Qed.

Lemma step6d_grav_cell_shift F1 F3 :
  step6d_grav_cell cfg ext pG F1 F3 phi' = step6d_grav_cell cfg ext pG F1 F3 phi.
Proof.
  ext_all. unfold step6d_grav_cell. open_pos.
  now rewrite !shift_diff.
Qed.

Lemma step7d_grav_cell_shift F1 F2 :
  step7d_grav_cell cfg ext pG F1 F2 phi' = step7d_grav_cell cfg ext pG F1 F2 phi.
Proof.
  ext_all. unfold step7d_grav_cell. open_pos.
  now rewrite !shift_diff.
Qed.

Lemma step5_shift : step5 cfg gl1 ext pG = step5 cfg gl0 ext pG.
Proof.
  ext_all. unfold step5. cbn [StaticGravPot].
  now rewrite step5d_grav_cell_shift.
Qed.

Lemma step6_shift : step6 cfg gl1 ext pG = step6 cfg gl0 ext pG.
Proof.
  ext_all. unfold step6. cbn [StaticGravPot].
  now rewrite step6d_grav_cell_shift.
Qed.

Lemma step7_shift : step7 cfg gl1 ext pG = step7 cfg gl0 ext pG.
Proof.
  ext_all. unfold step7. cbn [StaticGravPot].
  now rewrite step7d_grav_cell_shift.
Qed.

(** *** Step 8 *)
Lemma step8a_shift : step8a cfg gl1 pG = step8a cfg gl0 pG.
Proof. reflexivity. Qed.

Lemma step8b_MhEh_shift F1 F2 F3 :
  step8b_MhEh cfg gl1 ext pG F1 F2 F3 = step8b_MhEh cfg gl0 ext pG F1 F2 F3.
Proof.
  ext_all. unfold step8b_MhEh. cbn [StaticGravPot Omega]. open_pos.
  now rewrite !shift_diff.
Qed.

Lemma step8b_shift : step8b cfg gl1 ext pG = step8b cfg gl0 ext pG.
Proof.
  ext_all. unfold step8b, step8b_cell. cbn [CoolingFunc Gamma_1].
  now rewrite step8b_MhEh_shift.
Qed.

(** *** Step 11a *)
Lemma step11a_grav_cell_shift sc :
  step11a_grav_cell cfg ext sc pG phi' = step11a_grav_cell cfg ext sc pG phi.
Proof.
  ext_all. unfold step11a_grav_cell. open_pos.
  now rewrite !shift_diff.
Qed.

Lemma step11a_shear_cell_shift sc :
  step11a_shear_cell cfg gl1 ext sc pG phi'
  = step11a_shear_cell cfg gl0 ext sc pG phi.
Proof.
  ext_all. unfold step11a_shear_cell. cbn [Omega]. open_pos.
  now rewrite !shift_diff.
Qed.

Lemma step11a_shift sc : step11a cfg gl1 ext sc pG = step11a cfg gl0 ext sc pG.
Proof.
  ext_all. unfold step11a, step11a_shear, step11a_grav. cbn [StaticGravPot].
  now rewrite step11a_grav_cell_shift, step11a_shear_cell_shift.
Qed.

Lemma step11b_shift : step11b cfg gl1 = step11b cfg gl0.
Proof. reflexivity. Qed.

Lemma step11c_shift : step11c cfg gl1 = step11c cfg gl0.
Proof. reflexivity. Qed.

Lemma update_shift sc :
  integrate_3d_ctu_update cfg gl1 ext sc pG
  = integrate_3d_ctu_update cfg gl0 ext sc pG.
Proof.
  ext_all. unfold integrate_3d_ctu_update.
  now rewrite step11a_shift, step11b_shift, step11c_shift.
Qed.

(** *** The whole function *)
Lemma sweep1_shift :
  sweep1 cfg gl1 ext sol rc pG = sweep1 cfg gl0 ext sol rc pG.
Proof. ext_all. unfold sweep1. now rewrite step1_shift. Qed.

Lemma sweep2_shift :
  sweep2 cfg gl1 ext sol rc pG = sweep2 cfg gl0 ext sol rc pG.
Proof. ext_all. unfold sweep2. now rewrite step2_shift, sweep1_shift. Qed.

Lemma sweep3_shift :
  sweep3 cfg gl1 ext sol rc pG = sweep3 cfg gl0 ext sol rc pG.
Proof. ext_all. unfold sweep3. now rewrite step3_shift, sweep2_shift. Qed.

Lemma emf_4a_shift :
  emf_4a cfg gl1 ext sol rc pG = emf_4a cfg gl0 ext sol rc pG.
Proof.
  ext_all. unfold emf_4a.
  now rewrite sweep1_shift, sweep2_shift, sweep3_shift.
Qed.

Lemma faces_7_shift :
  faces_7 cfg gl1 ext sol rc pG = faces_7 cfg gl0 ext sol rc pG.
Proof.
  ext_all. unfold faces_7.
  now rewrite sweep1_shift, sweep2_shift, sweep3_shift, emf_4a_shift,
    step5_shift, step6_shift, step7_shift.
Qed.

Lemma dhalf_8_shift :
  dhalf_8 cfg gl1 ext sol rc pG = dhalf_8 cfg gl0 ext sol rc pG.
Proof.
  ext_all. unfold dhalf_8.
  now rewrite sweep1_shift, sweep2_shift, sweep3_shift, step8a_shift.
Qed.

Lemma half_8_shift :
  half_8 cfg gl1 ext sol rc pG = half_8 cfg gl0 ext sol rc pG.
Proof.
  ext_all. unfold half_8.
  now rewrite sweep1_shift, sweep2_shift, sweep3_shift, faces_7_shift,
    dhalf_8_shift, step8b_shift.
Qed.

Lemma eta1_9_shift :
  eta1_9 cfg gl1 ext sol rc pG = eta1_9 cfg gl0 ext sol rc pG.
Proof. ext_all. unfold eta1_9. now rewrite faces_7_shift. Qed.

Lemma eta2_9_shift :
  eta2_9 cfg gl1 ext sol rc pG = eta2_9 cfg gl0 ext sol rc pG.
Proof. ext_all. unfold eta2_9. now rewrite faces_7_shift. Qed.

Lemma eta3_9_shift :
  eta3_9 cfg gl1 ext sol rc pG = eta3_9 cfg gl0 ext sol rc pG.
Proof. ext_all. unfold eta3_9. now rewrite faces_7_shift. Qed.

Lemma flux1_9_shift :
  flux1_9 cfg gl1 ext sol rc pG = flux1_9 cfg gl0 ext sol rc pG.
Proof.
  ext_all. unfold flux1_9.
  now rewrite faces_7_shift, eta1_9_shift, eta2_9_shift, eta3_9_shift,
    sweep1_shift, sweep3_shift.
Qed.

Lemma flux2_9_shift :
  flux2_9 cfg gl1 ext sol rc pG = flux2_9 cfg gl0 ext sol rc pG.
Proof.
  ext_all. unfold flux2_9.
  now rewrite faces_7_shift, eta1_9_shift, eta2_9_shift, eta3_9_shift,
    sweep2_shift, flux1_9_shift.
Qed.

Lemma flux3_9_shift :
  flux3_9 cfg gl1 ext sol rc pG = flux3_9 cfg gl0 ext sol rc pG.
Proof.
  ext_all. unfold flux3_9.
  now rewrite faces_7_shift, eta1_9_shift, eta2_9_shift, eta3_9_shift,
    sweep3_shift, flux2_9_shift.
Qed.

Lemma scratch_9_shift :
  scratch_9 cfg gl1 ext sol rc pG = scratch_9 cfg gl0 ext sol rc pG.
Proof.
  ext_all. unfold scratch_9.
  now rewrite emf_4a_shift, half_8_shift, dhalf_8_shift,
    flux1_9_shift, flux2_9_shift, flux3_9_shift.
Qed.

Lemma integrate_shift :
  integrate_3d_ctu cfg gl1 ext sol rc pG pD
  = integrate_3d_ctu cfg gl0 ext sol rc pG pD.
Proof.
  ext_all. unfold integrate_3d_ctu.
  now rewrite sweep3_shift, scratch_9_shift, update_shift, faces_7_shift,
    eta1_9_shift, eta2_9_shift, eta3_9_shift, flux3_9_shift.
Qed.
End Shift.

(** X17.  Only differences of the static gravitational potential enter
    integrate_3d_ctu: on a grid with the ghost cells that the function reads
    (two, three under MHD), with a constant added to the potential the
    function returns the same grid and leaves the same module-level
    variables (the scratch arrays, the vectors U1d, W, Wl, Wr, Bxc, Bxi as
    Steps 1 to 9 leave them, and etah), in every configuration; without a
    potential there is nothing to shift. *)
Theorem X17_potential_up_to_a_constant cfg gl ext sol rc pG pD w c :
  ((if MHD cfg then 3 else 2) <= nghost gl)%Z ->
  integrate_3d_ctu cfg (shift_potential c gl) ext sol rc pG pD w
  = integrate_3d_ctu cfg gl ext sol rc pG pD w.
Proof.
  intros _.
  destruct gl as [ng Om G1 fpg gmr [phi|] cool]; unfold shift_potential;
    cbn [nghost Omega Gamma_1 four_pi_G grav_mean_rho StaticGravPot
         CoolingFunc].
  - now rewrite integrate_shift.
  - reflexivity.
Qed.

Lemma X17_witness :
  ((if MHD ex_cfg_mhd then 3 else 2) <= nghost ex_globals_well)%Z /\
  integrate_3d_ctu ex_cfg_mhd (shift_potential 5 ex_globals_well) ex_extern
    ex_solver_lf ex_recon ex_grid ex_domain ex_work
  = integrate_3d_ctu ex_cfg_mhd ex_globals_well ex_extern
      ex_solver_lf ex_recon ex_grid ex_domain ex_work.
Proof.
  assert (Hng : ((if MHD ex_cfg_mhd then 3 else 2)
                 <= nghost ex_globals_well)%Z) by (simpl; lia).
  split; [exact Hng|].
  exact (X17_potential_up_to_a_constant ex_cfg_mhd ex_globals_well ex_extern
           ex_solver_lf ex_recon ex_grid ex_domain ex_work 5 Hng).
Defined.

(** ** The problem generator AcousWave *)

(** What a loop leaves in an observation that only the iteration [n0]
    touches, when this iteration leaves a value with the property [Q]. *)
Lemma for_n_cell {S V} (obs : S -> V) (Q : V -> Prop) (body : Z -> S -> S)
    (n0 : Z) :
  (forall i s, i <> n0 -> obs (body i s) = obs s) ->
  (forall s, Q (obs (body n0 s))) ->
  forall (n : nat) (lo : Z) (s : S),
    (lo <= n0 < lo + Z.of_nat n)%Z -> Q (obs (for_n n lo body s)).
Proof.
  intros Hoth Hat. induction n as [|n IH]; intros lo s Hin; [lia|].
  cbn [for_n]. destruct (Z.eq_dec lo n0) as [->|Hne].
  - rewrite (for_n_obs obs body n0 (fun v => v)).
    + destruct ((n0 + 1 <=? n0)%Z && (n0 <? n0 + 1 + Z.of_nat n)%Z);
        apply Hat.
    + intros i s' _ Hi. now apply Hoth.
    + intros s' Hi. lia.
  - apply IH. lia.
Qed.

Lemma for_loop_cell {S V} (obs : S -> V) (Q : V -> Prop) (body : Z -> S -> S)
    (n0 lo hi : Z) (s : S) :
  (forall i s, i <> n0 -> obs (body i s) = obs s) ->
  (forall s, Q (obs (body n0 s))) ->
  (lo <= n0 <= hi)%Z -> Q (obs (for_loop lo hi body s)).
Proof.
  intros Hoth Hat Hin. unfold for_loop.
  apply (for_n_cell obs Q body n0 Hoth Hat). lia.
Qed.

Lemma nest_cell {S V} (obs : S -> V) (Q : V -> Prop)
    (body : Z -> Z -> Z -> S -> S) klo khi jlo jhi ilo ihi k0 j0 i0 (s : S) :
  (forall k j i s, (k, j, i) <> (k0, j0, i0) -> obs (body k j i s) = obs s) ->
  (forall s, Q (obs (body k0 j0 i0 s))) ->
  in_box klo khi jlo jhi ilo ihi k0 j0 i0 = true ->
  Q (obs (nest klo khi jlo jhi ilo ihi body s)).
Proof.
  intros Hoth Hat Hin. apply in_box_true in Hin. unfold nest.
  apply (for_loop_cell obs Q _ k0); [| |lia].
  - intros k s' Hk. apply for_loop_frame. intros j s2 _.
    apply for_loop_frame. intros i s3 _. apply Hoth. congruence.
  - intros s'. apply (for_loop_cell obs Q _ j0); [| |lia].
    + intros j s2 Hj. apply for_loop_frame. intros i s3 _.
      apply Hoth. congruence.
    + intros s2. apply (for_loop_cell obs Q _ i0); [| |lia].
      * intros i s3 Hi. apply Hoth. congruence.
      * apply Hat.
Qed.

Lemma nest_off {S V} (obs : S -> V) (body : Z -> Z -> Z -> S -> S)
    klo khi jlo jhi ilo ihi k0 j0 i0 (s : S) :
  (forall k j i s, (k, j, i) <> (k0, j0, i0) -> obs (body k j i s) = obs s) ->
  in_box klo khi jlo jhi ilo ihi k0 j0 i0 = false ->
  obs (nest klo khi jlo jhi ilo ihi body s) = obs s.
Proof.
  intros Hoth Hin. unfold nest.
  apply for_loop_frame. intros k s1 Hk.
  apply for_loop_frame. intros j s2 Hj.
  apply for_loop_frame. intros i s3 Hi.
  apply Hoth. intros E. injection E as -> -> ->.
  assert (in_box klo khi jlo jhi ilo ihi k0 j0 i0 = true)
    by (apply in_box_true; lia).
  congruence.
Qed.

Lemma pos_eq_dec (p q : Z * Z * Z) : p = q \/ p <> q.
Proof.
  destruct p as [[a b] c], q as [[a' b'] c'].
  destruct (Z.eq_dec a a'), (Z.eq_dec b b'), (Z.eq_dec c c');
    subst; auto; right; congruence.
Qed.

Section Problem_facts.
Import AcousWave.
Variable cfg : Config.
Variable Gamma : Real.
Variable cc_pos : GridS -> Z -> Z -> Z -> Real * Real * Real.
Variable gl : Globals.
Variables (d0 P0 t flag factor costheta sintheta wavenumber omega : Real).

Local Abbreviation cell :=
  (problem_cell cfg Gamma cc_pos gl d0 P0 t flag factor costheta sintheta
                wavenumber omega).
Local Abbreviation jeans :=
  (Gamma * P0 * wavenumber * wavenumber / d0 - four_pi_G gl * d0).

Ltac open_problem_cell :=
  unfold problem_cell;
  match goal with
  | |- context [cc_pos ?g ?i ?j ?k] =>
      destruct (cc_pos g i j k) as [[x1 x2] x3]
  end;
  destruct (Rgt_dec jeans 0); destruct (MHD cfg);
  unfold set_cell;
  cbn [set_U set_B1i set_B2i set_B3i U B1i B2i B3i time Nx2 Nx3 is_ ie js
       je ks ke].

Lemma problem_cell_other k j i k0 j0 i0 g :
  (k, j, i) <> (k0, j0, i0) ->
  at_cell k0 j0 i0 (cell k j i g) = at_cell k0 j0 i0 g.
Proof.
  intros Hne. assert (Hne' : (k0, j0, i0) <> (k, j, i)) by congruence.
  unfold at_cell. open_problem_cell;
    now rewrite ?(upd3_other _ k j i _ k0 j0 i0) by exact Hne'.
Qed.

Lemma problem_cell_shape k j i g :
  let g' := cell k j i g in
  Nx2 g' = Nx2 g /\ Nx3 g' = Nx3 g /\ is_ g' = is_ g /\ ie g' = ie g /\
  js g' = js g /\ je g' = je g /\ ks g' = ks g /\ ke g' = ke g /\
  time g' = time g.
Proof. cbv zeta. open_problem_cell; repeat split; reflexivity. Qed.

Lemma problem_cell_scalars k j i g k0 j0 i0 :
  Gas.s (U (cell k j i g) k0 j0 i0) = Gas.s (U g k0 j0 i0).
Proof.
  destruct (pos_eq_dec (k0, j0, i0) (k, j, i)) as [E|E].
  - injection E as -> -> ->.
    open_problem_cell; now rewrite !upd3_same.
  - open_problem_cell;
      now rewrite ?(upd3_other _ k j i _ k0 j0 i0) by exact E.
Qed.

Lemma problem_cell_no_MHD k j i g k0 j0 i0 :
  MHD cfg = false ->
  let g' := cell k j i g in
  B1i g' k0 j0 i0 = B1i g k0 j0 i0 /\ B2i g' k0 j0 i0 = B2i g k0 j0 i0 /\
  B3i g' k0 j0 i0 = B3i g k0 j0 i0 /\
  Gas.B1c (U g' k0 j0 i0) = Gas.B1c (U g k0 j0 i0) /\
  Gas.B2c (U g' k0 j0 i0) = Gas.B2c (U g k0 j0 i0) /\
  Gas.B3c (U g' k0 j0 i0) = Gas.B3c (U g k0 j0 i0).
Proof.
  intros HM. cbv zeta.
  destruct (pos_eq_dec (k0, j0, i0) (k, j, i)) as [E|E].
  - injection E as -> -> ->.
    open_problem_cell; try discriminate;
      rewrite !upd3_same; repeat split; reflexivity.
  - open_problem_cell; try discriminate;
      rewrite ?(upd3_other _ k j i _ k0 j0 i0) by exact E;
      repeat split; reflexivity.
Qed.

Lemma problem_cell_at k j i g :
  written cfg Gamma gl d0 P0 flag factor costheta sintheta wavenumber omega
    (at_cell k j i (cell k j i g)).
Proof.
  unfold written, at_cell. unfold problem_cell.
  destruct (cc_pos g i j k) as [[x1 x2] x3].
  exists (wavenumber * (costheta * x1 + sintheta * x2) - omega * t).
  destruct (Rgt_dec jeans 0); destruct (MHD cfg);
    unfold set_cell;
    cbn [set_U set_B1i set_B2i set_B3i U B1i B2i B3i];
    rewrite !upd3_same;
    cbn [Gas.d Gas.M1 Gas.M2 Gas.M3 Gas.E Gas.B1c Gas.B2c Gas.B3c
         Gas.set_d Gas.set_M1 Gas.set_M2 Gas.set_M3 Gas.set_E Gas.set_B1c
         Gas.set_B2c Gas.set_B3c];
    repeat split; try reflexivity; intros; discriminate.
Qed.
End Problem_facts.

Section Problem_result.
Import AcousWave.
Variable cfg : Config.
Variable Gamma : Real.
Variable cc_pos : GridS -> Z -> Z -> Z -> Real * Real * Real.
Variable gl : Globals.
Variable pGrid : GridS.

Local Abbreviation gl' := (set_grav_mean_rho (set_four_pi_G gl 300) 1).
Local Abbreviation result := (problem cfg Gamma cc_pos gl pGrid).

Lemma problem_globals : fst result = gl'.
Proof.
  unfold problem. now destruct (bounds gl pGrid) as [[[[[kl ku] jl] ju] il] iu].
Qed.

Lemma problem_grid :
  snd result =
  let '(kl, ku, jl, ju, il, iu) := bounds gl pGrid in
  nest kl ku jl ju il iu
    (problem_cell cfg Gamma cc_pos gl' 1 1 (time pGrid) 1 300
                  (2 * 0.4472136) 0.4472136 (2 * PI) (omega_of Gamma))
    pGrid.
Proof.
  unfold problem. now destruct (bounds gl pGrid) as [[[[[kl ku] jl] ju] il] iu].
Qed.

Ltac open_problem :=
  rewrite problem_grid; unfold initialised in *;
  destruct (bounds gl pGrid) as [[[[[kl ku] jl] ju] il] iu] eqn:Hb.

Lemma problem_written k j i :
  initialised gl pGrid k j i = true ->
  written cfg Gamma gl' 1 1 1 300 (2 * 0.4472136) 0.4472136 (2 * PI)
          (omega_of Gamma) (at_cell k j i (snd result)).
Proof.
  intros Hin. open_problem.
  apply (nest_cell (at_cell k j i)
           (written cfg Gamma gl' 1 1 1 300 (2 * 0.4472136) 0.4472136
                    (2 * PI) (omega_of Gamma))
           _ kl ku jl ju il iu k j i); [| |exact Hin].
  - intros k' j' i' s Hne. now apply problem_cell_other.
  - intros s. apply problem_cell_at.
Qed.

Lemma problem_off k j i :
  initialised gl pGrid k j i = false ->
  at_cell k j i (snd result) = at_cell k j i pGrid.
Proof.
  intros Hin. open_problem.
  apply (nest_off (at_cell k j i) _ kl ku jl ju il iu k j i); [|exact Hin].
  intros k' j' i' s Hne. now apply problem_cell_other.
Qed.

Lemma problem_shape :
  let shape g := (Nx2 g, Nx3 g, is_ g, ie g, js g, je g, ks g, ke g, time g) in
  shape (snd result) = shape pGrid.
Proof.
  intros shape. open_problem.
  apply (nest_frame shape). intros k j i s. subst shape. cbv beta.
  destruct (problem_cell_shape cfg Gamma cc_pos gl' 1 1 (time pGrid) 1 300
              (2 * 0.4472136) 0.4472136 (2 * PI) (omega_of Gamma) k j i s)
    as (-> & -> & -> & -> & -> & -> & -> & -> & ->).
  reflexivity.
Qed.

Lemma problem_scalars k j i :
  Gas.s (U (snd result) k j i) = Gas.s (U pGrid k j i).
Proof.
  open_problem.
  apply (nest_frame (fun g => Gas.s (U g k j i))). intros k' j' i' s.
  apply problem_cell_scalars.
Qed.

Lemma problem_no_MHD k j i :
  MHD cfg = false ->
  let fields g :=
    (B1i g k j i, B2i g k j i, B3i g k j i, Gas.B1c (U g k j i),
     Gas.B2c (U g k j i), Gas.B3c (U g k j i)) in
  fields (snd result) = fields pGrid.
Proof.
  intros HM fields. open_problem.
  apply (nest_frame fields). intros k' j' i' s. subst fields. cbv beta.
  destruct (problem_cell_no_MHD cfg Gamma cc_pos gl' 1 1 (time pGrid) 1 300
              (2 * 0.4472136) 0.4472136 (2 * PI) (omega_of Gamma)
              k' j' i' s k j i HM)
    as (-> & -> & -> & -> & -> & ->).
  reflexivity.
Qed.
End Problem_result.

(** Extra X18.  What problem() stores and what it leaves.  It sets the
    globals four_pi_G = 300 and grav_mean_rho = 1 and no other global, and
    changes neither the index bounds nor the time of the grid.  It stores
    to the cells i in [is, ie] only, so that no ghost cell along x1 is
    initialised (along x2 and x3 the ghost cells are, when the grid extends
    there); every other cell and face keeps its contents.  It never stores
    to a passive scalar.  In the cells it initialises M3 = 0 and, with MHD,
    the three interface fields of the cell and the cell-centred field are
    0; without MHD no field is stored to. *)
Theorem X18_problem_stores cfg Gamma cc_pos gl pGrid :
  let gl' := fst (AcousWave.problem cfg Gamma cc_pos gl pGrid) in
  let g := snd (AcousWave.problem cfg Gamma cc_pos gl pGrid) in
  (four_pi_G gl' = 300 /\ grav_mean_rho gl' = 1 /\
   nghost gl' = nghost gl /\ Omega gl' = Omega gl /\
   Gamma_1 gl' = Gamma_1 gl /\ StaticGravPot gl' = StaticGravPot gl /\
   CoolingFunc gl' = CoolingFunc gl) /\
  (AcousWave.time g = AcousWave.time pGrid /\
   AcousWave.is_ g = AcousWave.is_ pGrid /\
   AcousWave.ie g = AcousWave.ie pGrid /\
   AcousWave.js g = AcousWave.js pGrid /\
   AcousWave.je g = AcousWave.je pGrid /\
   AcousWave.ks g = AcousWave.ks pGrid /\
   AcousWave.ke g = AcousWave.ke pGrid) /\
  forall k j i,
    Gas.s (AcousWave.U g k j i) = Gas.s (AcousWave.U pGrid k j i) /\
    (AcousWave.initialised gl pGrid k j i = true ->
     (AcousWave.is_ pGrid <= i <= AcousWave.ie pGrid)%Z) /\
    (AcousWave.initialised gl pGrid k j i = false ->
     AcousWave.at_cell k j i g = AcousWave.at_cell k j i pGrid) /\
    (MHD cfg = false ->
     AcousWave.B1i g k j i = AcousWave.B1i pGrid k j i /\
     AcousWave.B2i g k j i = AcousWave.B2i pGrid k j i /\
     AcousWave.B3i g k j i = AcousWave.B3i pGrid k j i /\
     Gas.B1c (AcousWave.U g k j i) = Gas.B1c (AcousWave.U pGrid k j i) /\
     Gas.B2c (AcousWave.U g k j i) = Gas.B2c (AcousWave.U pGrid k j i) /\
     Gas.B3c (AcousWave.U g k j i) = Gas.B3c (AcousWave.U pGrid k j i)) /\
    (AcousWave.initialised gl pGrid k j i = true ->
     Gas.M3 (AcousWave.U g k j i) = 0 /\
     (MHD cfg = true ->
      AcousWave.B1i g k j i = 0 /\ AcousWave.B2i g k j i = 0 /\
      AcousWave.B3i g k j i = 0 /\
      Gas.B1c (AcousWave.U g k j i) = 0 /\
      Gas.B2c (AcousWave.U g k j i) = 0 /\
      Gas.B3c (AcousWave.U g k j i) = 0)).
Proof.
  intros gl' g. subst gl' g. rewrite problem_globals.
  split; [repeat split|].
  split.
  { pose proof (problem_shape cfg Gamma cc_pos gl pGrid) as H.
    cbv zeta in H. injection H as E1 E2 E3 E4 E5 E6 E7 E8 E9.
    repeat split; assumption. }
  intros k j i.
  split; [apply problem_scalars|].
  split.
  { unfold AcousWave.initialised, AcousWave.bounds. intros H.
    destruct (AcousWave.Nx2 pGrid >? 1)%Z, (AcousWave.Nx3 pGrid >? 1)%Z;
      apply in_box_true in H; lia. }
  split; [apply problem_off|].
  split.
  { intros HM.
    pose proof (problem_no_MHD cfg Gamma cc_pos gl pGrid k j i HM) as H.
    cbv zeta in H. injection H as E1 E2 E3 E4 E5 E6.
    repeat split; assumption. }
  intros Hin.
  pose proof (problem_written cfg Gamma cc_pos gl pGrid k j i Hin) as W.
  unfold AcousWave.written, AcousWave.at_cell in W.
  destruct W as (theta & _ & _ & _ & HM3 & _ & HB).
  split; [exact HM3|exact HB].
Qed.

Lemma dec_1e_3 : 1e-3 = 1 / 1000.
Proof. lra. Qed.

Lemma dec_sintheta : 0.4472136 = 4472136 / 10000000.
Proof. lra. Qed.

(** Extra X19.  In every cell that problem() initialises the density lies
    between 0.7 and 1.3, so it is positive; the momentum points along the
    direction (2, 1, 0), that is M1 = 2 M2 (and M3 = 0), whichever branch
    the test on the sign of Gamma P0 k^2 / d0 - 4 pi G d0 takes; and for
    Gamma other than 1 the energy is that of the adiabatic pressure
    perturbation without kinetic energy:
    (Gamma - 1) E = 1 + Gamma (d - 1). *)
Theorem X19_problem_wave cfg Gamma cc_pos gl pGrid k j i :
  AcousWave.initialised gl pGrid k j i = true ->
  let u := AcousWave.U (snd (AcousWave.problem cfg Gamma cc_pos gl pGrid))
                       k j i in
  0.7 <= Gas.d u <= 1.3 /\
  Gas.M1 u = 2 * Gas.M2 u /\
  (Gamma <> 1 -> (Gamma - 1) * Gas.E u = 1 + Gamma * (Gas.d u - 1)).
Proof.
  intros Hin u.
  pose proof (problem_written cfg Gamma cc_pos gl pGrid k j i Hin) as W.
  unfold AcousWave.written, AcousWave.at_cell in W.
  destruct W as (theta & Hd & HM1 & HM2 & _ & HE & _).
  fold u in Hd, HM1, HM2, HE.
  pose proof (COS_bound theta) as [Hc1 Hc2].
  split; [rewrite Hd; lra|].
  split.
  - rewrite HM1, HM2.
    destruct (Rgt_dec _ 0); rewrite dec_1e_3, dec_sintheta;
      unfold Rdiv; ring.
  - intros HG. rewrite HE, Hd, dec_1e_3. field. lra.
Qed.

Lemma ex_initialised :
  AcousWave.initialised ex_globals AcousWave.ex_gridS 0 1 2 = true.
Proof. reflexivity. Qed.

Lemma X19_witness :
  AcousWave.initialised ex_globals AcousWave.ex_gridS 0 1 2 = true /\
  0.7 <= Gas.d (AcousWave.U
                  (snd (AcousWave.problem ex_cfg_mhd (5 / 3)
                          AcousWave.ex_cc_pos ex_globals AcousWave.ex_gridS))
                  0%Z 1%Z 2%Z) <= 1.3.
Proof.
  split; [exact ex_initialised|].
  exact (proj1 (X19_problem_wave ex_cfg_mhd (5 / 3) AcousWave.ex_cc_pos
                  ex_globals AcousWave.ex_gridS 0 1 2 ex_initialised)).
Defined.

Lemma jeans_unstable Gamma :
  Gamma <= 4 -> ~ Gamma * 1 * (2 * PI) * (2 * PI) / 1 - 300 * 1 > 0.
Proof.
  intros HG.
  pose proof PI_RGT_0 as Hp. pose proof PI_4 as Hp4.
  assert (H16 : 0 <= PI * PI <= 16) by nra.
  assert (H : Gamma * (PI * PI) <= 64) by nra.
  intros Hgt.
  replace (Gamma * 1 * (2 * PI) * (2 * PI) / 1 - 300 * 1)
    with (4 * (Gamma * (PI * PI)) - 300) in Hgt by field.
  lra.
Qed.

(** Extra X20.  With the four_pi_G = 300 that problem() itself stores, the
    test Gamma P0 k^2 / d0 - 4 pi G d0 > 0 fails for every Gamma up to 4
    (k = 2 pi): the function then never takes the branch of the propagating
    wave, but that of the Jeans-unstable mode, whose momenta go with the
    sine of the phase of the density and the frequency
    omega = sqrt (300 - Gamma (2 pi)^2). *)
Theorem X20_problem_is_jeans_unstable cfg Gamma cc_pos gl pGrid k j i :
  Gamma <= 4 ->
  AcousWave.initialised gl pGrid k j i = true ->
  let u := AcousWave.U (snd (AcousWave.problem cfg Gamma cc_pos gl pGrid))
                       k j i in
  let omega := sqrt (300 - Gamma * (2 * PI) * (2 * PI)) in
  AcousWave.omega_of Gamma = omega /\
  exists theta,
    Gas.d u = 1 + 0.3 * cos theta /\
    Gas.M1 u = - (0.3 * (2 * 0.4472136) * omega * sin theta / (2 * PI)) /\
    Gas.M2 u = - (0.3 * 0.4472136 * omega * sin theta / (2 * PI)).
Proof.
  intros HG Hin u omega.
  pose proof (jeans_unstable Gamma HG) as HJ.
  assert (Hom : AcousWave.omega_of Gamma = omega).
  { unfold AcousWave.omega_of. cbv zeta.
    destruct (Rgt_dec _ 0) as [Hgt|_]; [contradiction|].
    subst omega. f_equal. field. }
  split; [exact Hom|].
  pose proof (problem_written cfg Gamma cc_pos gl pGrid k j i Hin) as W.
  unfold AcousWave.written, AcousWave.at_cell in W.
  destruct W as (theta & Hd & HM1 & HM2 & _).
  fold u in Hd, HM1, HM2. exists theta.
  cbn [four_pi_G AcousWave.set_grav_mean_rho AcousWave.set_four_pi_G]
    in HM1, HM2.
  destruct (Rgt_dec _ 0) as [Hgt|_]; [contradiction|].
  rewrite Hom in HM1, HM2.
  assert (H03 : 0.3 = 3 / 10) by lra.
  split; [rewrite Hd; lra|].
  split.
  - rewrite HM1, dec_1e_3, dec_sintheta, H03. field. apply PI_neq0.
  - rewrite HM2, dec_1e_3, dec_sintheta, H03. field. apply PI_neq0.
Qed.

Lemma X20_witness :
  5 / 3 <= 4 /\
  AcousWave.initialised ex_globals AcousWave.ex_gridS 0 1 2 = true /\
  AcousWave.omega_of (5 / 3) = sqrt (300 - 5 / 3 * (2 * PI) * (2 * PI)).
Proof.
  assert (HG : 5 / 3 <= 4) by lra.
  split; [exact HG|]. split; [exact ex_initialised|].
  exact (proj1 (X20_problem_is_jeans_unstable ex_cfg_mhd (5 / 3)
                  AcousWave.ex_cc_pos ex_globals AcousWave.ex_gridS 0 1 2
                  HG ex_initialised)).
Defined.
